(** * Cadence runtime: resources, references, storage, host callbacks

    A shallow embedding of the parts of the Cadence interpreter, of the
    runtime and of the runtime's test interface that the specification
    describes, with the properties it states about them.

    - [Interpreter]: runtime/interpreter/value_accountreference.go and
      runtime/interpreter/value_account.go.
    - [TestRuntimeInterface]: the program cache of the test interface of
      runtime/runtime_test.go.
    - [Resources]: resource values, references, places, transfer, destroy
      and account storage, as sections 3 and 4 of the specification
      describe them and as the runtime tests exercise them.
    - [Runtime]: metering points, host callbacks and the classification of
      their failures at the top-level entry point.
    - [Scenarios], [Samples]: the programs of the runtime tests and concrete
      states. *)

From stdpp Require Import base option list strings gmap fin_maps.
From Stdlib Require Import ZArith Lia.

(** ** Panics

    Go code that panics is embedded as a function into [Result]: either the
    returned value or the value the panic carries. *)

Inductive Result (E A : Type) : Type :=
| Ok (a : A)
| Panic (e : E).
Arguments Ok {E A} a.
Arguments Panic {E A} e.

Definition bindR {E A B} (k : A -> Result E B) (r : Result E A) : Result E B :=
  match r with
  | Ok a => k a
  | Panic e => Panic e
  end.

#[global] Instance Result_ret {E} : MRet (Result E) := fun _ a => Ok a.
#[global] Instance Result_bind {E} : MBind (Result E) := fun _ _ k r => bindR k r.

Module Interpreter.

(** common.Address is [8]byte: read as a 64-bit big-endian number. *)
Definition Address := N.

(** common.PathDomain and its Identifier(). *)
Inductive PathDomain := PathDomainStorage | PathDomainPrivate | PathDomainPublic.

Definition PathDomain_Identifier (d : PathDomain) : string :=
  match d with
  | PathDomainStorage => "storage"
  | PathDomainPrivate => "private"
  | PathDomainPublic => "public"
  end.

Record PathValue := mkPathValue {
  Domain : PathDomain;
  Identifier : string;
}.

(** The source position a panic is attributed to. *)
Record LocationRange := mkLocationRange { startLine : nat; endLine : nat }.

(** atree.StorageID, atree.Address *)
Definition StorageID := N.

Section Values.

(** The static checker's types (package sema) and the interpreter's static
    types are declared outside the files embedded here: they are parameters. *)
Variable SemaType : Type.
Variable StaticType : Type.

(** [sema.Type.Equal]; the argument is a Go interface value, so it can be nil. *)
Variable sema_Equal : SemaType -> option SemaType -> bool.

(** the type assertion of [ty] to a pointer to [sema.ReferenceType]: does the interface hold a reference type? *)
Variable is_ReferenceType : SemaType -> bool.

(** Pointers to heap-allocated [AccountReferenceValue]s. *)
Definition Ptr := nat.

Record IDCapabilityValue := mkIDCapabilityValue {
  idcap_ID : N;
  idcap_Address : Address;
  idcap_BorrowType : option StaticType;
}.

Record PathCapabilityValue := mkPathCapabilityValue {
  pathcap_Address : Address;
  pathcap_Path : PathValue;
  pathcap_BorrowType : option StaticType;
}.

(** The variants of the [Value] interface these files distinguish; a
    value of kind AccountReferenceValue is a pointer to the struct. *)
Inductive Value :=
| VAccountReference (p : Ptr)
| VAddress (a : Address)
| VPath (p : PathValue)
| VIDCapability (c : IDCapabilityValue)
| VPathCapability (c : PathCapabilityValue)
| VSimpleComposite (typeID : string)
| VInt (n : Z).

(** type AccountReferenceValue struct *)
Record AccountReferenceValue := mkAccountReferenceValue {
  BorrowedType : option SemaType;
  _authAccount : option Value;
  Address_ : Address;
}.

(** The Go heap, as far as account references live in it. *)
Abbreviation Heap := (gmap nat AccountReferenceValue) (only parsing).

(** atree.Storable: only [NonStorable] is built here. *)
Inductive Storable :=
| NonStorable (v : Value)
| StorageIDStorable (id : StorageID).

(** The interpreter's own state and [Interpreter.RemoveReferencedSlab] are
    outside these files. *)
Variable InterpreterState : Type.
Variable RemoveReferencedSlab : InterpreterState -> Storable -> InterpreterState.

(** *** value_accountreference.go *)

(** func NewUnmeteredAccountReferenceValue: allocates a new struct. *)
Definition NewUnmeteredAccountReferenceValue
    (h : Heap) (address : Address) (borrowedType : option SemaType) : Ptr * Heap :=
  let p := fresh (dom h) in
  (p, <[p := {| BorrowedType := borrowedType;
                _authAccount := None;
                Address_ := address |}]> h).

(** func AccountReferenceValue.Equal *)
Definition Equal (h : Heap) (v : AccountReferenceValue) (other : Value) : bool :=
  match other with
  | VAccountReference q =>
      match h !! q with
      | Some otherReference =>
          if negb (N.eqb (Address_ v) (Address_ otherReference)) then false
          else
            match BorrowedType v with
            | None =>
                match BorrowedType otherReference with
                | None => true
                | Some _ => false
                end
            | Some t => sema_Equal t (BorrowedType otherReference)
            end
      | None => false
      end
  | _ => false
  end.

(** func AccountReferenceValue.IsStorable *)
Definition IsStorable (v : AccountReferenceValue) : bool := false.

(** func AccountReferenceValue.Storable: the storable and a nil error. *)
Definition Storable_ (p : Ptr) (address : Address) (maxInlineSize : N)
  : Storable * option string :=
  (NonStorable (VAccountReference p), None).

(** func AccountReferenceValue.NeedsStoreTo *)
Definition NeedsStoreTo (v : AccountReferenceValue) (address : Address) : bool := false.

(** func AccountReferenceValue.IsResourceKinded *)
Definition IsResourceKinded (v : AccountReferenceValue) : bool := false.

(** func AccountReferenceValue.Transfer *)
Definition Transfer (interpreter : InterpreterState) (h : Heap) (p : Ptr)
    (locationRange : LocationRange) (address : Address) (remove : bool)
    (storable : Storable) (preventTransfer : list StorageID)
  : Value * InterpreterState * Heap :=
  let interpreter' :=
    if remove then RemoveReferencedSlab interpreter storable else interpreter in
  (VAccountReference p, interpreter', h).

(** func AccountReferenceValue.Clone *)
Definition Clone (h : Heap) (v : AccountReferenceValue) : Ptr * Heap :=
  NewUnmeteredAccountReferenceValue h (Address_ v) (BorrowedType v).

(** func AccountReferenceValue.DeepRemove *)
Definition DeepRemove (interpreter : InterpreterState) (h : Heap) (p : Ptr)
  : InterpreterState * Heap :=
  (interpreter, h).

(** *** value_account.go *)

(** common.MemoryGauge and the declarations of the interpreter this file
    calls but does not contain. The constructors below only build the value:
    what they report to the gauge is not part of this file. *)
Variable MemoryGauge : Type.
Variable FunctionType : Type.
Variable PathValue_StaticType : InterpreterState -> PathValue -> StaticType.
Variable IsSubTypeOfSemaType : InterpreterState -> StaticType -> SemaType -> bool.
Variable MustConvertStaticToSemaType : InterpreterState -> StaticType -> SemaType.
Variable ConvertSemaToStaticType : InterpreterState -> SemaType -> StaticType.
Variable ReadStored : InterpreterState -> Address -> string -> string -> option Value.

(** The values the host function panics with. *)
Inductive Error :=
| UnreachableError
| IndexOutOfRange
| TypeMismatchError (ExpectedType ActualType : SemaType) (locationRange : LocationRange).

(** type Invocation struct; [TypeParameterTypes] is an ordered map from type
    parameters (by name) to types, oldest entry first. *)
Record Invocation := mkInvocation {
  Arguments : list Value;
  TypeParameterTypes : list (string * SemaType);
  Interpreter_ : InterpreterState;
  InvocationLocationRange : LocationRange;
}.

Record HostFunctionValue := mkHostFunctionValue {
  Type_ : FunctionType;
  Function : Invocation -> Result Error Value;
}.

Definition NewHostFunctionValue (gauge : MemoryGauge) (funcType : FunctionType)
    (function : Invocation -> Result Error Value) : HostFunctionValue :=
  {| Type_ := funcType; Function := function |}.

Definition NewIDCapabilityValue (gauge : MemoryGauge) (id : N)
    (address : Address) (borrowType : option StaticType) : Value :=
  VIDCapability {| idcap_ID := id;
                   idcap_Address := address;
                   idcap_BorrowType := borrowType |}.

Definition NewPathCapabilityValue (gauge : MemoryGauge) (address : Address)
    (path : PathValue) (borrowType : option StaticType) : Value :=
  VPathCapability {| pathcap_Address := address;
                     pathcap_Path := path;
                     pathcap_BorrowType := borrowType |}.

Definition StringStorageMapKey (identifier : string) : string := identifier.

(** [invocation.TypeParameterTypes.Oldest()] *)
Definition Oldest (m : list (string * SemaType)) : option (string * SemaType) :=
  head m.

(** func accountGetCapabilityFunction *)
Definition accountGetCapabilityFunction (gauge : MemoryGauge)
    (addressValue : Address) (pathType : SemaType) (funcType : FunctionType)
  : HostFunctionValue :=
  let address := addressValue in
  NewHostFunctionValue gauge funcType (fun invocation =>
    path ← match Arguments invocation with
           | [] => Panic IndexOutOfRange
           | VPath path :: _ => Ok path
           | _ :: _ => Panic UnreachableError
           end;
    let interpreter := Interpreter_ invocation in
    let pathStaticType := PathValue_StaticType interpreter path in
    if negb (IsSubTypeOfSemaType interpreter pathStaticType pathType) then
      let pathSemaType := MustConvertStaticToSemaType interpreter pathStaticType in
      Panic (TypeMismatchError pathType pathSemaType
               (InvocationLocationRange invocation))
    else
      (* NOTE: the type parameter is optional, for backwards compatibility *)
      let borrowType : option SemaType :=
        match Oldest (TypeParameterTypes invocation) with
        | Some typeParameterPair =>
            let ty := snd typeParameterPair in
            if is_ReferenceType ty then Some ty else None
        | None => None
        end in
      let borrowStaticType : option StaticType :=
        match borrowType with
        | Some borrowType => Some (ConvertSemaToStaticType interpreter borrowType)
        | None => None
        end in
      (* Read stored capability, if any *)
      let domain := PathDomain_Identifier (Domain path) in
      let identifier := Identifier path in
      let storageMapKey := StringStorageMapKey identifier in
      let readValue := ReadStored interpreter address domain storageMapKey in
      match readValue with
      | Some (VIDCapability capabilityValue) =>
          Ok (NewIDCapabilityValue gauge (idcap_ID capabilityValue)
                addressValue borrowStaticType)
      | _ =>
          Ok (NewPathCapabilityValue gauge addressValue path borrowStaticType)
      end).

End Values.

Arguments VAccountReference {StaticType}.
Arguments VAddress {StaticType}.
Arguments VPath {StaticType}.
Arguments VIDCapability {StaticType}.
Arguments VPathCapability {StaticType}.
Arguments VSimpleComposite {StaticType}.
Arguments VInt {StaticType}.
Arguments NonStorable {StaticType}.
Arguments StorageIDStorable {StaticType}.
Arguments mkIDCapabilityValue {StaticType}.
Arguments idcap_ID {StaticType}.
Arguments idcap_Address {StaticType}.
Arguments idcap_BorrowType {StaticType}.
Arguments mkPathCapabilityValue {StaticType}.
Arguments BorrowedType {SemaType StaticType}.
Arguments _authAccount {SemaType StaticType}.
Arguments Address_ {SemaType StaticType}.
Arguments mkAccountReferenceValue {SemaType StaticType}.
Arguments NewUnmeteredAccountReferenceValue {SemaType StaticType}.
Arguments Equal {SemaType StaticType}.
Arguments IsStorable {SemaType StaticType}.
Arguments Storable_ {StaticType}.
Arguments NeedsStoreTo {SemaType StaticType}.
Arguments IsResourceKinded {SemaType StaticType}.
Arguments Transfer {SemaType StaticType InterpreterState}.
Arguments Clone {SemaType StaticType}.
Arguments DeepRemove {SemaType StaticType InterpreterState}.
Arguments UnreachableError {SemaType}.
Arguments IndexOutOfRange {SemaType}.
Arguments TypeMismatchError {SemaType}.
Arguments Arguments {SemaType StaticType InterpreterState}.
Arguments TypeParameterTypes {SemaType StaticType InterpreterState}.
Arguments Interpreter_ {SemaType StaticType InterpreterState}.
Arguments InvocationLocationRange {SemaType StaticType InterpreterState}.
Arguments mkInvocation {SemaType StaticType InterpreterState}.
Arguments Function {SemaType StaticType InterpreterState FunctionType}.
Arguments Type_ {SemaType StaticType InterpreterState FunctionType}.
Arguments NewIDCapabilityValue {StaticType MemoryGauge}.
Arguments NewPathCapabilityValue {StaticType MemoryGauge}.
Arguments Oldest {SemaType}.
Arguments accountGetCapabilityFunction {SemaType StaticType} is_ReferenceType
  {InterpreterState MemoryGauge FunctionType}.

End Interpreter.

(** * The runtime interface of the tests (testRuntimeInterface)

    The host side of the program cache: [GetOrLoadProgram],
    [UpdateAccountContractCode] and the invalidation the test runtime runs
    when a top-level execution starts. *)

Module TestRuntimeInterface.

(** common.Location: the identifier of a unit of source code. *)
Inductive Location :=
| StringLocation (s : string)
| AddressLocation (address : N) (name : string)
| TransactionLocation (id : N)
| ScriptLocation (id : N).

#[global] Instance Location_eq_dec : EqDecision Location.
Proof. solve_decision. Defined.

Definition Location_encode (l : Location) : (string + N * string) + (N + N) :=
  match l with
  | StringLocation s => inl (inl s)
  | AddressLocation a n => inl (inr (a, n))
  | TransactionLocation i => inr (inl i)
  | ScriptLocation i => inr (inr i)
  end.

Definition Location_decode (x : (string + N * string) + (N + N)) : Location :=
  match x with
  | inl (inl s) => StringLocation s
  | inl (inr (a, n)) => AddressLocation a n
  | inr (inl i) => TransactionLocation i
  | inr (inr i) => ScriptLocation i
  end.

#[global] Instance Location_countable : Countable Location.
Proof.
  apply (inj_countable' Location_encode Location_decode).
  by intros [].
Defined.

(** A pointer to an interpreter.Program: nil, or the address of a program object. Two
    programs are the same object when their addresses are equal. *)
Definition ProgramPtr := nat.
Definition Program := option ProgramPtr.

Definition Code := list Byte.byte.

(** The fields of [testRuntimeInterface] the cache uses. A nil [programs]
    map reads as the empty map, and [GetOrLoadProgram] replaces it by an
    empty map before its only write. [accountCodes] is the map the
    [updateAccountContractCode] closures of the tests capture. *)
Record testRuntimeInterface := mkInterface {
  programs : gmap Location Program;
  updatedContractCode : bool;
  accountCodes : gmap Location Code;
}.

(** func() returning a program pointer and an error: the [load] closure, which
    may call back into the interface. *)
Definition LoadClosure :=
  testRuntimeInterface -> (Program * option string) * testRuntimeInterface.

(** func testRuntimeInterface.GetOrLoadProgram, for a nil
    [getAndSetProgram]. *)
Definition GetOrLoadProgram (i : testRuntimeInterface) (location : Location)
    (load : LoadClosure) : (Program * option string) * testRuntimeInterface :=
  match programs i !! location with
  | Some program => ((program, None), i)
  | None =>
      let '((program, err), i') := load i in
      (* NOTE: important: still set empty program, even if error occurred *)
      ((program, err),
       {| programs := <[location := program]> (programs i');
          updatedContractCode := updatedContractCode i';
          accountCodes := accountCodes i' |})
  end.

(** Modelled from the spec: the [load] closures are built by the runtime's
    program environment, which is not among the source files. Following
    section 4.5 a loader parses and checks the program of its location,
    resolving each import through [GetOrLoadProgram] again with a loader of
    its own, and returns the program or an error. *)
Inductive Loader :=
| MkLoader (imports : Imports) (program : Program) (err : option string)
with Imports :=
| NoImports
| ConsImport (location : Location) (load : Loader) (rest : Imports).

Fixpoint runLoader (load : Loader) (i : testRuntimeInterface) {struct load}
  : (Program * option string) * testRuntimeInterface :=
  match load with
  | MkLoader imports program err => ((program, err), runImports imports i)
  end
with runImports (imports : Imports) (i : testRuntimeInterface) {struct imports}
  : testRuntimeInterface :=
  match imports with
  | NoImports => i
  | ConsImport location ld rest =>
      runImports rest (snd (GetOrLoadProgram i location (runLoader ld)))
  end.

Scheme Loader_mut := Induction for Loader Sort Prop
  with Imports_mut := Induction for Imports Sort Prop.

(** The closure [updateAccountContractCode] of a test: nil, or a function
    on the captured [accountCodes] that may return an error. *)
Definition UpdateClosure :=
  Location -> Code -> gmap Location Code -> option string * gmap Location Code.

(** The closure the caching tests install. *)
Definition updateAccountContractCode_test : UpdateClosure :=
  fun location code accountCodes => (None, <[location := code]> accountCodes).

(** func testRuntimeInterface.UpdateAccountContractCode *)
Definition UpdateAccountContractCode (updateAccountContractCode : option UpdateClosure)
    (i : testRuntimeInterface) (location : Location) (code : Code)
  : Result string (option string * testRuntimeInterface) :=
  match updateAccountContractCode with
  | None => Panic "must specify testRuntimeInterface.updateAccountContractCode"
  | Some f =>
      let '(err, codes) := f location code (accountCodes i) in
      match err with
      | Some e =>
          Ok (Some e, {| programs := programs i;
                         updatedContractCode := updatedContractCode i;
                         accountCodes := codes |})
      | None =>
          Ok (None, {| programs := programs i;
                       updatedContractCode := true;
                       accountCodes := codes |})
      end
  end.

(** The closure [getAccountContractCode] the caching tests install: the
    entry of the captured [accountCodes], nil when there is none. *)
Definition getAccountContractCode_test (accountCodes : gmap Location Code)
    (location : Location) : Code * option string :=
  (default ([] : Code) (accountCodes !! location), None).

(** func testRuntimeInterface.GetAccountContractCode *)
Definition GetAccountContractCode
    (getAccountContractCode :
       option (gmap Location Code -> Location -> Code * option string))
    (i : testRuntimeInterface) (location : Location)
  : Result string (Code * option string) :=
  match getAccountContractCode with
  | None => Panic "must specify testRuntimeInterface.getAccountContractCode"
  | Some f => Ok (f (accountCodes i) location)
  end.

(** Modelled from the spec: the loader the runtime hands to
    [GetOrLoadProgram] for a contract is not among the source files.
    Following sections 4.5 and 6 it gets the code of the location from the
    interface, parses and checks it, and returns the program or the error.
    [parse] stands for the parser and checker. *)
Definition contractLoader (parse : Code -> Program * option string)
    (location : Location) : LoadClosure :=
  fun i =>
    match GetAccountContractCode (Some getAccountContractCode_test) i location with
    | Ok (code, None) => (parse code, i)
    | Ok (_, Some err) => ((None, Some err), i)
    | Panic err => ((None, Some err), i)
    end.

(** func testRuntimeInterface.invalidateUpdatedPrograms *)
Definition invalidateUpdatedPrograms (i : testRuntimeInterface) : testRuntimeInterface :=
  if updatedContractCode i then
    {| programs := ∅;
       updatedContractCode := false;
       accountCodes := accountCodes i |}
  else i.

(** func testRuntimeInterface.onTransactionExecutionStart / onScriptExecutionStart *)
Definition onTransactionExecutionStart := invalidateUpdatedPrograms.
Definition onScriptExecutionStart := invalidateUpdatedPrograms.

(** What an execution does to the interface between two top-level entries:
    a sequence of calls, each a program load or a contract-code update. *)
Inductive Call :=
| CallGetOrLoadProgram (location : Location) (load : Loader)
| CallUpdateAccountContractCode (location : Location) (code : Code).

Definition runCall (upd : option UpdateClosure) (c : Call) (i : testRuntimeInterface)
  : Result string testRuntimeInterface :=
  match c with
  | CallGetOrLoadProgram location load =>
      Ok (snd (GetOrLoadProgram i location (runLoader load)))
  | CallUpdateAccountContractCode location code =>
      r ← UpdateAccountContractCode upd i location code; Ok (snd r)
  end.

Definition isLoad (c : Call) : bool :=
  match c with
  | CallGetOrLoadProgram _ _ => true
  | CallUpdateAccountContractCode _ _ => false
  end.

Fixpoint runCalls (upd : option UpdateClosure) (cs : list Call) (i : testRuntimeInterface)
  : Result string testRuntimeInterface :=
  match cs with
  | [] => Ok i
  | c :: rest => i' ← runCall upd c i; runCalls upd rest i'
  end.

(** The closure [getAndSetProgram] of TestRuntimeProgramSetAndGet, over the
    two maps it captures: [programs] and [programsHits]. *)
Record SetAndGetState := mkSetAndGet {
  sg_programs : gmap Location Program;
  sg_programsHits : gmap Location bool;
}.

Definition getAndSetProgram (st : SetAndGetState) (location : Location)
    (load : SetAndGetState -> (Program * option string) * SetAndGetState)
  : (Program * option string) * SetAndGetState :=
  let ok := bool_decide (is_Some (sg_programs st !! location)) in
  let st1 := {| sg_programs := sg_programs st;
                sg_programsHits := <[location := ok]> (sg_programsHits st) |} in
  match sg_programs st !! location with
  | Some program => ((program, None), st1)
  | None =>
      let '((program, err), st2) := load st1 in
      ((program, err),
       {| sg_programs := <[location := program]> (sg_programs st2);
          sg_programsHits := sg_programsHits st2 |})
  end.

End TestRuntimeInterface.

(** * Resource values, bindings, references and account storage

    Modelled from the spec: the interpreter's value model, its
    resource-safety tracker, reference resolution and account storage
    (sections 3, 4.1 to 4.4 of the specification) are code of the
    interpreter that is not under src/; only tests that run Cadence
    programs against them are. The definitions below follow the words of
    those sections: a use of a binding in a terminal state fails with an
    invalidated-resource or a destroyed-resource error (section 4.2), an
    access through a reference whose target is no longer valid with an
    invalidated-resource-reference error (section 4.3), and the move of a
    container into itself with a recursive-transfer error (section 4.1).

    Values live in an arena of objects addressed by stable integer IDs
    (section 9). A resource-kinded value is held through a handle: the ID of
    its object and the version of the object at the time the handle was
    written. Moving the value writes a handle with the next version at the
    destination and leaves the old handle in the source binding, which is
    how a binding, or a reference taken before the move, is invalidated. *)

Module Resources.

Definition ObjId := nat.

(** A field name or the decimal index of an element. *)
Definition Key := string.

Record Handle := mkHandle { h_obj : ObjId; h_version : nat }.

#[global] Instance Handle_eq_dec : EqDecision Handle.
Proof. solve_decision. Defined.

Inductive Val :=
| VNil
| VInt (z : Z)
| VRes (h : Handle)
| VRef (h : Handle).

Record Obj := mkObj {
  o_type : string;
  o_fields : gmap Key Val;
  o_version : nat;
  o_destroyed : bool;
}.

(** The user errors of section 7 that this part of the engine raises. *)
Inductive Error :=
| InvalidatedResourceError
| DestroyedResourceError
| InvalidatedResourceReferenceError
| RecursiveTransferError
| ResourceLossError
| TypeMismatchError
| MissingMemberError
| CallStackLimitExceededError.

(** What a host can observe: a destructor that ran, a logged number. *)
Inductive Event :=
| EvDestructor (o : ObjId)
| EvLog (z : Z).

(** A binding: a variable, a field or element of an object, or a path of
    an account's storage. *)
Inductive Slot :=
| SVar (x : string)
| SField (o : ObjId) (k : Key)
| SStorage (address : N) (path : string).

#[global] Instance Slot_eq_dec : EqDecision Slot.
Proof. solve_decision. Defined.

Record State := mkState {
  heap : gmap ObjId Obj;
  vars : gmap string Val;
  self : option ObjId;
  storage : gmap (N * string) Val;
  log : list Event;
}.

Definition empty_state : State := mkState ∅ ∅ None ∅ [].

(** ** Liveness of a handle (section 4.2) *)

Inductive Liveness := Live | Moved | Destroyed.

Definition liveness (s : State) (h : Handle) : Liveness :=
  match heap s !! h_obj h with
  | None => Moved
  | Some ob =>
      if negb (Nat.eqb (h_version h) (o_version ob)) then Moved
      else if o_destroyed ob then Destroyed
      else Live
  end.

(** Use of a resource through the binding that holds it. *)
Definition check_owned (s : State) (h : Handle) : Result Error unit :=
  match liveness s h with
  | Live => Ok tt
  | Moved => Panic InvalidatedResourceError
  | Destroyed => Panic DestroyedResourceError
  end.

(** Use of a resource through a reference: the liveness check of every
    access (section 4.3). Once the target is not valid any more, moved or
    destroyed, resolution fails with the invalidated-resource-reference
    error. *)
Definition check_ref (s : State) (h : Handle) : Result Error unit :=
  match liveness s h with
  | Live => Ok tt
  | Moved | Destroyed => Panic InvalidatedResourceReferenceError
  end.

Definition as_live_res (s : State) (v : Val) : Result Error Handle :=
  match v with
  | VRes h => check_owned s h;; Ok h
  | _ => Panic TypeMismatchError
  end.

(** The object a member or index access goes into. *)
Definition container_of (s : State) (v : Val) : Result Error ObjId :=
  match v with
  | VRes h => check_owned s h;; Ok (h_obj h)
  | VRef h => check_ref s h;; Ok (h_obj h)
  | _ => Panic TypeMismatchError
  end.

(** ** Slots *)

Definition slot_get (s : State) (slot : Slot) : option Val :=
  match slot with
  | SVar x => vars s !! x
  | SField o k => ob ← heap s !! o; o_fields ob !! k
  | SStorage a p => storage s !! (a, p)
  end.

Definition set_field (k : Key) (v : Val) (ob : Obj) : Obj :=
  mkObj (o_type ob) (<[k := v]> (o_fields ob)) (o_version ob) (o_destroyed ob).

Definition slot_set (slot : Slot) (v : Val) (s : State) : State :=
  match slot with
  | SVar x => mkState (heap s) (<[x := v]> (vars s)) (self s) (storage s) (log s)
  | SField o k =>
      mkState (alter (set_field k v) o (heap s)) (vars s) (self s) (storage s) (log s)
  | SStorage a p =>
      mkState (heap s) (vars s) (self s) (<[(a, p) := v]> (storage s)) (log s)
  end.

Definition storage_delete (a : N) (p : string) (s : State) : State :=
  mkState (heap s) (vars s) (self s) (delete (a, p) (storage s)) (log s).

Definition set_self (o : option ObjId) (s : State) : State :=
  mkState (heap s) (vars s) o (storage s) (log s).

Definition add_log (e : Event) (s : State) : State :=
  mkState (heap s) (vars s) (self s) (storage s) (log s ++ [e]).

(** The move of an object: its version advances, every handle written
    before becomes stale. *)
Definition bump_version (ob : Obj) : Obj :=
  mkObj (o_type ob) (o_fields ob) (S (o_version ob)) (o_destroyed ob).

Definition bump (o : ObjId) (s : State) : State :=
  mkState (alter bump_version o (heap s)) (vars s) (self s) (storage s) (log s).

Definition moved_handle (h : Handle) : Handle :=
  mkHandle (h_obj h) (S (h_version h)).

Definition set_destroyed (ob : Obj) : Obj :=
  mkObj (o_type ob) (o_fields ob) (o_version ob) true.

(** Marking an instance destroyed; the run of its destructor is the side
    effect recorded with it. *)
Definition mark_destroyed (o : ObjId) (s : State) : State :=
  mkState (alter set_destroyed o (heap s)) (vars s) (self s) (storage s)
          (log s ++ [EvDestructor o]).

Definition alloc (ty : string) (fields : list (Key * Z)) (s : State) : ObjId * State :=
  let o := fresh (dom (heap s)) in
  let ob := mkObj ty (list_to_map (prod_map id VInt <$> fields)) 0 false in
  (o, mkState (<[o := ob]> (heap s)) (vars s) (self s) (storage s) (log s)).

(** ** Places

    A place is a root, a variable or [self], followed by the fields and
    elements to go through. Resolving it yields the binding it denotes and
    the chain of containers passed on the way, outermost first. *)

Inductive Root := RVar (x : string) | RSelf.

Definition Place : Type := Root * list Key.

Fixpoint walk (s : State) (o : ObjId) (k : Key) (rest : list Key)
  : Result Error (list ObjId * Slot) :=
  match rest with
  | [] => Ok ([o], SField o k)
  | k' :: rest' =>
      match slot_get s (SField o k) with
      | None => Panic MissingMemberError
      | Some v =>
          o' ← container_of s v;
          r ← walk s o' k' rest';
          Ok (o :: fst r, snd r)
      end
  end.

Definition resolve (s : State) (pl : Place) : Result Error (list ObjId * Slot) :=
  match pl with
  | (RVar x, []) => Ok ([], SVar x)
  | (RVar x, k :: rest) =>
      match vars s !! x with
      | None => Panic MissingMemberError
      | Some v => o ← container_of s v; walk s o k rest
      end
  | (RSelf, []) => Panic TypeMismatchError
  | (RSelf, k :: rest) =>
      match self s with
      | None => Panic MissingMemberError
      | Some o =>
          match heap s !! o with
          | None => Panic MissingMemberError
          | Some _ => walk s o k rest
          end
      end
  end.

(** Going further along a path: first to the binding the prefix denotes,
    then into the container it holds. *)
Definition continue_walk (s : State) (k : Key) (q : list Key) (r : list ObjId * Slot)
  : Result Error (list ObjId * Slot) :=
  match slot_get s (snd r) with
  | None => Panic MissingMemberError
  | Some v =>
      o' ← container_of s v;
      r' ← walk s o' k q;
      Ok (fst r ++ fst r', snd r')
  end.

Definition read_place (s : State) (pl : Place) : Result Error Val :=
  match pl with
  | (RSelf, []) =>
      match self s with
      | None => Panic MissingMemberError
      | Some o =>
          match heap s !! o with
          | None => Panic MissingMemberError
          | Some ob => Ok (VRef (mkHandle o (o_version ob)))
          end
      end
  | _ =>
      r ← resolve s pl;
      match slot_get s (snd r) with
      | None => Panic MissingMemberError
      | Some v => Ok v
      end
  end.

(** What a binding may hold when it is written: anything but a resource.
    A binding whose resource was moved out or destroyed stays unusable. *)
Definition writable (s : State) (old : option Val) : Result Error unit :=
  match old with
  | Some (VRes h) =>
      match liveness s h with
      | Live => Panic ResourceLossError
      | Moved => Panic InvalidatedResourceError
      | Destroyed => Panic DestroyedResourceError
      end
  | _ => Ok tt
  end.

(** ** Statements *)

Inductive Cmd :=
| CCreate (x : string) (ty : string) (fields : list (Key * Z))
| CMove (src dst : Place)
| CSwap (a b : Place)
| CDestroy (src : Place)
| CRef (x : string) (src : Place)
| CGet (x : string) (src : Place)
| CSet (dst : Place) (z : Z)
| CLog (src : Place)
| CSave (src : Place) (address : N) (path : string)
| CLoad (x : string) (ty : string) (address : N) (path : string).

(** Every statement but [destroy]: all checks come before the first
    change of the state. *)
Definition exec_prim (c : Cmd) (s : State) : Result Error State :=
  match c with
  | CCreate x ty fields =>
      writable s (vars s !! x);;
      let '(o, s1) := alloc ty fields s in
      Ok (slot_set (SVar x) (VRes (mkHandle o 0)) s1)
  | CMove src dst =>
      v ← read_place s src;
      h ← as_live_res s v;
      r ← resolve s dst;
      if bool_decide (h_obj h ∈ fst r) then Panic RecursiveTransferError
      else
        writable s (slot_get s (snd r));;
        Ok (slot_set (snd r) (VRes (moved_handle h)) (bump (h_obj h) s))
  | CSwap a b =>
      va ← read_place s a;
      ha ← as_live_res s va;
      vb ← read_place s b;
      hb ← as_live_res s vb;
      ra ← resolve s a;
      rb ← resolve s b;
      if bool_decide (h_obj ha ∈ fst rb) || bool_decide (h_obj hb ∈ fst ra)
      then Panic RecursiveTransferError
      else if bool_decide (h_obj ha = h_obj hb) then Ok s
      else
        Ok (slot_set (snd ra) (VRes (moved_handle hb))
              (slot_set (snd rb) (VRes (moved_handle ha))
                 (bump (h_obj ha) (bump (h_obj hb) s))))
  | CDestroy src => Panic TypeMismatchError
  | CRef x src =>
      v ← read_place s src;
      h ← match v with
          | VRes h => check_owned s h;; Ok h
          | VRef h => check_ref s h;; Ok h
          | _ => Panic TypeMismatchError
          end;
      writable s (vars s !! x);;
      Ok (slot_set (SVar x) (VRef h) s)
  | CGet x src =>
      v ← read_place s src;
      match v with
      | VRes h => check_owned s h;; Panic TypeMismatchError
      | _ =>
          writable s (vars s !! x);;
          Ok (slot_set (SVar x) v s)
      end
  | CSet dst z =>
      r ← resolve s dst;
      writable s (slot_get s (snd r));;
      Ok (slot_set (snd r) (VInt z) s)
  | CLog src =>
      v ← read_place s src;
      match v with
      | VInt z => Ok (add_log (EvLog z) s)
      | VRes h => check_owned s h;; Panic TypeMismatchError
      | _ => Panic TypeMismatchError
      end
  | CSave src a p =>
      v ← read_place s src;
      h ← as_live_res s v;
      writable s (slot_get s (SStorage a p));;
      Ok (slot_set (SStorage a p) (VRes (moved_handle h)) (bump (h_obj h) s))
  | CLoad x ty a p =>
      writable s (vars s !! x);;
      match slot_get s (SStorage a p) with
      | None => Ok (slot_set (SVar x) VNil s)
      | Some v =>
          h ← as_live_res s v;
          match heap s !! h_obj h with
          | None => Panic MissingMemberError
          | Some ob =>
              if bool_decide (o_type ob = ty) then
                Ok (slot_set (SVar x) (VRes (moved_handle h))
                      (storage_delete a p (bump (h_obj h) s)))
              else Panic TypeMismatchError
          end
      end
  end.

(** [uses pl c]: the statement [c] accesses the place [pl] first: it reads
    it, writes it, takes a reference to it, or transfers, destroys or saves
    what it holds. *)
Inductive uses (pl : Place) : Cmd -> Prop :=
| uses_get x : uses pl (CGet x pl)
| uses_log : uses pl (CLog pl)
| uses_set z : uses pl (CSet pl z)
| uses_ref x : uses pl (CRef x pl)
| uses_move dst : uses pl (CMove pl dst)
| uses_swap b : uses pl (CSwap pl b)
| uses_destroy : uses pl (CDestroy pl)
| uses_save a p : uses pl (CSave pl a p).

(** A member or element of what the place holds, at any depth. *)
Definition member_of (pl : Place) (k : Key) (path : list Key) : Place :=
  (fst pl, snd pl ++ k :: path).

(** The state an execution ends in, and the error it failed with, if any. *)
Definition Outcome : Type := State * option Error.

Definition outcome_of (s : State) (r : Result Error State) : Outcome :=
  match r with
  | Ok s' => (s', None)
  | Panic e => (s, Some e)
  end.

(** The resource-kinded values an object owns. *)
Definition children (ob : Obj) : list Handle :=
  omap (fun kv => match snd kv with VRes h => Some h | _ => None end)
       (map_to_list (o_fields ob)).

Section Exec.

(** The declarations of the program: the destructor of every type. *)
Variable destructors : string -> list Cmd.

(** [D] destroys an object; it is the recursive call, one call-stack frame
    further down. *)
Variable D : ObjId -> State -> Outcome.

Definition exec_cmd (c : Cmd) (s : State) : Outcome :=
  match c with
  | CDestroy src =>
      match read_place s src with
      | Panic e => (s, Some e)
      | Ok VNil => (s, None)
      | Ok (VRes h) =>
          match check_owned s h with
          | Panic e => (s, Some e)
          | Ok _ => D (h_obj h) s
          end
      | Ok _ => (s, Some TypeMismatchError)
      end
  | _ => outcome_of s (exec_prim c s)
  end.

Fixpoint exec_list (prog : list Cmd) (s : State) : Outcome :=
  match prog with
  | [] => (s, None)
  | c :: rest =>
      match exec_cmd c s with
      | (s', None) => exec_list rest s'
      | (s', Some e) => (s', Some e)
      end
  end.

Fixpoint destroy_children (l : list Handle) (s : State) : Outcome :=
  match l with
  | [] => (s, None)
  | h :: rest =>
      match liveness s h with
      | Live =>
          match D (h_obj h) s with
          | (s', None) => destroy_children rest s'
          | (s', Some e) => (s', Some e)
          end
      | _ => destroy_children rest s
      end
  end.

(** Destroying an instance (section 4.2): a second destroy is rejected;
    the instance is marked destroyed first; then its destructor runs with
    [self] bound to it; then the resources it still owns are destroyed. *)
Definition destroy_step (o : ObjId) (s : State) : Outcome :=
  match heap s !! o with
  | None => (s, Some MissingMemberError)
  | Some ob =>
      if o_destroyed ob then (s, Some DestroyedResourceError)
      else
        let s1 := mark_destroyed o s in
        let saved := self s in
        match exec_list (destructors (o_type ob)) (set_self (Some o) s1) with
        | (s2, Some e) => (set_self saved s2, Some e)
        | (s2, None) =>
            let s3 := set_self saved s2 in
            match heap s3 !! o with
            | None => (s3, None)
            | Some ob' => destroy_children (children ob') s3
            end
        end
  end.

End Exec.

(** The call stack is bounded (section 5): [depth] frames of nested
    destruction are available. *)
Fixpoint destroy_obj (destructors : string -> list Cmd) (depth : nat)
    (o : ObjId) (s : State) : Outcome :=
  match depth with
  | 0 => (s, Some CallStackLimitExceededError)
  | S depth' => destroy_step destructors (destroy_obj destructors depth') o s
  end.

Definition run (destructors : string -> list Cmd) (depth : nat)
    (prog : list Cmd) (s : State) : Outcome :=
  exec_list (destroy_obj destructors depth) prog s.

(** A new top-level execution: bindings are gone, the arena and account
    storage stay. *)
Definition begin_execution (s : State) : State :=
  mkState (heap s) ∅ None (storage s) (log s).

(** The destructor runs recorded in the log. *)
Definition destructor_runs (l : list Event) : list ObjId :=
  omap (fun e => match e with EvDestructor o => Some o | _ => None end) l.

(** ** The states of a binding's resource, as propositions *)

(** The object of the handle has been moved since the handle was written. *)
Definition moved (s : State) (h : Handle) : Prop :=
  exists ob, heap s !! h_obj h = Some ob /\ h_version h < o_version ob.

(** The handle is current and its object has been destroyed. *)
Definition destroyed (s : State) (h : Handle) : Prop :=
  exists ob, heap s !! h_obj h = Some ob
             /\ h_version h = o_version ob /\ o_destroyed ob = true.

(** Objects only move forward: the type stays, the version grows, a
    destroyed object stays destroyed and is not moved any more. *)
Definition obj_le (ob ob' : Obj) : Prop :=
  o_type ob' = o_type ob
  /\ o_version ob <= o_version ob'
  /\ (o_destroyed ob = true ->
      o_destroyed ob' = true /\ o_version ob' = o_version ob).

(** The objects of [s] persist in [s'] and have moved forward. *)
Definition heap_le (s s' : State) : Prop :=
  forall o ob, heap s !! o = Some ob ->
    exists ob', heap s' !! o = Some ob' /\ obj_le ob ob'.

(** [state_le s s']: [s'] can come after [s]. Objects persist and move
    forward, and a binding whose resource was moved out or destroyed keeps
    holding the dead handle. *)
Record state_le (s s' : State) : Prop := mk_state_le {
  le_heap : heap_le s s';
  le_slots : forall slot h, slot_get s slot = Some (VRes h) ->
             moved s h \/ destroyed s h ->
             slot_get s' slot = Some (VRes h);
}.

(** Every destructor run in the log is the run of another instance, and
    that instance is marked destroyed. *)
Definition log_ok (s : State) : Prop :=
  NoDup (destructor_runs (log s))
  /\ forall o, o ∈ destructor_runs (log s) ->
       exists ob, heap s !! o = Some ob /\ o_destroyed ob = true.

(** What is expected of the recursive call of [destroy_step]. *)
Definition good (D : ObjId -> State -> Outcome) : Prop :=
  forall o s s' r, D o s = (s', r) ->
    state_le s s' /\ (log_ok s -> log_ok s').

(** The instance [o] is marked destroyed. *)
Definition marked (s : State) (o : ObjId) : Prop :=
  exists ob, heap s !! o = Some ob /\ o_destroyed ob = true.

(** A destroyer that refuses to run unless the instance [o] is already
    marked destroyed. *)
Definition only_when_marked (o : ObjId) (D : ObjId -> State -> Outcome)
  : ObjId -> State -> Outcome :=
  fun o' s =>
    match heap s !! o with
    | Some ob => if o_destroyed ob then D o' s else (s, Some MissingMemberError)
    | None => (s, Some MissingMemberError)
    end.

(** The statement [c] takes the resource of the handle [h] out of a
    binding of [s]: it destroys it, or moves it into another binding or
    into account storage. *)
Definition moves_or_destroys (s : State) (h : Handle) (c : Cmd) : Prop :=
  exists src,
    read_place s src = Ok (VRes h)
    /\ (c = CDestroy src
        \/ (exists dst, c = CMove src dst)
        \/ (exists address path, c = CSave src address path)).

(** ** What happens while an instance is being destroyed *)

(** [runs_at D prog s0 c s]: the execution of [prog] from [s0] gets to the
    statement [c], in the state [s]. *)
Inductive runs_at (D : ObjId -> State -> Outcome)
  : list Cmd -> State -> Cmd -> State -> Prop :=
| runs_first c rest s : runs_at D (c :: rest) s c s
| runs_later c rest s s1 c' s' :
    exec_cmd D c s = (s1, None) ->
    runs_at D rest s1 c' s' ->
    runs_at D (c :: rest) s c' s'.

(** [destroys_at D l s0 o s]: the destruction of the owned resources [l]
    from [s0] gets to the destroy of the instance [o], in the state [s]. *)
Inductive destroys_at (D : ObjId -> State -> Outcome)
  : list Handle -> State -> ObjId -> State -> Prop :=
| destroys_first h rest s :
    liveness s h = Live -> destroys_at D (h :: rest) s (h_obj h) s
| destroys_later h rest s s1 o s' :
    liveness s h = Live ->
    D (h_obj h) s = (s1, None) ->
    destroys_at D rest s1 o s' ->
    destroys_at D (h :: rest) s o s'
| destroys_skip h rest s o s' :
    liveness s h <> Live ->
    destroys_at D rest s o s' ->
    destroys_at D (h :: rest) s o s'.

(** [during destructors depth o s c s']: while the destroy of the instance
    [o], started in the state [s] with [depth] frames, is executing, the
    statement [c] is reached in the state [s']: a statement of the
    destructor of [o], or, at any depth of nesting, a statement of the
    destructor of an instance that a destroy statement of the destructor,
    or the destruction of the fields that follows it, destroys. *)
Inductive during (destructors : string -> list Cmd)
  : nat -> ObjId -> State -> Cmd -> State -> Prop :=
| during_destructor depth o s ob c s' :
    heap s !! o = Some ob ->
    o_destroyed ob = false ->
    runs_at (destroy_obj destructors depth) (destructors (o_type ob))
      (set_self (Some o) (mark_destroyed o s)) c s' ->
    during destructors (S depth) o s c s'
| during_nested depth o s ob src s1 h c s' :
    heap s !! o = Some ob ->
    o_destroyed ob = false ->
    runs_at (destroy_obj destructors depth) (destructors (o_type ob))
      (set_self (Some o) (mark_destroyed o s)) (CDestroy src) s1 ->
    read_place s1 src = Ok (VRes h) ->
    check_owned s1 h = Ok tt ->
    during destructors depth (h_obj h) s1 c s' ->
    during destructors (S depth) o s c s'
| during_field depth o s ob s2 ob' o' s1 c s' :
    heap s !! o = Some ob ->
    o_destroyed ob = false ->
    exec_list (destroy_obj destructors depth) (destructors (o_type ob))
      (set_self (Some o) (mark_destroyed o s)) = (s2, None) ->
    heap (set_self (self s) s2) !! o = Some ob' ->
    destroys_at (destroy_obj destructors depth) (children ob')
      (set_self (self s) s2) o' s1 ->
    during destructors depth o' s1 c s' ->
    during destructors (S depth) o s c s'.

(** The value moved out of [h]'s binding is usable in the binding [slot]:
    the binding holds a live handle of the same object, which has the type
    and the fields it had. *)
Definition usable_at (s s1 : State) (h : Handle) (slot : Slot) : Prop :=
  slot_get s1 slot = Some (VRes (moved_handle h))
  /\ liveness s1 (moved_handle h) = Live
  /\ forall ob, heap s !! h_obj h = Some ob ->
                heap s1 !! h_obj h = Some (bump_version ob).

(** The binding [rs], which the place [src] denoted, is dead from [s1] on:
    after any execution it still holds the handle [h], whose object has
    moved on, and every statement that uses a place denoting the binding,
    or a member of it, fails with an invalidated-resource error and changes
    nothing. A variable always denotes its own binding. *)
Definition dead_binding (destructors : string -> list Cmd) (s1 : State)
    (src : Place) (rs : list ObjId * Slot) (h : Handle) : Prop :=
  forall depth prog s2 r,
    run destructors depth prog s1 = (s2, r) ->
    slot_get s2 (snd rs) = Some (VRes h)
    /\ moved s2 h
    /\ (forall x, src = (RVar x, []) -> resolve s2 src = Ok rs)
    /\ forall pl rp D' c,
         resolve s2 pl = Ok rp -> snd rp = snd rs ->
         (uses pl c \/ exists k path, uses (member_of pl k path) c) ->
         exec_cmd D' c s2 = (s2, Some InvalidatedResourceError).

End Resources.

(** * Errors at the host boundary, and computation metering

    Modelled from the spec: the top-level entry points of the runtime, the
    recovery and classification of panics (section 7) and the metering
    points of the evaluator (sections 5 and 6) are not among the source
    files; only tests that run programs through them are. The definitions
    below follow the words of those sections: a panic is classified at the
    entry point by its origin, an error a metering callback returns aborts
    the execution as an external error, and the metering points are the
    loop iterations, the function invocations, the allocations and the
    encodings. The callback [meterComputationFunc] is the one of
    TestRuntimeComputationMetring. *)

Module Runtime.

(** What a panic carries when it is recovered: an error value, or a value
    that is not an error. *)
Inductive Recovered :=
| RError (err : string)
| RNonError (value : string).

(** The inner error of a runtime Error, of one of the three kinds of
    section 7. An external error wraps what the collaborator failed with,
    and keeps a value that is not an error apart, in a wrapper of its
    own. *)
Inductive Err :=
| UserError (msg : string)
| InternalError (recovered : Recovered)
| ExternalError (err : string)
| ExternalNonError (value : string).

Inductive Kind := KUser | KInternal | KExternal.

Definition kind_of (e : Err) : Kind :=
  match e with
  | UserError _ => KUser
  | InternalError _ => KInternal
  | ExternalError _ | ExternalNonError _ => KExternal
  end.

(** A panic, by its origin: raised by the engine with one of its own error
    types; raised inside a callback of a collaborator; or anything else. *)
Inductive PanicValue :=
| EnginePanic (e : Err)
| CollaboratorPanic (r : Recovered)
| OtherPanic (r : Recovered).

(** The recovery at the top-level entry point (section 7): an error of an
    engine type passes through; a panic of a collaborator callback is
    wrapped as external; anything else is wrapped as internal. *)
Definition classify (p : PanicValue) : Err :=
  match p with
  | EnginePanic e => e
  | CollaboratorPanic (RError err) => ExternalError err
  | CollaboratorPanic (RNonError value) => ExternalNonError value
  | OtherPanic r => InternalError r
  end.

(** ** The host's callbacks *)

Inductive CallbackResult (A : Type) :=
| Returns (a : A)
| Panics (r : Recovered).
Arguments Returns {A} a.
Arguments Panics {A} r.

(** The kinds of metering points of sections 5 and 6. *)
Inductive ComputationKind :=
| ComputationKindLoop
| ComputationKindFunctionInvocation
| ComputationKindAllocation
| ComputationKindEncoding.

(** The callbacks are closures over a state [H] of the host. The meter
    returns an error or nil. *)
Record Interface (H : Type) := mkInterface {
  meterComputation : ComputationKind -> nat -> H -> CallbackResult (option string) * H;
  log : string -> H -> CallbackResult unit * H;
}.
Arguments meterComputation {H} i.
Arguments log {H} i.
Arguments mkInterface {H}.

(** ** A small statement language with the metering points *)

Inductive Expr :=
| EConst (z : Z)
| EVar (x : string)
| EAdd (a b : Expr)
| ELt (a b : Expr).

Inductive Stmt :=
| SAssign (x : string) (e : Expr)
| SCondition (cond : Expr)
| SWhile (cond : Expr) (body : list Stmt)
| SForIn (elements : list Z) (body : list Stmt)
| SInvoke (body : list Stmt)
| SSave (encodedSize : nat)
| SLog (msg : string).

Fixpoint eval (vars : gmap string Z) (e : Expr) : Z :=
  match e with
  | EConst z => z
  | EVar x => default 0%Z (vars !! x)
  | EAdd a b => (eval vars a + eval vars b)%Z
  | ELt a b => if (eval vars a <? eval vars b)%Z then 1%Z else 0%Z
  end.

(** What the evaluator does at a metering point: one iteration of a loop,
    one function invocation, the allocation of an array of so many
    elements, the encoding of a value in so many bytes. *)
Inductive Point :=
| PLoop
| PFunctionInvocation
| PAllocation (elements : nat)
| PEncoding (size : nat).

Definition point_kind (p : Point) : ComputationKind :=
  match p with
  | PLoop => ComputationKindLoop
  | PFunctionInvocation => ComputationKindFunctionInvocation
  | PAllocation _ => ComputationKindAllocation
  | PEncoding _ => ComputationKindEncoding
  end.

(** A call of a callback, and how it ended. *)
Inductive Callback :=
| CallMeterComputation (kind : ComputationKind) (intensity : nat)
| CallLog (msg : string).

Inductive CallResult :=
| Returned (err : option string)
| Panicked (r : Recovered).

(** What an execution goes through: the calls of callbacks, and the
    metering points it passes. *)
Inductive Event :=
| ECall (c : Callback) (r : CallResult)
| EPoint (p : Point).

(** The panic a call of a callback ends the execution with: an error it
    returned aborts the execution as an external error (section 6); a
    panic of the callback is a panic of a collaborator. *)
Definition failure_of (r : CallResult) : option PanicValue :=
  match r with
  | Returned None => None
  | Returned (Some err) => Some (EnginePanic (ExternalError err))
  | Panicked v => Some (CollaboratorPanic v)
  end.

Definition result_of {A : Type} (err : A -> option string) (r : CallbackResult A)
  : CallResult :=
  match r with
  | Returns a => Returned (err a)
  | Panics v => Panicked v
  end.

Section Evaluation.

Context {H : Type}.
Variable iface : Interface H.

(** The intensity the engine reports at a metering point. *)
Variable intensity : Point -> nat.

Record St := mkSt {
  vars : gmap string Z;
  host : H;
  trace : list Event;
}.

Inductive Outcome :=
| Normal
| Abort (p : PanicValue)
| OutOfFuel.

Definition M : Type := St -> Outcome * St.

Definition seq (m1 m2 : M) : M :=
  fun st =>
    match m1 st with
    | (Normal, st') => m2 st'
    | r => r
    end.

(** The end of a call of a callback: the call is recorded, and its failure,
    if any, aborts the execution. *)
Definition finish (call : Callback) (r : CallResult) (h : H) (st : St)
  : Outcome * St :=
  (match failure_of r with None => Normal | Some p => Abort p end,
   mkSt (vars st) h (trace st ++ [ECall call r])).

(** The call of the computation meter at a metering point. *)
Definition report (p : Point) : M :=
  fun st =>
    let '(r, h) := meterComputation iface (point_kind p) (intensity p) (host st) in
    finish (CallMeterComputation (point_kind p) (intensity p)) (result_of id r) h st.

(** The evaluator passes the point. *)
Definition pass (p : Point) : M :=
  fun st => (Normal, mkSt (vars st) (host st) (trace st ++ [EPoint p])).

(** A metering point: the meter is called, and the evaluator goes on when
    the meter let it. *)
Definition at_point (p : Point) : M := seq (report p) (pass p).

(** The log function of the program. *)
Definition program_log (msg : string) : M :=
  fun st =>
    let '(r, h) := log iface msg (host st) in
    finish (CallLog msg) (result_of (fun _ => None) r) h st.

Definition assign (x : string) (e : Expr) : M :=
  fun st => (Normal, mkSt (<[x := eval (vars st) e]> (vars st)) (host st) (trace st)).

(** A condition of the program that fails is a user error, raised by the
    engine. *)
Definition condition (cond : Expr) : M :=
  fun st =>
    if (eval (vars st) cond =? 0)%Z
    then (Abort (EnginePanic (UserError "condition failed")), st)
    else (Normal, st).

Definition skip : M := fun st => (Normal, st).

Inductive Task :=
| TList (prog : list Stmt)
| TWhile (cond : Expr) (body : list Stmt)
| TFor (elements : list Z) (body : list Stmt).

(** The evaluator. Metering points: every loop iteration, every function
    invocation, the allocation of an array, the encoding of a stored
    value. [fuel] bounds the number of steps. *)
Fixpoint exec (fuel : nat) (t : Task) : M :=
  match fuel with
  | 0 => fun st => (OutOfFuel, st)
  | S fuel' =>
      match t with
      | TList [] => skip
      | TList (s :: rest) =>
          seq match s with
              | SAssign x e => assign x e
              | SCondition cond => condition cond
              | SWhile cond body => exec fuel' (TWhile cond body)
              | SForIn elements body =>
                  seq (at_point (PAllocation (length elements)))
                      (exec fuel' (TFor elements body))
              | SInvoke body =>
                  seq (at_point PFunctionInvocation) (exec fuel' (TList body))
              | SSave encodedSize =>
                  seq (at_point PFunctionInvocation)
                      (at_point (PEncoding encodedSize))
              | SLog msg =>
                  seq (at_point PFunctionInvocation) (program_log msg)
              end
              (exec fuel' (TList rest))
      | TWhile cond body =>
          fun st =>
            if (eval (vars st) cond =? 0)%Z then (Normal, st)
            else seq (at_point PLoop)
                   (seq (exec fuel' (TList body)) (exec fuel' (TWhile cond body))) st
      | TFor [] body => skip
      | TFor (_ :: elements) body =>
          seq (at_point PLoop)
            (seq (exec fuel' (TList body)) (exec fuel' (TFor elements body)))
      end
  end.

(** What an entry point returns: the inner error of a runtime Error, or
    none; or no answer within the fuel. *)
Inductive Answer :=
| Finished (err : option Err)
| Unfinished.

(** ExecuteTransaction and ExecuteScript: the program is evaluated; a panic
    from anywhere is recovered here, and classified. *)
Definition Execute (fuel : nat) (prog : list Stmt) (h : H) : Answer * St :=
  match exec fuel (TList prog) (mkSt ∅ h []) with
  | (Normal, st) => (Finished None, st)
  | (Abort p, st) => (Finished (Some (classify p)), st)
  | (OutOfFuel, st) => (Unfinished, st)
  end.

(** The computation meter returns nil [n] times from the host state [h],
    and the error [err] the next time, which leaves the host in [h']. *)
Fixpoint fails_after (n : nat) (kind : ComputationKind) (i : nat) (h : H)
    (err : string) (h' : H) : Prop :=
  match n with
  | 0 => meterComputation iface kind i h = (Returns (Some err), h')
  | S n' =>
      exists h1, meterComputation iface kind i h = (Returns None, h1)
                 /\ fails_after n' kind i h1 err h'
  end.

End Evaluation.

(** No call of a callback failed. *)
Definition ok_event (e : Event) : Prop :=
  match e with
  | ECall _ r => failure_of r = None
  | EPoint _ => True
  end.

Definition clean (l : list Event) : Prop := Forall ok_event l.

(** The traces in which every metering point that is passed comes right
    after a call of the computation meter, for its kind and with its
    intensity, that returned nil. *)
Inductive metered (intensity : Point -> nat) : list Event -> Prop :=
| metered_nil : metered intensity []
| metered_call l c r : metered intensity l -> metered intensity (l ++ [ECall c r])
| metered_point l p :
    metered intensity l ->
    metered intensity
      (l ++ [ECall (CallMeterComputation (point_kind p) (intensity p)) (Returned None);
             EPoint p]).

Section Soundness.

Context {H : Type} (intensity : Point -> nat).

(** What an execution leaves behind: the trace grows; it stays metered; an
    execution that goes on has no failed call; an abort is the failure of
    the last call, which is the last event, or a user error of the engine
    after no failed call. *)
Definition post (st : St (H := H)) (out : Outcome) (st' : St (H := H)) : Prop :=
  (exists l, trace st' = trace st ++ l)
  /\ metered intensity (trace st')
  /\ match out with
     | Abort p =>
         (exists l c r, trace st' = l ++ [ECall c r]
                        /\ clean l /\ failure_of r = Some p)
         \/ (clean (trace st') /\ exists msg, p = EnginePanic (UserError msg))
     | _ => clean (trace st')
     end.

Definition sound (m : M (H := H)) : Prop :=
  forall st out st',
    clean (trace st) -> metered intensity (trace st) ->
    m st = (out, st') -> post st out st'.

End Soundness.

(** ** The callback of TestRuntimeComputationMetring *)

Record Meter := mkMeter { hits : nat; totalIntensity : nat }.

Definition compErr : string := "computation exceeded limit".

(** meterComputationFunc: counts the hits and fails from the limit on. *)
Definition meterComputationFunc (compLimit : nat)
    (kind : ComputationKind) (intensity : nat) (m : Meter)
  : CallbackResult (option string) * Meter :=
  let hits := S (hits m) in
  let totalIntensity := totalIntensity m + intensity in
  if compLimit <=? hits
  then (Returns (Some compErr), mkMeter hits totalIntensity)
  else (Returns None, mkMeter hits totalIntensity).

Definition test_interface (compLimit : nat) : Interface Meter :=
  mkInterface (meterComputationFunc compLimit) (fun _ m => (Returns tt, m)).

(** An interface whose callbacks do nothing, but for the given ones. *)
Definition quiet_log (msg : string) (h : unit) : CallbackResult unit * unit :=
  (Returns tt, h).

Definition quiet_meter (kind : ComputationKind) (intensity : nat) (h : unit)
  : CallbackResult (option string) * unit :=
  (Returns None, h).

(** The interfaces of TestRuntimeExternalError and
    TestRuntimeExternalNonError, whose log function panics, and interfaces
    whose meter returns an error or panics. *)
Definition log_panics (r : Recovered) : Interface unit :=
  mkInterface quiet_meter (fun _ h => (Panics r, h)).

Definition meterComputation_returns (err : string) : Interface unit :=
  mkInterface (fun _ _ h => (Returns (Some err), h)) quiet_log.

Definition meterComputation_panics (r : Recovered) : Interface unit :=
  mkInterface (fun _ _ h => (Panics r, h)) quiet_log.

(** The first program of TestRuntimeComputationMetring, and the program of
    TestRuntimeExternalError and TestRuntimeExternalNonError. *)
Definition infinite_while_loop : list Stmt := [SWhile (EConst 1) []].

Definition log_program : list Stmt := [SLog "ok"].

End Runtime.

(** * Bytes and fixed-width integers

    What the Go code below takes from the language and from encoding/binary:
    the conversion of an integer to a byte, unsigned 64-bit arithmetic, the
    built-in [copy], and the two byte orders of [PutUint64]. *)

Module Bytes.

#[local] Open Scope Z_scope.

#[global] Instance byte_eq_decision : EqDecision Byte.byte := Byte.byte_eq_dec.

(** The conversion [byte(v)] of an unsigned integer: its low eight bits. *)
Definition byte_of (v : Z) : Byte.byte :=
  default Byte.x00 (Byte.of_N (Z.to_N (v mod 256))).

(** The conversion of a byte to an unsigned integer. *)
Definition to_Z (b : Byte.byte) : Z := Z.of_N (Byte.to_N b).

(** [uint64] arithmetic wraps around. *)
Definition uint64 (v : Z) : Z := v mod 2 ^ 64.

(** encoding/binary: [BigEndian.PutUint64] on a slice of eight bytes. *)
Definition BigEndian_PutUint64 (v : Z) : list Byte.byte :=
  [byte_of (v ≫ 56); byte_of (v ≫ 48); byte_of (v ≫ 40); byte_of (v ≫ 32);
   byte_of (v ≫ 24); byte_of (v ≫ 16); byte_of (v ≫ 8); byte_of v].

(** encoding/binary: [LittleEndian.PutUint64] on a slice of eight bytes. *)
Definition LittleEndian_PutUint64 (v : Z) : list Byte.byte :=
  [byte_of v; byte_of (v ≫ 8); byte_of (v ≫ 16); byte_of (v ≫ 24);
   byte_of (v ≫ 32); byte_of (v ≫ 40); byte_of (v ≫ 48); byte_of (v ≫ 56)].

(** The unsigned integer a sequence of bytes denotes, most significant byte
    first: [BigEndian.Uint64] on eight bytes, [big.Int.SetBytes] on any
    number of them. *)
Definition big_endian (b : list Byte.byte) : Z :=
  foldl (fun acc x => acc * 256 + to_Z x) 0 b.

(** A zero-initialised array of [n] bytes. *)
Definition zeros (n : nat) : list Byte.byte := replicate n Byte.x00.

(** The built-in [copy(dst, src)]: as many elements as both slices have are
    written to the front of [dst]. *)
Definition copy {A} (dst src : list A) : list A :=
  take (length dst) src ++ drop (length src) dst.

(** The conversion [string(b)] of a byte slice. *)
Definition string_of (b : list Byte.byte) : string := String.string_of_list_byte b.

End Bytes.

(** * The ledger of the tests (testLedger)

    [newTestLedger] of runtime_test.go returns a ledger whose four closures
    share two maps: [storedValues], which is also a field of the ledger, and
    [storageIndices]. The closures are embedded as functions on the record of
    the two maps. The hooks [onRead] and [onWrite] are closures of the test
    that built the ledger; what they capture is the state [W]. *)

Module TestLedger.

Import Bytes.

#[local] Open Scope Z_scope.

(** strings.Join *)
Definition strings_Join (elems : list string) (sep : string) : string :=
  String.concat sep elems.

(** The closure [storageKey] of [newTestLedger]. *)
Definition storageKey (owner key : string) : string :=
  strings_Join [owner; key] "|".

(** The two maps of a ledger. A key that is absent reads as the zero value:
    the nil slice, which has length zero as the empty slice has, and the
    index zero. *)
Record testLedger := mkLedger {
  storedValues : gmap string (list Byte.byte);
  storageIndices : gmap string Z;
}.

(** func newTestLedger: both maps start empty. *)
Definition newTestLedger : testLedger :=
  {| storedValues := ∅; storageIndices := ∅ |}.

Section Closures.

Variable W : Type.

(** The type of [onRead] and [onWrite]: owner, key, value. *)
Definition Hook := list Byte.byte -> list Byte.byte -> list Byte.byte -> W -> W.

Variable onRead onWrite : option Hook.

(** The closure [valueExists]. *)
Definition valueExists (s : testLedger) (owner key : list Byte.byte)
  : bool * option string :=
  let value :=
    default [] (storedValues s !! storageKey (string_of owner) (string_of key)) in
  (bool_decide (0 < length value)%nat, None).

(** The closure [getValue]. *)
Definition getValue (s : testLedger) (w : W) (owner key : list Byte.byte)
  : (list Byte.byte * option string) * W :=
  let value :=
    default [] (storedValues s !! storageKey (string_of owner) (string_of key)) in
  let w := match onRead with
           | Some f => f owner key value w
           | None => w
           end in
  ((value, None), w).

(** The closure [setValue]. *)
Definition setValue (s : testLedger) (w : W) (owner key value : list Byte.byte)
  : option string * (testLedger * W) :=
  let s := {| storedValues :=
                <[storageKey (string_of owner) (string_of key) := value]>
                  (storedValues s);
              storageIndices := storageIndices s |} in
  let w := match onWrite with
           | Some f => f owner key value w
           | None => w
           end in
  (None, (s, w)).

(** The closure [allocateStorageIndex]; the result is an array of eight
    bytes. *)
Definition allocateStorageIndex (s : testLedger) (owner : list Byte.byte)
  : (list Byte.byte * option string) * testLedger :=
  let index := uint64 (default 0 (storageIndices s !! string_of owner) + 1) in
  let s := {| storedValues := storedValues s;
              storageIndices := <[string_of owner := index]> (storageIndices s) |} in
  ((BigEndian_PutUint64 index, None), s).

(** What a user of the ledger does: a sequence of calls of its four
    methods, each of which calls the closure of its name. *)
Inductive Call :=
| CallValueExists (owner key : list Byte.byte)
| CallGetValue (owner key : list Byte.byte)
| CallSetValue (owner key value : list Byte.byte)
| CallAllocateStorageIndex (owner : list Byte.byte).

Inductive Reply :=
| ReplyExists (exists_ : bool) (err : option string)
| ReplyValue (value : list Byte.byte) (err : option string)
| ReplySet (err : option string)
| ReplyIndex (index : list Byte.byte) (err : option string).

Definition call (c : Call) (st : testLedger * W) : Reply * (testLedger * W) :=
  match c with
  | CallValueExists owner key =>
      let '(b, err) := valueExists (fst st) owner key in
      (ReplyExists b err, st)
  | CallGetValue owner key =>
      let '((value, err), w) := getValue (fst st) (snd st) owner key in
      (ReplyValue value err, (fst st, w))
  | CallSetValue owner key value =>
      let '(err, st') := setValue (fst st) (snd st) owner key value in
      (ReplySet err, st')
  | CallAllocateStorageIndex owner =>
      let '((index, err), s) := allocateStorageIndex (fst st) owner in
      (ReplyIndex index err, (s, snd st))
  end.

Fixpoint calls (cs : list Call) (st : testLedger * W)
  : list Reply * (testLedger * W) :=
  match cs with
  | [] => ([], st)
  | c :: rest =>
      let '(r, st') := call c st in
      let '(rs, st'') := calls rest st' in
      (r :: rs, st'')
  end.

End Closures.

(** The owner a call names. *)
Definition owner_of (c : Call) : list Byte.byte :=
  match c with
  | CallValueExists owner _ | CallGetValue owner _
  | CallSetValue owner _ _ | CallAllocateStorageIndex owner => owner
  end.

(** The value the last [SetValue] of a sequence of calls wrote for an owner
    and a key; the nil slice when there is none. *)
Fixpoint written (owner key : list Byte.byte) (cs : list Call) (init : list Byte.byte)
  : list Byte.byte :=
  match cs with
  | [] => init
  | CallSetValue owner' key' value :: rest =>
      if decide (owner' = owner /\ key' = key)
      then written owner key rest value
      else written owner key rest init
  | _ :: rest => written owner key rest init
  end.

(** How many storage indices a sequence of calls allocates for an owner. *)
Fixpoint allocated (owner : list Byte.byte) (cs : list Call) : nat :=
  match cs with
  | [] => 0%nat
  | CallAllocateStorageIndex owner' :: rest =>
      if decide (owner' = owner) then S (allocated owner rest)
      else allocated owner rest
  | _ :: rest => allocated owner rest
  end.

(** The storage indices a sequence of replies hands out. *)
Definition indices (rs : list (Call * Reply)) (owner : list Byte.byte)
  : list (list Byte.byte) :=
  omap (fun cr => match cr with
                  | (CallAllocateStorageIndex owner', ReplyIndex index _) =>
                      if decide (owner' = owner) then Some index else None
                  | _ => None
                  end) rs.

End TestLedger.

(** * What the runtime interface of the tests answers by itself

    The methods of [testRuntimeInterface] (runtime_test.go) that do not only
    forward to a closure of the test: the UUID and account-ID counters, the
    block the interface makes up for a height, the default location
    resolution; and the helpers of the same file that generate locations and
    resolve the identifiers of an import. *)

Module InterfaceDefaults.

Import Bytes TestRuntimeInterface.

#[local] Open Scope Z_scope.

(** The conversion [int64(v)] of an unsigned 64-bit integer. *)
Definition int64 (v : Z) : Z := (v + 2 ^ 63) mod 2 ^ 64 - 2 ^ 63.

Section Counters.

(** What the closures of a test capture. *)
Variable W : Type.

(** The fields of [testRuntimeInterface] the two generators use. A nil
    [accountIDs] map reads as the empty map, and [GenerateAccountID]
    replaces it by an empty map before its first write. *)
Record testRuntimeInterface := mkCounters {
  generateUUID : option (W -> (Z * option string) * W);
  generateAccountID : option (N -> W -> (Z * option string) * W);
  uuid : Z;
  accountIDs : gmap N Z;
}.

(** func testRuntimeInterface.GenerateUUID *)
Definition GenerateUUID (i : testRuntimeInterface) (w : W)
  : (Z * option string) * (testRuntimeInterface * W) :=
  match generateUUID i with
  | None =>
      let i := {| generateUUID := generateUUID i;
                  generateAccountID := generateAccountID i;
                  uuid := uint64 (uuid i + 1);
                  accountIDs := accountIDs i |} in
      ((uuid i, None), (i, w))
  | Some f =>
      let '(r, w) := f w in (r, (i, w))
  end.

(** func testRuntimeInterface.GenerateAccountID *)
Definition GenerateAccountID (i : testRuntimeInterface) (w : W) (address : N)
  : (Z * option string) * (testRuntimeInterface * W) :=
  match generateAccountID i with
  | None =>
      let i := {| generateUUID := generateUUID i;
                  generateAccountID := generateAccountID i;
                  uuid := uuid i;
                  accountIDs :=
                    <[address := uint64 (default 0 (accountIDs i !! address) + 1)]>
                      (accountIDs i) |} in
      ((default 0 (accountIDs i !! address), None), (i, w))
  | Some f =>
      let '(r, w) := f address w in (r, (i, w))
  end.

(** A sequence of calls of the two generators. *)
Inductive Call :=
| CallGenerateUUID
| CallGenerateAccountID (address : N).

Definition call (c : Call) (st : testRuntimeInterface * W)
  : (Z * option string) * (testRuntimeInterface * W) :=
  match c with
  | CallGenerateUUID => GenerateUUID (fst st) (snd st)
  | CallGenerateAccountID address => GenerateAccountID (fst st) (snd st) address
  end.

Fixpoint calls (cs : list Call) (st : testRuntimeInterface * W)
  : list (Z * option string) * (testRuntimeInterface * W) :=
  match cs with
  | [] => ([], st)
  | c :: rest =>
      let '(r, st') := call c st in
      let '(rs, st'') := calls rest st' in
      (r :: rs, st'')
  end.

End Counters.

Arguments mkCounters {W}.
Arguments generateUUID {W}.
Arguments generateAccountID {W}.
Arguments uuid {W}.
Arguments accountIDs {W}.
Arguments GenerateUUID {W}.
Arguments GenerateAccountID {W}.
Arguments call {W}.
Arguments calls {W}.

(** The replies of a run to the calls that satisfy [P]. *)
Definition replies_to (P : Call -> bool) (cs : list Call)
    (rs : list (Z * option string)) : list (Z * option string) :=
  snd <$> filter (fun cr => P (fst cr) = true) (zip cs rs).

Definition is_GenerateUUID (c : Call) : bool :=
  match c with CallGenerateUUID => true | _ => false end.

Definition is_GenerateAccountID (address : N) (c : Call) : bool :=
  match c with
  | CallGenerateAccountID address' => bool_decide (address' = address)
  | _ => false
  end.

(** ** GetBlockAtHeight *)

Section Blocks.

(** The length of the array type [stdlib.BlockHash], the size of the
    constant-sized array type [sema.BlockTypeIdFieldType], and
    [time.Unix(sec, 0).UnixNano()] are declared in other packages. *)
Variable BlockHashLength : nat.
Variable BlockTypeIdFieldType_Size : Z.
Variable time_Unix_UnixNano : Z -> Z.

(** type stdlib.Block *)
Record Block := mkBlock {
  Height : Z;
  View : Z;
  Hash : list Byte.byte;
  Timestamp : Z;
}.

(** func testRuntimeInterface.GetCurrentBlockHeight *)
Definition GetCurrentBlockHeight : Z * option string := (1, None).

(** func testRuntimeInterface.GetBlockAtHeight. [binary.Write] of a uint64
    into a buffer writes its eight bytes and returns no error. Slicing the
    array at an index outside of it panics. *)
Definition GetBlockAtHeight (height : Z)
  : Result string (Block * bool * option string) :=
  let encoded := BigEndian_PutUint64 height in
  let hash := zeros BlockHashLength in
  let low := BlockTypeIdFieldType_Size - Z.of_nat (length encoded) in
  if bool_decide (0 <= low <= Z.of_nat BlockHashLength) then
    let hash :=
      take (Z.to_nat low) hash ++ copy (drop (Z.to_nat low) hash) encoded in
    let block := {| Height := height;
                    View := height;
                    Hash := hash;
                    Timestamp := time_Unix_UnixNano (int64 height) |} in
    Ok (block, true, None)
  else Panic "slice bounds out of range".

End Blocks.

(** ** Location generators *)

(** func newLocationGenerator: the closure it returns, over the counter it
    captures. The location type is an array of 32 bytes. *)
Definition newLocationGenerator_count : Z := 0.

Definition newLocationGenerator (count : Z) : list Byte.byte * Z :=
  let t := zeros 32 in
  let newCount := uint64 (count + 1) in
  let t := copy t (LittleEndian_PutUint64 newCount) in
  (t, newCount).

(** The locations [n] calls of a generator return. *)
Fixpoint generate (n : nat) (count : Z) : list (list Byte.byte) :=
  match n with
  | O => []
  | S n =>
      let '(t, count) := newLocationGenerator count in
      t :: generate n count
  end.

(** ** Location resolution *)

(** type ast.Identifier *)
Record Identifier := mkIdentifier {
  Identifier_ : string;
  Pos : nat;
}.

(** type sema.ResolvedLocation *)
Record ResolvedLocation := mkResolvedLocation {
  Location_ : Location;
  Identifiers : list Identifier;
}.

(** How a resolver ends other than by returning: a failed type assertion
    panics, a failed [require] stops the test. *)
Inductive Stop :=
| TypeAssertionPanic
| FailNow.

Definition Resolver :=
  list Identifier -> Location -> Result Stop (list ResolvedLocation * option string).

(** func testRuntimeInterface.ResolveLocation *)
Definition ResolveLocation (resolveLocation : option Resolver)
    (identifiers : list Identifier) (location : Location)
  : Result Stop (list ResolvedLocation * option string) :=
  match resolveLocation with
  | None =>
      Ok ([{| Location_ := location; Identifiers := identifiers |}], None)
  | Some f => f identifiers location
  end.

(** The type assertion of a location to [common.AddressLocation]. *)
Definition as_AddressLocation (location : Location) : Result Stop (N * string) :=
  match location with
  | AddressLocation address name => Ok (address, name)
  | _ => Panic TypeAssertionPanic
  end.

(** func singleIdentifierLocationResolver *)
Definition singleIdentifierLocationResolver : Resolver :=
  fun identifiers location =>
    match identifiers with
    | [identifier] =>
        match location with
        | AddressLocation address _ =>
            Ok ([{| Location_ := AddressLocation address (Identifier_ identifier);
                    Identifiers := identifiers |}], None)
        | _ => Panic FailNow
        end
    | _ => Panic FailNow
    end.

(** func multipleIdentifierLocationResolver: the loop over the identifiers,
    with the result so far. *)
Fixpoint multipleIdentifierLocationResolver_loop (identifiers : list Identifier)
    (location : Location) (result : list ResolvedLocation)
  : Result Stop (list ResolvedLocation) :=
  match identifiers with
  | [] => Ok result
  | identifier :: rest =>
      a ← as_AddressLocation location;
      multipleIdentifierLocationResolver_loop rest location
        (result ++ [{| Location_ := AddressLocation (fst a) (Identifier_ identifier);
                       Identifiers := [identifier] |}])
  end.

Definition multipleIdentifierLocationResolver : Resolver :=
  fun identifiers location =>
    result ← multipleIdentifierLocationResolver_loop identifiers location [];
    Ok (result, None).

End InterfaceDefaults.

(** * Checking pragma declarations (sema/check_pragma.go) *)

Module CheckPragma.

(** ** Package ast, as far as pragma declarations use it *)

(** type ast.Range: a start and an end position. *)
Record Range := mkRange {
  StartPos : nat;
  EndPos : nat;
}.

(** type ast.TypeAnnotation; only its position matters here. *)
Record TypeAnnotation := mkTypeAnnotation {
  TypeAnnotation_Range : Range;
}.

(** The expressions the checker tells apart in a pragma; an argument of an
    invocation is a label and an expression. *)
Inductive Expression :=
| StringExpression (Value : string) (range : Range)
| IdentifierExpression (Identifier : string) (range : Range)
| InvocationExpression (InvokedExpression : Expression)
    (TypeArguments : list TypeAnnotation)
    (Arguments : list (string * Expression)) (range : Range)
| OtherExpression (range : Range).

(** type ast.PragmaDeclaration *)
Record PragmaDeclaration := mkPragmaDeclaration {
  Expression_ : Expression;
  PragmaDeclaration_Range : Range;
}.

(** ast.NewRangeFromPositioned on an expression. *)
Definition Expression_Range (e : Expression) : Range :=
  match e with
  | StringExpression _ range
  | IdentifierExpression _ range
  | InvocationExpression _ _ _ range
  | OtherExpression range => range
  end.

(** ** Package sema *)

(** type InvalidPragmaError, the only error this file reports. *)
Record InvalidPragmaError := mkInvalidPragmaError {
  Message : string;
  Range_ : Range;
}.

(** The checker, as far as [report] changes it: the errors reported so far. *)
Record Checker := mkChecker {
  errors : list InvalidPragmaError;
}.

(** func Checker.report *)
Definition report (checker : Checker) (err : InvalidPragmaError) : Checker :=
  {| errors := errors checker ++ [err] |}.

Definition allowAccountLinkingPragmaIdentifier : string := "allowAccountLinking".

(** func IsAllowAccountLinkingPragma *)
Definition IsAllowAccountLinkingPragma (declaration : PragmaDeclaration) : bool :=
  match Expression_ declaration with
  | IdentifierExpression identifier _ =>
      bool_decide (identifier = allowAccountLinkingPragmaIdentifier)
  | _ => false
  end.

(** func Checker.reportInvalidNonHeaderPragma *)
Definition reportInvalidNonHeaderPragma (checker : Checker)
    (declaration : PragmaDeclaration) : Checker :=
  report checker
    {| Message := "pragma must appear at top-level, before all other declarations";
       Range_ := PragmaDeclaration_Range declaration |}.

(** func Checker.VisitPragmaDeclaration *)
Definition VisitPragmaDeclaration (checker : Checker)
    (declaration : PragmaDeclaration) : Checker :=
  match Expression_ declaration with
  | InvocationExpression _ typeArguments arguments _ =>
      (* Type arguments are not supported for pragmas *)
      let checker :=
        match typeArguments with
        | first :: _ =>
            report checker
              {| Message := "type arguments are not supported";
                 Range_ := TypeAnnotation_Range first |}
        | [] => checker
        end in
      (* Ensure arguments are string expressions *)
      foldl (fun checker arg =>
               match snd arg with
               | StringExpression _ _ => checker
               | expression =>
                   report checker
                     {| Message := "invalid non-string argument";
                        Range_ := Expression_Range expression |}
               end)
        checker arguments
  | IdentifierExpression _ _ =>
      if IsAllowAccountLinkingPragma declaration
      then reportInvalidNonHeaderPragma checker declaration
      else checker
  | _ =>
      report checker
        {| Message := "pragma must be identifier or invocation expression";
           Range_ := PragmaDeclaration_Range declaration |}
  end.

(** ** What the checker accepts *)

Definition is_StringExpression (e : Expression) : bool :=
  match e with StringExpression _ _ => true | _ => false end.

(** The pragmas this visitor has no complaint about: an identifier other
    than the account-linking one, or an invocation without type arguments
    all of whose arguments are string literals. *)
Definition accepted (declaration : PragmaDeclaration) : Prop :=
  match Expression_ declaration with
  | IdentifierExpression identifier _ =>
      identifier <> allowAccountLinkingPragmaIdentifier
  | InvocationExpression _ typeArguments arguments _ =>
      typeArguments = []
      /\ Forall (fun arg => is_StringExpression (snd arg) = true) arguments
  | _ => False
  end.

(** The positions this visitor may attribute an error to. *)
Definition positions (declaration : PragmaDeclaration) : list Range :=
  PragmaDeclaration_Range declaration ::
  match Expression_ declaration with
  | InvocationExpression _ typeArguments arguments _ =>
      (TypeAnnotation_Range <$> typeArguments)
      ++ ((fun arg => Expression_Range (snd arg)) <$> arguments)
  | _ => []
  end.

End CheckPragma.

(** * The Test contract (the Cadence standard library for tests)

    The contract is Cadence source. Its functions are embedded over the
    values they inspect; what the language does is written out: a failed
    pre-condition, assertion, force-unwrap or force-cast panics, the
    operators [&&] and [||] evaluate their right operand only when the left
    one does not decide, [Int] is unbounded, and [slice] panics unless
    0 <= from <= upTo <= length. *)

Module TestContract.

#[local] Open Scope Z_scope.

(** How Cadence code ends other than by returning. *)
Inductive Fault :=
| ConditionError (message : string)
| AssertionError (message : string)
| ForceNilError
| ForceCastTypeMismatchError
| SliceError
| BackendError (message : string).

Section Contract.

(** The characters of a Cadence [String]; a string is their sequence. *)
Context {Character : Type} `{EqDecision Character}.

Abbreviation String_ := (list Character) (only parsing).

(** enum ResultStatus *)
Inductive ResultStatus := succeeded | failed.

#[global] Instance ResultStatus_eq_dec : EqDecision ResultStatus.
Proof. solve_decision. Defined.

(** struct Error *)
Record Error := mkError { message : String_ }.

(** struct interface Result: what its two implementations,
    [TransactionResult] and [ScriptResult], share. *)
Record Result_ := mkResult {
  status : ResultStatus;
  error : option Error;
}.

(** The values of type [AnyStruct] the contract tells apart: nil, the two
    results the contract declares, a value of any other struct that
    conforms to the public interface [Result], which has the two fields of
    the interface, and any other value. *)
Inductive Value :=
| NilValue
| TransactionResult (status : ResultStatus) (error : option Error)
| ScriptResult (status : ResultStatus) (returnValue : option Value)
    (error : option Error)
| ConformingValue (n : nat) (status : ResultStatus) (error : option Error)
| OtherValue (n : nat).

(** The force-cast [value as! {Result}]: it succeeds on every value whose
    type conforms to the interface. *)
Definition as_Result (value : Value) : Result Fault Result_ :=
  match value with
  | TransactionResult status error
  | ScriptResult status _ error
  | ConformingValue _ status error => Ok {| status := status; error := error |}
  | NilValue | OtherValue _ => Panic ForceCastTypeMismatchError
  end.

(** ** Matchers *)

(** What the functions of a test capture and may change. *)
Context {Captured : Type}.

(** A function (AnyStruct): Bool. It may panic, and it may change what it
    captures. *)
Definition Test := Value -> Captured -> Result Fault (bool * Captured).

(** struct Matcher *)
Record Matcher := mkMatcher { test : Test }.

(** fun Matcher.and *)
Definition and (self other : Matcher) : Matcher :=
  {| test := fun (value : Value) (s : Captured) =>
       match test self value s with
       | Ok (true, s) => test other value s
       | Ok (false, s) => Ok (false, s)
       | Panic p => Panic p
       end |}.

(** fun Matcher.or *)
Definition or (self other : Matcher) : Matcher :=
  {| test := fun (value : Value) (s : Captured) =>
       match test self value s with
       | Ok (true, s) => Ok (true, s)
       | Ok (false, s) => test other value s
       | Panic p => Panic p
       end |}.

(** fun not *)
Definition not (matcher : Matcher) : Matcher :=
  {| test := fun (value : Value) (s : Captured) =>
       match test matcher value s with
       | Ok (result, s) => Ok (negb result, s)
       | Panic p => Panic p
       end |}.

(** fun beSucceeded *)
Definition beSucceeded : Matcher :=
  {| test := fun (value : Value) (s : Captured) =>
       r ← as_Result value;
       Ok (bool_decide (status r = succeeded), s) |}.

(** fun beFailed *)
Definition beFailed : Matcher :=
  {| test := fun (value : Value) (s : Captured) =>
       r ← as_Result value;
       Ok (bool_decide (status r = failed), s) |}.

(** fun beNil *)
Definition beNil : Matcher :=
  {| test := fun (value : Value) (s : Captured) =>
       Ok (match value with NilValue => true | _ => false end, s) |}.

(** ** assertError *)

(** String.slice(from:upTo:) *)
Definition slice (s : String_) (from upTo : Z) : Result Fault String_ :=
  if bool_decide (0 <= from <= upTo /\ upTo <= Z.of_nat (length s))
  then Ok (take (Z.to_nat (upTo - from)) (drop (Z.to_nat from) s))
  else Panic SliceError.

(** The while loop of [assertError]: the value of [found] when it ends, or
    [None] when the iterations allowed are used up. *)
Fixpoint assertError_loop (fuel : nat) (msg errorMessage : String_)
    (msgLength i : Z) : option (Result Fault bool) :=
  if bool_decide (i < msgLength) then
    match fuel with
    | O => None
    | S fuel =>
        match slice msg i (i + Z.of_nat (length errorMessage)) with
        | Panic p => Some (Panic p)
        | Ok part =>
            if bool_decide (part = errorMessage) then Some (Ok true)
            else assertError_loop fuel msg errorMessage msgLength (i + 1)
        end
    end
  else Some (Ok false).

(** fun assertError *)
Definition assertError (fuel : nat) (result : Result_) (errorMessage : String_)
  : option (Result Fault ()) :=
  if bool_decide (status result = failed) then
    match error result with
    | None => Some (Panic ForceNilError)
    | Some e =>
        let msg := message e in
        let msgLength :=
          Z.of_nat (length msg) - Z.of_nat (length errorMessage) + 1 in
        match assertError_loop fuel msg errorMessage msgLength 0 with
        | None => None
        | Some (Panic p) => Some (Panic p)
        | Some (Ok found) =>
            if found then Some (Ok ())
            else Some (Panic (AssertionError
                   "the error message did not contain the given sub-string"))
        end
    end
  else Some (Panic (ConditionError "no error was found")).

(** ** Blockchain *)

(** struct Transaction, whose fields do not matter here, and the state of
    a backend. *)
Context {Transaction B : Type}.

(** struct interface BlockchainBackend: the three functions the blockchain
    uses to execute transactions, over the state of the backend. *)
Record BlockchainBackend := mkBackend {
  backend_addTransaction : Transaction -> B -> Result Fault B;
  backend_executeNextTransaction : B -> Result Fault (option Result_ * B);
  backend_commitBlock : B -> Result Fault B;
}.

Variable backend : BlockchainBackend.

(** fun Blockchain.addTransaction *)
Definition addTransaction (tx : Transaction) (b : B) : Result Fault B :=
  backend_addTransaction backend tx b.

(** fun Blockchain.executeNextTransaction *)
Definition executeNextTransaction (b : B) : Result Fault (option Result_ * B) :=
  backend_executeNextTransaction backend b.

(** fun Blockchain.commitBlock *)
Definition commitBlock (b : B) : Result Fault B :=
  backend_commitBlock backend b.

(** The force-unwrap of an optional. *)
Definition force {A} (o : option A) : Result Fault A :=
  match o with
  | Some a => Ok a
  | None => Panic ForceNilError
  end.

(** fun Blockchain.executeTransaction *)
Definition executeTransaction (tx : Transaction) (b : B)
  : Result Fault (Result_ * B) :=
  b ← addTransaction tx b;
  '(next, b) ← executeNextTransaction b;
  txResult ← force next;
  b ← commitBlock b;
  Ok (txResult, b).

(** fun Blockchain.executeTransactions: its two loops. *)
Fixpoint addTransactions (transactions : list Transaction) (b : B)
  : Result Fault B :=
  match transactions with
  | [] => Ok b
  | tx :: rest => b ← addTransaction tx b; addTransactions rest b
  end.

Fixpoint executeNextTransactions (transactions : list Transaction)
    (results : list Result_) (b : B) : Result Fault (list Result_ * B) :=
  match transactions with
  | [] => Ok (results, b)
  | tx :: rest =>
      '(next, b) ← executeNextTransaction b;
      txResult ← force next;
      executeNextTransactions rest (results ++ [txResult]) b
  end.

Definition executeTransactions (transactions : list Transaction) (b : B)
  : Result Fault (list Result_ * B) :=
  b ← addTransactions transactions b;
  '(results, b) ← executeNextTransactions transactions [] b;
  b ← commitBlock b;
  Ok (results, b).

End Contract.

Arguments Error : clear implicits.
Arguments Result_ : clear implicits.
Arguments Value : clear implicits.
Arguments Test : clear implicits.
Arguments Matcher : clear implicits.
Arguments BlockchainBackend : clear implicits.
Arguments as_Result {Character}.
Arguments beSucceeded {Character Captured}.
Arguments beFailed {Character Captured}.
Arguments beNil {Character Captured}.

(** ** A backend that records how it is called

    Any backend can be wrapped so that it keeps the list of the calls made
    to it, the latest first. *)
Inductive BackendCall := AddTransaction | ExecuteNextTransaction | CommitBlock.

Definition recording {Character Transaction B : Type}
    (backend : BlockchainBackend Character Transaction B)
  : BlockchainBackend Character Transaction (B * list BackendCall) :=
  {| backend_addTransaction := fun tx st =>
       b ← backend_addTransaction backend tx (fst st);
       Ok (b, AddTransaction :: snd st);
     backend_executeNextTransaction := fun st =>
       '(next, b) ← backend_executeNextTransaction backend (fst st);
       Ok (next, (b, ExecuteNextTransaction :: snd st));
     backend_commitBlock := fun st =>
       b ← backend_commitBlock backend (fst st);
       Ok (b, CommitBlock :: snd st) |}.

End TestContract.

(** * Account references: access to the referenced account

    The methods of value_accountreference.go that reach the account behind
    a reference. The account value is made by the host, through the handler
    the interpreter is configured with, the first time it is needed, and
    kept in the reference. *)

Module AccountReferences.

Import Interpreter.

(** How a method ends other than by returning: the panics of the Go
    runtime. *)
Inductive Fault :=
| NilPointerDereference
| TypeAssertionFailed.

Section Methods.

Context {SemaType StaticType InterpreterState : Type}.

(** [interpreter.SharedState.Config.AuthAccountHandler]: a function of the
    host. The value it returns is a Go interface, which can be nil; calling
    it may change the state of the host, which is part of the state of the
    interpreter here. *)
Variable AuthAccountHandler :
  Address -> InterpreterState -> option (Value StaticType) * InterpreterState.

(** [Interpreter.getMember], [Interpreter.setMember],
    [Interpreter.IsSubTypeOfSemaType], the static type of auth accounts and
    the method [ConformsToStaticType] of the other values are outside this
    file. *)
Variable getMember :
  InterpreterState -> option (Value StaticType) -> LocationRange -> string ->
  Result Fault (option (Value StaticType) * InterpreterState).
Variable setMember :
  InterpreterState -> option (Value StaticType) -> LocationRange -> string ->
  Value StaticType -> Result Fault (bool * InterpreterState).
Variable IsSubTypeOfSemaType :
  InterpreterState -> StaticType -> option SemaType -> bool.
Variable PrimitiveStaticTypeAuthAccount : StaticType.
Variable Value_ConformsToStaticType :
  InterpreterState -> option (Value StaticType) -> LocationRange ->
  Result Fault (bool * InterpreterState).

(** func AccountReferenceValue.authAccount. The receiver is a pointer: a
    method on a pointer that points nowhere panics when it reads a field. *)
Definition authAccount (interpreter : InterpreterState)
    (h : gmap nat (AccountReferenceValue SemaType StaticType)) (p : Ptr)
  : Result Fault
      (option (Value StaticType)
       * (InterpreterState * gmap nat (AccountReferenceValue SemaType StaticType))) :=
  match h !! p with
  | None => Panic NilPointerDereference
  | Some v =>
      match _authAccount v with
      | None =>
          let '(account, interpreter) :=
            AuthAccountHandler (Address_ v) interpreter in
          Ok (account,
              (interpreter,
               <[p := {| BorrowedType := BorrowedType v;
                         _authAccount := account;
                         Address_ := Address_ v |}]> h))
      | Some account => Ok (Some account, (interpreter, h))
      end
  end.

(** func AccountReferenceValue.ReferencedValue: a pointer to a copy of the
    account value; the copy is what is returned here. *)
Definition ReferencedValue (interpreter : InterpreterState)
    (h : gmap nat (AccountReferenceValue SemaType StaticType)) (p : Ptr)
    (locationRange : LocationRange) (errorOnFailedDereference : bool) :=
  authAccount interpreter h p.

(** func AccountReferenceValue.GetMember *)
Definition GetMember (interpreter : InterpreterState)
    (h : gmap nat (AccountReferenceValue SemaType StaticType)) (p : Ptr)
    (locationRange : LocationRange) (name : string)
  : Result Fault
      (option (Value StaticType)
       * (InterpreterState * gmap nat (AccountReferenceValue SemaType StaticType))) :=
  match authAccount interpreter h p with
  | Panic e => Panic e
  | Ok (self, (interpreter, h)) =>
      match getMember interpreter self locationRange name with
      | Panic e => Panic e
      | Ok (member, interpreter) => Ok (member, (interpreter, h))
      end
  end.

(** func AccountReferenceValue.SetMember *)
Definition SetMember (interpreter : InterpreterState)
    (h : gmap nat (AccountReferenceValue SemaType StaticType)) (p : Ptr)
    (locationRange : LocationRange) (name : string) (value : Value StaticType)
  : Result Fault
      (bool * (InterpreterState * gmap nat (AccountReferenceValue SemaType StaticType))) :=
  match authAccount interpreter h p with
  | Panic e => Panic e
  | Ok (self, (interpreter, h)) =>
      match setMember interpreter self locationRange name value with
      | Panic e => Panic e
      | Ok (existed, interpreter) => Ok (existed, (interpreter, h))
      end
  end.

(** func AccountReferenceValue.ConformsToStaticType *)
Definition ConformsToStaticType (interpreter : InterpreterState)
    (h : gmap nat (AccountReferenceValue SemaType StaticType)) (p : Ptr)
    (locationRange : LocationRange)
  : Result Fault
      (bool * (InterpreterState * gmap nat (AccountReferenceValue SemaType StaticType))) :=
  match h !! p with
  | None => Panic NilPointerDereference
  | Some v =>
      if negb (IsSubTypeOfSemaType interpreter PrimitiveStaticTypeAuthAccount
                 (BorrowedType v))
      then Ok (false, (interpreter, h))
      else
        match authAccount interpreter h p with
        | Panic e => Panic e
        | Ok (self, (interpreter, h)) =>
            match Value_ConformsToStaticType interpreter self locationRange with
            | Panic e => Panic e
            | Ok (conforms, interpreter) => Ok (conforms, (interpreter, h))
            end
        end
  end.

(** func AccountReferenceValue.IsImportable *)
Definition IsImportable (v : AccountReferenceValue SemaType StaticType) : bool :=
  false.

End Methods.

End AccountReferences.

(** * Account values: computed fields and strings (value_account.go,
      value_account_storagecapabilities.go)

    [NewAuthAccountValue] and [NewPublicAccountValue] build a composite value
    around two closures: [computeField], which makes the members of the
    account on demand, and [stringer]. Both keep what they made in variables
    they capture. The variables of [computeField] are embedded as a map
    from the variable to its value, nil at first; the string of [stringer]
    as a string, empty at first. *)

Module AccountValues.

Import Interpreter.

(** A panic of a function called from here. *)
Inductive Fault := MkFault (message : string).

Section Accounts.

Context {SemaType StaticType InterpreterState FunctionType MemoryGauge : Type}.

(** A pointer to an interpreter, and everything a call may change: the
    state of the interpreters and of the host. *)
Variable Inter : Type.
Variable W : Type.

Abbreviation Fn :=
  (HostFunctionValue SemaType StaticType InterpreterState FunctionType)
  (only parsing).

(** What a member of an account can be: a value or a host function. A nil
    [Value] is [None]. *)
Inductive Member :=
| MemberValue (v : Value StaticType)
| MemberFunction (f : Fn).

(** A call of a function outside this file: it returns and may change the
    state, or it panics. *)
Abbreviation Call A := (W -> Result Fault (A * W)) (only parsing).

(** ** The parameters of the two constructors

    [NewPublicAccountValue] has no [inboxConstructor]. The functions to add
    and remove a public key are stored as fields and do not occur in the
    closures. *)

Record Parameters := mkParameters {
  gauge : MemoryGauge;
  address : Address;
  accountBalanceGet : Call (Value StaticType);
  accountAvailableBalanceGet : Call (Value StaticType);
  storageUsedGet : Inter -> Call (Value StaticType);
  storageCapacityGet : Inter -> Call (Value StaticType);
  contractsConstructor : Call (option Member);
  keysConstructor : Call (option Member);
  inboxConstructor : Call (option Member);
  capabilitiesConstructor : Call (option Member);
}.

(** ** The methods of the interpreter the closures call

    [getCapabilityFunction] is [accountGetCapabilityFunction] of this file,
    applied to the helpers of the interpreter it calls. *)

Record Methods := mkMethods {
  publicAccountPaths : Inter -> Address -> LocationRange -> Call (Value StaticType);
  privateAccountPaths : Inter -> Address -> LocationRange -> Call (Value StaticType);
  storageAccountPaths : Inter -> Address -> LocationRange -> Call (Value StaticType);
  newStorageIterationFunction :
    Inter -> FunctionType -> Address -> PathDomain -> SemaType -> Call Fn;
  authAccountTypeFunction : Inter -> Address -> Call Fn;
  authAccountLoadFunction : Inter -> Address -> Call Fn;
  authAccountCopyFunction : Inter -> Address -> Call Fn;
  authAccountSaveFunction : Inter -> Address -> Call Fn;
  authAccountBorrowFunction : Inter -> Address -> Call Fn;
  authAccountCheckFunction : Inter -> Address -> Call Fn;
  authAccountLinkFunction : Inter -> Address -> Call Fn;
  authAccountLinkAccountFunction : Inter -> Address -> Call Fn;
  authAccountUnlinkFunction : Inter -> Address -> Call Fn;
  accountGetLinkTargetFunction : Inter -> FunctionType -> Address -> Call Fn;
  getCapabilityFunction : MemoryGauge -> Address -> SemaType -> FunctionType -> Fn;
}.

(** ** The types of package sema the closures name *)

Record Sema := mkSema {
  AuthAccountTypeForEachPublicFunctionType : FunctionType;
  AuthAccountTypeForEachPrivateFunctionType : FunctionType;
  AuthAccountTypeForEachStoredFunctionType : FunctionType;
  AuthAccountTypeGetLinkTargetFunctionType : FunctionType;
  AuthAccountTypeGetCapabilityFunctionType : FunctionType;
  PublicAccountTypeForEachPublicFunctionType : FunctionType;
  PublicAccountTypeGetLinkTargetFunctionType : FunctionType;
  PublicAccountTypeGetCapabilityFunctionType : FunctionType;
  PublicPathType : SemaType;
  PrivatePathType : SemaType;
  StoragePathType : SemaType;
  CapabilityPathType : SemaType;
}.

Variable parameters : Parameters.
Variable methods : Methods.
Variable sema : Sema.

(** ** The variables the closures capture *)

Inductive Variable_ :=
| contracts | keys | inbox | capabilities
| forEachStoredFunction | forEachPublicFunction | forEachPrivateFunction
| typeFunction | loadFunction | copyFunction | saveFunction | borrowFunction
| checkFunction | linkFunction | linkAccountFunction | unlinkFunction
| getLinkTargetFunction | getCapabilityFunction_.

#[global] Instance Variable_eq_dec : EqDecision Variable_.
Proof. solve_decision. Defined.

Abbreviation Captured := (Variable_ -> option Member) (only parsing).

(** The assignment of a value to a variable. *)
Definition assign (x : Variable_) (value : option Member) (c : Captured)
  : Captured :=
  fun y => if decide (y = x) then value else c y.

(** Every variable is nil when the constructor returns. *)
Definition nothing_made : Captured := fun _ => None.

(** The three shapes of a case of [computeField]: a value made by a
    constructor the first time and kept unless it is nil, a host function
    made the first time and kept, and a value that is asked for every
    time. *)
Definition made_once (x : Variable_) (constructor : Call (option Member))
    (c : Captured) (w : W) : Result Fault (option Member * (Captured * W)) :=
  match c x with
  | None =>
      '(made, w) ← constructor w;
      Ok (made, (assign x made c, w))
  | Some kept => Ok (Some kept, (c, w))
  end.

Definition function_made_once (x : Variable_) (constructor : Call Fn)
    (c : Captured) (w : W) : Result Fault (option Member * (Captured * W)) :=
  match c x with
  | None =>
      '(f, w) ← constructor w;
      Ok (Some (MemberFunction f), (assign x (Some (MemberFunction f)) c, w))
  | Some kept => Ok (Some kept, (c, w))
  end.

Definition asked (get : Call (Value StaticType))
    (c : Captured) (w : W) : Result Fault (option Member * (Captured * W)) :=
  '(v, w) ← get w;
  Ok (Some (MemberValue v), (c, w)).

(** ** NewAuthAccountValue *)

(** The names [computeField] of an auth account tells apart: the constants
    of package sema its switch compares the name with, which are pairwise
    different strings, and any other name. *)
Inductive AuthAccountName :=
| AuthAccountTypeContractsFieldName
| AuthAccountTypeKeysFieldName
| AuthAccountTypeInboxFieldName
| AuthAccountTypeCapabilitiesFieldName
| AuthAccountTypePublicPathsFieldName
| AuthAccountTypePrivatePathsFieldName
| AuthAccountTypeStoragePathsFieldName
| AuthAccountTypeForEachPublicFunctionName
| AuthAccountTypeForEachPrivateFunctionName
| AuthAccountTypeForEachStoredFunctionName
| AuthAccountTypeBalanceFieldName
| AuthAccountTypeAvailableBalanceFieldName
| AuthAccountTypeStorageUsedFieldName
| AuthAccountTypeStorageCapacityFieldName
| AuthAccountTypeTypeFunctionName
| AuthAccountTypeLoadFunctionName
| AuthAccountTypeCopyFunctionName
| AuthAccountTypeSaveFunctionName
| AuthAccountTypeBorrowFunctionName
| AuthAccountTypeCheckFunctionName
| AuthAccountTypeLinkFunctionName
| AuthAccountTypeLinkAccountFunctionName
| AuthAccountTypeUnlinkFunctionName
| AuthAccountTypeGetLinkTargetFunctionName
| AuthAccountTypeGetCapabilityFunctionName
| AuthAccountOtherName.

(** The closure [computeField] of [NewAuthAccountValue]. *)
Definition AuthAccount_computeField (name : AuthAccountName) (inter : Inter)
    (locationRange : LocationRange) (c : Captured) (w : W)
  : Result Fault (option Member * (Captured * W)) :=
  let gauge := gauge parameters in
  let address := address parameters in
  match name with
  | AuthAccountTypeContractsFieldName =>
      made_once contracts (contractsConstructor parameters) c w
  | AuthAccountTypeKeysFieldName =>
      made_once keys (keysConstructor parameters) c w
  | AuthAccountTypeInboxFieldName =>
      made_once inbox (inboxConstructor parameters) c w
  | AuthAccountTypeCapabilitiesFieldName =>
      made_once capabilities (capabilitiesConstructor parameters) c w
  | AuthAccountTypePublicPathsFieldName =>
      asked (publicAccountPaths methods inter address locationRange) c w
  | AuthAccountTypePrivatePathsFieldName =>
      asked (privateAccountPaths methods inter address locationRange) c w
  | AuthAccountTypeStoragePathsFieldName =>
      asked (storageAccountPaths methods inter address locationRange) c w
  | AuthAccountTypeForEachPublicFunctionName =>
      function_made_once forEachPublicFunction
        (newStorageIterationFunction methods inter
           (AuthAccountTypeForEachPublicFunctionType sema) address
           PathDomainPublic (PublicPathType sema)) c w
  | AuthAccountTypeForEachPrivateFunctionName =>
      function_made_once forEachPrivateFunction
        (newStorageIterationFunction methods inter
           (AuthAccountTypeForEachPrivateFunctionType sema) address
           PathDomainPrivate (PrivatePathType sema)) c w
  | AuthAccountTypeForEachStoredFunctionName =>
      function_made_once forEachStoredFunction
        (newStorageIterationFunction methods inter
           (AuthAccountTypeForEachStoredFunctionType sema) address
           PathDomainStorage (StoragePathType sema)) c w
  | AuthAccountTypeBalanceFieldName => asked (accountBalanceGet parameters) c w
  | AuthAccountTypeAvailableBalanceFieldName =>
      asked (accountAvailableBalanceGet parameters) c w
  | AuthAccountTypeStorageUsedFieldName =>
      asked (storageUsedGet parameters inter) c w
  | AuthAccountTypeStorageCapacityFieldName =>
      asked (storageCapacityGet parameters inter) c w
  | AuthAccountTypeTypeFunctionName =>
      function_made_once typeFunction
        (authAccountTypeFunction methods inter address) c w
  | AuthAccountTypeLoadFunctionName =>
      function_made_once loadFunction
        (authAccountLoadFunction methods inter address) c w
  | AuthAccountTypeCopyFunctionName =>
      function_made_once copyFunction
        (authAccountCopyFunction methods inter address) c w
  | AuthAccountTypeSaveFunctionName =>
      function_made_once saveFunction
        (authAccountSaveFunction methods inter address) c w
  | AuthAccountTypeBorrowFunctionName =>
      function_made_once borrowFunction
        (authAccountBorrowFunction methods inter address) c w
  | AuthAccountTypeCheckFunctionName =>
      function_made_once checkFunction
        (authAccountCheckFunction methods inter address) c w
  | AuthAccountTypeLinkFunctionName =>
      function_made_once linkFunction
        (authAccountLinkFunction methods inter address) c w
  | AuthAccountTypeLinkAccountFunctionName =>
      function_made_once linkAccountFunction
        (authAccountLinkAccountFunction methods inter address) c w
  | AuthAccountTypeUnlinkFunctionName =>
      function_made_once unlinkFunction
        (authAccountUnlinkFunction methods inter address) c w
  | AuthAccountTypeGetLinkTargetFunctionName =>
      function_made_once getLinkTargetFunction
        (accountGetLinkTargetFunction methods inter
           (AuthAccountTypeGetLinkTargetFunctionType sema) address) c w
  | AuthAccountTypeGetCapabilityFunctionName =>
      function_made_once getCapabilityFunction_
        (fun w =>
           Ok (getCapabilityFunction methods gauge address
                 (CapabilityPathType sema)
                 (AuthAccountTypeGetCapabilityFunctionType sema), w)) c w
  | AuthAccountOtherName => Ok (None, (c, w))
  end.

(** ** NewPublicAccountValue *)

Inductive PublicAccountName :=
| PublicAccountTypeKeysFieldName
| PublicAccountTypeContractsFieldName
| PublicAccountTypeCapabilitiesFieldName
| PublicAccountTypePublicPathsFieldName
| PublicAccountTypeForEachPublicFunctionName
| PublicAccountTypeBalanceFieldName
| PublicAccountTypeAvailableBalanceFieldName
| PublicAccountTypeStorageUsedFieldName
| PublicAccountTypeStorageCapacityFieldName
| PublicAccountTypeGetLinkTargetFunctionName
| PublicAccountTypeGetCapabilityFunctionName
| PublicAccountOtherName.

(** The closure [computeField] of [NewPublicAccountValue]. *)
Definition PublicAccount_computeField (name : PublicAccountName) (inter : Inter)
    (locationRange : LocationRange) (c : Captured) (w : W)
  : Result Fault (option Member * (Captured * W)) :=
  let gauge := gauge parameters in
  let address := address parameters in
  match name with
  | PublicAccountTypeKeysFieldName =>
      made_once keys (keysConstructor parameters) c w
  | PublicAccountTypeContractsFieldName =>
      made_once contracts (contractsConstructor parameters) c w
  | PublicAccountTypeCapabilitiesFieldName =>
      made_once capabilities (capabilitiesConstructor parameters) c w
  | PublicAccountTypePublicPathsFieldName =>
      asked (publicAccountPaths methods inter address locationRange) c w
  | PublicAccountTypeForEachPublicFunctionName =>
      function_made_once forEachPublicFunction
        (newStorageIterationFunction methods inter
           (PublicAccountTypeForEachPublicFunctionType sema) address
           PathDomainPublic (PublicPathType sema)) c w
  | PublicAccountTypeBalanceFieldName =>
      asked (accountBalanceGet parameters) c w
  | PublicAccountTypeAvailableBalanceFieldName =>
      asked (accountAvailableBalanceGet parameters) c w
  | PublicAccountTypeStorageUsedFieldName =>
      asked (storageUsedGet parameters inter) c w
  | PublicAccountTypeStorageCapacityFieldName =>
      asked (storageCapacityGet parameters inter) c w
  | PublicAccountTypeGetLinkTargetFunctionName =>
      function_made_once getLinkTargetFunction
        (accountGetLinkTargetFunction methods inter
           (PublicAccountTypeGetLinkTargetFunctionType sema) address) c w
  | PublicAccountTypeGetCapabilityFunctionName =>
      function_made_once getCapabilityFunction_
        (fun w =>
           Ok (getCapabilityFunction methods gauge address
                 (PublicPathType sema)
                 (PublicAccountTypeGetCapabilityFunctionType sema), w)) c w
  | PublicAccountOtherName => Ok (None, (c, w))
  end.

(** The variable a case keeps what it made in, if it keeps it. *)
Definition AuthAccount_variable (name : AuthAccountName) : option Variable_ :=
  match name with
  | AuthAccountTypeContractsFieldName => Some contracts
  | AuthAccountTypeKeysFieldName => Some keys
  | AuthAccountTypeInboxFieldName => Some inbox
  | AuthAccountTypeCapabilitiesFieldName => Some capabilities
  | AuthAccountTypeForEachPublicFunctionName => Some forEachPublicFunction
  | AuthAccountTypeForEachPrivateFunctionName => Some forEachPrivateFunction
  | AuthAccountTypeForEachStoredFunctionName => Some forEachStoredFunction
  | AuthAccountTypeTypeFunctionName => Some typeFunction
  | AuthAccountTypeLoadFunctionName => Some loadFunction
  | AuthAccountTypeCopyFunctionName => Some copyFunction
  | AuthAccountTypeSaveFunctionName => Some saveFunction
  | AuthAccountTypeBorrowFunctionName => Some borrowFunction
  | AuthAccountTypeCheckFunctionName => Some checkFunction
  | AuthAccountTypeLinkFunctionName => Some linkFunction
  | AuthAccountTypeLinkAccountFunctionName => Some linkAccountFunction
  | AuthAccountTypeUnlinkFunctionName => Some unlinkFunction
  | AuthAccountTypeGetLinkTargetFunctionName => Some getLinkTargetFunction
  | AuthAccountTypeGetCapabilityFunctionName => Some getCapabilityFunction_
  | _ => None
  end.

Definition PublicAccount_variable (name : PublicAccountName) : option Variable_ :=
  match name with
  | PublicAccountTypeKeysFieldName => Some keys
  | PublicAccountTypeContractsFieldName => Some contracts
  | PublicAccountTypeCapabilitiesFieldName => Some capabilities
  | PublicAccountTypeForEachPublicFunctionName => Some forEachPublicFunction
  | PublicAccountTypeGetLinkTargetFunctionName => Some getLinkTargetFunction
  | PublicAccountTypeGetCapabilityFunctionName => Some getCapabilityFunction_
  | _ => None
  end.

End Accounts.

Arguments MemberValue {SemaType StaticType InterpreterState FunctionType}.
Arguments MemberFunction {SemaType StaticType InterpreterState FunctionType}.
Arguments assign {SemaType StaticType InterpreterState FunctionType}.
Arguments nothing_made {SemaType StaticType InterpreterState FunctionType}.
Arguments made_once {SemaType StaticType InterpreterState FunctionType W}.
Arguments function_made_once {SemaType StaticType InterpreterState FunctionType W}.
Arguments asked {SemaType StaticType InterpreterState FunctionType W}.
Arguments AuthAccount_computeField
  {SemaType StaticType InterpreterState FunctionType MemoryGauge Inter W}.
Arguments PublicAccount_computeField
  {SemaType StaticType InterpreterState FunctionType MemoryGauge Inter W}.

(** ** The strings of the account values *)

Section Strings.

(** [common.UseMemory] and [AddressValue.MeteredString], on the state of
    the memory gauge; metering can panic. The address is the parameter of
    the constructor. *)
Variable G : Type.
Variable MemoryUsage : Type.
Variable UseMemory : MemoryUsage -> G -> Result Fault G.
Variable Address_MeteredString : Address -> G -> Result Fault (string * G).
Variable address : Address.

(** The closure [stringer] of a constructor, over the string it captures:
    the usage it meters and the name it prints are what the three
    constructors differ in. *)
Definition stringer (usage : MemoryUsage) (typeName : string)
    (str : string) (memoryGauge : G) : Result Fault (string * (string * G)) :=
  if bool_decide (str = "") then
    memoryGauge ← UseMemory usage memoryGauge;
    '(addressStr, memoryGauge) ← Address_MeteredString address memoryGauge;
    let str := typeName +:+ "(" +:+ addressStr +:+ ")" in
    Ok (str, (str, memoryGauge))
  else Ok (str, (str, memoryGauge)).

Variable AuthAccountValueStringMemoryUsage : MemoryUsage.
Variable PublicAccountValueStringMemoryUsage : MemoryUsage.
Variable AuthAccountStorageCapabilitiesStringMemoryUsage : MemoryUsage.

(** The closure [stringer] of [NewAuthAccountValue]. *)
Definition AuthAccount_stringer :=
  stringer AuthAccountValueStringMemoryUsage "AuthAccount".

(** The closure [stringer] of [NewPublicAccountValue]. *)
Definition PublicAccount_stringer :=
  stringer PublicAccountValueStringMemoryUsage "PublicAccount".

(** The closure [stringer] of [NewAuthAccountStorageCapabilitiesValue]. *)
Definition AuthAccountStorageCapabilities_stringer :=
  stringer AuthAccountStorageCapabilitiesStringMemoryUsage
    "AuthAccount.StorageCapabilities".

End Strings.

Arguments stringer {G MemoryUsage}.
Arguments AuthAccount_stringer {G MemoryUsage}.
Arguments PublicAccount_stringer {G MemoryUsage}.
Arguments AuthAccountStorageCapabilities_stringer {G MemoryUsage}.

End AccountValues.

(** * The parser of declarations (runtime/parser: declaration.go,
      function.go)

    The functions of the parser work on a cursor into the tokens of the
    lexer: the current token, [next], and the skipping of white space and
    comments. The cursor itself (parser.go) and the lexer are other files of
    the package; the cursor is modelled by the tokens that are still to be
    read, the current one first, followed by the end of the input, which is
    never passed. A comment is one token. The parsers of types, expressions
    and blocks are parameters. A function that returns an error, or panics,
    ends the parse; what it returns beside the error is used by no caller
    and is left out. The loops have no bound in the code: here they are given
    a number of turns, and [OutOfFuel] tells that it did not suffice. *)

Module Parser.

(** ** Tokens (package lexer) *)

(** The token types the two files name, and the others. White space and
    comments are the tokens of type [TokenSpace], [TokenLineComment] and
    [TokenBlockComment]. *)
Inductive TokenType :=
| TokenEOF
| TokenSpace
| TokenLineComment
| TokenBlockComment
| TokenIdentifier
| TokenString
| TokenHexadecimalIntegerLiteral
| TokenParenOpen
| TokenParenClose
| TokenBraceOpen
| TokenBraceClose
| TokenComma
| TokenColon
| TokenSemicolon
| TokenPragma
| TokenEqual
| TokenLeftArrow
| TokenLeftArrowExclamation
| TokenOther (n : nat).

#[global] Instance TokenType_eq_dec : EqDecision TokenType.
Proof. solve_decision. Defined.

Definition Position := nat.

(** type lexer.Token. The value of an identifier or of a literal is its
    text; other tokens have none. *)
Record Token := mkToken {
  Type_ : TokenType;
  Value : option string;
  StartPos : Position;
  EndPos : Position;
}.

(** func Token.Is *)
Definition Is (t : Token) (tokenType : TokenType) : bool :=
  bool_decide (Type_ t = tokenType).

(** ** Keywords (package constants) *)

Definition KeywordLet : string := "let".
Definition KeywordVar : string := "var".
Definition KeywordFun : string := "fun".
Definition KeywordImport : string := "import".
Definition KeywordFrom : string := "from".
Definition KeywordEvent : string := "event".
Definition KeywordStruct : string := "struct".
Definition KeywordResource : string := "resource".
Definition KeywordContract : string := "contract".
Definition KeywordEnum : string := "enum".
Definition KeywordTransaction : string := "transaction".
Definition KeywordCase : string := "case".
Definition KeywordPriv : string := "priv".
Definition KeywordPub : string := "pub".
Definition KeywordAccess : string := "access".
Definition KeywordSet : string := "set".
Definition KeywordAll : string := "all".
Definition KeywordAccount : string := "account".
Definition KeywordSelf : string := "self".

(** ** Errors *)

(** What is formatted into the message of a syntax error. *)
Inductive Param :=
| ParamTokenType (t : TokenType)
| ParamValue (v : option string)
| ParamString (s : string)
| ParamWords (words : list string) (conjunction : string).

Inductive Error :=
| SyntaxError (Pos : Position) (Message : string) (params : list Param)
| MissingCommaInParameterListError (Pos : Position)
| UnreachableError
| UnexpectedError
| TypeAssertionError
| SliceBoundsError.

(** How a loop of the parser ends when it is not given enough iterations. *)
Inductive Outcome (A : Type) :=
| Done (r : Result Error A)
| OutOfFuel.
Arguments Done {A}.
Arguments OutOfFuel {A}.

(** ** The cursor *)

Record parser := mkParser {
  tokens : list Token;
  errors : list Error;
}.

(** The token at the end of the input. *)
Definition EOF : Token :=
  {| Type_ := TokenEOF; Value := None; StartPos := 0; EndPos := 0 |}.

(** [p.current] *)
Definition current (p : parser) : Token := default EOF (head (tokens p)).

(** func parser.next *)
Definition next (p : parser) : parser :=
  {| tokens := tail (tokens p); errors := errors p |}.

Definition is_trivia (t : Token) : bool :=
  match Type_ t with
  | TokenSpace | TokenLineComment | TokenBlockComment => true
  | _ => false
  end.

Fixpoint skip_trivia (ts : list Token) : list Token :=
  match ts with
  | t :: rest => if is_trivia t then skip_trivia rest else ts
  | [] => []
  end.

(** func parser.skipSpaceAndComments *)
Definition skipSpaceAndComments (skipNewlines : bool) (p : parser) : parser :=
  {| tokens := skip_trivia (tokens p); errors := errors p |}.

(** func parser.report *)
Definition report (err : Error) (p : parser) : parser :=
  {| tokens := tokens p; errors := errors p ++ [err] |}.

(** func parser.syntaxError: an error at the current token. *)
Definition syntaxError (p : parser) (message : string) (params : list Param)
  : Error :=
  SyntaxError (StartPos (current p)) message params.

(** func parser.mustOne *)
Definition mustOne (tokenType : TokenType) (p : parser)
  : Result Error (Token * parser) :=
  let t := current p in
  if negb (Is t tokenType) then
    Panic (syntaxError p "expected token %s" [ParamTokenType tokenType])
  else Ok (t, next p).

(** ** The syntax trees the parsers build (package ast) *)

Inductive Access :=
| AccessNotSpecified
| AccessPrivate
| AccessContract
| AccessAccount
| AccessPublic
| AccessPublicSettable.

#[global] Instance Access_eq_dec : EqDecision Access.
Proof. solve_decision. Defined.

Record Identifier := mkIdentifier {
  Identifier_ : string;
  Identifier_Pos : Position;
}.

(** func parser.tokenToIdentifier *)
Definition tokenToIdentifier (t : Token) : Identifier :=
  {| Identifier_ := default "" (Value t); Identifier_Pos := StartPos t |}.

(** ** parseAccess *)

(** func parseAccess *)
Definition parseAccess (p : parser) : Result Error (Access * parser) :=
  if bool_decide (Value (current p) = Some KeywordPriv) then
    (* Skip the `priv` keyword *)
    let p := next p in
    Ok (AccessPrivate, p)
  else if bool_decide (Value (current p) = Some KeywordPub) then
    (* Skip the `pub` keyword *)
    let p := next p in
    let p := skipSpaceAndComments true p in
    if negb (Is (current p) TokenParenOpen) then Ok (AccessPublic, p)
    else
      (* Skip the opening paren *)
      let p := next p in
      let p := skipSpaceAndComments true p in
      if negb (Is (current p) TokenIdentifier) then
        Panic (syntaxError p "expected keyword %q, got %s"
                 [ParamString KeywordSet; ParamTokenType (Type_ (current p))])
      else if negb (bool_decide (Value (current p) = Some KeywordSet)) then
        Panic (syntaxError p "expected keyword %q, got %q"
                 [ParamString KeywordSet; ParamValue (Value (current p))])
      else
        (* Skip the `set` keyword *)
        let p := next p in
        let p := skipSpaceAndComments true p in
        '(_, p) ← mustOne TokenParenClose p;
        Ok (AccessPublicSettable, p)
  else if bool_decide (Value (current p) = Some KeywordAccess) then
    (* Skip the `access` keyword *)
    let p := next p in
    let p := skipSpaceAndComments true p in
    '(_, p) ← mustOne TokenParenOpen p;
    let p := skipSpaceAndComments true p in
    if negb (Is (current p) TokenIdentifier) then
      Panic (syntaxError p "expected keyword %s, got %s"
               [ParamWords [KeywordAll; KeywordAccount; KeywordContract;
                            KeywordSelf] "or";
                ParamTokenType (Type_ (current p))])
    else
      access ←
        (if bool_decide (Value (current p) = Some KeywordAll) then
           Ok AccessPublic
         else if bool_decide (Value (current p) = Some KeywordAccount) then
           Ok AccessAccount
         else if bool_decide (Value (current p) = Some KeywordContract) then
           Ok AccessContract
         else if bool_decide (Value (current p) = Some KeywordSelf) then
           Ok AccessPrivate
         else
           Panic (syntaxError p "expected keyword %s, got %q"
                    [ParamWords [KeywordAll; KeywordAccount; KeywordContract;
                                 KeywordSelf] "or";
                     ParamValue (Value (current p))]));
      (* Skip the keyword *)
      let p := next p in
      let p := skipSpaceAndComments true p in
      '(_, p) ← mustOne TokenParenClose p;
      Ok (access, p)
  else Panic UnreachableError.

(** The access modifiers as the comment on [parseAccess] gives them:
    [priv], [pub], [pub(set)] and [access] with one of four keywords in
    parentheses; white space and comments may stand between the tokens, and
    after [pub] it is skipped even when no parenthesis follows. The relation
    holds between the tokens to be read, the access, and the tokens left. *)
Definition keyword (k : string) (t : Token) : Prop := Value t = Some k.

Definition access_of (k : string) : option Access :=
  if bool_decide (k = KeywordAll) then Some AccessPublic
  else if bool_decide (k = KeywordAccount) then Some AccessAccount
  else if bool_decide (k = KeywordContract) then Some AccessContract
  else if bool_decide (k = KeywordSelf) then Some AccessPrivate
  else None.

Inductive access_modifier : list Token -> Access -> list Token -> Prop :=
| modifier_priv t rest :
    keyword KeywordPriv t ->
    access_modifier (t :: rest) AccessPrivate rest
| modifier_pub t ws rest :
    keyword KeywordPub t ->
    Forall (fun w => is_trivia w = true) ws ->
    is_trivia (default EOF (head rest)) = false ->
    Type_ (default EOF (head rest)) <> TokenParenOpen ->
    access_modifier (t :: ws ++ rest) AccessPublic rest
| modifier_pub_set t ws1 open ws2 set ws3 close rest :
    keyword KeywordPub t ->
    Forall (fun w => is_trivia w = true) ws1 ->
    Type_ open = TokenParenOpen ->
    Forall (fun w => is_trivia w = true) ws2 ->
    Type_ set = TokenIdentifier -> keyword KeywordSet set ->
    Forall (fun w => is_trivia w = true) ws3 ->
    Type_ close = TokenParenClose ->
    access_modifier (t :: ws1 ++ open :: ws2 ++ set :: ws3 ++ close :: rest)
      AccessPublicSettable rest
| modifier_access t ws1 open ws2 kw k access ws3 close rest :
    keyword KeywordAccess t ->
    Forall (fun w => is_trivia w = true) ws1 ->
    Type_ open = TokenParenOpen ->
    Forall (fun w => is_trivia w = true) ws2 ->
    Type_ kw = TokenIdentifier -> Value kw = Some k -> access_of k = Some access ->
    Forall (fun w => is_trivia w = true) ws3 ->
    Type_ close = TokenParenClose ->
    access_modifier (t :: ws1 ++ open :: ws2 ++ kw :: ws3 ++ close :: rest)
      access rest.

(** ** parseDeclaration *)

Section Declarations.

Context {Declaration : Type}.

(** The parsers of the single kinds of declaration, to which
    [parseDeclaration] hands over and whose result it returns. *)
Variable parsePragmaDeclaration : parser -> Result Error (Declaration * parser).
Variable parseVariableDeclaration :
  parser -> Access -> option Position -> string ->
  Result Error (Declaration * parser).
Variable parseFunctionDeclaration :
  parser -> bool -> Access -> option Position -> string ->
  Result Error (Declaration * parser).
Variable parseImportDeclaration : parser -> Result Error (Declaration * parser).
Variable parseEventDeclaration :
  parser -> Access -> option Position -> string ->
  Result Error (Declaration * parser).
Variable parseCompositeOrInterfaceDeclaration :
  parser -> Access -> option Position -> string ->
  Result Error (Declaration * parser).
Variable parseTransactionDeclaration :
  parser -> string -> Result Error (Declaration * parser).

(** A declaration that was parsed, as the result of [parseDeclaration],
    which is [nil] when no declaration starts at the cursor. *)
Definition declaration (r : Result Error (Declaration * parser))
  : Result Error (option Declaration * parser) :=
  '(d, p) ← r; Ok (Some d, p).

(** The loop of [parseDeclaration], with the variables [access] and
    [accessPos] it assigns. *)
Fixpoint parseDeclaration_loop (fuel : nat)
    (access : Access) (accessPos : option Position)
    (p : parser) (docString : string)
  : Outcome (option Declaration * parser) :=
  match fuel with
  | O => OutOfFuel
  | S fuel =>
    let p := skipSpaceAndComments true p in
    match Type_ (current p) with
    | TokenPragma =>
      if bool_decide (access <> AccessNotSpecified) then
        Done (Panic (syntaxError p "invalid access modifier for pragma" []))
      else Done (declaration (parsePragmaDeclaration p))
    | TokenIdentifier =>
      let value := Value (current p) in
      if bool_decide (value = Some KeywordLet \/ value = Some KeywordVar) then
        Done (declaration
                (parseVariableDeclaration p access accessPos docString))
      else if bool_decide (value = Some KeywordFun) then
        Done (declaration
                (parseFunctionDeclaration p false access accessPos docString))
      else if bool_decide (value = Some KeywordImport) then
        Done (declaration (parseImportDeclaration p))
      else if bool_decide (value = Some KeywordEvent) then
        Done (declaration (parseEventDeclaration p access accessPos docString))
      else if bool_decide (value = Some KeywordStruct
                           \/ value = Some KeywordResource
                           \/ value = Some KeywordContract
                           \/ value = Some KeywordEnum) then
        Done (declaration
                (parseCompositeOrInterfaceDeclaration
                   p access accessPos docString))
      else if bool_decide (value = Some KeywordTransaction) then
        if bool_decide (access <> AccessNotSpecified) then
          Done (Panic (syntaxError p "invalid access modifier for transaction"
                         []))
        else Done (declaration (parseTransactionDeclaration p docString))
      else if bool_decide (value = Some KeywordPriv
                           \/ value = Some KeywordPub
                           \/ value = Some KeywordAccess) then
        if bool_decide (access <> AccessNotSpecified) then
          Done (Panic (syntaxError p "invalid second access modifier" []))
        else
          let pos := StartPos (current p) in
          let accessPos := Some pos in
          match parseAccess p with
          | Panic err => Done (Panic err)
          | Ok (access, p) =>
            parseDeclaration_loop fuel access accessPos p docString
          end
      else Done (Ok (None, p))
    | _ => Done (Ok (None, p))
    end
  end.

(** func parseDeclaration *)
Definition parseDeclaration (fuel : nat) (p : parser) (docString : string)
  : Outcome (option Declaration * parser) :=
  parseDeclaration_loop fuel AccessNotSpecified None p docString.

(** ** parseMemberOrNestedDeclaration *)

Variable parseFieldWithVariableKind :
  parser -> Access -> option Position -> string ->
  Result Error (Declaration * parser).
Variable parseEnumCase :
  parser -> Access -> option Position -> string ->
  Result Error (Declaration * parser).
Variable parseFieldDeclarationWithoutVariableKind :
  parser -> Access -> option Position -> Identifier -> string ->
  Result Error (Declaration * parser).
Variable parseSpecialFunctionDeclaration :
  parser -> bool -> Access -> option Position -> Identifier ->
  Result Error (Declaration * parser).

(** The loop of [parseMemberOrNestedDeclaration], with the variables
    [access], [accessPos] and [previousIdentifierToken] it assigns. *)
Fixpoint parseMemberOrNestedDeclaration_loop (fuel : nat)
    (access : Access) (accessPos : option Position)
    (previousIdentifierToken : option Token)
    (p : parser) (docString : string)
  : Outcome (option Declaration * parser) :=
  let functionBlockIsOptional := true in
  match fuel with
  | O => OutOfFuel
  | S fuel =>
    let p := skipSpaceAndComments true p in
    match Type_ (current p) with
    | TokenIdentifier =>
      let value := Value (current p) in
      if bool_decide (value = Some KeywordLet \/ value = Some KeywordVar) then
        Done (declaration
                (parseFieldWithVariableKind p access accessPos docString))
      else if bool_decide (value = Some KeywordCase) then
        Done (declaration (parseEnumCase p access accessPos docString))
      else if bool_decide (value = Some KeywordFun) then
        Done (declaration
                (parseFunctionDeclaration p functionBlockIsOptional access
                   accessPos docString))
      else if bool_decide (value = Some KeywordEvent) then
        Done (declaration (parseEventDeclaration p access accessPos docString))
      else if bool_decide (value = Some KeywordStruct
                           \/ value = Some KeywordResource
                           \/ value = Some KeywordContract
                           \/ value = Some KeywordEnum) then
        Done (declaration
                (parseCompositeOrInterfaceDeclaration
                   p access accessPos docString))
      else if bool_decide (value = Some KeywordPriv
                           \/ value = Some KeywordPub
                           \/ value = Some KeywordAccess) then
        if bool_decide (access <> AccessNotSpecified) then
          Done (Panic (syntaxError p "unexpected access modifier" []))
        else
          let pos := StartPos (current p) in
          let accessPos := Some pos in
          match parseAccess p with
          | Panic err => Done (Panic err)
          | Ok (access, p) =>
            parseMemberOrNestedDeclaration_loop
              fuel access accessPos previousIdentifierToken p docString
          end
      else
        match previousIdentifierToken with
        | Some _ =>
          Done (Panic (syntaxError p "unexpected %s"
                         [ParamTokenType (Type_ (current p))]))
        | None =>
          let t := current p in
          let previousIdentifierToken := Some t in
          (* Skip the identifier *)
          let p := next p in
          parseMemberOrNestedDeclaration_loop
            fuel access accessPos previousIdentifierToken p docString
        end
    | TokenColon =>
      match previousIdentifierToken with
      | None =>
        Done (Panic (syntaxError p "unexpected %s"
                       [ParamTokenType (Type_ (current p))]))
      | Some previous =>
        let identifier := tokenToIdentifier previous in
        Done (declaration
                (parseFieldDeclarationWithoutVariableKind
                   p access accessPos identifier docString))
      end
    | TokenParenOpen =>
      match previousIdentifierToken with
      | None =>
        Done (Panic (syntaxError p "unexpected %s"
                       [ParamTokenType (Type_ (current p))]))
      | Some previous =>
        let identifier := tokenToIdentifier previous in
        Done (declaration
                (parseSpecialFunctionDeclaration
                   p functionBlockIsOptional access accessPos identifier))
      end
    | _ => Done (Ok (None, p))
    end
  end.

(** func parseMemberOrNestedDeclaration *)
Definition parseMemberOrNestedDeclaration
    (fuel : nat) (p : parser) (docString : string)
  : Outcome (option Declaration * parser) :=
  parseMemberOrNestedDeclaration_loop
    fuel AccessNotSpecified None None p docString.

End Declarations.

(** The turns the loop of [parseMemberOrNestedDeclaration] can take before
    its last: one for an access modifier and one for a name, while they have
    not been read. *)
Definition member_turns (access : Access) (previous : option Token) : nat :=
  (if bool_decide (access = AccessNotSpecified) then 1 else 0)
  + (match previous with Some _ => 0 | None => 1 end).

(** ** parseImportDeclaration *)

Section Imports.

(** common.Address and common.AddressLocation; the decoding of a hexadecimal
    literal ([hex.Decode] after the underscores are removed and a leading
    zero is added to an odd number of digits) and [common.BytesToAddress],
    which gives an address and an error message or none. *)
Context {Address : Type}.
Variable hex_Decode : string -> option (list Byte.byte).
Variable BytesToAddress : list Byte.byte -> Address * option string.

(** [parseStringLiteral] (expression.go): the string a literal denotes, and
    the errors it reports. *)
Variable parseStringLiteral : string -> string * list Error.

(** [ast.Identifier.EndPosition] *)
Variable Identifier_EndPosition : Identifier -> Position.

Record AddressLocation := mkAddressLocation {
  Address_ : Address;
  Name : string;
}.

Inductive Location :=
| StringLocation (s : string)
| AddressLocation_ (l : AddressLocation)
| IdentifierLocation (s : string).

Record ImportDeclaration := mkImportDeclaration {
  Identifiers : list Identifier;
  Location_ : option Location;
  Import_StartPos : Position;
  Import_EndPos : Position;
  LocationPos : Position;
}.

(** [strings.ReplaceAll(s, "_", "")] *)
Fixpoint remove_underscores (s : string) : string :=
  match s with
  | EmptyString => EmptyString
  | String c rest =>
      if bool_decide (c = Ascii.ascii_of_byte Byte.x5f)
      then remove_underscores rest
      else String c (remove_underscores rest)
  end.

(** func parser.reportSyntaxError *)
Definition reportSyntaxError (message : string) (p : parser) : parser :=
  report (syntaxError p message []) p.

(** func parseHexadecimalLocation. The type assertion on the value of the
    token, the slice of the literal after its two first characters and a
    literal that cannot be decoded make it panic. *)
Definition parseHexadecimalLocation (p : parser)
  : Result Error (AddressLocation * parser) :=
  match Value (current p) with
  | None => Panic TypeAssertionError
  | Some (String _ (String _ digits)) =>
      let bytes := remove_underscores digits in
      let bytes :=
        if bool_decide (String.length bytes `mod` 2 = 1)
        then String (Ascii.ascii_of_byte Byte.x30) bytes else bytes in
      match hex_Decode bytes with
      | None => Panic UnexpectedError
      | Some rawAddress =>
          let '(address, err) := BytesToAddress rawAddress in
          let p :=
            match err with
            | Some message => reportSyntaxError message p
            | None => p
            end in
          Ok ({| Address_ := address; Name := "" |}, p)
      end
  | Some _ => Panic SliceBoundsError
  end.

(** The variables the closures of [parseImportDeclaration] share. *)
Record Imported := mkImported {
  identifiers : list Identifier;
  location : option Location;
  locationPos : Position;
  endPos : Position;
}.

(** The closure [parseStringOrAddressLocation]. *)
Definition parseStringOrAddressLocation (v : Imported) (p : parser)
  : Result Error (Imported * parser) :=
  let locationPos := StartPos (current p) in
  let endPos := EndPos (current p) in
  '(location, p) ←
    match Type_ (current p) with
    | TokenString =>
        match Value (current p) with
        | None => Panic TypeAssertionError
        | Some literal =>
            let '(parsedString, errs) := parseStringLiteral literal in
            Ok (StringLocation parsedString, foldl (flip report) p errs)
        end
    | TokenHexadecimalIntegerLiteral =>
        '(l, p) ← parseHexadecimalLocation p;
        Ok (AddressLocation_ l, p)
    | _ => Panic UnreachableError
    end;
  (* Skip the location *)
  let p := next p in
  Ok ({| identifiers := identifiers v; location := Some location;
         locationPos := locationPos; endPos := endPos |}, p).

(** The closure [setIdentifierLocation]. *)
Definition setIdentifierLocation (identifier : Identifier) (v : Imported)
  : Imported :=
  {| identifiers := identifiers v;
     location := Some (IdentifierLocation (Identifier_ identifier));
     locationPos := Identifier_Pos identifier;
     endPos := Identifier_EndPosition identifier |}.

(** The closure [parseLocation]. *)
Definition parseLocation (v : Imported) (p : parser)
  : Result Error (Imported * parser) :=
  match Type_ (current p) with
  | TokenString | TokenHexadecimalIntegerLiteral =>
      parseStringOrAddressLocation v p
  | TokenIdentifier =>
      let identifier := tokenToIdentifier (current p) in
      let v := setIdentifierLocation identifier v in
      let p := next p in
      Ok (v, p)
  | _ =>
      Panic (syntaxError p
               "unexpected token in import declaration: got %s, expected string, address, or identifier"
               [ParamTokenType (Type_ (current p))])
  end.

(** func isNextTokenCommaOrFrom. It looks at the token that follows between
    [startBuffering] and [replayBuffered] (parser.go), which are taken to
    put the cursor back where it was, without an error. *)
Definition isNextTokenCommaOrFrom (p : parser) : bool :=
  (* skip the current token *)
  let p := next p in
  let p := skipSpaceAndComments true p in
  match Type_ (current p) with
  | TokenIdentifier => bool_decide (Value (current p) = Some KeywordFrom)
  | TokenComma => true
  | _ => false
  end.

Definition append_identifier (identifier : Identifier) (v : Imported)
  : Imported :=
  {| identifiers := identifiers v ++ [identifier]; location := location v;
     locationPos := locationPos v; endPos := endPos v |}.

(** The closure [parseMoreIdentifiers]: its loop, with the variable
    [expectCommaOrFrom]; it ends with [atEnd] set. *)
Fixpoint parseMoreIdentifiers_loop (fuel : nat) (expectCommaOrFrom : bool)
    (v : Imported) (p : parser) : Outcome (Imported * parser) :=
  match fuel with
  | O => OutOfFuel
  | S fuel =>
    let p := next p in
    let p := skipSpaceAndComments true p in
    match Type_ (current p) with
    | TokenComma =>
      if negb expectCommaOrFrom then
        Done (Panic (syntaxError p "expected %s or Keyword %q, got %s"
                       [ParamTokenType TokenIdentifier; ParamString KeywordFrom;
                        ParamTokenType (Type_ (current p))]))
      else
        let expectCommaOrFrom := false in
        parseMoreIdentifiers_loop fuel expectCommaOrFrom v p
    | TokenIdentifier =>
      let more (_ : unit) :=
        let identifier := tokenToIdentifier (current p) in
        let v := append_identifier identifier v in
        let expectCommaOrFrom := true in
        parseMoreIdentifiers_loop fuel expectCommaOrFrom v p in
      if bool_decide (Value (current p) = Some KeywordFrom) then
        if expectCommaOrFrom then
          (* Skip the `from` keyword *)
          let p := next p in
          let p := skipSpaceAndComments true p in
          Done (parseLocation v p)
        else if negb (isNextTokenCommaOrFrom p) then
          Done (Panic (syntaxError p "expected %s, got keyword %q"
                         [ParamTokenType TokenIdentifier;
                          ParamValue (Value (current p))]))
        else more tt
      else more tt
    | TokenEOF =>
      Done (Panic (syntaxError p
                     "unexpected end in import declaration: expected %s or %s"
                     [ParamTokenType TokenIdentifier;
                      ParamTokenType TokenComma]))
    | _ =>
      Done (Panic (syntaxError p
                     "unexpected token in import declaration: got %s, expected keyword %q or %s"
                     [ParamTokenType (Type_ (current p));
                      ParamString KeywordFrom; ParamTokenType TokenComma]))
    end
  end.

(** The closure [maybeParseFromIdentifier]. *)
Definition maybeParseFromIdentifier (identifier : Identifier)
    (v : Imported) (p : parser) : Result Error (Imported * parser) :=
  if bool_decide (Value (current p) = Some KeywordFrom) then
    let v := append_identifier identifier v in
    (* Skip the `from` keyword *)
    let p := next p in
    let p := skipSpaceAndComments true p in
    parseLocation v p
  else Ok (setIdentifierLocation identifier v, p).

(** func parseImportDeclaration *)
Definition parseImportDeclaration (fuel : nat) (p : parser)
  : Outcome (ImportDeclaration * parser) :=
  let startPosition := StartPos (current p) in
  let v := {| identifiers := []; location := None;
              locationPos := 0; endPos := 0 |} in
  (* Skip the `import` keyword *)
  let p := next p in
  let p := skipSpaceAndComments true p in
  let parsed : Outcome (Imported * parser) :=
    match Type_ (current p) with
    | TokenString | TokenHexadecimalIntegerLiteral =>
        Done (parseStringOrAddressLocation v p)
    | TokenIdentifier =>
        let identifier := tokenToIdentifier (current p) in
        (* Skip the identifier *)
        let p := next p in
        let p := skipSpaceAndComments true p in
        match Type_ (current p) with
        | TokenComma =>
            let v := append_identifier identifier v in
            parseMoreIdentifiers_loop fuel false v p
        | TokenIdentifier => Done (maybeParseFromIdentifier identifier v p)
        | TokenEOF => Done (Ok (setIdentifierLocation identifier v, p))
        | _ =>
            Done (Panic (syntaxError p
                           "unexpected token in import declaration: got %s, expected keyword %q or %s"
                           [ParamTokenType (Type_ (current p));
                            ParamString KeywordFrom; ParamTokenType TokenComma]))
        end
    | TokenEOF =>
        Done (Panic (syntaxError p
                       "unexpected end in import declaration: expected string, address, or identifier"
                       []))
    | _ =>
        Done (Panic (syntaxError p
                       "unexpected token in import declaration: got %s, expected string, address, or identifier"
                       [ParamTokenType (Type_ (current p))]))
    end in
  match parsed with
  | OutOfFuel => OutOfFuel
  | Done (Panic err) => Done (Panic err)
  | Done (Ok (v, p)) =>
      Done (Ok ({| Identifiers := identifiers v;
                   Location_ := location v;
                   Import_StartPos := startPosition;
                   Import_EndPos := endPos v;
                   LocationPos := locationPos v |}, p))
  end.

End Imports.

(** A list of imported names as the comment on [parseImportDeclaration]
    gives it: identifiers other than [from], separated by commas, with white
    space and comments allowed after every token. The relation holds between
    the tokens of the list and the tokens of the names. *)
Definition imported_name (n : Token) : Prop :=
  Type_ n = TokenIdentifier /\ Value n <> Some KeywordFrom.

Inductive import_list : list Token -> list Token -> Prop :=
| import_list_last n ws :
    imported_name n ->
    Forall (fun w => is_trivia w = true) ws ->
    import_list (n :: ws) [n]
| import_list_cons n ws comma ws' ts names :
    imported_name n ->
    Forall (fun w => is_trivia w = true) ws ->
    Type_ comma = TokenComma ->
    Forall (fun w => is_trivia w = true) ws' ->
    import_list ts names ->
    import_list (n :: ws ++ comma :: ws' ++ ts) (n :: names).

(** ** parseParameterList (function.go) *)

Section Parameters.

Context {AstParameter : Type}.

(** func parseParameter, which parses one parameter: its names and the
    annotation of its type. *)
Variable parseParameter : parser -> Result Error (AstParameter * parser).

Record ParameterList := mkParameterList {
  Parameters_ : list AstParameter;
  ParameterList_StartPos : Position;
  ParameterList_EndPos : Position;
}.

(** The loop of [parseParameterList], with the variables [expectParameter]
    and [parameters] it assigns; it ends with [atEnd] set, and then gives the
    parameters and [endPos]. *)
Fixpoint parseParameterList_loop (fuel : nat)
    (expectParameter : bool) (parameters : list AstParameter) (p : parser)
  : Outcome (list AstParameter * Position * parser) :=
  match fuel with
  | O => OutOfFuel
  | S fuel =>
    let p := skipSpaceAndComments true p in
    match Type_ (current p) with
    | TokenIdentifier =>
      let p :=
        if negb expectParameter then
          report (MissingCommaInParameterListError (StartPos (current p))) p
        else p in
      match parseParameter p with
      | Panic err => Done (Panic err)
      | Ok (parameter, p) =>
        let parameters := parameters ++ [parameter] in
        let expectParameter := false in
        parseParameterList_loop fuel expectParameter parameters p
      end
    | TokenComma =>
      if expectParameter then
        Done (Panic (syntaxError p
                       "expected parameter or end of parameter list, got %s"
                       [ParamTokenType (Type_ (current p))]))
      else
        (* Skip the comma *)
        let p := next p in
        let expectParameter := true in
        parseParameterList_loop fuel expectParameter parameters p
    | TokenParenClose =>
      let endPos := EndPos (current p) in
      (* Skip the closing paren *)
      let p := next p in
      Done (Ok (parameters, endPos, p))
    | TokenEOF =>
      Done (Panic (syntaxError p "missing %s at end of parameter list"
                     [ParamTokenType TokenParenClose]))
    | _ =>
      if expectParameter then
        Done (Panic (syntaxError p
                       "expected parameter or end of parameter list, got %s"
                       [ParamTokenType (Type_ (current p))]))
      else
        Done (Panic (syntaxError p
                       "expected comma or end of parameter list, got %s"
                       [ParamTokenType (Type_ (current p))]))
    end
  end.

(** func parseParameterList *)
Definition parseParameterList (fuel : nat) (p : parser)
  : Outcome (ParameterList * parser) :=
  let p := skipSpaceAndComments true p in
  if negb (Is (current p) TokenParenOpen) then
    Done (Panic (syntaxError p
                   "expected %s as start of parameter list, got %s"
                   [ParamTokenType TokenParenOpen;
                    ParamTokenType (Type_ (current p))]))
  else
    let startPos := StartPos (current p) in
    (* Skip the opening paren *)
    let p := next p in
    match parseParameterList_loop fuel true [] p with
    | OutOfFuel => OutOfFuel
    | Done (Panic err) => Done (Panic err)
    | Done (Ok (parameters, endPos, p)) =>
      Done (Ok ({| Parameters_ := parameters;
                   ParameterList_StartPos := startPos;
                   ParameterList_EndPos := endPos |}, p))
    end.

End Parameters.

Arguments ParameterList : clear implicits.

End Parser.

(** * Concrete instances

    Small instances of the parameters above, on which the definitions can
    be evaluated. *)

(** A concrete instance: sema types are numbered, and two are equal when
    their numbers are. *)
Definition nat_sema_Equal (t : nat) (other : option nat) : bool :=
  match other with
  | Some u => Nat.eqb t u
  | None => false
  end.

Definition sample_reference : Interpreter.AccountReferenceValue nat nat :=
  {| Interpreter.BorrowedType := Some 7;
     Interpreter._authAccount := None;
     Interpreter.Address_ := 1%N |}.

(** A concrete instance: static and sema types are the three path types and
    references, with public paths below capability paths. *)
Inductive sample_type := SamplePublicPath | SampleStoragePath | SampleCapabilityPath
                       | SampleReference.

Definition sample_path_type (_ : unit) (p : Interpreter.PathValue) : sample_type :=
  match Interpreter.Domain p with
  | Interpreter.PathDomainStorage => SampleStoragePath
  | _ => SamplePublicPath
  end.

Definition sample_subtype (_ : unit) (sub super : sample_type) : bool :=
  match sub, super with
  | SamplePublicPath, SampleCapabilityPath => true
  | SamplePublicPath, SamplePublicPath => true
  | SampleStoragePath, SampleStoragePath => true
  | _, _ => false
  end.

Definition sample_is_reference (t : sample_type) : bool :=
  match t with SampleReference => true | _ => false end.

Definition sample_invocation : Interpreter.Invocation sample_type sample_type unit :=
  Interpreter.mkInvocation
    [Interpreter.VPath (Interpreter.mkPathValue Interpreter.PathDomainPublic "r")]
    [("T", SampleReference)] tt (Interpreter.mkLocationRange 1 1).


(** * The programs of the tests, as statements of the model

    Each Cadence program is written out as the sequence of creations,
    moves, reference-takes and destroys its evaluation performs, with one
    variable per binding (parameters and results included). *)

Module Scenarios.

Import Resources.

Definition var (x : string) : Place := (RVar x, []).

(** No type of these programs declares a destructor of its own. *)
Definition no_destructors (ty : string) : list Cmd := [].

(** TestRuntimeInvalidatedResourceUse: the attacker wraps the victim's
    vault, calls [r.vault.withdraw(amount: r.shenanigans())], and swaps the
    vault away while the argument is evaluated. *)
Definition rug_pull_attack : list Cmd := [
  (* var v1 <- VictimContract.faucet() *)
  CCreate "v1" "Vault" [("balance", 5%Z)];
  (* doubleBalanceOfVault(<- v1): the parameter victim *)
  CMove (var "v1") (var "victim");
  (* create AttackerResource(vault: <- victim): the instance, the parameter *)
  CCreate "self" "AttackerResource" [];
  CMove (var "victim") (var "vault");
  (* self.vault <- vault *)
  CMove (var "vault") (RVar "self", ["vault"]);
  (* self.firstCopy <- self.vault.withdraw(amount: 0.0) *)
  CSet (RVar "self", ["vault"; "balance"]) 5;
  CCreate "withdrawn0" "Vault" [("balance", 0%Z)];
  CMove (var "withdrawn0") (RVar "self", ["firstCopy"]);
  (* var r <- the new instance *)
  CMove (var "self") (var "r");
  (* r.vault.withdraw(...): the receiver is bound before the argument *)
  CRef "receiver" (RVar "r", ["vault"]);
  (* r.shenanigans(): let fullBalance = self.vault.balance *)
  CGet "fullBalance" (RVar "r", ["vault"; "balance"]);
  (* var withdrawn <- self.vault.withdraw(amount: 0.0) *)
  CSet (RVar "r", ["vault"; "balance"]) 5;
  CCreate "withdrawn1" "Vault" [("balance", 0%Z)];
  CMove (var "withdrawn1") (var "withdrawn");
  (* self.vault <-> withdrawn *)
  CSwap (RVar "r", ["vault"]) (var "withdrawn");
  (* self.firstCopy.deposit(from: <- withdrawn) *)
  CMove (var "withdrawn") (var "from");
  CSet (RVar "r", ["firstCopy"; "balance"]) 5;
  CDestroy (var "from");
  (* withdraw runs on the receiver: self.balance = self.balance - amount *)
  CGet "balance" (RVar "receiver", ["balance"])
].

(** TestRuntimeInvalidRecursiveTransferViaVariableDeclaration: the
    destructor of Holder moves the array of vaults into its own first
    element. *)
Definition holder_destructors (ty : string) : list Cmd :=
  if String.eqb ty "Holder" then
    [ (* var t <- self.vaults[0] <- self.vaults *)
      CMove (RSelf, ["vaults"; "0"]) (var "t");
      CMove (RSelf, ["vaults"]) (RSelf, ["vaults"; "0"]);
      CDestroy (var "t") ]
  else [].

Definition recursive_transfer : list Cmd := [
  (* Test.createHolder(<-[<-Test.dummy(), <-Test.dummy()]) *)
  CCreate "dummy0" "Dummy" [];
  CCreate "dummy1" "Dummy" [];
  CCreate "vaults" "Array" [];
  CMove (var "dummy0") (RVar "vaults", ["0"]);
  CMove (var "dummy1") (RVar "vaults", ["1"]);
  CCreate "self" "Holder" [];
  CMove (var "vaults") (RVar "self", ["vaults"]);
  CMove (var "self") (var "holder");
  (* destroy holder *)
  CDestroy (var "holder")
].

(** A resource whose destructor destroys the instance once more, through
    the variable that holds it. *)
Definition reentrant_destructors (ty : string) : list Cmd :=
  if String.eqb ty "R" then [CDestroy (var "r")] else [].

Definition reentrant_destroy : list Cmd := [
  CCreate "r" "R" [];
  CDestroy (var "r")
].

(** TestRuntimeDestructorReentrancyPrevention: the destructor of the outer
    resource destroys its field [inner]; the destructor of the inner
    resource goes back, through the reference [parent] it was created with,
    to the outer resource, whose function [reenter] moves the field [inner]
    out and destroys it. *)
Definition outer_inner_destructors (ty : string) : list Cmd :=
  if String.eqb ty "OuterResource" then
    [ (* destroy self.inner *)
      CDestroy (RSelf, ["inner"]) ]
  else if String.eqb ty "InnerResource" then
    [ (* self.parent.reenter(): let inner <- self.inner <- nil *)
      CMove (RVar "parent", ["inner"]) (var "reentered");
      (* destroy inner *)
      CDestroy (var "reentered") ]
  else [].

Definition destructor_reentrancy : list Cmd := [
  (* var r <- create OuterResource(...), whose initializer creates the
     inner resource with parent: &self as &OuterResource *)
  CCreate "r" "OuterResource" [];
  CCreate "inner" "InnerResource" [];
  CMove (var "inner") (RVar "r", ["inner"]);
  CRef "parent" (var "r");
  (* destroy r *)
  CDestroy (var "r")
].

(** TestRuntimeStorageMultipleTransactionsResourceField: three
    transactions on the account 42. *)
Definition save_transaction : list Cmd := [
  (* signer.storage.save(<-createNumber(42), to: /storage/number) *)
  CCreate "number" "SomeNumber" [("n", 42%Z)];
  CSave (var "number") 42 "number"
].

Definition load_transaction : list Cmd := [
  (* if let number <- signer.storage.load<@SomeNumber>(from: /storage/number) *)
  CLoad "number" "SomeNumber" 42 "number";
  (* log(number.n) *)
  CLog (RVar "number", ["n"]);
  (* destroy number *)
  CDestroy (var "number")
].

End Scenarios.

(** * States to evaluate on *)

Module Samples.

Import Resources Scenarios.

(** A holder that owns an array of vaults. *)
Definition holder_state : State :=
  fst (run no_destructors 1
         [ CCreate "vaults" "Array" [];
           CCreate "holder" "Holder" [];
           CMove (var "vaults") (RVar "holder", ["vaults"]) ]
         empty_state).

(** The handle the field [vaults] of the holder holds. *)
Definition vaults_handle : Handle := mkHandle 0 1.

(** A resource in the variable x. *)
Definition one_resource : State :=
  fst (run no_destructors 1 [CCreate "x" "R" [("n", 42%Z)]] empty_state).

(** The resource moved on to y, with a reference to it. *)
Definition referenced : State :=
  fst (run no_destructors 1
         [ CCreate "x" "R" [("n", 42%Z)];
           CMove (var "x") (var "y") ]
         empty_state).

(** A reference to the resource of [referenced] was taken and copied. *)
Definition reference_copied : State :=
  fst (run no_destructors 1
         [ CCreate "x" "R" [("n", 42%Z)];
           CMove (var "x") (var "y");
           CRef "ref" (var "y");
           CGet "copy" (var "ref") ]
         empty_state).

(** The resource was destroyed then. *)
Definition target_destroyed : State :=
  fst (run no_destructors 1
         [ CCreate "x" "R" [("n", 42%Z)];
           CMove (var "x") (var "y");
           CRef "ref" (var "y");
           CGet "copy" (var "ref");
           CDestroy (var "y") ]
         empty_state).

(** The program of [destructor_reentrancy] before its last statement, the
    destroy of the outer resource. *)
Definition before_destroy : State :=
  fst (run outer_inner_destructors 1
         [ CCreate "r" "OuterResource" [];
           CCreate "inner" "InnerResource" [];
           CMove (var "inner") (RVar "r", ["inner"]);
           CRef "parent" (var "r") ]
         empty_state).

(** The state the destructor of the outer resource starts in. *)
Definition in_outer_destructor : State :=
  set_self (Some 0) (mark_destroyed 0 before_destroy).

(** The state the destructor of the inner resource starts in. *)
Definition in_inner_destructor : State :=
  set_self (Some 1) (mark_destroyed 1 in_outer_destructor).

Definition the_slot (r : Result Error (list ObjId * Slot)) : list ObjId * Slot :=
  match r with
  | Ok r => r
  | Panic _ => ([], SVar "")
  end.

End Samples.

(** * Concrete inputs for the host side and for the Test contract *)

Module HostSamples.

Import Bytes TestLedger.

(** An account address, a storage key and a value. *)
Definition owner1 : list Byte.byte :=
  [Byte.x00; Byte.x00; Byte.x00; Byte.x00; Byte.x00; Byte.x00; Byte.x00; Byte.x01].
Definition owner2 : list Byte.byte :=
  [Byte.x00; Byte.x00; Byte.x00; Byte.x00; Byte.x00; Byte.x00; Byte.x00; Byte.x02].
Definition key1 : list Byte.byte := [Byte.x6b].
Definition value1 : list Byte.byte := [Byte.x2a].

(** A write, two allocations for one owner with one for another in between,
    and a read. *)
Definition ledger_calls : list Call :=
  [CallSetValue owner1 key1 value1;
   CallAllocateStorageIndex owner1;
   CallAllocateStorageIndex owner2;
   CallAllocateStorageIndex owner1;
   CallGetValue owner1 key1].

(** A backend that keeps the transactions of the current block in a queue:
    it executes them in the order they were added, has no next transaction
    when the queue is empty, and refuses to commit while it is not. *)
Definition queue_backend
  : TestContract.BlockchainBackend nat nat (list nat) :=
  {| TestContract.backend_addTransaction := fun tx b => Ok (b ++ [tx]);
     TestContract.backend_executeNextTransaction := fun b =>
       match b with
       | [] => Ok (None, [])
       | tx :: rest =>
           Ok (Some {| TestContract.status := TestContract.succeeded;
                       TestContract.error := None |}, rest)
       end;
     TestContract.backend_commitBlock := fun b =>
       match b with
       | [] => Ok []
       | _ :: _ => Panic (TestContract.BackendError "pending transactions")
       end |}.

End HostSamples.
(** * Concrete inputs for account values, the program cache, the runtime and the parser *)

Module AccountSamples.

Import Interpreter.

(** A host that answers with the address it was asked for and counts how
    often it was asked. *)
Definition counting_handler (a : Address) (asked : nat)
  : option (Value nat) * nat :=
  (Some (VAddress a), S asked).

(** A heap with one reference, whose account was not made yet, and the heap
    after the account was made. *)
Definition one_reference : gmap nat (AccountReferenceValue nat nat) :=
  {[ 0 := sample_reference ]}.

Definition made_reference : AccountReferenceValue nat nat :=
  {| BorrowedType := Some 7;
     _authAccount := Some (VAddress 1%N);
     Address_ := 1%N |}.

Definition one_made_reference : gmap nat (AccountReferenceValue nat nat) :=
  {[ 0 := made_reference ]}.

(** The parameters of an account whose constructors and functions count the
    calls made to them. *)
Definition counted_function (funcType : nat)
  : HostFunctionValue nat nat nat nat :=
  {| Type_ := funcType; Function := fun _ => Ok (VInt 0) |}.

Definition counted_member (typeID : string) (w : nat)
  : Result AccountValues.Fault
      (option (AccountValues.Member (SemaType := nat) (StaticType := nat)
                 (InterpreterState := nat) (FunctionType := nat)) * nat) :=
  Ok (Some (AccountValues.MemberValue (VSimpleComposite typeID)), S w).

Definition counted_value (n : Z) (w : nat)
  : Result AccountValues.Fault (Value nat * nat) :=
  Ok (VInt n, S w).

Definition made_function (funcType : nat) (w : nat)
  : Result AccountValues.Fault (HostFunctionValue nat nat nat nat * nat) :=
  Ok (counted_function funcType, S w).

Definition counted_parameters
  : AccountValues.Parameters (SemaType := nat) (StaticType := nat)
      (InterpreterState := nat) (FunctionType := nat) (MemoryGauge := unit)
      unit nat :=
  AccountValues.mkParameters unit nat tt 1%N
    (counted_value 10) (counted_value 9)
    (fun _ => counted_value 8) (fun _ => counted_value 7)
    (counted_member "contracts") (counted_member "keys")
    (counted_member "inbox") (counted_member "capabilities").

Definition counted_methods
  : AccountValues.Methods (SemaType := nat) (StaticType := nat)
      (InterpreterState := nat) (FunctionType := nat) (MemoryGauge := unit)
      unit nat :=
  AccountValues.mkMethods unit nat
    (fun _ _ _ => counted_value 1) (fun _ _ _ => counted_value 2)
    (fun _ _ _ => counted_value 3)
    (fun _ funcType _ _ _ => made_function funcType)
    (fun _ _ => made_function 20) (fun _ _ => made_function 21)
    (fun _ _ => made_function 22) (fun _ _ => made_function 23)
    (fun _ _ => made_function 24) (fun _ _ => made_function 25)
    (fun _ _ => made_function 26) (fun _ _ => made_function 27)
    (fun _ _ => made_function 28)
    (fun _ funcType _ => made_function funcType)
    (fun _ _ _ funcType => counted_function funcType).

Definition numbered_sema : AccountValues.Sema (SemaType := nat) (FunctionType := nat) :=
  AccountValues.mkSema 1 2 3 4 5 6 7 8 11 12 13 14.

(** A memory gauge that adds up what is used, and an address printed the
    same for every address. *)
Definition adding_UseMemory (usage : nat) (g : nat) : Result AccountValues.Fault nat :=
  Ok (g + usage).

Definition fixed_MeteredString (a : Address) (g : nat)
  : Result AccountValues.Fault (string * nat) :=
  Ok ("0x1", S g).

End AccountSamples.

Module ParserSamples.

Import Parser.

Definition word (value : string) (pos : Position) : Token :=
  {| Type_ := TokenIdentifier; Value := Some value;
     StartPos := pos; EndPos := pos + String.length value |}.

Definition sign (type : TokenType) (pos : Position) : Token :=
  {| Type_ := type; Value := None; StartPos := pos; EndPos := pos + 1 |}.

(** The tokens of [pub(set) var], [pub fun] and [pub pub]. *)
Definition pub_set_var : list Token :=
  [word "pub" 0; sign TokenParenOpen 3; word "set" 4; sign TokenParenClose 7;
   sign TokenSpace 8; word "var" 9].

Definition pub_fun : list Token :=
  [word "pub" 0; sign TokenSpace 3; word "fun" 4].

(** The tokens of [init priv(], of a member. *)
Definition init_priv : list Token :=
  [word "init" 0; sign TokenSpace 4; word "priv" 5; sign TokenParenOpen 9].

(** The tokens of [(a, b)], of a parameter list. *)
Definition two_parameters : list Token :=
  [sign TokenParenOpen 0; word "a" 1; sign TokenComma 2; sign TokenSpace 3;
   word "b" 4; sign TokenParenClose 5].

(** Parsers that read one token and return the name given to them. *)
Definition one_token (name : string) (p : parser)
  : Result Error (string * parser) :=
  Ok (name, next p).

(** A parser of parameters that reads the name of the parameter only. *)
Definition name_only (p : parser) : Result Error (string * parser) :=
  match tokens p with
  | t :: rest =>
      Ok (default "" (Value t), {| tokens := rest; errors := errors p |})
  | [] => Panic (syntaxError p "expected a parameter" [])
  end.

(** The tokens of [import a, b from x], and the helpers of the parser of
    imports: no hexadecimal literal can be decoded, a string literal denotes
    itself, and an identifier ends at its last character. *)
Definition import_a_b_from_x : list Token :=
  [word "import" 0; sign TokenSpace 6; word "a" 7; sign TokenComma 8;
   sign TokenSpace 9; word "b" 10; sign TokenSpace 11; word "from" 12;
   sign TokenSpace 16; word "x" 17].

Definition no_hex (digits : string) : option (list Byte.byte) := None.

Definition no_address (bytes : list Byte.byte) : N * option string :=
  (0%N, None).

Definition literal_string (literal : string) : string * list Error :=
  (literal, []).

Definition last_character (identifier : Identifier) : Position :=
  Identifier_Pos identifier + String.length (Identifier_ identifier) - 1.

End ParserSamples.

Module CacheSamples.

Import TestRuntimeInterface.

Definition hello_location : Location := AddressLocation 1 "HelloWorld".

(** The two versions of the contract code. *)
Definition hello1 : Code := [Byte.x31].
Definition hello2 : Code := [Byte.x32; Byte.x32].

(** A parser that allocates the program of a code at its length. *)
Definition sample_parse (code : Code) : Program * option string :=
  (Some (length code), None).

(** The interface with the first version deployed. *)
Definition deployed : testRuntimeInterface :=
  mkInterface ∅ false {[ hello_location := hello1 ]}.

End CacheSamples.

Module RuntimeSamples.

Import Runtime.

(** An iteration and an invocation reported as one unit each, an
    allocation and an encoding by their size. *)
Definition unit_intensity (p : Point) : nat :=
  match p with
  | PLoop | PFunctionInvocation => 1
  | PAllocation n | PEncoding n => n
  end.

(** A program that invokes a function that logs, and logs. *)
Definition nested_log : list Stmt := [SInvoke [SLog "inner"]; SLog "outer"].

End RuntimeSamples.

(** * Account references and capabilities: properties *)

Section AccountReferenceFacts.

Import Interpreter.

Context {SemaType StaticType InterpreterState : Type}.
Context (sema_Equal : SemaType -> option SemaType -> bool).
Context (RemoveReferencedSlab :
           InterpreterState -> Storable StaticType -> InterpreterState).

Abbreviation ARValue := (AccountReferenceValue SemaType StaticType).
Abbreviation ARHeap := (gmap nat ARValue).

(** A freshly allocated reference does not disturb the existing ones. *)
Lemma NewUnmetered_fresh (h : ARHeap) address borrowedType :
  let '(q, h') := NewUnmeteredAccountReferenceValue h address borrowedType in
  h !! q = None /\
  h' !! q = Some {| BorrowedType := borrowedType;
                    _authAccount := None;
                    Address_ := address |} /\
  forall p, p <> q -> h' !! p = h !! p.
Proof.
  unfold NewUnmeteredAccountReferenceValue; simpl.
  pose proof (is_fresh (dom h)) as Hfresh.
  split; [by apply not_elem_of_dom|].
  split; [by rewrite lookup_insert_eq|].
  intros p Hp. by rewrite lookup_insert_ne.
Qed.

Lemma Equal_to_clone (h : ARHeap) (v c : ARValue) (q : Ptr) :
  (forall t, sema_Equal t (Some t) = true) ->
  h !! q = Some c ->
  Address_ c = Address_ v ->
  BorrowedType c = BorrowedType v ->
  Equal sema_Equal h v (VAccountReference q) = true.
Proof.
  intros Hrefl Hq Ha Hb. unfold Equal. rewrite Hq, Ha, Hb.
  rewrite N.eqb_refl. simpl.
  destruct (BorrowedType v); [apply Hrefl | reflexivity].
Qed.

(** C10: an account reference is never persisted and is inert under the
    transfer protocol. [IsStorable] is false and [Storable] wraps the value
    in [NonStorable]; [IsResourceKinded] is false; [Transfer] returns the
    same pointer and leaves the referenced struct as it is; [DeepRemove]
    changes nothing; [Clone] allocates a new struct, at another address,
    that is [Equal] to the original and has the same address and borrowed
    type. The equality of borrowed types is that of the checker, assumed
    reflexive. *)
Theorem AccountReferenceValue_inert (h : ARHeap) (p : Ptr) (v : ARValue) :
  (forall t, sema_Equal t (Some t) = true) ->
  h !! p = Some v ->
  IsStorable v = false
  /\ (forall address, NeedsStoreTo v address = false)
  /\ (forall address maxInlineSize,
        Storable_ (StaticType := StaticType) p address maxInlineSize
        = (NonStorable (VAccountReference p), None))
  /\ IsResourceKinded v = false
  /\ (forall interpreter locationRange address remove storable preventTransfer,
        let '(result, _, h') :=
          Transfer RemoveReferencedSlab interpreter h p locationRange address
            remove storable preventTransfer in
        result = VAccountReference p /\ h' = h /\ h' !! p = Some v)
  /\ (forall interpreter : InterpreterState,
        DeepRemove interpreter h p = (interpreter, h))
  /\ (let '(q, h') := Clone h v in
      q <> p
      /\ h' !! p = Some v
      /\ Equal sema_Equal h' v (VAccountReference q) = true
      /\ exists c, h' !! q = Some c
                   /\ Address_ c = Address_ v
                   /\ BorrowedType c = BorrowedType v).
Proof.
  intros Hrefl Hp.
  split; [reflexivity|]. split; [reflexivity|]. split; [reflexivity|].
  split; [reflexivity|].
  split.
  { intros interpreter lr address remove storable prevent.
    unfold Transfer. by destruct remove. }
  split; [reflexivity|].
  unfold Clone.
  pose proof (NewUnmetered_fresh h (Address_ v) (BorrowedType v)) as Hnew.
  destruct (NewUnmeteredAccountReferenceValue h (Address_ v) (BorrowedType v))
    as [q h'] eqn:Hclone.
  destruct Hnew as (Hq & Hq' & Hother).
  assert (q <> p) as Hne by (intros ->; congruence).
  split; [exact Hne|].
  split; [rewrite Hother; [exact Hp | congruence]|].
  split.
  - eapply Equal_to_clone; eauto.
  - eexists; split; [exact Hq'|]. by split.
Qed.

End AccountReferenceFacts.

Lemma AccountReferenceValue_inert_witness :
  Interpreter.IsStorable sample_reference = false
  /\ Interpreter.IsResourceKinded sample_reference = false.
Proof.
  pose proof (AccountReferenceValue_inert (InterpreterState := unit)
                nat_sema_Equal (fun i _ => i)
                {[ 0 := sample_reference ]} 0 sample_reference) as H.
  assert (forall t : nat, nat_sema_Equal t (Some t) = true) as Hrefl.
  { intros t. simpl. apply Nat.eqb_refl. }
  assert (({[ 0 := sample_reference ]} : gmap nat _) !! 0 = Some sample_reference)
    as Hlook by reflexivity.
  destruct (H Hrefl Hlook) as (H1 & _ & _ & H4 & _).
  exact (conj H1 H4).
Defined.

Section GetCapabilityFacts.

Import Interpreter.

Context {SemaType StaticType InterpreterState MemoryGauge FunctionType : Type}.
Context (is_ReferenceType : SemaType -> bool).
Context (PathValue_StaticType : InterpreterState -> PathValue -> StaticType).
Context (IsSubTypeOfSemaType : InterpreterState -> StaticType -> SemaType -> bool).
Context (MustConvertStaticToSemaType : InterpreterState -> StaticType -> SemaType).
Context (ConvertSemaToStaticType : InterpreterState -> SemaType -> StaticType).
Context (ReadStored :
           InterpreterState -> Address -> string -> string -> option (Value StaticType)).

Abbreviation getCapability :=
  (accountGetCapabilityFunction is_ReferenceType PathValue_StaticType
     IsSubTypeOfSemaType MustConvertStaticToSemaType ConvertSemaToStaticType
     ReadStored).

(** C9: getCapability on an account. With a path as first argument, the
    call panics with a type mismatch when the path's type is not a subtype
    of the required path type. Otherwise it returns a capability, whatever
    is stored at the path: an ID capability with the stored ID, the
    account's address and the requested borrow type when an ID capability
    is stored, and a path capability for the address, the path and the
    requested borrow type in every other case, also when nothing is stored.
    The requested borrow type is the static form of the oldest type argument
    when that is a reference type, and nil otherwise.
    The borrow type of the stored capability plays no part in the result. *)
Theorem accountGetCapabilityFunction_spec
    (gauge : MemoryGauge) (addressValue : Address) (pathType : SemaType)
    (funcType : FunctionType)
    (invocation : Invocation SemaType StaticType InterpreterState)
    (path : PathValue) (rest : list (Value StaticType)) :
  Arguments invocation = VPath path :: rest ->
  let interpreter := Interpreter_ invocation in
  let result := Function (getCapability gauge addressValue pathType funcType) invocation in
  let stored := ReadStored interpreter addressValue
                  (PathDomain_Identifier (Domain path)) (Identifier path) in
  let requested : option StaticType :=
    match TypeParameterTypes invocation with
    | (_, ty) :: _ =>
        if is_ReferenceType ty
        then Some (ConvertSemaToStaticType interpreter ty) else None
    | [] => None
    end in
  (IsSubTypeOfSemaType interpreter (PathValue_StaticType interpreter path) pathType = false ->
     result = Panic (TypeMismatchError pathType
                       (MustConvertStaticToSemaType interpreter
                          (PathValue_StaticType interpreter path))
                       (InvocationLocationRange invocation)))
  /\ (IsSubTypeOfSemaType interpreter (PathValue_StaticType interpreter path) pathType = true ->
      (forall capabilityValue, stored = Some (VIDCapability capabilityValue) ->
         result = Ok (VIDCapability
                        {| idcap_ID := idcap_ID capabilityValue;
                           idcap_Address := addressValue;
                           idcap_BorrowType := requested |}))
      /\ ((forall capabilityValue, stored <> Some (VIDCapability capabilityValue)) ->
         result = Ok (VPathCapability
                        {| pathcap_Address := addressValue;
                           pathcap_Path := path;
                           pathcap_BorrowType := requested |}))
      /\ (stored = None ->
         result = Ok (VPathCapability
                        {| pathcap_Address := addressValue;
                           pathcap_Path := path;
                           pathcap_BorrowType := requested |}))).
Proof.
  intros Hargs interpreter result stored requested.
  assert (requested =
          match match Oldest (TypeParameterTypes invocation) with
                | Some typeParameterPair =>
                    if is_ReferenceType (snd typeParameterPair)
                    then Some (snd typeParameterPair) else None
                | None => None
                end with
          | Some borrowType => Some (ConvertSemaToStaticType interpreter borrowType)
          | None => None
          end) as Hborrow.
  { unfold requested, Oldest.
    destruct (TypeParameterTypes invocation) as [|[name ty] tl]; simpl; [done|].
    by destruct (is_ReferenceType ty). }
  subst result. unfold accountGetCapabilityFunction, NewHostFunctionValue.
  simpl. rewrite Hargs. simpl. fold interpreter.
  split.
  - intros Hsub. by rewrite Hsub.
  - intros Hsub. rewrite Hsub. simpl.
    unfold StringStorageMapKey. fold stored. rewrite <- Hborrow.
    split; [|split].
    + intros capabilityValue Hstored. by rewrite Hstored.
    + intros Hnot. destruct stored as [[]|]; try reflexivity.
      by exfalso; eapply Hnot.
    + intros Hstored. by rewrite Hstored.
Qed.

End GetCapabilityFacts.

Lemma accountGetCapabilityFunction_spec_witness :
  Interpreter.Function
    (Interpreter.accountGetCapabilityFunction sample_is_reference
       sample_path_type sample_subtype (fun _ t => t) (fun _ t => t)
       (fun _ _ _ _ => None) tt 1%N SampleCapabilityPath tt)
    sample_invocation
  = Ok (Interpreter.VPathCapability
          (Interpreter.mkPathCapabilityValue 1%N
             (Interpreter.mkPathValue Interpreter.PathDomainPublic "r")
             (Some SampleReference))).
Proof.
  pose proof (accountGetCapabilityFunction_spec sample_is_reference
                sample_path_type sample_subtype (fun _ t => t) (fun _ t => t)
                (fun _ _ _ _ => None) tt 1%N SampleCapabilityPath tt
                sample_invocation
                (Interpreter.mkPathValue Interpreter.PathDomainPublic "r") []
                eq_refl) as [_ H].
  destruct (H eq_refl) as (_ & _ & Hnone).
  exact (Hnone eq_refl).
Defined.

(** * The program cache of the runtime interface: properties *)

Section ProgramCacheFacts.

Import TestRuntimeInterface.

Implicit Types (i : testRuntimeInterface) (location : Location).

Lemma GetOrLoadProgram_hit i location (load : LoadClosure) program :
  programs i !! location = Some program ->
  GetOrLoadProgram i location load = ((program, None), i).
Proof. intros H. unfold GetOrLoadProgram. by rewrite H. Qed.

(** Whatever the outcome of the load, the location is cached afterwards
    with the program that was returned. *)
Lemma GetOrLoadProgram_caches i location (load : LoadClosure) :
  programs (snd (GetOrLoadProgram i location load)) !! location
  = Some (fst (fst (GetOrLoadProgram i location load))).
Proof.
  unfold GetOrLoadProgram.
  destruct (programs i !! location) as [program|] eqn:Hl; simpl; [done|].
  destruct (load i) as [[program err] i']; simpl.
  by rewrite lookup_insert_eq.
Qed.

(** A call whose loader keeps the cached entries keeps them too. *)
Lemma GetOrLoadProgram_keeps i location (load : LoadClosure) location' q :
  (forall j, programs j !! location' = Some q ->
             programs (snd (load j)) !! location' = Some q) ->
  programs i !! location' = Some q ->
  programs (snd (GetOrLoadProgram i location load)) !! location' = Some q.
Proof.
  intros Hload Hq. unfold GetOrLoadProgram.
  destruct (programs i !! location) as [program|] eqn:Hl; simpl; [done|].
  specialize (Hload i Hq).
  destruct (load i) as [[program err] i']; simpl in *.
  rewrite lookup_insert_ne; [done|]. intros ->. congruence.
Qed.

(** Loaders only add entries: by mutual induction on the loader and its
    imports. *)
Lemma runLoader_keeps (load : Loader) :
  forall i location' q,
    programs i !! location' = Some q ->
    programs (snd (runLoader load i)) !! location' = Some q.
Proof.
  induction load using Loader_mut with
    (P0 := fun imports => forall i location' q,
             programs i !! location' = Some q ->
             programs (runImports imports i) !! location' = Some q).
  - intros i location' q Hq. simpl. by apply IHload.
  - intros i location' q Hq. exact Hq.
  - intros i location' q Hq. simpl. apply IHload0.
    apply GetOrLoadProgram_keeps; [|done].
    intros j Hj. by apply IHload.
Qed.

Lemma UpdateAccountContractCode_programs upd i location code r i' :
  UpdateAccountContractCode upd i location code = Ok (r, i') ->
  programs i' = programs i
  /\ (r = None -> updatedContractCode i' = true).
Proof.
  unfold UpdateAccountContractCode. destruct upd as [f|]; [|done].
  destruct (f location code (accountCodes i)) as [[e|] codes];
    intros [= <- <-]; simpl; by split.
Qed.

Lemma runCalls_keeps upd (calls : list Call) :
  forall i i' location' q,
    runCalls upd calls i = Ok i' ->
    programs i !! location' = Some q ->
    programs i' !! location' = Some q.
Proof.
  induction calls as [|c calls IH]; intros i i' location' q Hrun Hq.
  - simpl in Hrun. by injection Hrun as <-.
  - simpl in Hrun. unfold mbind, Result_bind in Hrun.
    destruct c as [location load|location code]; simpl in Hrun.
    + eapply IH; [exact Hrun|].
      apply GetOrLoadProgram_keeps; [|done].
      intros j Hj. by apply runLoader_keeps.
    + unfold mbind, Result_bind in Hrun.
      destruct (UpdateAccountContractCode upd i location code)
        as [[r i1]|e] eqn:Hupd; simpl in Hrun; [|done].
      apply UpdateAccountContractCode_programs in Hupd as [Hprog _].
      eapply IH; [exact Hrun|]. by rewrite Hprog.
Qed.

(** Loading programs leaves the flag and the account codes as they are. *)
Lemma GetOrLoadProgram_fields i location (load : LoadClosure) :
  (forall j, updatedContractCode (snd (load j)) = updatedContractCode j
             /\ accountCodes (snd (load j)) = accountCodes j) ->
  updatedContractCode (snd (GetOrLoadProgram i location load))
  = updatedContractCode i
  /\ accountCodes (snd (GetOrLoadProgram i location load)) = accountCodes i.
Proof.
  intros Hload. unfold GetOrLoadProgram.
  destruct (programs i !! location) as [program|]; simpl; [done|].
  specialize (Hload i). by destruct (load i) as [[program err] i'].
Qed.

Lemma runLoader_fields (load : Loader) :
  forall i, updatedContractCode (snd (runLoader load i)) = updatedContractCode i
            /\ accountCodes (snd (runLoader load i)) = accountCodes i.
Proof.
  induction load using Loader_mut with
    (P0 := fun imports => forall i,
             updatedContractCode (runImports imports i) = updatedContractCode i
             /\ accountCodes (runImports imports i) = accountCodes i).
  - intros i. simpl. apply IHload.
  - done.
  - intros i. simpl.
    destruct (IHload0 (snd (GetOrLoadProgram i location (runLoader load))))
      as [-> ->].
    by apply GetOrLoadProgram_fields.
Qed.

Lemma runCalls_app upd (calls1 calls2 : list Call) : forall i,
  runCalls upd (calls1 ++ calls2) i
  = (i' ← runCalls upd calls1 i; runCalls upd calls2 i').
Proof.
  induction calls1 as [|c calls1 IH]; intros i; simpl; [done|].
  unfold mbind, Result_bind. destruct (runCall upd c i) as [i'|e]; [|done].
  apply IH.
Qed.

(** The closure of the caching tests never fails: the calls all return. *)
Lemma runCalls_test_returns (calls : list Call) : forall i,
  exists i', runCalls (Some updateAccountContractCode_test) calls i = Ok i'.
Proof.
  induction calls as [|c calls IH]; intros i; simpl; [by eexists|].
  destruct c as [location load|location code]; simpl; apply IH.
Qed.

Lemma runCalls_loads upd (calls : list Call) : forall i,
  forallb isLoad calls = true ->
  exists i', runCalls upd calls i = Ok i'
             /\ updatedContractCode i' = updatedContractCode i
             /\ accountCodes i' = accountCodes i.
Proof.
  induction calls as [|c calls IH]; intros i Hloads; simpl; [by eexists|].
  simpl in Hloads. apply andb_prop in Hloads as [Hc Hloads].
  destruct c as [location load|location code]; [|done]. simpl.
  destruct (IH (snd (GetOrLoadProgram i location (runLoader load))) Hloads)
    as (i' & Hrun & Hflag & Hcodes).
  exists i'. split; [done|].
  destruct (GetOrLoadProgram_fields i location (runLoader load)
              (runLoader_fields load)) as [<- <-].
  by split.
Qed.

(** The start of an execution after a successful update: the cache is
    empty, so the loader is invoked, and what it returns is returned and
    cached. *)
Lemma GetOrLoadProgram_after_invalidation i location (load : LoadClosure) :
  updatedContractCode i = true ->
  invalidateUpdatedPrograms i
  = {| programs := ∅; updatedContractCode := false;
       accountCodes := accountCodes i |}
  /\ GetOrLoadProgram (invalidateUpdatedPrograms i) location load
     = (fst (load (invalidateUpdatedPrograms i)),
        {| programs :=
             <[location := fst (fst (load (invalidateUpdatedPrograms i)))]>
               (programs (snd (load (invalidateUpdatedPrograms i))));
           updatedContractCode :=
             updatedContractCode (snd (load (invalidateUpdatedPrograms i)));
           accountCodes :=
             accountCodes (snd (load (invalidateUpdatedPrograms i))) |}).
Proof.
  intros Hflag. unfold invalidateUpdatedPrograms. rewrite Hflag.
  split; [done|]. unfold GetOrLoadProgram. simpl. rewrite lookup_empty.
  by destruct (load _) as [[program err] i'].
Qed.

(** C5: the program cache is consistent within an execution, and an
    update of contract code takes effect in the next one. (1) After
    [GetOrLoadProgram] returned a program for a location, every later call
    for that location in the same execution, after any calls that load
    programs or update contract code, returns the same program object with
    no error, whatever loader it is given, and leaves the interface as it
    is: the loader is not invoked. (2) [UpdateAccountContractCode] calls the
    closure of the interface on the account codes and returns the error of
    the closure; the account codes are then the ones the closure produced;
    the cache is the same map as before, so that the location still yields
    the same program object whatever loader is given; the flag is raised
    when the closure succeeded and is as it was when it failed. Without a
    closure the call panics. (3) A top-level execution that starts with the
    flag raised starts from an empty cache, with the flag lowered and the
    account codes kept: the loader is invoked, and what it returns is
    returned and cached. (4) With the closures of
    TestRuntimeUpdateCodeCaching, after an update of the code of the
    location, followed in the same execution by any calls that load
    programs, loading the contract from its code still returns the program
    object cached before the update; at the start of the next transaction
    or script it returns the program of the updated code, which is what the
    cache then holds for the location. *)
Theorem program_cache_consistency
    (upd : option UpdateClosure) i location (load1 : LoadClosure) :
  let result1 := GetOrLoadProgram i location load1 in
  let program1 := fst (fst result1) in
  let i1 := snd result1 in
  (forall calls i2 (load2 : LoadClosure),
      runCalls upd calls i1 = Ok i2 ->
      GetOrLoadProgram i2 location load2 = ((program1, None), i2))
  /\ ((forall (f : UpdateClosure) location' code err codes,
        f location' code (accountCodes i1) = (err, codes) ->
        exists i2,
          UpdateAccountContractCode (Some f) i1 location' code = Ok (err, i2)
          /\ accountCodes i2 = codes
          /\ programs i2 = programs i1
          /\ (forall load2 : LoadClosure,
                GetOrLoadProgram i2 location load2 = ((program1, None), i2))
          /\ updatedContractCode i2
             = match err with
               | None => true
               | Some _ => updatedContractCode i1
               end)
      /\ forall location' code,
           UpdateAccountContractCode None i1 location' code
           = Panic "must specify testRuntimeInterface.updateAccountContractCode")
  /\ (forall i2 (load3 : LoadClosure),
      updatedContractCode i2 = true ->
      onTransactionExecutionStart i2
      = {| programs := ∅; updatedContractCode := false;
           accountCodes := accountCodes i2 |}
      /\ onScriptExecutionStart i2 = onTransactionExecutionStart i2
      /\ fst (GetOrLoadProgram (onTransactionExecutionStart i2) location load3)
         = fst (load3 (onTransactionExecutionStart i2))
      /\ programs (snd (GetOrLoadProgram (onTransactionExecutionStart i2)
                          location load3)) !! location
         = Some (fst (fst (load3 (onTransactionExecutionStart i2)))))
  /\ (forall calls1 calls2 code parse,
      forallb isLoad calls2 = true ->
      exists i3,
        runCalls (Some updateAccountContractCode_test)
          (calls1 ++ CallUpdateAccountContractCode location code :: calls2) i1
        = Ok i3
        /\ GetOrLoadProgram i3 location (contractLoader parse location)
           = ((program1, None), i3)
        /\ GetOrLoadProgram (onTransactionExecutionStart i3) location
             (contractLoader parse location)
           = (parse code,
              {| programs := {[ location := fst (parse code) ]};
                 updatedContractCode := false;
                 accountCodes := accountCodes i3 |})
        /\ onScriptExecutionStart i3 = onTransactionExecutionStart i3
        /\ accountCodes i3 !! location = Some code).
Proof.
  intros result1 program1 i1.
  assert (programs i1 !! location = Some program1) as Hcached
    by apply GetOrLoadProgram_caches.
  split; [|split; [split|split]].
  - intros calls i2 load2 Hrun.
    apply GetOrLoadProgram_hit.
    eapply runCalls_keeps; eauto.
  - intros f location' code err codes Hf.
    unfold UpdateAccountContractCode. rewrite Hf.
    destruct err as [e|]; eexists; (split; [reflexivity|]); simpl;
      (split; [done|]); (split; [done|]); (split; [|done]);
      intros load2; by apply GetOrLoadProgram_hit.
  - done.
  - intros i2 load3 Hflag.
    destruct (GetOrLoadProgram_after_invalidation i2 location load3 Hflag)
      as [Hstart Hload].
    unfold onTransactionExecutionStart, onScriptExecutionStart.
    split; [done|]. split; [done|]. rewrite Hload. simpl.
    split; [done|]. by rewrite lookup_insert_eq.
  - intros calls1 calls2 code parse Hloads.
    destruct (runCalls_test_returns calls1 i1) as (ia & Hrun1).
    set (ib := {| programs := programs ia; updatedContractCode := true;
                  accountCodes := <[location := code]> (accountCodes ia) |}).
    destruct (runCalls_loads (Some updateAccountContractCode_test) calls2 ib
                Hloads) as (i3 & Hrun2 & Hflag & Hcodes).
    assert (runCalls (Some updateAccountContractCode_test)
              (calls1 ++ CallUpdateAccountContractCode location code :: calls2) i1
            = Ok i3) as Hrun.
    { rewrite runCalls_app, Hrun1. exact Hrun2. }
    exists i3. split; [done|].
    assert (accountCodes i3 !! location = Some code) as Hcode.
    { rewrite Hcodes. simpl. by rewrite lookup_insert_eq. }
    split; [|split; [|split]].
    + apply GetOrLoadProgram_hit. eapply runCalls_keeps; eauto.
    + assert (updatedContractCode i3 = true) as Hflag3 by (by rewrite Hflag).
      destruct (GetOrLoadProgram_after_invalidation i3 location
                  (contractLoader parse location) Hflag3) as [Hstart Hload].
      unfold onTransactionExecutionStart. rewrite Hload, Hstart.
      unfold contractLoader, GetAccountContractCode, getAccountContractCode_test.
      cbn [accountCodes programs updatedContractCode fst snd].
      rewrite Hcode. cbn [default from_option id fst snd].
      by rewrite insert_empty.
    + done.
    + done.
Qed.

(** The closure of TestRuntimeProgramSetAndGet: the second call for a
    location is a hit, recorded as such, and returns the program of the
    first call without invoking its loader. *)
Lemma getAndSetProgram_second_call_hits st location load1 load2 :
  let result1 := getAndSetProgram st location load1 in
  let result2 := getAndSetProgram (snd result1) location load2 in
  fst result2 = (fst (fst result1), None)
  /\ sg_programsHits (snd result2) !! location = Some true
  /\ sg_programs (snd result2) = sg_programs (snd result1).
Proof.
  intros result1 result2.
  assert (sg_programs (snd result1) !! location = Some (fst (fst result1))) as H.
  { subst result1. unfold getAndSetProgram.
    destruct (sg_programs st !! location) as [p|] eqn:Hl; simpl; [done|].
    destruct (load1 _) as [[p e] st2]; simpl. by rewrite lookup_insert_eq. }
  subst result2. unfold getAndSetProgram at 1 2 3. rewrite H. simpl.
  split; [done|]. split; [|done].
  rewrite lookup_insert_eq. f_equal.
Qed.

End ProgramCacheFacts.

(** * Resource safety: properties of the model *)

Section ResourceFacts.

Import Resources.

Implicit Types (s : State) (h : Handle) (o : ObjId) (ob : Obj) (slot : Slot)
  (v : Val) (c : Cmd) (e : Error).

(** Results are inverted through [bind_Ok]. *)
Lemma bind_Ok {A B} (m : Result Error A) (k : A -> Result Error B) b :
  m ≫= k = Ok b -> exists a, m = Ok a /\ k a = Ok b.
Proof. destruct m as [a|e]; simpl; [eauto | discriminate]. Qed.

Ltac inv_bind H :=
  let a := fresh "a" in
  let Ha := fresh "Ha" in
  apply bind_Ok in H as (a & Ha & H).

(** [Ok x = Ok y] with [y] a variable: replace [y] by [x] as it stands. *)
Ltac inv_Ok H :=
  match type of H with
  | Ok ?x = Ok ?y => assert (y = x) as -> by congruence; clear H
  end.

(** ** Liveness *)

Lemma liveness_Live s h :
  liveness s h = Live <->
  exists ob, heap s !! h_obj h = Some ob
             /\ h_version h = o_version ob /\ o_destroyed ob = false.
Proof.
  unfold liveness. destruct (heap s !! h_obj h) as [ob|].
  - destruct (Nat.eqb_spec (h_version h) (o_version ob)) as [Hv|Hv]; simpl.
    + destruct (o_destroyed ob) eqn:Hd; split.
      * discriminate.
      * intros (ob' & [= <-] & _ & Hd'). congruence.
      * intros _. by exists ob.
      * done.
    + split; [discriminate|]. intros (ob' & [= <-] & Hv' & _). done.
  - split; [discriminate|]. intros (ob' & Hob & _). discriminate.
Qed.

Lemma liveness_moved s h : moved s h -> liveness s h = Moved.
Proof.
  intros (ob & Hob & Hlt). unfold liveness. rewrite Hob.
  destruct (Nat.eqb_spec (h_version h) (o_version ob)); [lia | done].
Qed.

Lemma liveness_destroyed s h : destroyed s h -> liveness s h = Destroyed.
Proof.
  intros (ob & Hob & Hv & Hd). unfold liveness. rewrite Hob, Hv, Nat.eqb_refl, Hd.
  done.
Qed.

Lemma live_not_dead s h : liveness s h = Live -> ~ (moved s h \/ destroyed s h).
Proof.
  intros Hl [Hm|Hd].
  - apply liveness_moved in Hm. congruence.
  - apply liveness_destroyed in Hd. congruence.
Qed.

Lemma check_owned_Ok s h u : check_owned s h = Ok u -> liveness s h = Live.
Proof. unfold check_owned. by destruct (liveness s h). Qed.

Lemma check_ref_Ok s h u : check_ref s h = Ok u -> liveness s h = Live.
Proof. unfold check_ref. by destruct (liveness s h). Qed.

Lemma as_live_res_Ok s v h :
  as_live_res s v = Ok h -> v = VRes h /\ liveness s h = Live.
Proof.
  destruct v; simpl; try discriminate.
  intros H. inv_bind H. injection H as ->. split; [done|].
  by eapply check_owned_Ok.
Qed.

Lemma writable_Ok s old u :
  writable s old = Ok u -> forall h, old <> Some (VRes h).
Proof.
  intros H h ->. simpl in H. by destruct (liveness s h).
Qed.

Lemma container_of_Ok s v o :
  container_of s v = Ok o ->
  exists h, (v = VRes h \/ v = VRef h) /\ h_obj h = o /\ liveness s h = Live.
Proof.
  destruct v as [| |h|h]; simpl; try discriminate; intros H; inv_bind H;
    injection H as <-; exists h.
  - split; [by left|]. split; [done|]. by eapply check_owned_Ok.
  - split; [by right|]. split; [done|]. by eapply check_ref_Ok.
Qed.

(** ** The order on objects and states *)

Lemma obj_le_refl ob : obj_le ob ob.
Proof. unfold obj_le. split; [done|]. split; [lia|]. by intros ->. Qed.

Lemma obj_le_trans ob1 ob2 ob3 : obj_le ob1 ob2 -> obj_le ob2 ob3 -> obj_le ob1 ob3.
Proof.
  intros (Ht1 & Hv1 & Hd1) (Ht2 & Hv2 & Hd2). unfold obj_le.
  split; [congruence|]. split; [lia|].
  intros Hd. destruct (Hd1 Hd) as [Hd' Hv']. destruct (Hd2 Hd') as [Hd'' Hv''].
  split; [done | congruence].
Qed.

Lemma moved_le s s' h : state_le s s' -> moved s h -> moved s' h.
Proof.
  intros [Hheap _] (ob & Hob & Hlt).
  destruct (Hheap _ _ Hob) as (ob' & Hob' & _ & Hv & _).
  exists ob'. split; [done | lia].
Qed.

Lemma destroyed_le s s' h : state_le s s' -> destroyed s h -> destroyed s' h.
Proof.
  intros [Hheap _] (ob & Hob & Hv & Hd).
  destruct (Hheap _ _ Hob) as (ob' & Hob' & _ & _ & Hd').
  destruct (Hd' Hd) as [Hflag Hsame].
  exists ob'. split; [done|]. split; [congruence | done].
Qed.

Lemma state_le_refl s : state_le s s.
Proof. split; [|done]. intros o ob Hob. exists ob. split; [done | apply obj_le_refl]. Qed.

Lemma state_le_trans s1 s2 s3 : state_le s1 s2 -> state_le s2 s3 -> state_le s1 s3.
Proof.
  intros H12 H23. split.
  - intros o ob Hob.
    destruct (le_heap _ _ H12 _ _ Hob) as (ob2 & Hob2 & Hle2).
    destruct (le_heap _ _ H23 _ _ Hob2) as (ob3 & Hob3 & Hle3).
    exists ob3. split; [done|]. by eapply obj_le_trans.
  - intros slot h Hslot Hdead.
    apply (le_slots _ _ H23); [by apply (le_slots _ _ H12)|].
    destruct Hdead as [Hm|Hd]; [left; by eapply moved_le | right; by eapply destroyed_le].
Qed.

(** ** The effect of the primitive updates *)

Lemma alter_heap_le (f : Obj -> Obj) o (m : gmap ObjId Obj) :
  (forall ob, m !! o = Some ob -> obj_le ob (f ob)) ->
  forall o' ob, m !! o' = Some ob ->
    exists ob', alter f o m !! o' = Some ob' /\ obj_le ob ob'.
Proof.
  intros Hf o' ob Hob. destruct (decide (o = o')) as [->|Hne].
  - rewrite lookup_alter_eq, Hob. simpl. eexists. split; [done|]. by apply Hf.
  - rewrite lookup_alter_ne by done. exists ob. split; [done | apply obj_le_refl].
Qed.

Lemma slot_get_alter_fields (f : Obj -> Obj) o s hp slot :
  (forall ob, o_fields (f ob) = o_fields ob) ->
  hp = alter f o (heap s) ->
  slot_get (mkState hp (vars s) (self s) (storage s) (log s)) slot = slot_get s slot.
Proof.
  intros Hf ->. destruct slot as [x|o' k|a p]; simpl; try done.
  destruct (decide (o = o')) as [->|Hne].
  - rewrite lookup_alter_eq. destruct (heap s !! o') as [ob|]; simpl; [|done].
    by rewrite Hf.
  - by rewrite lookup_alter_ne.
Qed.

Lemma slot_get_set_ne slot slot' v s :
  slot <> slot' -> slot_get (slot_set slot v s) slot' = slot_get s slot'.
Proof.
  intros Hne. destruct slot as [x|o k|a p], slot' as [x'|o' k'|a' p']; simpl; try done.
  - rewrite lookup_insert_ne; [done | congruence].
  - destruct (decide (o = o')) as [->|Ho].
    + rewrite lookup_alter_eq. destruct (heap s !! o') as [ob|]; simpl; [|done].
      rewrite lookup_insert_ne; [done | congruence].
    + by rewrite lookup_alter_ne.
  - rewrite lookup_insert_ne; [done | congruence].
Qed.

Lemma slot_get_set_eq slot v s :
  (forall o k, slot = SField o k -> is_Some (heap s !! o)) ->
  slot_get (slot_set slot v s) slot = Some v.
Proof.
  intros Hex. destruct slot as [x|o k|a p]; simpl.
  - by rewrite lookup_insert_eq.
  - destruct (Hex o k eq_refl) as [ob Hob].
    rewrite lookup_alter_eq, Hob. simpl. by rewrite lookup_insert_eq.
  - by rewrite lookup_insert_eq.
Qed.

Lemma slot_get_bump o s slot : slot_get (bump o s) slot = slot_get s slot.
Proof. unfold bump. by rewrite (slot_get_alter_fields bump_version o s _ slot). Qed.

Lemma slot_get_storage_delete_ne a p s slot :
  slot <> SStorage a p -> slot_get (storage_delete a p s) slot = slot_get s slot.
Proof.
  intros Hne. destruct slot as [x|o k|a' p']; simpl; try done.
  rewrite lookup_delete_ne; [done | congruence].
Qed.

Lemma slot_get_alloc ty fields s slot v :
  slot_get s slot = Some v -> slot_get (snd (alloc ty fields s)) slot = Some v.
Proof.
  unfold alloc. simpl. intros Hget.
  pose proof (is_fresh (dom (heap s))) as Hfresh.
  apply not_elem_of_dom in Hfresh.
  destruct slot as [x|o k|a p]; simpl in *; try done.
  destruct (decide (fresh (dom (heap s)) = o)) as [<-|Hne].
  - rewrite Hfresh in Hget. discriminate.
  - by rewrite lookup_insert_ne.
Qed.

Lemma heap_le_refl s : heap_le s s.
Proof. intros o ob Hob. exists ob. split; [done | apply obj_le_refl]. Qed.

Lemma heap_le_trans s1 s2 s3 : heap_le s1 s2 -> heap_le s2 s3 -> heap_le s1 s3.
Proof.
  intros H12 H23 o ob Hob.
  destruct (H12 _ _ Hob) as (ob2 & Hob2 & Hle2).
  destruct (H23 _ _ Hob2) as (ob3 & Hob3 & Hle3).
  exists ob3. split; [done|]. by eapply obj_le_trans.
Qed.

Lemma heap_le_slot_set slot v s : heap_le s (slot_set slot v s).
Proof.
  destruct slot as [x|o k|a p];
    [ intros o' ob Hob; exists ob; split; [done | apply obj_le_refl]
    | | intros o' ob Hob; exists ob; split; [done | apply obj_le_refl] ].
  unfold heap_le. simpl. apply alter_heap_le. intros ob _. unfold obj_le. simpl.
  split; [done|]. split; [lia|]. by intros ->.
Qed.

Lemma heap_le_bump s h : liveness s h = Live -> heap_le s (bump (h_obj h) s).
Proof.
  intros (ob & Hob & _ & Hd)%liveness_Live.
  unfold heap_le, bump. simpl. apply alter_heap_le.
  intros ob' Hob'. assert (ob' = ob) as -> by congruence.
  unfold obj_le. simpl. split; [done|]. split; [lia|]. rewrite Hd. discriminate.
Qed.

Lemma heap_le_alloc ty fields s : heap_le s (snd (alloc ty fields s)).
Proof.
  unfold alloc. simpl. intros o ob Hob.
  pose proof (is_fresh (dom (heap s))) as Hfresh.
  apply not_elem_of_dom in Hfresh.
  exists ob. split; [|apply obj_le_refl]. simpl.
  rewrite lookup_insert_ne; [done|]. intros <-. congruence.
Qed.

Lemma heap_le_mark_destroyed o s : heap_le s (mark_destroyed o s).
Proof.
  unfold heap_le, mark_destroyed. simpl. apply alter_heap_le.
  intros ob _. unfold obj_le. simpl. split; [done|]. split; [lia|]. done.
Qed.

(** Bumping one object leaves the liveness of the handles of the others. *)
Lemma liveness_bump_ne o s h : h_obj h <> o -> liveness (bump o s) h = liveness s h.
Proof.
  intros Hne. unfold liveness, bump. simpl. by rewrite lookup_alter_ne.
Qed.

Lemma liveness_moved_handle s h :
  liveness s h = Live -> liveness (bump (h_obj h) s) (moved_handle h) = Live.
Proof.
  intros (ob & Hob & Hv & Hd)%liveness_Live. apply liveness_Live.
  exists (bump_version ob). unfold bump. simpl.
  rewrite lookup_alter_eq, Hob. simpl. split; [done|]. split; [congruence | done].
Qed.

Lemma moved_after_bump s h :
  liveness s h = Live -> moved (bump (h_obj h) s) h.
Proof.
  intros (ob & Hob & Hv & Hd)%liveness_Live.
  exists (bump_version ob). unfold bump. simpl.
  rewrite lookup_alter_eq, Hob. simpl. split; [done | lia].
Qed.

Lemma add_log_le ev s : state_le s (add_log ev s).
Proof. split; [intros o ob Hob; exists ob; split; [done | apply obj_le_refl] | done]. Qed.

Lemma set_self_le x s : state_le s (set_self x s).
Proof. split; [intros o ob Hob; exists ob; split; [done | apply obj_le_refl] | done]. Qed.

Lemma set_self_ge x s : state_le (set_self x s) s.
Proof. split; [intros o ob Hob; exists ob; split; [done | apply obj_le_refl] | done]. Qed.

Lemma mark_destroyed_le o s : state_le s (mark_destroyed o s).
Proof.
  split; [apply heap_le_mark_destroyed|].
  intros slot h Hslot _. unfold mark_destroyed.
  by rewrite (slot_get_alter_fields set_destroyed o
                (mkState (heap s) (vars s) (self s) (storage s)
                         (log s ++ [EvDestructor o])) _ slot).
Qed.

(** ** Statements other than destroy *)

Lemma read_place_slot s pl v :
  read_place s pl = Ok v ->
  (exists o ob, pl = (RSelf, []) /\ self s = Some o /\ heap s !! o = Some ob
                /\ v = VRef (mkHandle o (o_version ob)))
  \/ (exists r, resolve s pl = Ok r /\ slot_get s (snd r) = Some v).
Proof.
  assert (forall pl',
             (r ← resolve s pl';
              match slot_get s (snd r) with
              | None => Panic MissingMemberError
              | Some v => Ok v
              end) = Ok v ->
             exists r, resolve s pl' = Ok r /\ slot_get s (snd r) = Some v) as Hgen.
  { intros pl' H. inv_bind H. exists a. split; [done|].
    destruct (slot_get s (snd a)); [by injection H as -> | done]. }
  destruct pl as [[x|] [|k rest]]; unfold read_place; intros H.
  - right. by apply Hgen.
  - right. by apply Hgen.
  - left. destruct (self s) as [o|]; [|done].
    destruct (heap s !! o) as [ob|] eqn:Hob; [|done].
    injection H as <-. by exists o, ob.
  - right. by apply Hgen.
Qed.

(** Reading a live resource goes through a slot that holds its handle. *)
Lemma read_live_res s pl v h :
  read_place s pl = Ok v -> as_live_res s v = Ok h ->
  v = VRes h /\ liveness s h = Live
  /\ exists r, resolve s pl = Ok r /\ slot_get s (snd r) = Some (VRes h).
Proof.
  intros Hread Hlive. apply as_live_res_Ok in Hlive as [-> Hlive].
  split; [done|]. split; [done|].
  apply read_place_slot in Hread as [(o & ob & _ & _ & _ & ?)|Hr]; [done | done].
Qed.

Lemma log_slot_set slot v s : log (slot_set slot v s) = log s.
Proof. by destruct slot. Qed.

Ltac solve_log := rewrite ?log_slot_set; simpl; rewrite ?log_slot_set; done.

Lemma state_le_frame s s' (changed : list Slot) :
  heap_le s s' ->
  (forall slot v, slot ∉ changed -> slot_get s slot = Some v ->
                  slot_get s' slot = Some v) ->
  (forall slot h, slot ∈ changed -> slot_get s slot = Some (VRes h) ->
                  liveness s h = Live) ->
  state_le s s'.
Proof.
  intros Hheap Hkept Hchanged. split; [done|].
  intros slot h Hget Hdead. destruct (decide (slot ∈ changed)) as [Hin|Hout].
  - exfalso. eapply live_not_dead; [|exact Hdead]. by eapply Hchanged.
  - by apply Hkept.
Qed.

Lemma exec_prim_le c s s' :
  exec_prim c s = Ok s' ->
  state_le s s' /\ destructor_runs (log s') = destructor_runs (log s).
Proof.
  destruct c as [x ty fields|src dst|a b|src|x src|x src|dst z|src
                |src addr p|x ty addr p]; intros H; unfold exec_prim in H.
  - (* create *)
    inv_bind H.
    pose proof (heap_le_alloc ty fields s) as Hal.
    pose proof (slot_get_alloc ty fields s) as Hsl.
    pose proof (eq_refl : log (snd (alloc ty fields s)) = log s) as Hlog.
    destruct (alloc ty fields s) as [o s1]. simpl in Hal, Hsl, Hlog.
    inv_Ok H. split; [|simpl; by rewrite Hlog].
    apply (state_le_frame _ _ [SVar x]).
    + eapply heap_le_trans; [exact Hal | apply heap_le_slot_set].
    + intros slot v Hout Hget. rewrite slot_get_set_ne by set_solver.
      by apply Hsl.
    + intros slot h ->%list_elem_of_singleton Hget. simpl in Hget.
      by eapply writable_Ok in Ha.
  - (* move *)
    inv_bind H. inv_bind H. inv_bind H.
    destruct (read_live_res _ _ _ _ Ha Ha0) as (-> & Hlive & _).
    case_bool_decide; [done|]. inv_bind H. inv_Ok H. split; [|solve_log].
    apply (state_le_frame _ _ [snd a1]).
    + eapply heap_le_trans; [by apply heap_le_bump | apply heap_le_slot_set].
    + intros slot v Hout Hget. rewrite slot_get_set_ne by set_solver.
      by rewrite slot_get_bump.
    + intros slot h ->%list_elem_of_singleton Hget.
      by eapply writable_Ok in Ha2.
  - (* swap *)
    inv_bind H. inv_bind H. inv_bind H. inv_bind H. inv_bind H. inv_bind H.
    destruct (read_live_res _ _ _ _ Ha Ha0) as (-> & Hlivea & ra & Hra & Hsa).
    destruct (read_live_res _ _ _ _ Ha1 Ha2) as (-> & Hliveb & rb & Hrb & Hsb).
    assert (ra = a4) as -> by congruence. assert (rb = a5) as -> by congruence.
    destruct (_ || _); [done|]. case_bool_decide as Hsame.
    { inv_Ok H. split; [apply state_le_refl | done]. }
    inv_Ok H. split; [|solve_log].
    apply (state_le_frame _ _ [snd a4; snd a5]).
    + eapply heap_le_trans; [by apply (heap_le_bump s a3)|].
      eapply heap_le_trans; [apply (heap_le_bump _ a1)|].
      { rewrite liveness_bump_ne; [done | congruence]. }
      eapply heap_le_trans; apply heap_le_slot_set.
    + intros slot v Hout Hget. rewrite !slot_get_set_ne by set_solver.
      by rewrite !slot_get_bump.
    + intros slot h Hin Hget.
      apply elem_of_cons in Hin as [->|Hin];
        [|apply list_elem_of_singleton in Hin as ->]; congruence.
  - (* destroy *) done.
  - (* reference *)
    inv_bind H. inv_bind H. inv_bind H. inv_Ok H. split; [|solve_log].
    apply (state_le_frame _ _ [SVar x]).
    + apply heap_le_slot_set.
    + intros slot v Hout Hget. by rewrite slot_get_set_ne by set_solver.
    + intros slot h ->%list_elem_of_singleton Hget. by eapply writable_Ok in Ha1.
  - (* copy *)
    inv_bind H.
    assert (writable s (vars s !! x) ≫= (fun _ => Ok (slot_set (SVar x) a s)) = Ok s')
      as H'.
    { destruct a; try done. by inv_bind H. }
    clear H. inv_bind H'. inv_Ok H'. split; [|solve_log].
    apply (state_le_frame _ _ [SVar x]).
    + apply heap_le_slot_set.
    + intros slot v Hout Hget. by rewrite slot_get_set_ne by set_solver.
    + intros slot h ->%list_elem_of_singleton Hget. by eapply writable_Ok in Ha0.
  - (* set *)
    inv_bind H. inv_bind H. inv_Ok H. split; [|solve_log].
    apply (state_le_frame _ _ [snd a]).
    + apply heap_le_slot_set.
    + intros slot v Hout Hget. by rewrite slot_get_set_ne by set_solver.
    + intros slot h ->%list_elem_of_singleton Hget. by eapply writable_Ok in Ha0.
  - (* log *)
    inv_bind H. destruct a as [|z'|h|h]; try done.
    + inv_Ok H. split; [apply add_log_le|].
      simpl. unfold destructor_runs. rewrite omap_app. simpl. by rewrite app_nil_r.
    + by inv_bind H.
  - (* save *)
    inv_bind H. inv_bind H. inv_bind H. inv_Ok H. split; [|solve_log].
    destruct (read_live_res _ _ _ _ Ha Ha0) as (-> & Hlive & _).
    apply (state_le_frame _ _ [SStorage addr p]).
    + eapply heap_le_trans; [by apply heap_le_bump | apply heap_le_slot_set].
    + intros slot v Hout Hget. rewrite slot_get_set_ne by set_solver.
      by rewrite slot_get_bump.
    + intros slot h ->%list_elem_of_singleton Hget. by eapply writable_Ok in Ha1.
  - (* load *)
    inv_bind H. destruct (slot_get s (SStorage addr p)) as [v|] eqn:Hst.
    + inv_bind H. apply as_live_res_Ok in Ha0 as [-> Hlive].
      destruct (heap s !! h_obj a0) as [ob|]; [|done].
      case_bool_decide; [|done]. inv_Ok H. split; [|solve_log].
      apply (state_le_frame _ _ [SVar x; SStorage addr p]).
      * eapply heap_le_trans; [by apply heap_le_bump|].
        eapply heap_le_trans; [|apply heap_le_slot_set].
        intros o' ob' Hob'. exists ob'. split; [done | apply obj_le_refl].
      * intros slot v Hout Hget. rewrite slot_get_set_ne by set_solver.
        rewrite slot_get_storage_delete_ne by set_solver.
        by rewrite slot_get_bump.
      * intros slot h Hin Hget.
        apply elem_of_cons in Hin as [->|Hin];
          [|apply list_elem_of_singleton in Hin as ->].
        -- by eapply writable_Ok in Ha.
        -- assert (h = a0) as -> by congruence. done.
    + inv_Ok H. split; [|solve_log].
      apply (state_le_frame _ _ [SVar x]).
      * apply heap_le_slot_set.
      * intros slot v Hout Hget. by rewrite slot_get_set_ne by set_solver.
      * intros slot h ->%list_elem_of_singleton Hget. by eapply writable_Ok in Ha.
Qed.

(** ** The log of destructor runs *)

Lemma log_ok_le s s' :
  state_le s s' ->
  destructor_runs (log s') = destructor_runs (log s) ->
  log_ok s -> log_ok s'.
Proof.
  intros Hle Hruns [Hnodup Hflag]. split; rewrite Hruns; [done|].
  intros o Ho. destruct (Hflag o Ho) as (ob & Hob & Hd).
  destruct (le_heap _ _ Hle _ _ Hob) as (ob' & Hob' & _ & _ & Hd').
  exists ob'. split; [done|]. by apply Hd'.
Qed.

Lemma log_ok_set_self x s : log_ok (set_self x s) <-> log_ok s.
Proof. done. Qed.

Lemma destructor_runs_snoc l o :
  destructor_runs (l ++ [EvDestructor o]) = destructor_runs l ++ [o].
Proof. unfold destructor_runs. by rewrite omap_app. Qed.

Lemma log_ok_mark o s ob :
  heap s !! o = Some ob -> o_destroyed ob = false ->
  log_ok s -> log_ok (mark_destroyed o s).
Proof.
  intros Hob Hd [Hnodup Hflag]. unfold log_ok, mark_destroyed. simpl.
  rewrite destructor_runs_snoc. split.
  - apply NoDup_app. split; [done|]. split; [|apply NoDup_singleton].
    intros o' Ho' ->%list_elem_of_singleton.
    destruct (Hflag o Ho') as (ob' & Hob' & Hd'). congruence.
  - intros o' [Ho'|Ho']%elem_of_app; [|apply list_elem_of_singleton in Ho' as ->].
    + destruct (Hflag o' Ho') as (ob' & Hob' & Hd').
      destruct (heap_le_mark_destroyed o s o' ob' Hob') as (ob2 & Hob2 & _ & _ & Hd2).
      exists ob2. split; [done|]. by apply Hd2.
    + exists (set_destroyed ob). by rewrite lookup_alter_eq, Hob.
Qed.

Lemma filter_absent (o : ObjId) (l : list ObjId) :
  o ∉ l -> filter (fun o' => o' = o) l = [].
Proof.
  induction l as [|o' l IH]; [done|].
  intros [Hne Hnotin]%not_elem_of_cons. rewrite filter_cons.
  case_decide; [congruence | by apply IH].
Qed.

(** A log that is [log_ok] has at most one destructor run of an instance. *)
Lemma log_ok_at_most_once s o :
  log_ok s -> length (filter (fun o' => o' = o) (destructor_runs (log s))) <= 1.
Proof.
  intros [Hnodup _]. induction Hnodup as [|o' l Hnotin Hnodup IH]; simpl; [lia|].
  rewrite filter_cons. case_decide as Heq; simpl; [|done].
  subst o'. rewrite filter_absent by done. simpl. lia.
Qed.

(** ** Execution keeps the order and the log *)

Section ExecFacts.

Variable destructors : string -> list Cmd.
Variable D : ObjId -> State -> Outcome.
Hypothesis D_good : good D.

Lemma exec_cmd_good c s s' r :
  exec_cmd D c s = (s', r) ->
  state_le s s' /\ (log_ok s -> log_ok s').
Proof.
  assert (forall e, (s, Some e) = (s', r) -> state_le s s' /\ (log_ok s -> log_ok s'))
    as Hfail.
  { intros e [= <- <-]. split; [apply state_le_refl | done]. }
  assert (outcome_of s (exec_prim c s) = (s', r) ->
          state_le s s' /\ (log_ok s -> log_ok s')) as Hprim.
  { destruct (exec_prim c s) as [s1|e] eqn:Hc; simpl; [|apply Hfail].
    intros [= <- <-]. apply exec_prim_le in Hc as [Hle Hruns].
    split; [done|]. by apply log_ok_le. }
  destruct c; try exact Hprim. simpl.
  destruct (read_place s src) as [[| |h|h]|e]; try apply Hfail.
  - intros [= <- <-]. split; [apply state_le_refl | done].
  - destruct (check_owned s h); [|apply Hfail]. apply D_good.
Qed.

Lemma exec_list_good prog : forall s s' r,
  exec_list D prog s = (s', r) ->
  state_le s s' /\ (log_ok s -> log_ok s').
Proof.
  induction prog as [|c rest IH]; intros s s' r; simpl.
  - intros [= <- <-]. split; [apply state_le_refl | done].
  - destruct (exec_cmd D c s) as [s1 [e|]] eqn:Hc.
    + intros [= <- <-]. by eapply exec_cmd_good.
    + intros Hrest. apply exec_cmd_good in Hc as [Hle1 Hok1].
      apply IH in Hrest as [Hle2 Hok2].
      split; [by eapply state_le_trans | auto].
Qed.

Lemma destroy_children_good l : forall s s' r,
  destroy_children D l s = (s', r) ->
  state_le s s' /\ (log_ok s -> log_ok s').
Proof.
  induction l as [|h rest IH]; intros s s' r; simpl.
  - intros [= <- <-]. split; [apply state_le_refl | done].
  - destruct (liveness s h); try apply IH.
    destruct (D (h_obj h) s) as [s1 [e|]] eqn:Hd.
    + intros [= <- <-]. by eapply D_good.
    + intros Hrest. apply D_good in Hd as [Hle1 Hok1].
      apply IH in Hrest as [Hle2 Hok2].
      split; [by eapply state_le_trans | auto].
Qed.

Lemma destroy_step_good : good (destroy_step destructors D).
Proof.
  intros o s s' r. unfold destroy_step.
  destruct (heap s !! o) as [ob|] eqn:Hob.
  2: { intros [= <- <-]. split; [apply state_le_refl | done]. }
  destruct (o_destroyed ob) eqn:Hd.
  { intros [= <- <-]. split; [apply state_le_refl | done]. }
  destruct (exec_list D (destructors (o_type ob))
              (set_self (Some o) (mark_destroyed o s))) as [s2 [e|]] eqn:Hbody.
  - intros [= <- <-]. apply exec_list_good in Hbody as [Hle Hok]. split.
    + eapply state_le_trans; [apply mark_destroyed_le|].
      eapply state_le_trans; [apply (set_self_le (Some o))|].
      eapply state_le_trans; [exact Hle | apply set_self_le].
    + intros Hs. apply log_ok_set_self, Hok, log_ok_set_self.
      by eapply log_ok_mark.
  - apply exec_list_good in Hbody as [Hle Hok].
    assert (state_le s (set_self (self s) s2)) as Hle3.
    { eapply state_le_trans; [apply mark_destroyed_le|].
      eapply state_le_trans; [apply (set_self_le (Some o))|].
      eapply state_le_trans; [exact Hle | apply set_self_le]. }
    assert (log_ok s -> log_ok (set_self (self s) s2)) as Hok3.
    { intros Hs. apply log_ok_set_self, Hok, log_ok_set_self.
      by eapply log_ok_mark. }
    destruct (heap (set_self (self s) s2) !! o) as [ob'|].
    + intros Hch. apply destroy_children_good in Hch as [Hle4 Hok4].
      split; [by eapply state_le_trans | auto].
    + intros [= <- <-]. by split.
Qed.

End ExecFacts.

Lemma destroy_obj_good destructors depth : good (destroy_obj destructors depth).
Proof.
  induction depth as [|depth IH]; simpl.
  - intros o s s' r [= <- <-]. split; [apply state_le_refl | done].
  - by apply destroy_step_good.
Qed.

Lemma run_good destructors depth prog s s' r :
  run destructors depth prog s = (s', r) ->
  state_le s s' /\ (log_ok s -> log_ok s').
Proof. apply exec_list_good, destroy_obj_good. Qed.

End ResourceFacts.

(** * Places: resolution along a path *)

Section PlaceFacts.

Import Resources.

Implicit Types (s : State) (h : Handle) (o : ObjId) (slot : Slot) (v : Val).

Lemma live_exists s h : liveness s h = Live -> is_Some (heap s !! h_obj h).
Proof. intros (ob & Hob & _)%liveness_Live. by exists ob. Qed.

(** The slot a walk ends in is a field of the last container of its chain. *)
Lemma walk_slot s rest : forall o k r,
  is_Some (heap s !! o) ->
  walk s o k rest = Ok r ->
  exists o' k', snd r = SField o' k' /\ o' ∈ fst r /\ is_Some (heap s !! o').
Proof.
  induction rest as [|k1 rest IH]; intros o k r Hex; simpl.
  - intros [= <-]. exists o, k. simpl. split; [done|]. split; [set_solver | done].
  - destruct (ob ← heap s !! o; o_fields ob !! k) as [v|]; [|done].
    intros H. apply bind_Ok in H as (o1 & Ho1 & H).
    apply bind_Ok in H as (r1 & Hr1 & H). injection H as <-.
    apply container_of_Ok in Ho1 as (h & _ & <- & Hlive).
    destruct (IH _ _ _ (live_exists _ _ Hlive) Hr1) as (o' & k' & Hslot & Hin & Hex').
    exists o', k'. simpl. split; [done|]. split; [set_solver | done].
Qed.

Lemma resolve_slot s pl r :
  resolve s pl = Ok r ->
  (exists x, pl = (RVar x, []) /\ r = ([], SVar x))
  \/ (exists o' k', snd r = SField o' k' /\ o' ∈ fst r /\ is_Some (heap s !! o')).
Proof.
  destruct pl as [[x|] [|k rest]]; simpl.
  - intros [= <-]. left. by exists x.
  - destruct (vars s !! x) as [v|]; [|done].
    intros H. apply bind_Ok in H as (o & Ho & H). right.
    apply container_of_Ok in Ho as (h & _ & <- & Hlive).
    by eapply walk_slot; [apply live_exists|].
  - done.
  - destruct (self s) as [o|]; [|done].
    destruct (heap s !! o) as [ob|] eqn:Hob; [|done].
    intros H. right. by eapply walk_slot.
Qed.

Lemma walk_app s k q p : forall o k0,
  walk s o k0 (p ++ k :: q) = walk s o k0 p ≫= continue_walk s k q.
Proof.
  induction p as [|k1 p IH]; intros o k0.
  - simpl. unfold continue_walk. simpl.
    destruct (ob ← heap s !! o; o_fields ob !! k0) as [v|]; [|done].
    destruct (container_of s v) as [o'|e]; [|done]. simpl.
    by destruct (walk s o' k q) as [r'|e].
  - simpl. destruct (ob ← heap s !! o; o_fields ob !! k0) as [v|]; [|done].
    destruct (container_of s v) as [o'|e]; [|done]. simpl.
    rewrite IH. destruct (walk s o' k1 p) as [r1|e]; [|done]. simpl.
    unfold continue_walk. simpl.
    destruct (slot_get s (snd r1)) as [v1|]; [|done].
    destruct (container_of s v1) as [o1|e]; [|done]. simpl.
    by destruct (walk s o1 k q) as [r'|e].
Qed.

Lemma resolve_app s root p k q r :
  resolve s (root, p) = Ok r ->
  resolve s (root, p ++ k :: q) = continue_walk s k q r.
Proof.
  destruct root as [x|], p as [|k0 p]; simpl.
  - intros [= <-]. unfold continue_walk. simpl.
    destruct (vars s !! x) as [v|]; [|done].
    destruct (container_of s v) as [o'|e]; [|done]. simpl.
    by destruct (walk s o' k q) as [[chain slot]|e].
  - destruct (vars s !! x) as [v|]; [|done].
    destruct (container_of s v) as [o|e]; [|done]. simpl.
    rewrite walk_app. by intros ->.
  - done.
  - destruct (self s) as [o|]; [|done].
    destruct (heap s !! o) as [ob|]; [|done].
    rewrite walk_app. by intros ->.
Qed.

(** A path through a binding whose resource was moved out cannot be
    resolved. *)
Lemma resolve_through_moved s root p k q r h :
  resolve s (root, p) = Ok r ->
  slot_get s (snd r) = Some (VRes h) ->
  moved s h ->
  resolve s (root, p ++ k :: q) = Panic InvalidatedResourceError.
Proof.
  intros Hr Hget Hmoved. rewrite (resolve_app _ _ _ _ _ _ Hr).
  unfold continue_walk. rewrite Hget. simpl. unfold check_owned.
  by rewrite (liveness_moved _ _ Hmoved).
Qed.

(** The chain of a path that goes through a binding contains the container
    that binding holds. *)
Lemma resolve_chain_contains s root p k q r v o r' :
  resolve s (root, p) = Ok r ->
  slot_get s (snd r) = Some v ->
  container_of s v = Ok o ->
  resolve s (root, p ++ k :: q) = Ok r' ->
  o ∈ fst r'.
Proof.
  intros Hr Hget Ho. rewrite (resolve_app _ _ _ _ _ _ Hr).
  unfold continue_walk. rewrite Hget, Ho. simpl.
  destruct (walk s o k q) as [r1|e] eqn:Hwalk; [|done]. simpl.
  intros [= <-]. simpl. apply elem_of_app. right.
  destruct q as [|k1 q]; simpl in Hwalk.
  - injection Hwalk as <-. simpl. set_solver.
  - destruct (ob ← heap s !! o; o_fields ob !! k) as [v1|]; [|done].
    apply bind_Ok in Hwalk as (o1 & _ & Hwalk).
    apply bind_Ok in Hwalk as (r2 & _ & Hwalk). injection Hwalk as <-.
    simpl. set_solver.
Qed.

End PlaceFacts.

(** * No self-containment *)

Section SelfContainment.

Import Resources.


End SelfContainment.

(** * Move-once and reference liveness *)

Section MoveFacts.

Import Resources.

Implicit Types (s : State) (h : Handle) (o : ObjId) (slot : Slot) (v : Val)
  (pl : Place) (c : Cmd) (e : Error).

Lemma read_place_resolved s pl r :
  resolve s pl = Ok r ->
  read_place s pl = match slot_get s (snd r) with
                    | None => Panic MissingMemberError
                    | Some v => Ok v
                    end.
Proof.
  destruct pl as [[x|] [|k rest]]; unfold read_place; try by intros ->.
  done.
Qed.

Lemma read_place_unresolved s pl e :
  snd pl <> [] -> resolve s pl = Panic e -> read_place s pl = Panic e.
Proof.
  destruct pl as [[x|] [|k rest]]; unfold read_place; try done; by intros _ ->.
Qed.

(** Every use of a binding that holds a dead resource fails, with the error
    of the ownership check, and changes nothing. *)
Lemma uses_dead_binding D s pl r h e c :
  resolve s pl = Ok r ->
  slot_get s (snd r) = Some (VRes h) ->
  check_owned s h = Panic e ->
  uses pl c ->
  exec_cmd D c s = (s, Some e).
Proof.
  intros Hres Hget Hcheck Huses.
  assert (read_place s pl = Ok (VRes h)) as Hread.
  { by rewrite (read_place_resolved _ _ _ Hres), Hget. }
  assert (writable s (Some (VRes h)) = Panic e) as Hwrite.
  { unfold check_owned in Hcheck. simpl.
    destruct (liveness s h); [done | by injection Hcheck as <- ..]. }
  destruct Huses; simpl; rewrite ?Hread, ?Hres; simpl;
    rewrite ?Hget, ?Hcheck, ?Hwrite; done.
Qed.

(** Every use of a place that cannot be resolved fails with the error of
    the resolution, and changes nothing. *)
Lemma uses_unresolved D s pl e c :
  snd pl <> [] ->
  resolve s pl = Panic e ->
  uses pl c ->
  exec_cmd D c s = (s, Some e).
Proof.
  intros Hne Hres Huses.
  pose proof (read_place_unresolved _ _ _ Hne Hres) as Hread.
  destruct Huses; simpl; rewrite ?Hread, ?Hres; done.
Qed.

Lemma liveness_slot_set slot v s h :
  liveness (slot_set slot v s) h = liveness s h.
Proof.
  destruct slot as [x|o k|a p]; try done.
  unfold liveness. simpl. destruct (decide (o = h_obj h)) as [->|Hne].
  - rewrite lookup_alter_eq. by destruct (heap s !! h_obj h).
  - by rewrite lookup_alter_ne.
Qed.

Lemma moved_slot_set slot v s h : moved s h -> moved (slot_set slot v s) h.
Proof.
  intros (ob & Hob & Hlt).
  destruct (heap_le_slot_set slot v s _ _ Hob) as (ob' & Hob' & _ & Hv & _).
  exists ob'. split; [done | lia].
Qed.

Lemma exec_cmd_prim D c s s' :
  (forall src, c <> CDestroy src) ->
  exec_cmd D c s = (s', None) -> exec_prim c s = Ok s'.
Proof.
  intros Hc.
  assert (outcome_of s (exec_prim c s) = (s', None) -> exec_prim c s = Ok s') as H.
  { destruct (exec_prim c s); simpl; [by intros [= <-] | done]. }
  destruct c; try exact H. by destruct (Hc src).
Qed.

(** A successful move out of a binding leaves the binding dead and the
    value usable where it went. *)
Lemma move_kills_binding (destructors : string -> list Cmd)
    (D : ObjId -> State -> Outcome) (s s1 : State) (src dst : Place) :
  exec_cmd D (CMove src dst) s = (s1, None) ->
  exists h rs rd,
    resolve s src = Ok rs
    /\ slot_get s (snd rs) = Some (VRes h)
    /\ liveness s h = Live
    /\ resolve s dst = Ok rd
    /\ usable_at s s1 h (snd rd)
    /\ dead_binding destructors s1 src rs h.
Proof.
  intros Hexec. apply exec_cmd_prim in Hexec; [|done].
  unfold exec_prim in Hexec.
  apply bind_Ok in Hexec as (v & Hread & Hexec).
  apply bind_Ok in Hexec as (h & Hh & Hexec).
  apply bind_Ok in Hexec as (rd & Hrd & Hexec).
  case_bool_decide as Hrec; [done|].
  apply bind_Ok in Hexec as (u & Hw & Hexec).
  assert (s1 = slot_set (snd rd) (VRes (moved_handle h)) (bump (h_obj h) s))
    as -> by congruence. clear Hexec.
  destruct (read_live_res _ _ _ _ Hread Hh) as (-> & Hlive & rs & Hrs & Hget).
  assert (snd rd <> snd rs) as Hslots.
  { intros Heq. rewrite Heq, Hget in Hw. simpl in Hw. by rewrite Hlive in Hw. }
  assert (forall o k, snd rd = SField o k ->
                      o <> h_obj h /\ is_Some (heap s !! o)) as Hfield.
  { intros o k Heq.
    destruct (resolve_slot _ _ _ Hrd) as [(x & _ & ->)|(o' & k' & Hs & Hin & Hex)];
      [done|].
    rewrite Heq in Hs. injection Hs as <- <-. split; [|done].
    by intros ->. }
  exists h, rs, rd.
  split; [done|]. split; [done|]. split; [done|]. split; [done|].
  split; [split; [|split]|].
  { apply slot_get_set_eq. intros o k Heq.
    destruct (Hfield o k Heq) as [Hne [ob Hob]]. unfold bump. simpl.
    by rewrite lookup_alter_ne, Hob. }
  { rewrite liveness_slot_set. by apply liveness_moved_handle. }
  { intros ob Hob. destruct (snd rd) as [x|o k|a p] eqn:Heq; simpl.
    - by rewrite lookup_alter_eq, Hob.
    - destruct (Hfield o k eq_refl) as [Hne _].
      rewrite lookup_alter_ne by done. by rewrite lookup_alter_eq, Hob.
    - by rewrite lookup_alter_eq, Hob. }
  intros depth prog s2 r Hrun.
  apply run_good in Hrun as [Hle _].
  set (s1 := slot_set (snd rd) (VRes (moved_handle h)) (bump (h_obj h) s)) in *.
  assert (slot_get s1 (snd rs) = Some (VRes h)) as Hget1.
  { unfold s1. rewrite slot_get_set_ne by done. by rewrite slot_get_bump. }
  assert (moved s1 h) as Hmoved1.
  { unfold s1. by apply moved_slot_set, moved_after_bump. }
  assert (slot_get s2 (snd rs) = Some (VRes h)) as Hget2.
  { apply (le_slots _ _ Hle); [done | by left]. }
  assert (moved s2 h) as Hmoved2 by (by eapply moved_le).
  split; [done|]. split; [done|]. split.
  { intros x ->. simpl in *. congruence. }
  intros pl rp D' c Hrp Heq Huses.
  assert (check_owned s2 h = Panic InvalidatedResourceError) as Hcheck.
  { unfold check_owned. by rewrite (liveness_moved _ _ Hmoved2). }
  rewrite <- Heq in Hget2.
  destruct Huses as [Huses|(k & path & Huses)].
  - by eapply uses_dead_binding.
  - eapply uses_unresolved; [| |exact Huses].
    + simpl. by destruct (snd pl).
    + destruct pl as [root p]. simpl. by eapply resolve_through_moved.
Qed.

(** C1: move-once. A successful move out of a binding leaves the value
    usable in the destination binding, which holds a live handle of the
    object with the type and fields it had, and leaves the source binding
    dead: after any further execution every read, write, reference-take,
    transfer, swap, destroy or save through a place that denotes the
    binding, or a member of it, fails with an invalidated-resource error
    and changes nothing. The rug pull of TestRuntimeInvalidatedResourceUse,
    which swaps the vault away between the binding of the receiver of
    withdraw and the call, is rejected at the call, with the error the test
    asserts, at any call-stack bound that lets the program get there. *)
Theorem move_once :
  (forall (destructors : string -> list Cmd) (D : ObjId -> State -> Outcome)
          (s s1 : State) (src dst : Place),
      exec_cmd D (CMove src dst) s = (s1, None) ->
      exists h rs rd,
        resolve s src = Ok rs
        /\ slot_get s (snd rs) = Some (VRes h)
        /\ liveness s h = Live
        /\ resolve s dst = Ok rd
        /\ usable_at s s1 h (snd rd)
        /\ dead_binding destructors s1 src rs h)
  /\ (forall depth,
        snd (run Scenarios.no_destructors (S depth) Scenarios.rug_pull_attack
               empty_state)
        = Some InvalidatedResourceReferenceError).
Proof.
  split; [apply move_kills_binding|].
  intros depth. vm_compute. reflexivity.
Qed.

End MoveFacts.

(** * Destroy terminality *)

Section DestroyFacts.

Import Resources.

Implicit Types (s : State) (h : Handle) (o : ObjId) (ob : Obj) (v : Val)
  (pl : Place) (c : Cmd) (e : Error).

Lemma marked_le s s' o : state_le s s' -> marked s o -> marked s' o.
Proof.
  intros Hle (ob & Hob & Hd).
  destruct (le_heap _ _ Hle _ _ Hob) as (ob' & Hob' & _ & _ & Hd').
  exists ob'. split; [done|]. by apply Hd'.
Qed.

Lemma marked_mark s o ob : heap s !! o = Some ob -> marked (mark_destroyed o s) o.
Proof.
  intros Hob. exists (set_destroyed ob). simpl. by rewrite lookup_alter_eq, Hob.
Qed.

(** A handle of a marked instance is not live: using it fails with one of
    the two errors of a terminal state. *)
Lemma marked_check_owned s h :
  marked s (h_obj h) ->
  exists e, check_owned s h = Panic e
            /\ (e = DestroyedResourceError \/ e = InvalidatedResourceError).
Proof.
  intros (ob & Hob & Hd). unfold check_owned, liveness. rewrite Hob.
  destruct (Nat.eqb (h_version h) (o_version ob)); simpl.
  - rewrite Hd. eexists. split; [done | by left].
  - eexists. split; [done | by right].
Qed.

Lemma marked_not_live s h : marked s (h_obj h) -> liveness s h <> Live.
Proof.
  intros (ob & Hob & Hd). unfold liveness. rewrite Hob, Hd.
  by destruct (Nat.eqb (h_version h) (o_version ob)).
Qed.

(** A target that is not live any more was moved or destroyed, and the
    liveness check of an access through a reference to it fails. *)
Lemma not_live_check_ref s h :
  liveness s h <> Live -> check_ref s h = Panic InvalidatedResourceReferenceError.
Proof. unfold check_ref. by destruct (liveness s h). Qed.

Lemma destroy_marked destructors D s o :
  marked s o -> destroy_step destructors D o s = (s, Some DestroyedResourceError).
Proof.
  intros (ob & Hob & Hd). unfold destroy_step. by rewrite Hob, Hd.
Qed.

Section WithDestroyer.

Variable destructors : string -> list Cmd.
Variable D : ObjId -> State -> Outcome.
Hypothesis D_good : good D.

(** A destroy that gets past its checks ends in a state that comes after
    the marking of the instance. *)
Lemma destroy_step_from_mark o s ob s' r :
  heap s !! o = Some ob -> o_destroyed ob = false ->
  destroy_step destructors D o s = (s', r) ->
  state_le (mark_destroyed o s) s'.
Proof.
  intros Hob Hd. unfold destroy_step. rewrite Hob, Hd.
  destruct (exec_list D (destructors (o_type ob))
              (set_self (Some o) (mark_destroyed o s))) as [s2 [e|]] eqn:Hbody;
    apply (exec_list_good D D_good) in Hbody as [Hle _].
  - intros [= <- <-].
    eapply state_le_trans; [apply (set_self_le (Some o))|].
    eapply state_le_trans; [exact Hle | apply set_self_le].
  - assert (state_le (mark_destroyed o s) (set_self (self s) s2)) as Hle3.
    { eapply state_le_trans; [apply (set_self_le (Some o))|].
      eapply state_le_trans; [exact Hle | apply set_self_le]. }
    destruct (heap (set_self (self s) s2) !! o) as [ob'|].
    + intros Hch. apply (destroy_children_good D D_good) in Hch as [Hle4 _].
      by eapply state_le_trans.
    + by intros [= <- <-].
Qed.

Lemma destroy_step_marks o s s' :
  destroy_step destructors D o s = (s', None) -> marked s' o.
Proof.
  intros Hstep. pose proof Hstep as Hstep'. unfold destroy_step in Hstep.
  destruct (heap s !! o) as [ob|] eqn:Hob; [|done].
  destruct (o_destroyed ob) eqn:Hd; [done|]. clear Hstep.
  eapply marked_le; [by eapply destroy_step_from_mark|].
  by eapply marked_mark.
Qed.

(** While the instance is marked, the guarded destroyer is the destroyer. *)
Lemma exec_cmd_guarded o c s :
  marked s o -> exec_cmd (only_when_marked o D) c s = exec_cmd D c s.
Proof.
  intros (ob & Hob & Hd). destruct c; try done. simpl.
  destruct (read_place s src) as [[| |h|h]|e]; try done.
  destruct (check_owned s h); [|done].
  unfold only_when_marked. by rewrite Hob, Hd.
Qed.

Lemma exec_list_guarded o prog : forall s,
  marked s o -> exec_list (only_when_marked o D) prog s = exec_list D prog s.
Proof.
  induction prog as [|c rest IH]; intros s Hm; simpl; [done|].
  rewrite exec_cmd_guarded by done.
  destruct (exec_cmd D c s) as [s1 [e|]] eqn:Hc; [done|].
  apply IH. eapply marked_le; [|exact Hm].
  by eapply (exec_cmd_good D D_good).
Qed.

Lemma destroy_children_guarded o l : forall s,
  marked s o ->
  destroy_children (only_when_marked o D) l s = destroy_children D l s.
Proof.
  induction l as [|h rest IH]; intros s Hm; simpl; [done|].
  destruct (liveness s h); try by apply IH.
  assert (only_when_marked o D (h_obj h) s = D (h_obj h) s) as ->.
  { destruct Hm as (ob & Hob & Hd). unfold only_when_marked. by rewrite Hob, Hd. }
  destruct (D (h_obj h) s) as [s1 [e|]] eqn:Hd; [done|].
  apply IH. eapply marked_le; [|exact Hm]. by eapply D_good.
Qed.

Lemma destroy_step_guarded o s :
  destroy_step destructors (only_when_marked o D) o s
  = destroy_step destructors D o s.
Proof.
  unfold destroy_step.
  destruct (heap s !! o) as [ob|] eqn:Hob; [|done].
  destruct (o_destroyed ob) eqn:Hd; [done|].
  assert (marked (set_self (Some o) (mark_destroyed o s)) o) as Hm
    by (by eapply marked_mark).
  rewrite exec_list_guarded by done.
  destruct (exec_list D (destructors (o_type ob))
              (set_self (Some o) (mark_destroyed o s))) as [s2 [e|]] eqn:Hbody;
    [done|].
  apply (exec_list_good D D_good) in Hbody as [Hle _].
  assert (marked (set_self (self s) s2) o) as Hm2.
  { eapply marked_le; [|exact Hm].
    eapply state_le_trans; [exact Hle | apply set_self_le]. }
  destruct (heap (set_self (self s) s2) !! o) as [ob'|]; [|done].
  by apply destroy_children_guarded.
Qed.

End WithDestroyer.

Lemma log_ok_empty : log_ok empty_state.
Proof. split; [apply NoDup_nil_2 | by intros o Ho%elem_of_nil]. Qed.

(** ** The states a destroy goes through *)

Lemma runs_at_le D prog s0 c s' :
  good D -> runs_at D prog s0 c s' -> state_le s0 s'.
Proof.
  intros HD Hat. induction Hat as [c rest s|c rest s s1 c' s' Hc _ IH].
  - apply state_le_refl.
  - eapply state_le_trans; [|exact IH]. by eapply (exec_cmd_good D HD).
Qed.

Lemma destroys_at_le D l s0 o s' :
  good D -> destroys_at D l s0 o s' -> state_le s0 s'.
Proof.
  intros HD Hat.
  induction Hat as [h rest s|h rest s s1 o s' _ Hd _ IH|h rest s o s' _ _ IH].
  - apply state_le_refl.
  - eapply state_le_trans; [|exact IH]. by eapply HD.
  - exact IH.
Qed.

(** Whatever is reached while an instance is being destroyed is reached
    after the instance was marked. *)
Lemma during_le destructors depth o s c s' :
  during destructors depth o s c s' -> state_le (mark_destroyed o s) s'.
Proof.
  intros Hd.
  induction Hd as [depth o s ob c s' Hob Hdes Hat
                  |depth o s ob src s1 h c s' Hob Hdes Hat Hread Hcheck _ IH
                  |depth o s ob s2 ob' o' s1 c s' Hob Hdes Hbody Hob' Hat _ IH].
  - eapply state_le_trans; [apply (set_self_le (Some o))|].
    eapply runs_at_le; [apply destroy_obj_good | exact Hat].
  - eapply state_le_trans; [apply (set_self_le (Some o))|].
    eapply state_le_trans;
      [eapply runs_at_le; [apply destroy_obj_good | exact Hat]|].
    eapply state_le_trans; [apply (mark_destroyed_le (h_obj h))|exact IH].
  - eapply state_le_trans; [apply (set_self_le (Some o))|].
    apply (exec_list_good _ (destroy_obj_good destructors depth)) in Hbody
      as [Hle _].
    eapply state_le_trans; [exact Hle|].
    eapply state_le_trans; [apply (set_self_le (self s))|].
    eapply state_le_trans;
      [eapply destroys_at_le; [apply destroy_obj_good | exact Hat]|].
    eapply state_le_trans; [apply (mark_destroyed_le o')|exact IH].
Qed.

Lemma during_marked destructors depth o s c s' :
  during destructors depth o s c s' -> marked s' o.
Proof.
  intros Hd. eapply marked_le; [by eapply during_le|].
  inversion Hd; subst; by eapply marked_mark.
Qed.

(** ** A failure ends the destroy it happens in *)

Lemma runs_at_fails D prog s0 c s' e :
  runs_at D prog s0 c s' ->
  snd (exec_cmd D c s') = Some e ->
  snd (exec_list D prog s0) = Some e.
Proof.
  intros Hat Hfail. induction Hat as [c rest s|c rest s s1 c' s' Hc _ IH].
  - simpl. destruct (exec_cmd D c s) as [s1 [e'|]]; [done|discriminate].
  - simpl. rewrite Hc. by apply IH.
Qed.

Lemma destroys_at_fails D l s0 o s' e :
  destroys_at D l s0 o s' ->
  snd (D o s') = Some e ->
  snd (destroy_children D l s0) = Some e.
Proof.
  intros Hat Hfail.
  induction Hat as [h rest s Hl|h rest s s1 o s' Hl Hd _ IH|h rest s o s' Hl _ IH].
  - simpl. rewrite Hl. destruct (D (h_obj h) s) as [s1 [e'|]]; [done|discriminate].
  - simpl. rewrite Hl, Hd. by apply IH.
  - simpl. destruct (liveness s h); [done| |]; by apply IH.
Qed.

Lemma during_fails destructors depth o s c s' e :
  during destructors depth o s c s' ->
  (forall D', snd (exec_cmd D' c s') = Some e) ->
  snd (destroy_obj destructors depth o s) = Some e.
Proof.
  intros Hd Hfail.
  induction Hd as [depth o s ob c s' Hob Hdes Hat
                  |depth o s ob src s1 h c s' Hob Hdes Hat Hread Hcheck _ IH
                  |depth o s ob s2 ob' o' s1 c s' Hob Hdes Hbody Hob' Hat _ IH].
  - simpl. unfold destroy_step. rewrite Hob, Hdes.
    pose proof (runs_at_fails _ _ _ _ _ _ Hat (Hfail _)) as Hbody.
    destruct (exec_list _ _ _) as [s2 [e'|]]; [done|discriminate].
  - simpl. unfold destroy_step. rewrite Hob, Hdes.
    assert (snd (exec_cmd (destroy_obj destructors depth) (CDestroy src) s1)
            = Some e) as Hc.
    { simpl. rewrite Hread, Hcheck. by apply IH. }
    pose proof (runs_at_fails _ _ _ _ _ _ Hat Hc) as Hbody.
    destruct (exec_list _ _ _) as [s2 [e'|]]; [done|discriminate].
  - simpl. unfold destroy_step. rewrite Hob, Hdes, Hbody, Hob'.
    eapply destroys_at_fails; [exact Hat | by apply IH].
Qed.

(** C3: destroy terminality. (1) In the log of any execution that starts
    from a state whose log is in order, as the empty state is, an instance
    has at most one destructor run. (2) After a destroy that succeeded, at
    any later point, destroying the same instance through any binding fails,
    with a destroyed-resource or invalidated-resource error, and changes
    nothing; destroying the object itself fails with a destroyed-resource
    error. (3) While the destroy of an instance is executing, at whatever
    statement of its destructor, or of a destructor nested in it at any
    depth, the instance is marked destroyed; destroying the object itself
    there fails with a destroyed-resource error; a statement there that
    destroys the instance again, through any binding that holds it, fails
    with a destroyed-resource or invalidated-resource error and changes
    nothing; a statement there that goes through a reference to the
    instance fails with an invalidated-resource-reference error and changes
    nothing; and in both cases the destroy that is executing fails with that
    error. (4) A destructor whose first statement destroys its own instance
    again fails there: the state is the one right after the marking, with
    the one destructor run recorded. (5) The instance is marked before
    anything is destroyed recursively: a destroyer that refuses to run
    unless the instance is marked gives the same result. (6) The program of
    TestRuntimeDestructorReentrancyPrevention, in which the destructor of
    the inner resource re-enters the outer resource through its reference
    while the outer resource is being destroyed, fails with the error the
    test asserts, at any call-stack bound that lets it get there, and each
    of the two destructors has run once. *)
Theorem destroy_terminality (destructors : string -> list Cmd) :
  (forall depth prog s s' r o,
      log_ok s ->
      run destructors depth prog s = (s', r) ->
      log_ok s'
      /\ length (filter (fun o' => o' = o) (destructor_runs (log s'))) <= 1)
  /\ (forall depth s s1 src h,
      read_place s src = Ok (VRes h) ->
      exec_cmd (destroy_obj destructors depth) (CDestroy src) s = (s1, None) ->
      forall depth2 prog s2 r,
        run destructors depth2 prog s1 = (s2, r) ->
        (forall depth3,
            destroy_obj destructors (S depth3) (h_obj h) s2
            = (s2, Some DestroyedResourceError))
        /\ forall D' src' h',
            read_place s2 src' = Ok (VRes h') ->
            h_obj h' = h_obj h ->
            exists e, exec_cmd D' (CDestroy src') s2 = (s2, Some e)
                      /\ (e = DestroyedResourceError
                          \/ e = InvalidatedResourceError))
  /\ (forall depth o s c s',
      during destructors depth o s c s' ->
      marked s' o
      /\ (forall depth',
            destroy_obj destructors (S depth') o s'
            = (s', Some DestroyedResourceError))
      /\ (forall src h',
            c = CDestroy src ->
            read_place s' src = Ok (VRes h') ->
            h_obj h' = o ->
            exists e,
              (forall D', exec_cmd D' c s' = (s', Some e))
              /\ (e = DestroyedResourceError \/ e = InvalidatedResourceError)
              /\ snd (destroy_obj destructors depth o s) = Some e)
      /\ (forall x k path h',
            vars s' !! x = Some (VRef h') ->
            h_obj h' = o ->
            uses (RVar x, k :: path) c ->
            (forall D',
                exec_cmd D' c s' = (s', Some InvalidatedResourceReferenceError))
            /\ snd (destroy_obj destructors depth o s)
               = Some InvalidatedResourceReferenceError))
  /\ (forall depth o s ob src rest h',
      heap s !! o = Some ob ->
      o_destroyed ob = false ->
      destructors (o_type ob) = CDestroy src :: rest ->
      read_place (set_self (Some o) (mark_destroyed o s)) src = Ok (VRes h') ->
      h_obj h' = o ->
      exists e,
        destroy_obj destructors (S depth) o s = (mark_destroyed o s, Some e)
        /\ (e = DestroyedResourceError \/ e = InvalidatedResourceError)
        /\ destructor_runs (log (mark_destroyed o s))
           = destructor_runs (log s) ++ [o])
  /\ (forall depth o s,
      destroy_step destructors
        (only_when_marked o (destroy_obj destructors depth)) o s
      = destroy_obj destructors (S depth) o s)
  /\ (forall depth,
      let out := run Scenarios.outer_inner_destructors (S (S depth))
                   Scenarios.destructor_reentrancy empty_state in
      snd out = Some InvalidatedResourceReferenceError
      /\ destructor_runs (log (fst out)) = [0; 1]).
Proof.
  split; [|split; [|split; [|split; [|split]]]].
  - intros depth prog s s' r o Hok Hrun.
    apply run_good in Hrun as [_ Hok']. split; [by apply Hok'|].
    by apply log_ok_at_most_once, Hok'.
  - intros depth s s1 src h Hread Hexec depth2 prog s2 r Hrun.
    assert (marked s1 (h_obj h)) as Hm1.
    { simpl in Hexec. rewrite Hread in Hexec.
      destruct (check_owned s h); [|done].
      destruct depth as [|depth]; [done|]. simpl in Hexec.
      eapply destroy_step_marks; [apply destroy_obj_good | exact Hexec]. }
    assert (marked s2 (h_obj h)) as Hm2.
    { apply run_good in Hrun as [Hle _]. by eapply marked_le. }
    split.
    + intros depth3. simpl. by apply destroy_marked.
    + intros D' src' h' Hread' Heq. rewrite <- Heq in Hm2.
      destruct (marked_check_owned _ _ Hm2) as (e & Hcheck & He).
      exists e. split; [|done]. simpl. by rewrite Hread', Hcheck.
  - intros depth o s c s' Hduring.
    pose proof (during_marked _ _ _ _ _ _ Hduring) as Hm.
    split; [done|]. split; [|split].
    + intros depth'. simpl. by apply destroy_marked.
    + intros src h' -> Hread Heq. rewrite <- Heq in Hm.
      destruct (marked_check_owned _ _ Hm) as (e & Hcheck & He).
      assert (forall D', exec_cmd D' (CDestroy src) s' = (s', Some e)) as Hfail.
      { intros D'. simpl. by rewrite Hread, Hcheck. }
      exists e. split; [done|]. split; [done|].
      eapply during_fails; [exact Hduring|]. intros D'. by rewrite Hfail.
    + intros x k path h' Hx Heq Huses. rewrite <- Heq in Hm.
      assert (forall D', exec_cmd D' c s'
                         = (s', Some InvalidatedResourceReferenceError)) as Hfail.
      { intros D'.
        apply (uses_unresolved D' s' (RVar x, k :: path)
                 InvalidatedResourceReferenceError c); [done | | exact Huses].
        simpl. rewrite Hx. simpl.
        by rewrite (not_live_check_ref _ _ (marked_not_live _ _ Hm)). }
      split; [done|].
      eapply during_fails; [exact Hduring|]. intros D'. by rewrite Hfail.
  - intros depth o s ob src rest h' Hob Hd Hbody Hread Heq.
    assert (marked (set_self (Some o) (mark_destroyed o s)) (h_obj h')) as Hm.
    { rewrite Heq. by eapply marked_mark. }
    destruct (marked_check_owned _ _ Hm) as (e & Hcheck & He).
    exists e. split; [|split; [done|]].
    + simpl. unfold destroy_step. rewrite Hob, Hd, Hbody. simpl.
      by rewrite Hread, Hcheck.
    + simpl. apply destructor_runs_snoc.
  - intros depth o s. simpl. apply destroy_step_guarded, destroy_obj_good.
  - intros depth. split; by vm_compute.
Qed.

(** A destructor that destroys its own instance again, through the
    variable that holds it, is rejected, and ran once. *)
Lemma reentrant_destroy_rejected depth :
  let out := run Scenarios.reentrant_destructors (S (S depth))
               Scenarios.reentrant_destroy empty_state in
  snd out = Some DestroyedResourceError
  /\ destructor_runs (log (fst out)) = [0].
Proof. split; by vm_compute. Qed.

End DestroyFacts.

(** * Account storage: save and load *)

Section StorageFacts.

Import Resources.

Implicit Types (s : State) (h : Handle) (o : ObjId) (ob : Obj) (v : Val).

Lemma writable_free s old :
  (forall h, old <> Some (VRes h)) -> writable s old = Ok tt.
Proof. intros H. destruct old as [[| |h|]|]; try done. by destruct (H h). Qed.

Lemma exec_create s x ty fields :
  (forall h, vars s !! x <> Some (VRes h)) ->
  exec_prim (CCreate x ty fields) s
  = Ok (slot_set (SVar x) (VRes (mkHandle (fresh (dom (heap s))) 0))
          (snd (alloc ty fields s))).
Proof. intros Hx. unfold exec_prim. by rewrite writable_free. Qed.

Lemma exec_save_var s x h a p :
  vars s !! x = Some (VRes h) ->
  liveness s h = Live ->
  (forall h', storage s !! (a, p) <> Some (VRes h')) ->
  exec_prim (CSave (RVar x, []) a p) s
  = Ok (slot_set (SStorage a p) (VRes (moved_handle h)) (bump (h_obj h) s)).
Proof.
  intros Hx Hlive Hfree. unfold exec_prim, read_place. simpl. rewrite Hx. simpl.
  unfold check_owned. rewrite Hlive. simpl. by rewrite writable_free.
Qed.

Lemma exec_load_some s y ty a p h ob :
  (forall h', vars s !! y <> Some (VRes h')) ->
  storage s !! (a, p) = Some (VRes h) ->
  liveness s h = Live ->
  heap s !! h_obj h = Some ob ->
  o_type ob = ty ->
  exec_prim (CLoad y ty a p) s
  = Ok (slot_set (SVar y) (VRes (moved_handle h))
          (storage_delete a p (bump (h_obj h) s))).
Proof.
  intros Hy Hst Hlive Hob Hty. unfold exec_prim. rewrite writable_free by done.
  simpl. rewrite Hst. simpl. unfold check_owned. rewrite Hlive. simpl.
  rewrite Hob. by rewrite bool_decide_eq_true_2.
Qed.

Lemma exec_load_none s y ty a p :
  (forall h', vars s !! y <> Some (VRes h')) ->
  storage s !! (a, p) = None ->
  exec_prim (CLoad y ty a p) s = Ok (slot_set (SVar y) VNil s).
Proof.
  intros Hy Hst. unfold exec_prim. rewrite writable_free by done.
  simpl. by rewrite Hst.
Qed.

Lemma run_prim destructors depth c s s' :
  (forall src, c <> CDestroy src) ->
  exec_prim c s = Ok s' ->
  forall rest, run destructors depth (c :: rest) s = run destructors depth rest s'.
Proof.
  intros Hc Hprim rest. unfold run. simpl.
  assert (exec_cmd (destroy_obj destructors depth) c s = (s', None)) as ->; [|done].
  assert (outcome_of s (exec_prim c s) = (s', None)) as H by (by rewrite Hprim).
  destruct c; try exact H. by destruct (Hc src).
Qed.

(** C8: the storage round trip. A transaction creates a resource of type
    [ty] whose field [f] is initialised to [n] (42 in the scenario) and
    saves it to a storage path that holds nothing. In the next transaction
    a load of that type from the path succeeds: the variable holds a live
    resource, its field [f] reads [n], and the path holds nothing any more.
    A further load from the path, in a later transaction, returns nil. *)
Theorem storage_round_trip (destructors : string -> list Cmd) (depth : nat)
    (s : State) (x ty : string) (f : Key) (n : Z) (fields : list (Key * Z))
    (a : N) (p : string) :
  (forall h, vars s !! x <> Some (VRes h)) ->
  storage s !! (a, p) = None ->
  exists s1,
    run destructors depth
      [CCreate x ty ((f, n) :: fields); CSave (RVar x, []) a p] s = (s1, None)
    /\ forall y, exists s3 h,
         run destructors depth [CLoad y ty a p] (begin_execution s1) = (s3, None)
         /\ vars s3 !! y = Some (VRes h)
         /\ liveness s3 h = Live
         /\ read_place s3 (RVar y, [f]) = Ok (VInt n)
         /\ storage s3 !! (a, p) = None
         /\ forall z, exists s5,
              run destructors depth [CLoad z ty a p] (begin_execution s3)
              = (s5, None)
              /\ vars s5 !! z = Some VNil.
Proof.
  intros Hx Hst.
  set (o := fresh (dom (heap s))).
  set (ob0 := mkObj ty (list_to_map (prod_map id VInt <$> (f, n) :: fields)) 0 false).
  set (h0 := mkHandle o 0).
  set (sa := slot_set (SVar x) (VRes h0) (snd (alloc ty ((f, n) :: fields) s))).
  assert (heap sa !! o = Some ob0) as Hheap_a.
  { unfold sa, alloc. simpl. by rewrite lookup_insert_eq. }
  assert (liveness sa h0 = Live) as Hlive_a.
  { apply liveness_Live. by exists ob0. }
  set (s1 := slot_set (SStorage a p) (VRes (moved_handle h0)) (bump o sa)).
  exists s1. split.
  { erewrite run_prim; [|done|by apply exec_create].
    erewrite run_prim; [done|done|]. fold o h0 sa.
    apply (exec_save_var sa x h0 a p); [|done|].
    - unfold sa. simpl. by rewrite lookup_insert_eq.
    - unfold sa, alloc. simpl. rewrite Hst. done. }
  assert (heap s1 !! o = Some (bump_version ob0)) as Hheap_1.
  { change (heap s1) with (alter bump_version o (heap sa)).
    by rewrite lookup_alter_eq, Hheap_a. }
  assert (storage s1 !! (a, p) = Some (VRes (moved_handle h0))) as Hst_1.
  { change (storage s1) with (<[(a, p) := VRes (moved_handle h0)]> (storage (bump o sa))).
    by rewrite lookup_insert_eq. }
  intros y.
  set (s2 := begin_execution s1).
  set (h1 := moved_handle h0).
  assert (liveness s2 h1 = Live) as Hlive_2.
  { apply liveness_Live. by exists (bump_version ob0). }
  set (s3 := slot_set (SVar y) (VRes (moved_handle h1))
               (storage_delete a p (bump (h_obj h1) s2))).
  exists s3, (moved_handle h1).
  assert (heap s3 !! o = Some (bump_version (bump_version ob0))) as Hheap_3.
  { change (heap s3) with (alter bump_version o (heap s1)).
    by rewrite lookup_alter_eq, Hheap_1. }
  assert (liveness s3 (moved_handle h1) = Live) as Hlive_3.
  { apply liveness_Live. by exists (bump_version (bump_version ob0)). }
  split.
  { erewrite run_prim; [done|done|].
    by apply (exec_load_some s2 y ty a p h1 (bump_version ob0)). }
  assert (vars s3 !! y = Some (VRes (moved_handle h1))) as Hvar_3.
  { change (vars s3) with (<[y := VRes (moved_handle h1)]> (vars s2)).
    by rewrite lookup_insert_eq. }
  split; [done|].
  split; [done|].
  split.
  { unfold read_place, resolve. rewrite Hvar_3.
    unfold container_of, check_owned. rewrite Hlive_3.
    assert (slot_get s3 (SField o f) = Some (VInt n)) as Hfield;
      [|change (match slot_get s3 (SField o f) with
                | Some v => Ok v
                | None => Panic MissingMemberError
                end = Ok (E := Error) (VInt n)); by rewrite Hfield].
    change (slot_get s3 (SField o f)) with (ob ← heap s3 !! o; o_fields ob !! f).
    rewrite Hheap_3.
    change (o_fields (bump_version (bump_version ob0)))
      with (<[f := VInt n]> (list_to_map (prod_map id VInt <$> fields) : gmap Key Val)).
    simpl. by rewrite lookup_insert_eq. }
  assert (storage s3 !! (a, p) = None) as Hst_3.
  { change (storage s3) with (delete (a, p) (storage s1)).
    by rewrite lookup_delete_eq. }
  split; [done|].
  intros z. exists (slot_set (SVar z) VNil (begin_execution s3)). split.
  - erewrite run_prim; [done|done|].
    apply exec_load_none; [|done].
    intros h'. simpl. by rewrite lookup_empty.
  - simpl. by rewrite lookup_insert_eq.
Qed.

(** The three transactions of the test: the number saved by the first is
    logged by the second, and the third finds the path empty. *)
Lemma storage_scenario depth :
  let o1 := run Scenarios.no_destructors (S depth) Scenarios.save_transaction
              empty_state in
  let o2 := run Scenarios.no_destructors (S depth) Scenarios.load_transaction
              (begin_execution (fst o1)) in
  let o3 := run Scenarios.no_destructors (S depth)
              [CLoad "number" "SomeNumber" 42 "number"]
              (begin_execution (fst o2)) in
  snd o1 = None /\ snd o2 = None /\ snd o3 = None
  /\ log (fst o2) = [EvLog 42; EvDestructor 0]
  /\ vars (fst o3) !! "number" = Some VNil.
Proof. repeat split; by vm_compute. Qed.

End StorageFacts.
(** * Reference liveness *)

Section ReferenceFacts.

Import Resources.

Implicit Types (s : State) (h : Handle) (o : ObjId) (v : Val)
  (pl : Place) (c : Cmd) (e : Error).

Lemma moved_not_live s h : moved s h -> liveness s h <> Live.
Proof. intros Hm. by rewrite (liveness_moved _ _ Hm). Qed.

Lemma destroyed_not_live s h : destroyed s h -> liveness s h <> Live.
Proof. intros Hd. by rewrite (liveness_destroyed _ _ Hd). Qed.

(** A member or index access through a reference whose target is not live
    fails at the liveness check, and changes nothing. *)
Lemma stale_reference_use D s y h k path c :
  liveness s h <> Live ->
  vars s !! y = Some (VRef h) ->
  uses (RVar y, k :: path) c ->
  exec_cmd D c s = (s, Some InvalidatedResourceReferenceError).
Proof.
  intros Hdead Hy Huses.
  apply (uses_unresolved D s (RVar y, k :: path)
           InvalidatedResourceReferenceError c); [done | | exact Huses].
  simpl. rewrite Hy. simpl. by rewrite (not_live_check_ref _ _ Hdead).
Qed.

Lemma move_leaves_moved D s s1 src dst h :
  read_place s src = Ok (VRes h) ->
  exec_cmd D (CMove src dst) s = (s1, None) ->
  moved s1 h.
Proof.
  intros Hread Hexec. apply exec_cmd_prim in Hexec; [|done].
  unfold exec_prim in Hexec. rewrite Hread in Hexec.
  apply bind_Ok in Hexec as (v & [= <-] & Hexec).
  apply bind_Ok in Hexec as (h' & Hh & Hexec).
  apply bind_Ok in Hexec as (rd & Hrd & Hexec).
  case_bool_decide; [done|].
  apply bind_Ok in Hexec as (u & Hw & Hexec).
  apply bind_Ok in Hh as (u' & Hcheck & [= <-]).
  assert (s1 = slot_set (snd rd) (VRes (moved_handle h)) (bump (h_obj h) s))
    as -> by congruence.
  by apply moved_slot_set, moved_after_bump, (check_owned_Ok _ _ _ Hcheck).
Qed.

Lemma save_leaves_moved D s s1 src address path h :
  read_place s src = Ok (VRes h) ->
  exec_cmd D (CSave src address path) s = (s1, None) ->
  moved s1 h.
Proof.
  intros Hread Hexec. apply exec_cmd_prim in Hexec; [|done].
  unfold exec_prim in Hexec. rewrite Hread in Hexec.
  apply bind_Ok in Hexec as (v & [= <-] & Hexec).
  apply bind_Ok in Hexec as (h' & Hh & Hexec).
  apply bind_Ok in Hexec as (u & Hw & Hexec).
  apply bind_Ok in Hh as (u' & Hcheck & [= <-]).
  assert (s1 = slot_set (SStorage address path) (VRes (moved_handle h))
                 (bump (h_obj h) s)) as -> by congruence.
  by apply moved_slot_set, moved_after_bump, (check_owned_Ok _ _ _ Hcheck).
Qed.

Lemma destroy_leaves_marked destructors depth s s1 src h :
  read_place s src = Ok (VRes h) ->
  exec_cmd (destroy_obj destructors depth) (CDestroy src) s = (s1, None) ->
  marked s1 (h_obj h).
Proof.
  intros Hread Hexec. simpl in Hexec. rewrite Hread in Hexec.
  destruct (check_owned s h); [|done].
  destruct depth as [|depth]; [done|]. simpl in Hexec.
  eapply destroy_step_marks; [apply destroy_obj_good | exact Hexec].
Qed.


End ReferenceFacts.
(** * Errors at the host boundary and metering: properties *)

Section RuntimeFacts.

Import Runtime.

Context {H : Type} (iface : Interface H) (intensity : Point -> nat).

Abbreviation St' := (St (H := H)).

Lemma clean_snoc l e : clean l -> ok_event e -> clean (l ++ [e]).
Proof. intros Hl He. apply Forall_app. split; [done|]. by constructor. Qed.

Lemma sound_finish call r h (st : St') out st' :
  clean (trace st) -> metered intensity (trace st) ->
  finish call r h st = (out, st') -> post intensity st out st'.
Proof.
  intros Hclean Hmet [= <- <-]. split; [|split]; simpl.
  - by eexists.
  - by constructor.
  - destruct (failure_of r) as [p|] eqn:Hr.
    + left. by exists (trace st), call, r.
    + by apply clean_snoc.
Qed.

Lemma sound_program_log msg : sound intensity (program_log iface msg).
Proof.
  intros st out st' Hclean Hmet. unfold program_log.
  destruct (log iface msg (host st)) as [r h].
  by apply sound_finish.
Qed.

(** At a metering point the meter is called first; the point is passed
    only when the meter returned nil. *)
Lemma sound_at_point p : sound intensity (at_point iface intensity p).
Proof.
  intros st out st' Hclean Hmet. unfold at_point, seq, report, pass, finish.
  destruct (meterComputation iface (point_kind p) (intensity p) (host st))
    as [[[err|]|v] h]; simpl; intros [= <- <-]; simpl.
  - split; [by eexists|]. split; [by constructor|].
    left. by eexists _, _, _.
  - split; [|split].
    + eexists. by rewrite <- app_assoc.
    + rewrite <- app_assoc. by constructor.
    + apply clean_snoc; [|done]. by apply clean_snoc.
  - split; [by eexists|]. split; [by constructor|].
    left. by eexists _, _, _.
Qed.

Lemma post_refl (st : St') :
  clean (trace st) -> metered intensity (trace st) -> post intensity st Normal st.
Proof. intros Hclean Hmet. split; [|done]. exists []. by rewrite app_nil_r. Qed.

Lemma sound_skip : sound intensity (skip (H := H)).
Proof. intros st out st' Hclean Hmet [= <- <-]. by apply post_refl. Qed.

Lemma sound_assign x e : sound intensity (assign (H := H) x e).
Proof.
  intros st out st' Hclean Hmet [= <- <-]. split; [|done].
  exists []. simpl. by rewrite app_nil_r.
Qed.

Lemma sound_condition cond : sound intensity (condition (H := H) cond).
Proof.
  intros st out st' Hclean Hmet. unfold condition.
  destruct (eval (vars st) cond =? 0)%Z; intros [= <- <-].
  - split; [exists []; by rewrite app_nil_r|]. split; [done|].
    right. split; [done | by eexists].
  - by apply post_refl.
Qed.

Lemma sound_seq (m1 m2 : M (H := H)) : 
  sound intensity m1 -> sound intensity m2 -> sound intensity (seq m1 m2).
Proof.
  intros H1 H2 st out st' Hclean Hmet. unfold seq.
  destruct (m1 st) as [o1 st1] eqn:Hm1.
  pose proof (H1 _ _ _ Hclean Hmet Hm1) as ([l1 Hl1] & Hmet1 & Hpost1).
  destruct o1 as [|p|].
  - intros Hm2.
    destruct (H2 _ _ _ Hpost1 Hmet1 Hm2) as ([l2 Hl2] & Hmet2 & Hpost2).
    split; [|done]. exists (l1 ++ l2). by rewrite Hl2, Hl1, app_assoc.
  - intros [= <- <-]. split; [by exists l1 | done].
  - intros [= <- <-]. split; [by exists l1 | done].
Qed.

(** Every execution is sound: by induction on the fuel. *)
Lemma sound_exec fuel : forall t, sound intensity (exec iface intensity fuel t).
Proof.
  induction fuel as [|fuel IH]; intros t.
  - intros st out st' Hclean Hmet [= <- <-]. by apply post_refl.
  - destruct t as [[|s rest]|cond body|[|z elements] body]; simpl.
    + apply sound_skip.
    + apply sound_seq; [|apply IH].
      destruct s.
      * apply sound_assign.
      * apply sound_condition.
      * apply IH.
      * apply sound_seq; [apply sound_at_point | apply IH].
      * apply sound_seq; [apply sound_at_point | apply IH].
      * apply sound_seq; apply sound_at_point.
      * apply sound_seq; [apply sound_at_point | apply sound_program_log].
    + intros st out st' Hclean Hmet.
      destruct (eval (vars st) cond =? 0)%Z.
      * intros [= <- <-]. by apply post_refl.
      * intros Hrun. revert st out st' Hclean Hmet Hrun.
        change (sound intensity (seq (at_point iface intensity PLoop)
                         (seq (exec iface intensity fuel (TList body))
                              (exec iface intensity fuel (TWhile cond body))))).
        apply sound_seq; [apply sound_at_point|]. apply sound_seq; apply IH.
    + apply sound_skip.
    + apply sound_seq; [apply sound_at_point|]. apply sound_seq; apply IH.
Qed.

Lemma Execute_post fuel prog h ans st :
  Execute iface intensity fuel prog h = (ans, st) ->
  exists out,
    exec iface intensity fuel (TList prog) (mkSt ∅ h []) = (out, st)
    /\ post intensity (mkSt ∅ h []) out st
    /\ ans = match out with
             | Normal => Finished None
             | Abort p => Finished (Some (classify p))
             | OutOfFuel => Unfinished
             end.
Proof.
  unfold Execute.
  destruct (exec iface intensity fuel (TList prog) (mkSt ∅ h []))
    as [out st0] eqn:Hrun.
  intros Hexec. exists out.
  assert (st0 = st) as -> by (by destruct out; injection Hexec).
  split; [done|]. split.
  - eapply (sound_exec fuel (TList prog)); [| |exact Hrun]; by constructor.
  - destruct out; by injection Hexec.
Qed.

(** A failed call is the last event of an execution, and its failure,
    classified, is what the entry point returns. *)
Lemma Execute_failed_call fuel prog h ans st c r p :
  Execute iface intensity fuel prog h = (ans, st) ->
  ECall c r ∈ trace st -> failure_of r = Some p ->
  ans = Finished (Some (classify p))
  /\ exists l, trace st = l ++ [ECall c r] /\ clean l.
Proof.
  intros Hexec Hin Hfailed.
  destruct (Execute_post _ _ _ _ _ Hexec) as (out & _ & (_ & _ & Hpost) & ->).
  assert (forall l, clean l -> ECall c r ∈ l -> False) as Hnot.
  { intros l Hl Hc. unfold clean in Hl. rewrite Forall_forall in Hl.
    specialize (Hl _ Hc). simpl in Hl. congruence. }
  destruct out as [|p0|].
  - by destruct (Hnot _ Hpost Hin).
  - destruct Hpost as [(l & c0 & r0 & Htrace & Hl & Hr0)|[Hclean _]].
    + rewrite Htrace in Hin. apply elem_of_app in Hin as [Hin|Hin].
      * by destruct (Hnot _ Hl Hin).
      * apply list_elem_of_singleton in Hin as [= -> ->].
        assert (p0 = p) as -> by congruence. split; [done|]. by exists l.
    + by destruct (Hnot _ Hclean Hin).
  - by destruct (Hnot _ Hpost Hin).
Qed.

(** In a metered trace, what comes right before a metering point is the
    call of the meter for it, which returned nil. *)
Lemma metered_before l :
  metered intensity l ->
  forall l1 p l2,
    l = l1 ++ EPoint p :: l2 ->
    exists l0,
      l1 = l0 ++ [ECall (CallMeterComputation (point_kind p) (intensity p))
                    (Returned None)].
Proof.
  intros Hmet. induction Hmet as [|l c r _ IH|l p0 _ IH]; intros l1 p l2 Heq.
  - by destruct l1.
  - destruct l2 as [|e l2 _] using rev_ind.
    + apply app_inj_tail in Heq as [_ Heq]. discriminate.
    + rewrite app_comm_cons, app_assoc in Heq.
      apply app_inj_tail in Heq as [Heq _]. by eapply IH.
  - destruct l2 as [|e l2 _] using rev_ind.
    + change (l ++ [ECall (CallMeterComputation (point_kind p0) (intensity p0))
                      (Returned None); EPoint p0])
        with (l ++ [ECall (CallMeterComputation (point_kind p0) (intensity p0))
                      (Returned None)] ++ [EPoint p0]) in Heq.
      rewrite app_assoc in Heq.
      apply app_inj_tail in Heq as [<- [= <-]]. by exists l.
    + destruct l2 as [|e' l2 _] using rev_ind.
      * change (l1 ++ EPoint p :: [] ++ [e]) with (l1 ++ [EPoint p; e]) in Heq.
        apply app_inj_2 in Heq as [_ Heq]; [|done]. discriminate.
      * rewrite <- app_assoc in Heq. simpl in Heq.
        rewrite app_comm_cons, app_assoc in Heq.
        apply app_inj_2 in Heq as [Heq _]; [|done].
        by eapply IH.
Qed.

End RuntimeFacts.

Section MeteringFacts.

Import Runtime.

Context {H : Type} (iface : Interface H) (intensity : Point -> nat).

(** The loop [while true {}]: it runs until the meter returns an error. *)
Lemma while_true_aborts n : forall fuel (st : St (H := H)) err h',
  fails_after iface n ComputationKindLoop (intensity PLoop) (host st) err h' ->
  n + 1 <= fuel ->
  exists st',
    exec iface intensity fuel (TWhile (EConst 1) []) st
    = (Abort (EnginePanic (ExternalError err)), st')
    /\ host st' = h'.
Proof.
  induction n as [|n IH]; intros fuel st err h' Hfails Hfuel.
  - destruct fuel as [|fuel]; [lia|]. simpl in *.
    unfold at_point, seq, report. simpl. rewrite Hfails. simpl.
    by eexists.
  - destruct fuel as [|fuel]; [lia|]. simpl in Hfails.
    destruct Hfails as (h1 & Hmeter & Hfails). simpl.
    unfold at_point, seq at 1 2, report. simpl. rewrite Hmeter. simpl.
    destruct fuel as [|fuel]; [lia|]. unfold seq. simpl.
    set (st1 := mkSt _ _ _).
    destruct (IH (S fuel) st1 err h') as (st' & Hrun & Hhost);
      [done | lia |].
    simpl in Hrun. rewrite Hrun. by exists st'.
Qed.

Lemma infinite_loop_aborts n fuel h err h' :
  fails_after iface n ComputationKindLoop (intensity PLoop) h err h' ->
  n + 2 <= fuel ->
  exists st,
    Execute iface intensity fuel infinite_while_loop h
    = (Finished (Some (ExternalError err)), st)
    /\ host st = h'.
Proof.
  intros Hfails Hfuel. destruct fuel as [|fuel]; [lia|].
  unfold Execute, infinite_while_loop. simpl. unfold seq at 1.
  destruct (while_true_aborts n fuel (mkSt ∅ h []) err h') as (st' & Hrun & Hhost);
    [done | lia |].
  rewrite Hrun. by exists st'.
Qed.

End MeteringFacts.

Section TestMeterFacts.

Import Runtime.

(** The callback of the test returns nil until the hit that reaches the
    limit. *)
Lemma meterComputationFunc_fails_after limit kind i d : forall m,
  S (hits m) + d = Nat.max limit 1 ->
  fails_after (test_interface limit) d kind i m compErr
    (mkMeter (Nat.max limit 1) (totalIntensity m + (d + 1) * i)).
Proof.
  induction d as [|d IH]; intros m Hlimit;
    cbn [fails_after meterComputation test_interface]; unfold meterComputationFunc.
  - destruct (Nat.leb_spec limit (S (hits m))) as [_|Hlt]; [|lia].
    f_equal. f_equal; lia.
  - destruct (Nat.leb_spec limit (S (hits m))) as [Hle|_]; [lia|].
    eexists. split; [done|].
    specialize (IH (mkMeter (S (hits m)) (totalIntensity m + i))).
    cbn [hits totalIntensity] in IH.
    replace (totalIntensity m + (S d + 1) * i)
      with (totalIntensity m + i + (d + 1) * i) by lia.
    apply IH. lia.
Qed.



End TestMeterFacts.

(** * The theorems at concrete inputs *)

Section Witnesses.

Import Resources Scenarios Samples.


Lemma move_once_witness :
  exists h rs,
    slot_get one_resource (snd rs) = Some (VRes h)
    /\ dead_binding no_destructors
         (fst (exec_cmd (destroy_obj no_destructors 1)
                 (CMove (var "x") (var "y")) one_resource))
         (var "x") rs h.
Proof.
  assert (exec_cmd (destroy_obj no_destructors 1) (CMove (var "x") (var "y"))
            one_resource
          = (fst (exec_cmd (destroy_obj no_destructors 1)
                    (CMove (var "x") (var "y")) one_resource), None)) as Hexec
    by (vm_compute; reflexivity).
  destruct (proj1 move_once no_destructors _ _ _ _ _ Hexec)
    as (h & rs & rd & _ & Hget & _ & _ & _ & Hdead).
  exists h, rs. exact (conj Hget Hdead).
Defined.


Lemma destroy_terminality_witness :
  length (filter (fun o' => o' = 0)
            (destructor_runs
               (log (fst (run reentrant_destructors 2 reentrant_destroy
                            empty_state)))))
  <= 1
  /\ snd (destroy_obj outer_inner_destructors 2 0 before_destroy)
     = Some InvalidatedResourceReferenceError.
Proof.
  split.
  - assert (run reentrant_destructors 2 reentrant_destroy empty_state
          = (fst (run reentrant_destructors 2 reentrant_destroy empty_state),
             snd (run reentrant_destructors 2 reentrant_destroy empty_state)))
    as Hrun by (vm_compute; reflexivity).
    exact (proj2 (proj1 (destroy_terminality reentrant_destructors)
                  2 reentrant_destroy empty_state _ _ 0 log_ok_empty Hrun)).
  - assert (during outer_inner_destructors 2 0 before_destroy
              (CMove (RVar "parent", ["inner"]) (var "reentered"))
              in_inner_destructor) as Hduring.
    { apply (during_nested outer_inner_destructors 1 0 before_destroy
               (mkObj "OuterResource" {["inner" := VRes (mkHandle 1 1)]} 0 false)
               (RSelf, ["inner"]) in_outer_destructor (mkHandle 1 1)).
      - vm_compute; reflexivity.
      - reflexivity.
      - apply runs_first.
      - vm_compute; reflexivity.
      - vm_compute; reflexivity.
      - apply (during_destructor outer_inner_destructors 0 1 in_outer_destructor
                 (mkObj "InnerResource" ∅ 1 false)).
        + vm_compute; reflexivity.
        + reflexivity.
        + apply runs_first. }
    destruct (proj1 (proj2 (proj2 (destroy_terminality outer_inner_destructors)))
                _ _ _ _ _ Hduring) as (_ & _ & _ & Href).
    apply (Href "parent" "inner" [] (mkHandle 0 0)).
    + vm_compute; reflexivity.
    + reflexivity.
    + constructor.
Defined.

Lemma storage_round_trip_witness :
  exists s1,
    run no_destructors 1
      [CCreate "number" "SomeNumber" [("n", 42%Z)]; CSave (var "number") 42 "number"]
      empty_state = (s1, None)
    /\ exists s3 h,
         run no_destructors 1 [CLoad "number" "SomeNumber" 42 "number"]
           (begin_execution s1) = (s3, None)
         /\ vars s3 !! "number" = Some (VRes h)
         /\ read_place s3 (RVar "number", ["n"]) = Ok (VInt 42).
Proof.
  assert (forall h, vars empty_state !! "number" <> Some (VRes h)) as Hfree
    by (intros h; vm_compute; discriminate).
  assert (storage empty_state !! (42%N, "number") = None) as Hempty
    by (vm_compute; reflexivity).
  destruct (storage_round_trip no_destructors 1 empty_state "number" "SomeNumber"
              "n" 42 [] 42 "number" Hfree Hempty) as (s1 & Hsave & Hload).
  exists s1. split; [exact Hsave|].
  destruct (Hload "number") as (s3 & h & Hrun & Hvar & _ & Hread & _).
  exists s3, h. exact (conj Hrun (conj Hvar Hread)).
Defined.

End Witnesses.

Section RuntimeWitnesses.

Import Runtime RuntimeSamples.



End RuntimeWitnesses.

Section CacheWitness.

Import TestRuntimeInterface CacheSamples.

Lemma program_cache_consistency_witness :
  exists i3,
    runCalls (Some updateAccountContractCode_test)
      ([] ++ CallUpdateAccountContractCode hello_location hello2
          :: [CallGetOrLoadProgram hello_location
                (MkLoader NoImports (Some 9) None)])
      (snd (GetOrLoadProgram deployed hello_location
              (contractLoader sample_parse hello_location)))
    = Ok i3
    /\ GetOrLoadProgram i3 hello_location (contractLoader sample_parse hello_location)
       = ((Some 1, None), i3)
    /\ GetOrLoadProgram (onTransactionExecutionStart i3) hello_location
         (contractLoader sample_parse hello_location)
       = ((Some 2, None),
          {| programs := {[ hello_location := Some 2 ]};
             updatedContractCode := false;
             accountCodes := accountCodes i3 |})
    /\ onScriptExecutionStart i3 = onTransactionExecutionStart i3
    /\ accountCodes i3 !! hello_location = Some hello2.
Proof.
  exact (proj2 (proj2 (proj2
           (program_cache_consistency (Some updateAccountContractCode_test)
              deployed hello_location
              (contractLoader sample_parse hello_location))))
           [] [CallGetOrLoadProgram hello_location
                 (MkLoader NoImports (Some 9) None)]
           hello2 sample_parse eq_refl).
Defined.

End CacheWitness.

(** * Bytes *)

Section BytesFacts.

Import Bytes.

#[local] Open Scope Z_scope.

Lemma to_Z_byte_of v : to_Z (byte_of v) = v mod 256.
Proof.
  unfold to_Z, byte_of.
  assert (H : 0 <= v mod 256 < 256) by (apply Z.mod_pos_bound; lia).
  destruct (Byte.of_N (Z.to_N (v mod 256))) as [b|] eqn:E; simpl.
  - apply Byte.to_of_N in E. rewrite E. lia.
  - apply Byte.of_N_None_iff in E. lia.
Qed.

Lemma to_Z_bounded b : 0 <= to_Z b < 256.
Proof. unfold to_Z. pose proof (Byte.to_N_bounded b). lia. Qed.

Lemma to_Z_inj b1 b2 : to_Z b1 = to_Z b2 -> b1 = b2.
Proof.
  unfold to_Z. intros H. apply N2Z.inj in H.
  pose proof (Byte.of_to_N b1) as H1. rewrite H, Byte.of_to_N in H1.
  by inv H1.
Qed.

Lemma shiftr_byte v k :
  0 <= k -> (v ≫ k) mod 256 = v / 2 ^ k - 256 * (v / 2 ^ (k + 8)).
Proof.
  intros Hk. rewrite Z.shiftr_div_pow2 by done.
  rewrite Z.mod_eq by lia. rewrite Z.div_div by lia.
  by rewrite (Z.pow_add_r 2 k 8) by lia.
Qed.

(** Reading back what [PutUint64] wrote gives the integer, as a uint64. *)
Lemma big_endian_PutUint64 v : big_endian (BigEndian_PutUint64 v) = uint64 v.
Proof.
  unfold big_endian, BigEndian_PutUint64, uint64. simpl.
  rewrite !to_Z_byte_of.
  rewrite <- (Z.shiftr_0_r v) at 8.
  rewrite !shiftr_byte by lia.
  rewrite Z.mod_eq by lia. rewrite Z.pow_0_r, Z.div_1_r.
  change (56 + 8) with 64; change (48 + 8) with 56; change (40 + 8) with 48;
  change (32 + 8) with 40; change (24 + 8) with 32; change (16 + 8) with 24;
  change (8 + 8) with 16; change (0 + 8) with 8.
  generalize (v / 2 ^ 64) (v / 2 ^ 56) (v / 2 ^ 48) (v / 2 ^ 40) (v / 2 ^ 32)
    (v / 2 ^ 24) (v / 2 ^ 16) (v / 2 ^ 8).
  intros. change (2 ^ 64) with 18446744073709551616. lia.
Qed.

Lemma BigEndian_PutUint64_inj a b :
  BigEndian_PutUint64 a = BigEndian_PutUint64 b -> uint64 a = uint64 b.
Proof. intros H. by rewrite <- !big_endian_PutUint64, H. Qed.

Lemma LittleEndian_PutUint64_rev v :
  LittleEndian_PutUint64 v = reverse (BigEndian_PutUint64 v).
Proof. done. Qed.

Lemma LittleEndian_PutUint64_inj a b :
  LittleEndian_PutUint64 a = LittleEndian_PutUint64 b -> uint64 a = uint64 b.
Proof.
  rewrite !LittleEndian_PutUint64_rev. intros H.
  apply (inj reverse) in H. by apply BigEndian_PutUint64_inj.
Qed.

Lemma uint64_small v : 0 <= v < 2 ^ 64 -> uint64 v = v.
Proof. intros. unfold uint64. by apply Z.mod_small. Qed.

Lemma uint64_succ v : uint64 (uint64 v + 1) = uint64 (v + 1).
Proof. unfold uint64. by rewrite Zplus_mod_idemp_l. Qed.

Lemma string_of_inj b1 b2 : string_of b1 = string_of b2 -> b1 = b2.
Proof.
  unfold string_of. intros H.
  by rewrite <- (String.list_byte_of_string_of_list_byte b1), H,
    String.list_byte_of_string_of_list_byte.
Qed.

Lemma string_of_cons b l :
  string_of (b :: l) = String (Ascii.ascii_of_byte b) (string_of l).
Proof. done. Qed.

End BytesFacts.

(** * The ledger of the tests *)

Section LedgerFacts.

Import Bytes TestLedger.

Lemma storageKey_cons a owner key :
  storageKey (String a owner) key = String a (storageKey owner key).
Proof. done. Qed.

Lemma storageKey_nil key : storageKey "" key = String (Ascii.ascii_of_byte Byte.x7c) key.
Proof. done. Qed.

Lemma ascii_of_byte_inj b1 b2 :
  Ascii.ascii_of_byte b1 = Ascii.ascii_of_byte b2 -> b1 = b2.
Proof.
  intros H. by rewrite <- (Ascii.byte_of_ascii_of_byte b1), H,
    Ascii.byte_of_ascii_of_byte.
Qed.

(** Owners of the same length: the key is split where the owner ends. *)
Lemma storageKey_inj_length owner key owner' key' :
  length owner = length owner' ->
  storageKey (string_of owner) (string_of key)
  = storageKey (string_of owner') (string_of key') ->
  owner = owner' /\ key = key'.
Proof.
  revert owner'. induction owner as [|b owner IH]; intros [|b' owner'] Hlen Heq;
    try discriminate Hlen.
  - change (string_of []) with EmptyString in Heq.
    rewrite !storageKey_nil in Heq. inv Heq. split; [done|].
    by apply string_of_inj.
  - rewrite !string_of_cons, !storageKey_cons in Heq. inv Heq.
    destruct (IH owner') as [-> ->]; [by inv Hlen|done|].
    split; [|done]. f_equal. by apply ascii_of_byte_inj.
Qed.

(** Owners without the separator: the key is split at its first separator. *)
Lemma storageKey_inj_separator owner key owner' key' :
  Byte.x7c ∉ owner -> Byte.x7c ∉ owner' ->
  storageKey (string_of owner) (string_of key)
  = storageKey (string_of owner') (string_of key') ->
  owner = owner' /\ key = key'.
Proof.
  revert owner'. induction owner as [|b owner IH]; intros [|b' owner'] Hn Hn' Heq;
    change (string_of []) with EmptyString in Heq.
  - rewrite !storageKey_nil in Heq. inv Heq. split; [done|].
    by apply string_of_inj.
  - rewrite string_of_cons, storageKey_cons, storageKey_nil in Heq. inv Heq.
    apply not_elem_of_cons in Hn' as [Hb' _].
    destruct Hb'. apply ascii_of_byte_inj. by rewrite <- H0.
  - rewrite string_of_cons, storageKey_cons, storageKey_nil in Heq. inv Heq.
    apply not_elem_of_cons in Hn as [Hb _].
    destruct Hb. by apply ascii_of_byte_inj.
  - rewrite !string_of_cons, !storageKey_cons in Heq. inv Heq.
    apply not_elem_of_cons in Hn as [_ Hn].
    apply not_elem_of_cons in Hn' as [_ Hn'].
    destruct (IH owner') as [-> ->]; [done..|].
    split; [|done]. f_equal. by apply ascii_of_byte_inj.
Qed.

(** X1 (newTestLedger, storageKey): the key under which the ledger stores a
    value determines the owner and the key it was built from whenever the
    two owners have the same length, as account addresses have, or neither
    contains the separator. Without that it does not: the owner a|b with the
    key c and the owner a with the key b|c share one entry, so a value
    written for the one is read for the other. *)
Theorem testLedger_storageKey_injective :
  (forall owner key owner' key' : list Byte.byte,
      length owner = length owner'
      \/ ((Byte.x7c ∉ owner) /\ (Byte.x7c ∉ owner')) ->
      storageKey (string_of owner) (string_of key)
      = storageKey (string_of owner') (string_of key') ->
      owner = owner' /\ key = key')
  /\ (forall (W : Type) (onRead onWrite : option (Hook W)) (w : W)
             (value : list Byte.byte),
        let owner := [Byte.x61; Byte.x7c; Byte.x62] in
        let key := [Byte.x63] in
        let owner' := [Byte.x61] in
        let key' := [Byte.x62; Byte.x7c; Byte.x63] in
        let st := snd (setValue W onWrite newTestLedger w owner key value) in
        fst (getValue W onRead (fst st) (snd st) owner' key') = (value, None)).
Proof.
  split.
  - intros owner key owner' key' [Hlen|[Hn Hn']] Heq.
    + by apply storageKey_inj_length.
    + by apply storageKey_inj_separator.
  - intros W onRead onWrite w value. simpl. unfold getValue. simpl.
    by rewrite lookup_insert_eq.
Qed.

Section Calls.

Context {W : Type} (onRead onWrite : option (Hook W)).

Abbreviation calls' := (calls W onRead onWrite).

Lemma calls_cons c cs st :
  calls' (c :: cs) st
  = (fst (call W onRead onWrite c st) :: fst (calls' cs (snd (call W onRead onWrite c st))),
     snd (calls' cs (snd (call W onRead onWrite c st)))).
Proof.
  simpl. destruct (call W onRead onWrite c st) as [r st']. simpl.
  by destruct (calls W onRead onWrite cs st') as [rs st''].
Qed.

Lemma call_stored_other c st K :
  (forall owner key value, c = CallSetValue owner key value ->
     storageKey (string_of owner) (string_of key) <> K) ->
  storedValues (fst (snd (call W onRead onWrite c st))) !! K
  = storedValues (fst st) !! K.
Proof.
  intros Hc. destruct c as [o k|o k|o k v|o]; simpl; try done.
  rewrite lookup_insert_ne; [done|]. by eapply Hc.
Qed.

(** The entry of an owner and a key holds what was last written for them. *)
Lemma calls_stored n cs st owner key :
  Forall (fun c => length (owner_of c) = n) cs ->
  length owner = n ->
  default [] (storedValues (fst (snd (calls' cs st)))
                !! storageKey (string_of owner) (string_of key))
  = written owner key cs
      (default [] (storedValues (fst st)
                     !! storageKey (string_of owner) (string_of key))).
Proof.
  intros Hcs Hlen. revert st. induction Hcs as [|c cs Hc Hcs IH]; intros st.
  - done.
  - rewrite calls_cons. cbn [snd]. rewrite IH. clear IH.
    destruct c as [o k|o k|o k v|o]; simpl; try done.
    destruct (decide (o = owner /\ k = key)) as [[-> ->]|Hne].
    + by rewrite lookup_insert_eq.
    + rewrite lookup_insert_ne; [done|].
      intros Heq. apply storageKey_inj_length in Heq; [done|].
      simpl in Hc. lia.
Qed.

(** The index stored for an owner counts the allocations made for it. *)
Lemma calls_indices_stored cs st owner c :
  default 0%Z (storageIndices (fst st) !! string_of owner) = uint64 c ->
  default 0%Z (storageIndices (fst (snd (calls' cs st))) !! string_of owner)
  = uint64 (c + Z.of_nat (allocated owner cs)).
Proof.
  revert st c. induction cs as [|c0 cs IH]; intros st c Hc.
  - simpl. by rewrite Z.add_0_r.
  - rewrite calls_cons. cbn [snd].
    destruct c0 as [o k|o k|o k v|o]; simpl; try by apply IH.
    destruct (decide (o = owner)) as [->|Hne].
    + rewrite (IH _ (c + 1)%Z).
      * f_equal. lia.
      * simpl. rewrite lookup_insert_eq. simpl. by rewrite Hc, uint64_succ.
    + apply IH. simpl. rewrite lookup_insert_ne; [done|].
      intros Heq. by apply string_of_inj in Heq.
Qed.

(** The indices handed out to an owner are the successors of the stored one. *)
Lemma calls_indices cs st owner c :
  default 0%Z (storageIndices (fst st) !! string_of owner) = uint64 c ->
  indices (zip cs (fst (calls' cs st))) owner
  = (fun i => BigEndian_PutUint64 (uint64 (c + Z.of_nat i)))
      <$> seq 1 (allocated owner cs).
Proof.
  revert st c. induction cs as [|c0 cs IH]; intros st c Hc.
  - done.
  - rewrite calls_cons. cbn [fst zip zip_with].
    destruct c0 as [o k|o k|o k v|o]; simpl; try by apply IH.
    destruct (decide (o = owner)) as [->|Hne].
    + simpl. f_equal.
      * by rewrite Hc, uint64_succ.
      * rewrite (IH _ (c + 1)%Z).
        -- change (seq 2 (allocated owner cs)) with (seq (S 1) (allocated owner cs)).
           rewrite <- (fmap_S_seq 1), <- list_fmap_compose.
           apply list_fmap_ext. intros _ i _. simpl. do 2 f_equal. lia.
        -- simpl. rewrite lookup_insert_eq. simpl. by rewrite Hc, uint64_succ.
    + apply IH. simpl. rewrite lookup_insert_ne; [done|].
      intros Heq. by apply string_of_inj in Heq.
Qed.

End Calls.

(** X2 (newTestLedger, getValue, setValue, valueExists): a ledger read
    returns what was last written. After any calls on a new ledger whose
    owners all have the length of account addresses, [getValue] returns for
    an owner and a key the value of the last [setValue] for that owner and
    that key, the nil slice when there is none, and no error, and passes
    just that value to the read hook; [valueExists] reports whether that
    value is not empty, so that writing an empty value makes the entry
    absent again. *)
Theorem testLedger_reads_last_write (W : Type) (onRead onWrite : option (Hook W))
    (n : nat) (cs : list Call) (w : W) (owner key : list Byte.byte) :
  Forall (fun c => length (owner_of c) = n) cs ->
  length owner = n ->
  let st := snd (calls W onRead onWrite cs (newTestLedger, w)) in
  let value := written owner key cs [] in
  getValue W onRead (fst st) (snd st) owner key
  = ((value, None),
     match onRead with
     | Some f => f owner key value (snd st)
     | None => snd st
     end)
  /\ valueExists (fst st) owner key = (bool_decide (value <> []), None).
Proof.
  intros Hcs Hlen st value.
  pose proof (calls_stored onRead onWrite n cs (newTestLedger, w) owner key
                Hcs Hlen) as Hst.
  simpl in Hst. rewrite lookup_empty in Hst. simpl in Hst.
  fold st in Hst. fold value in Hst.
  split.
  - unfold getValue. by rewrite Hst.
  - unfold valueExists. rewrite Hst. f_equal.
    destruct value as [|b value].
    + by rewrite bool_decide_eq_false_2, bool_decide_eq_false_2
        by (simpl; first [lia | naive_solver]).
    + by rewrite bool_decide_eq_true_2, bool_decide_eq_true_2
        by (simpl; first [lia | done]).
Qed.

(** X3 (newTestLedger, allocateStorageIndex): storage indices are counted
    per owner. After any calls on a new ledger, [allocateStorageIndex]
    returns for an owner the big-endian eight-byte encoding of one more than
    the number of indices allocated for that owner so far, as a uint64, and
    no error: allocations for other owners, reads and writes do not count.
    As long as fewer than 2^64 indices were allocated for an owner, the
    indices it was given are pairwise different. *)
Theorem testLedger_storage_indices (W : Type) (onRead onWrite : option (Hook W))
    (cs : list Call) (w : W) (owner : list Byte.byte) :
  let run := calls W onRead onWrite cs (newTestLedger, w) in
  fst (allocateStorageIndex (fst (snd run)) owner)
  = (BigEndian_PutUint64 (uint64 (Z.of_nat (allocated owner cs) + 1)), None)
  /\ ((Z.of_nat (allocated owner cs) < 2 ^ 64)%Z ->
      NoDup (indices (zip cs (fst run)) owner)).
Proof.
  intros run. split.
  - unfold allocateStorageIndex. simpl. do 2 f_equal.
    unfold run.
    rewrite (calls_indices_stored onRead onWrite cs _ owner 0); [|done].
    by rewrite uint64_succ.
  - intros Hlt. unfold run.
    rewrite (calls_indices onRead onWrite cs _ owner 0); [|done].
    apply NoDup_fmap_2_strong; [|apply NoDup_seq].
    intros i j Hi Hj Heq. apply BigEndian_PutUint64_inj in Heq.
    apply elem_of_seq in Hi, Hj. unfold uint64 in Heq.
    change (2 ^ 64)%Z with 18446744073709551616%Z in *.
    rewrite !(Z.mod_small (0 + _)) in Heq by lia.
    lia.
Qed.

End LedgerFacts.

(** * What the runtime interface of the tests answers by itself *)

Section DefaultsFacts.

Import Bytes TestRuntimeInterface InterfaceDefaults.

#[local] Open Scope Z_scope.

Lemma uint64_shift_inj u i j n :
  Z.of_nat n < 2 ^ 64 -> (1 <= i <= n)%nat -> (1 <= j <= n)%nat ->
  uint64 (u + Z.of_nat i) = uint64 (u + Z.of_nat j) -> i = j.
Proof.
  unfold uint64. change (2 ^ 64) with 18446744073709551616.
  intros Hn Hi Hj Heq.
  rewrite !Z.mod_eq in Heq by lia.
  assert (Hq : (u + Z.of_nat i) `div` 18446744073709551616
               = (u + Z.of_nat j) `div` 18446744073709551616) by lia.
  rewrite Hq in Heq. lia.
Qed.

Lemma NoDup_uint64_seq {A} (f : Z -> A) u n :
  (forall x y, f (uint64 x) = f (uint64 y) -> uint64 x = uint64 y) ->
  Z.of_nat n < 2 ^ 64 ->
  NoDup ((fun k => f (uint64 (u + Z.of_nat k))) <$> seq 1 n).
Proof.
  intros Hf Hn. apply NoDup_fmap_2_strong; [|apply NoDup_seq].
  intros i j Hi Hj Heq. apply Hf in Heq.
  apply elem_of_seq in Hi, Hj.
  apply (uint64_shift_inj u i j n); [done|lia|lia|done].
Qed.

Section Generators.

Context {W : Type}.

Implicit Types (i : testRuntimeInterface W) (cs : list Call) (w : W).

Lemma counters_calls_cons c cs (st : testRuntimeInterface W * W) :
  calls (c :: cs) st
  = (fst (call c st) :: fst (calls cs (snd (call c st))),
     snd (calls cs (snd (call c st)))).
Proof.
  simpl. destruct (call c st) as [r st']. simpl.
  by destruct (calls cs st') as [rs st''].
Qed.

Lemma call_keeps_closures c (st : testRuntimeInterface W * W) :
  generateUUID (fst (snd (call c st))) = generateUUID (fst st)
  /\ generateAccountID (fst (snd (call c st))) = generateAccountID (fst st).
Proof.
  destruct c as [|a]; simpl.
  - unfold GenerateUUID. destruct (generateUUID (fst st)) as [f|] eqn:E; simpl.
    + by destruct (f (snd st)).
    + done.
  - unfold GenerateAccountID.
    destruct (generateAccountID (fst st)) as [f|] eqn:E; simpl.
    + by destruct (f a (snd st)).
    + done.
Qed.

Lemma call_uuid c (st : testRuntimeInterface W * W) :
  generateUUID (fst st) = None ->
  uuid (fst (snd (call c st)))
  = (if is_GenerateUUID c then uint64 (uuid (fst st) + 1) else uuid (fst st))
  /\ (is_GenerateUUID c = true ->
      fst (call c st) = (uint64 (uuid (fst st) + 1), None)).
Proof.
  intros Hnil. destruct c as [|a]; simpl.
  - unfold GenerateUUID. by rewrite Hnil.
  - split; [|done]. unfold GenerateAccountID.
    destruct (generateAccountID (fst st)) as [f|]; simpl; [|done].
    by destruct (f a (snd st)).
Qed.

Lemma calls_uuid cs (st : testRuntimeInterface W * W) u :
  generateUUID (fst st) = None ->
  uuid (fst st) = uint64 u ->
  generateUUID (fst (snd (calls cs st))) = None
  /\ uuid (fst (snd (calls cs st)))
     = uint64 (u + Z.of_nat (length (filter (fun c => is_GenerateUUID c = true) cs)))
  /\ replies_to is_GenerateUUID cs (fst (calls cs st))
     = (fun k => (uint64 (u + Z.of_nat k), None))
         <$> seq 1 (length (filter (fun c => is_GenerateUUID c = true) cs)).
Proof.
  revert st u. induction cs as [|c cs IH]; intros st u Hnil Hu.
  - simpl. by rewrite Z.add_0_r.
  - rewrite counters_calls_cons. cbn [fst snd].
    destruct (call_keeps_closures c st) as [Hk _].
    destruct (call_uuid c st Hnil) as [Hc Hr].
    unfold replies_to. cbn [zip zip_with].
    rewrite !filter_cons. cbn [fst].
    destruct (is_GenerateUUID c) eqn:Eis.
    + destruct (IH (snd (call c st)) (u + 1)) as (IH1 & IH2 & IH3).
      { by rewrite Hk. }
      { by rewrite Hc, Hu, uint64_succ. }
      rewrite !decide_True by done.
      split; [done|]. split.
      * rewrite IH2. f_equal. simpl length. lia.
      * simpl length. cbn [seq fmap list_fmap snd]. f_equal.
        -- rewrite Hr by done. by rewrite Hu, uint64_succ.
        -- unfold replies_to in IH3. rewrite IH3.
           rewrite <- (fmap_S_seq 1), <- list_fmap_compose.
           apply list_fmap_ext. intros _ k _. simpl. do 2 f_equal. lia.
    + destruct (IH (snd (call c st)) u) as (IH1 & IH2 & IH3).
      { by rewrite Hk. }
      { by rewrite Hc. }
      rewrite !decide_False by done.
      done.
Qed.

Lemma call_accountIDs c (st : testRuntimeInterface W * W) a :
  generateAccountID (fst st) = None ->
  default 0 (accountIDs (fst (snd (call c st))) !! a)
  = (if is_GenerateAccountID a c
     then uint64 (default 0 (accountIDs (fst st) !! a) + 1)
     else default 0 (accountIDs (fst st) !! a))
  /\ (is_GenerateAccountID a c = true ->
      fst (call c st) = (uint64 (default 0 (accountIDs (fst st) !! a) + 1), None)).
Proof.
  intros Hnil. destruct c as [|a']; simpl.
  - split; [|done]. unfold GenerateUUID.
    destruct (generateUUID (fst st)) as [f|]; simpl; [|done].
    by destruct (f (snd st)).
  - unfold GenerateAccountID. rewrite Hnil. simpl.
    destruct (bool_decide (a' = a)) eqn:E.
    + apply bool_decide_eq_true in E as ->. by rewrite lookup_insert_eq.
    + apply bool_decide_eq_false in E. by rewrite lookup_insert_ne.
Qed.

Lemma calls_accountIDs cs (st : testRuntimeInterface W * W) a u :
  generateAccountID (fst st) = None ->
  default 0 (accountIDs (fst st) !! a) = uint64 u ->
  generateAccountID (fst (snd (calls cs st))) = None
  /\ default 0 (accountIDs (fst (snd (calls cs st))) !! a)
     = uint64 (u + Z.of_nat (length (filter (fun c => is_GenerateAccountID a c = true) cs)))
  /\ replies_to (is_GenerateAccountID a) cs (fst (calls cs st))
     = (fun k => (uint64 (u + Z.of_nat k), None))
         <$> seq 1 (length (filter (fun c => is_GenerateAccountID a c = true) cs)).
Proof.
  revert st u. induction cs as [|c cs IH]; intros st u Hnil Hu.
  - simpl. by rewrite Z.add_0_r.
  - rewrite counters_calls_cons. cbn [fst snd].
    destruct (call_keeps_closures c st) as [_ Hk].
    destruct (call_accountIDs c st a Hnil) as [Hc Hr].
    unfold replies_to. cbn [zip zip_with].
    rewrite !filter_cons. cbn [fst].
    destruct (is_GenerateAccountID a c) eqn:Eis.
    + destruct (IH (snd (call c st)) (u + 1)) as (IH1 & IH2 & IH3).
      { by rewrite Hk. }
      { by rewrite Hc, Hu, uint64_succ. }
      rewrite !decide_True by done.
      split; [done|]. split.
      * rewrite IH2. f_equal. simpl length. lia.
      * simpl length. cbn [seq fmap list_fmap snd]. f_equal.
        -- rewrite Hr by done. by rewrite Hu, uint64_succ.
        -- unfold replies_to in IH3. rewrite IH3.
           rewrite <- (fmap_S_seq 1), <- list_fmap_compose.
           apply list_fmap_ext. intros _ k _. simpl. do 2 f_equal. lia.
    + destruct (IH (snd (call c st)) u) as (IH1 & IH2 & IH3).
      { by rewrite Hk. }
      { by rewrite Hc. }
      rewrite !decide_False by done.
      done.
Qed.

End Generators.

(** X4 (testRuntimeInterface.GenerateUUID): with no [generateUUID] closure
    installed the interface counts. After any calls of the generators, the
    next UUID is the [uuid] field the interface started with plus one more
    than the number of UUIDs generated since, as a uint64, with no error;
    generating account IDs does not advance it. As long as fewer than 2^64
    UUIDs were generated, they are pairwise different. *)
Theorem GenerateUUID_counts (W : Type) (i : testRuntimeInterface W)
    (cs : list Call) (w : W) :
  generateUUID i = None ->
  0 <= uuid i < 2 ^ 64 ->
  let n := length (filter (fun c => is_GenerateUUID c = true) cs) in
  let run := calls cs (i, w) in
  fst (GenerateUUID (fst (snd run)) (snd (snd run)))
  = (uint64 (uuid i + Z.of_nat n + 1), None)
  /\ (Z.of_nat n < 2 ^ 64 -> NoDup (replies_to is_GenerateUUID cs (fst run))).
Proof.
  intros Hnil Hu n run.
  destruct (calls_uuid cs (i, w) (uuid i) Hnil) as (H1 & H2 & H3).
  { simpl. by rewrite uint64_small. }
  split.
  - unfold GenerateUUID. fold run in H1, H2. rewrite H1. simpl.
    fold n in H2. by rewrite H2, uint64_succ.
  - intros Hn. fold run in H3. rewrite H3. fold n.
    apply (NoDup_uint64_seq (fun v => (v, None))); [|done].
    by intros x y [= ->].
Qed.

(** X5 (testRuntimeInterface.GenerateAccountID): with no
    [generateAccountID] closure installed the interface counts per address.
    After any calls of the generators on an interface whose [accountIDs] map
    is nil, the next ID for an address is one more than the number of IDs
    generated for that address so far, as a uint64, with no error: IDs
    generated for other addresses, and UUIDs, do not count. As long as
    fewer than 2^64 IDs were generated for an address, they are pairwise
    different. *)
Theorem GenerateAccountID_counts (W : Type) (i : testRuntimeInterface W)
    (cs : list Call) (w : W) (address : N) :
  generateAccountID i = None ->
  accountIDs i = ∅ ->
  let n := length (filter (fun c => is_GenerateAccountID address c = true) cs) in
  let run := calls cs (i, w) in
  fst (GenerateAccountID (fst (snd run)) (snd (snd run)) address)
  = (uint64 (Z.of_nat n + 1), None)
  /\ (Z.of_nat n < 2 ^ 64 ->
      NoDup (replies_to (is_GenerateAccountID address) cs (fst run))).
Proof.
  intros Hnil Hempty n run.
  destruct (calls_accountIDs cs (i, w) address 0 Hnil) as (H1 & H2 & H3).
  { simpl. by rewrite Hempty, lookup_empty. }
  split.
  - unfold GenerateAccountID. fold run in H1, H2. rewrite H1. simpl.
    rewrite lookup_insert_eq. simpl. fold n in H2. by rewrite H2, uint64_succ.
  - intros Hn. fold run in H3. rewrite H3. fold n.
    apply (NoDup_uint64_seq (fun v => (v, None))); [|done].
    by intros x y [= ->].
Qed.

Lemma GetBlockAtHeight_Ok (BlockHashLength : nat) (Size : Z) (UnixNano : Z -> Z)
    (height : Z) :
  8 <= Size <= Z.of_nat BlockHashLength ->
  GetBlockAtHeight BlockHashLength Size UnixNano height
  = Ok ({| Height := height;
           View := height;
           Hash := zeros (Z.to_nat (Size - 8)) ++ BigEndian_PutUint64 height
                   ++ zeros (BlockHashLength - Z.to_nat Size);
           Timestamp := UnixNano (int64 height) |}, true, None).
Proof.
  intros HS. unfold GetBlockAtHeight.
  change (Z.of_nat (length (BigEndian_PutUint64 height))) with 8.
  rewrite bool_decide_eq_true_2 by lia.
  do 4 f_equal. unfold zeros, copy.
  rewrite take_replicate, drop_replicate, drop_replicate, length_replicate.
  rewrite Nat.min_l by lia.
  rewrite take_ge by (simpl; lia).
  change (length (BigEndian_PutUint64 height)) with 8%nat.
  do 3 f_equal. lia.
Qed.

(** X6 (testRuntimeInterface.GetBlockAtHeight): when the size of the block
    ID type is at least the eight bytes of a height and at most the length
    of a block hash, the interface answers every height with a block that
    exists, with no error, whose height and view are the height asked for
    and whose hash is zero but for the eight bytes that end at that size,
    which hold the height in big-endian order. Blocks at different heights
    below 2^64 therefore have different hashes. *)
Theorem GetBlockAtHeight_hash (BlockHashLength : nat) (Size : Z) (UnixNano : Z -> Z) :
  8 <= Size <= Z.of_nat BlockHashLength ->
  (forall height, exists block,
      GetBlockAtHeight BlockHashLength Size UnixNano height = Ok (block, true, None)
      /\ Height block = height
      /\ View block = height
      /\ length (Hash block) = BlockHashLength
      /\ take 8 (drop (Z.to_nat (Size - 8)) (Hash block)) = BigEndian_PutUint64 height
      /\ Forall (fun b => b = Byte.x00) (take (Z.to_nat (Size - 8)) (Hash block))
      /\ Forall (fun b => b = Byte.x00) (drop (Z.to_nat Size) (Hash block)))
  /\ (forall h1 h2 b1 b2,
        0 <= h1 < 2 ^ 64 -> 0 <= h2 < 2 ^ 64 ->
        GetBlockAtHeight BlockHashLength Size UnixNano h1 = Ok (b1, true, None) ->
        GetBlockAtHeight BlockHashLength Size UnixNano h2 = Ok (b2, true, None) ->
        Hash b1 = Hash b2 -> h1 = h2).
Proof.
  intros HS. split.
  - intros height. eexists. split; [by apply GetBlockAtHeight_Ok|].
    cbn [Hash Height View].
    assert (Hlen : length (zeros (Z.to_nat (Size - 8))) = Z.to_nat (Size - 8))
      by apply length_replicate.
    repeat split.
    + rewrite !length_app. unfold zeros. rewrite !length_replicate.
      change (length (BigEndian_PutUint64 height)) with 8%nat. lia.
    + rewrite drop_app_length'; [|done]. done.
    + rewrite take_app_length'; [|done]. by apply Forall_replicate.
    + replace (Z.to_nat Size) with (Z.to_nat (Size - 8) + 8)%nat by lia.
      rewrite <- drop_drop, drop_app_length'; [|done].
      rewrite drop_app_length'; [|done]. by apply Forall_replicate.
  - intros h1 h2 b1 b2 H1 H2 E1 E2 Heq.
    rewrite GetBlockAtHeight_Ok in E1, E2 by done.
    injection E1 as <-. injection E2 as <-. cbn [Hash] in Heq.
    apply app_inv_head in Heq.
    apply (app_inj_1 (BigEndian_PutUint64 h1) (BigEndian_PutUint64 h2))
      in Heq as [Heq _]; [|done].
    apply BigEndian_PutUint64_inj in Heq.
    by rewrite !uint64_small in Heq.
Qed.

Lemma generate_locations n u :
  generate n (uint64 u)
  = (fun k => LittleEndian_PutUint64 (uint64 (u + Z.of_nat k)) ++ zeros 24)
      <$> seq 1 n.
Proof.
  revert u. induction n as [|n IH]; intros u; [done|].
  cbn [generate newLocationGenerator]. rewrite uint64_succ. cbn [seq fmap list_fmap].
  f_equal.
  change (seq 2 n) with (seq (S 1) n).
  rewrite IH, <- (fmap_S_seq 1), <- list_fmap_compose.
  apply list_fmap_ext. intros _ k _. cbn [compose].
  by replace (u + 1 + Z.of_nat k) with (u + Z.of_nat (S k)) by lia.
Qed.

(** X7 (newLocationGenerator): a location generator never repeats itself.
    The k-th call of a new generator returns the 32 bytes that hold k in
    little-endian order in the first eight and zero in the others, so the
    locations of fewer than 2^64 calls are pairwise different. *)
Theorem newLocationGenerator_fresh (n : nat) :
  Z.of_nat n < 2 ^ 64 ->
  let locations := generate n newLocationGenerator_count in
  locations
  = (fun k => LittleEndian_PutUint64 (Z.of_nat k) ++ zeros 24) <$> seq 1 n
  /\ Forall (fun t => length t = 32%nat) locations
  /\ NoDup locations.
Proof.
  intros Hn locations. unfold locations, newLocationGenerator_count.
  change 0 with (uint64 0). rewrite generate_locations.
  split; [|split].
  - apply list_fmap_ext. intros i k Hk%lookup_seq. cbn beta.
    rewrite uint64_small; [done|]. lia.
  - apply Forall_fmap, Forall_forall. by intros k _.
  - apply (NoDup_uint64_seq (fun v => LittleEndian_PutUint64 v ++ zeros 24) 0 n);
      [|done].
    intros x y Heq. apply app_inv_tail in Heq.
    apply LittleEndian_PutUint64_inj in Heq. unfold uint64 in *.
    by rewrite !Z.mod_mod in Heq.
Qed.

Lemma multipleIdentifierLocationResolver_loop_address identifiers address name result :
  multipleIdentifierLocationResolver_loop identifiers (AddressLocation address name) result
  = Ok (result
        ++ ((fun identifier =>
               {| Location_ := AddressLocation address (Identifier_ identifier);
                  Identifiers := [identifier] |}) <$> identifiers)).
Proof.
  revert result. induction identifiers as [|identifier rest IH]; intros result.
  - simpl. by rewrite app_nil_r.
  - simpl. rewrite IH. by rewrite <- app_assoc.
Qed.

(** X8 (multipleIdentifierLocationResolver, singleIdentifierLocationResolver,
    testRuntimeInterface.ResolveLocation): how the identifiers of an import
    are resolved. For an address location the multiple-identifier resolver
    returns one location per identifier, in order: the address of the given
    location with the identifier as name, whatever name the given location
    had, carrying just that identifier; no identifier is lost or added. For
    any other location it panics at the first identifier, and returns
    nothing, without a panic, when there is none. On one identifier and an
    address location it agrees with the single-identifier resolver, which
    stops the test on anything else. With no resolver installed the
    interface returns the given location unchanged with all identifiers. *)
Theorem multipleIdentifierLocationResolver_spec (identifiers : list Identifier)
    (location : Location) :
  (forall address name,
      location = AddressLocation address name ->
      exists result,
        multipleIdentifierLocationResolver identifiers location = Ok (result, None)
        /\ result
           = (fun identifier =>
                {| Location_ := AddressLocation address (Identifier_ identifier);
                   Identifiers := [identifier] |}) <$> identifiers
        /\ concat (Identifiers <$> result) = identifiers
        /\ (forall identifier, identifiers = [identifier] ->
              singleIdentifierLocationResolver identifiers location
              = Ok (result, None)))
  /\ ((forall address name, location <> AddressLocation address name) ->
      multipleIdentifierLocationResolver identifiers location
      = match identifiers with
        | [] => Ok ([], None)
        | _ :: _ => Panic TypeAssertionPanic
        end
      /\ singleIdentifierLocationResolver identifiers location = Panic FailNow)
  /\ ResolveLocation None identifiers location
     = Ok ([{| Location_ := location; Identifiers := identifiers |}], None).
Proof.
  split; [|split; [|done]].
  - intros address name ->. eexists. split; [|split; [done|split]].
    + unfold multipleIdentifierLocationResolver.
      by rewrite multipleIdentifierLocationResolver_loop_address.
    + rewrite <- list_fmap_compose. induction identifiers as [|i l IH]; [done|].
      cbn [fmap list_fmap concat compose Identifiers app]. by f_equal.
    + by intros identifier ->.
  - intros Hne. split.
    + destruct identifiers as [|identifier rest]; [done|].
      unfold multipleIdentifierLocationResolver. simpl.
      destruct location; try done. by destruct (Hne address name).
    + destruct identifiers as [|identifier [|? ?]]; try done.
      destruct location; try done. by destruct (Hne address name).
Qed.

End DefaultsFacts.

(** * The program cache across executions *)

Section ProgramCacheAcrossExecutions.

Import TestRuntimeInterface.

Implicit Types (i : testRuntimeInterface) (location : Location).

Lemma GetOrLoadProgram_flag i location (load : LoadClosure) :
  updatedContractCode (snd (load i)) = updatedContractCode i ->
  updatedContractCode (snd (GetOrLoadProgram i location load))
  = updatedContractCode i.
Proof.
  intros Hload. unfold GetOrLoadProgram.
  destruct (programs i !! location) as [program|]; [done|].
  by destruct (load i) as [[program err] i'].
Qed.

(** Loading programs does not touch the flag: by mutual induction on the
    loader and its imports. *)
Lemma runLoader_flag (load : Loader) :
  forall i, updatedContractCode (snd (runLoader load i)) = updatedContractCode i.
Proof.
  induction load using Loader_mut with
    (P0 := fun imports => forall i,
             updatedContractCode (runImports imports i) = updatedContractCode i).
  - intros i. simpl. by apply IHload.
  - done.
  - intros i. simpl. rewrite IHload0. by apply GetOrLoadProgram_flag.
Qed.

Lemma invalidateUpdatedPrograms_unflagged i :
  updatedContractCode i = false -> invalidateUpdatedPrograms i = i.
Proof. intros H. unfold invalidateUpdatedPrograms. by rewrite H. Qed.

Lemma runCalls_loads_flag upd (calls : list Call) :
  Forall (fun c => exists location load, c = CallGetOrLoadProgram location load)
    calls ->
  forall i i', runCalls upd calls i = Ok i' ->
               updatedContractCode i' = updatedContractCode i.
Proof.
  induction 1 as [|c calls (location & load & ->) _ IH]; intros i i' Hrun.
  - simpl in Hrun. by injection Hrun as <-.
  - simpl in Hrun. unfold mbind, Result_bind in Hrun. simpl in Hrun.
    rewrite (IH _ _ Hrun). apply GetOrLoadProgram_flag, runLoader_flag.
Qed.

(** X9 (testRuntimeInterface.GetOrLoadProgram, UpdateAccountContractCode,
    invalidateUpdatedPrograms, onTransactionExecutionStart,
    onScriptExecutionStart): the program cache survives the start of an
    execution unless contract code was updated. If no update is pending
    once a program was loaded for a location, then after an execution that
    only loads programs, and after an update that failed, starting any
    number of transactions or scripts leaves the interface as it is, and the
    next [GetOrLoadProgram] for the location returns the same program
    object without invoking its loader. Starting an execution twice is the
    same as starting it once. *)
Theorem program_cache_survives_executions
    (upd : option UpdateClosure) i location (load1 : LoadClosure) :
  let result1 := GetOrLoadProgram i location load1 in
  let program1 := fst (fst result1) in
  let i1 := snd result1 in
  (updatedContractCode i1 = false ->
   (forall calls i2 (load2 : LoadClosure) (starts : nat),
       Forall (fun c => exists location load, c = CallGetOrLoadProgram location load)
         calls ->
       runCalls upd calls i1 = Ok i2 ->
       Nat.iter starts onTransactionExecutionStart i2 = i2
       /\ Nat.iter starts onScriptExecutionStart i2 = i2
       /\ GetOrLoadProgram (onTransactionExecutionStart i2) location load2
          = ((program1, None), i2))
   /\ (forall location' code e i2 (load2 : LoadClosure),
       UpdateAccountContractCode upd i1 location' code = Ok (Some e, i2) ->
       onTransactionExecutionStart i2 = i2
       /\ GetOrLoadProgram (onTransactionExecutionStart i2) location load2
          = ((program1, None), i2)))
  /\ (forall j,
        invalidateUpdatedPrograms (invalidateUpdatedPrograms j)
        = invalidateUpdatedPrograms j).
Proof.
  intros result1 program1 i1.
  assert (Hcached : programs i1 !! location = Some program1)
    by apply GetOrLoadProgram_caches.
  split; [intros Hflag; split|].
  - intros calls i2 load2 starts Hloads Hrun.
    assert (Hflag2 : updatedContractCode i2 = false).
    { by rewrite (runCalls_loads_flag upd calls Hloads _ _ Hrun). }
    assert (Hstart : invalidateUpdatedPrograms i2 = i2)
      by by apply invalidateUpdatedPrograms_unflagged.
    assert (Hiter : Nat.iter starts invalidateUpdatedPrograms i2 = i2).
    { induction starts as [|n IH]; [done|]. simpl. by rewrite IH. }
    split; [exact Hiter|]. split; [exact Hiter|].
    unfold onTransactionExecutionStart. rewrite Hstart.
    apply GetOrLoadProgram_hit. by eapply runCalls_keeps.
  - intros location' code e i2 load2 Hupd.
    assert (Hi2 : programs i2 = programs i1 /\ updatedContractCode i2 = false).
    { unfold UpdateAccountContractCode in Hupd. destruct upd as [f|]; [|done].
      destruct (f location' code (accountCodes i1)) as [[e'|] codes];
        injection Hupd as Heq <-; [|done]. by simpl. }
    destruct Hi2 as [Hprog Hflag2].
    unfold onTransactionExecutionStart.
    rewrite invalidateUpdatedPrograms_unflagged by done.
    split; [done|]. apply GetOrLoadProgram_hit. by rewrite Hprog.
  - intros j. unfold invalidateUpdatedPrograms.
    destruct (updatedContractCode j) eqn:E; simpl; [done|]. by rewrite E.
Qed.

End ProgramCacheAcrossExecutions.

(** * Checking pragma declarations *)

Section CheckPragmaFacts.

Import CheckPragma.

(** The loop over the arguments reports one error for each argument that
    is not a string literal, in order, after the errors it started with. *)
Lemma arguments_loop_errors (arguments : list (string * Expression)) checker :
  errors
    (foldl (fun checker arg =>
              match snd arg with
              | StringExpression _ _ => checker
              | expression =>
                  report checker
                    {| Message := "invalid non-string argument";
                       Range_ := Expression_Range expression |}
              end) checker arguments)
  = errors checker
    ++ ((fun arg => {| Message := "invalid non-string argument";
                       Range_ := Expression_Range (snd arg) |})
          <$> filter (fun arg => is_StringExpression (snd arg) = false) arguments).
Proof.
  revert checker. induction arguments as [|[label e] arguments IH]; intros checker.
  - simpl. by rewrite app_nil_r.
  - cbn [foldl]. rewrite IH, filter_cons. cbn [snd].
    destruct e; simpl; try by rewrite <- app_assoc.
    done.
Qed.

(** X10 (Checker.VisitPragmaDeclaration, IsAllowAccountLinkingPragma,
    reportInvalidNonHeaderPragma): what the checker reports for a pragma.
    The visitor keeps the errors reported so far and appends its own. It
    appends none exactly for an identifier other than [allowAccountLinking]
    and for an invocation without type arguments whose arguments are all
    string literals, whatever is invoked. For an invocation it appends one
    error if there are type arguments, at the first of them, and then one
    for each argument that is not a string literal, in order; for anything
    else one error. Every error is attributed to the declaration, or to a
    type argument or an argument of it. *)
Theorem VisitPragmaDeclaration_reports (checker : Checker)
    (declaration : PragmaDeclaration) :
  exists new,
    errors (VisitPragmaDeclaration checker declaration) = errors checker ++ new
    /\ (new = [] <-> accepted declaration)
    /\ length new
       = match Expression_ declaration with
         | InvocationExpression _ typeArguments arguments _ =>
             (if typeArguments is [] then 0 else 1)
             + length (filter (fun arg => is_StringExpression (snd arg) = false)
                         arguments)
         | IdentifierExpression _ _ =>
             if IsAllowAccountLinkingPragma declaration then 1 else 0
         | _ => 1
         end
    /\ Forall (fun err => Range_ err ∈ positions declaration) new.
Proof.
  destruct declaration as [e r]. unfold VisitPragmaDeclaration, accepted,
    positions, IsAllowAccountLinkingPragma. cbn [Expression_ PragmaDeclaration_Range].
  destruct e as [v r'|identifier r'|invoked typeArguments arguments r'|r'].
  - eexists [_]. split; [done|]. split; [by split|]. split; [done|].
    apply Forall_singleton. simpl. set_solver.
  - destruct (bool_decide (identifier = allowAccountLinkingPragmaIdentifier))
      eqn:E.
    + apply bool_decide_eq_true in E. eexists [_]. split; [done|].
      split; [by split|]. split; [done|].
      apply Forall_singleton. simpl. set_solver.
    + apply bool_decide_eq_false in E. exists []. split; [by rewrite app_nil_r|].
      split; [by split|]. by split.
  - rewrite arguments_loop_errors.
    set (bad := filter (fun arg => is_StringExpression (snd arg) = false) arguments).
    assert (Hbad : bad = [] <->
                   Forall (fun arg => is_StringExpression (snd arg) = true) arguments).
    { unfold bad. clear bad. induction arguments as [|[l e] arguments IH].
      - by split.
      - rewrite filter_cons, Forall_cons. cbn [snd].
        destruct (is_StringExpression e); simpl.
        + rewrite IH. by split; [|intros [_ ?]].
        + by split; [|intros [? _]]. }
    assert (Hpos : forall arg, arg ∈ bad ->
                     Expression_Range (snd arg)
                     ∈ r :: (TypeAnnotation_Range <$> typeArguments)
                          ++ ((fun arg => Expression_Range (snd arg)) <$> arguments)).
    { intros arg Harg. apply list_elem_of_filter in Harg as [_ Harg].
      apply elem_of_cons. right. apply elem_of_app. right.
      by apply (list_elem_of_fmap_2 (fun arg => Expression_Range arg.2)). }
    destruct typeArguments as [|first typeArguments].
    + eexists. split; [done|]. split; [|split].
      * rewrite <- Hbad. split.
        -- intros H%fmap_nil_inv. by split.
        -- intros [_ Hb]. by rewrite Hb.
      * by rewrite length_fmap.
      * apply Forall_fmap, Forall_forall. intros arg Harg. by apply Hpos.
    + eexists (_ :: _). split; [|split; [|split]].
      * cbn [errors report]. by rewrite <- app_assoc.
      * split; [done|]. by intros [? _].
      * simpl. by rewrite length_fmap.
      * apply Forall_cons. split; [simpl; set_solver|].
        apply Forall_fmap, Forall_forall. intros arg Harg. by apply Hpos.
  - eexists [_]. split; [done|]. split; [by split|]. split; [done|].
    apply Forall_singleton. simpl. set_solver.
Qed.

End CheckPragmaFacts.

(** * The Test contract *)

Section TestContractFacts.

Import (notations) TestContract.

Context {Character : Type} `{EqDecision Character} {Captured : Type}.

Local Abbreviation Matcher := (TestContract.Matcher Character Captured).
Local Abbreviation test := (TestContract.test (Character := Character) (Captured := Captured)).
Local Abbreviation Value := (TestContract.Value Character).

(** X11 (Matcher.and, Matcher.or, not): matchers combine as the boolean
    operators they are named after, tests that panic or change what they
    capture included. The tests of the matchers are run left to right and
    only as far as needed: when the first matcher of a conjunction fails, or
    that of a disjunction succeeds, the other matcher is not tested, so it
    can neither panic nor change anything. De Morgan's laws, double negation
    and associativity hold as equalities of what a test returns and of the
    state it leaves. *)
Theorem Matcher_laws (a b c : Matcher) (value : Value) (s : Captured) :
  test (TestContract.not (TestContract.and a b)) value s
  = test (TestContract.or (TestContract.not a) (TestContract.not b)) value s
  /\ test (TestContract.not (TestContract.or a b)) value s
     = test (TestContract.and (TestContract.not a) (TestContract.not b)) value s
  /\ test (TestContract.not (TestContract.not a)) value s = test a value s
  /\ test (TestContract.and (TestContract.and a b) c) value s
     = test (TestContract.and a (TestContract.and b c)) value s
  /\ test (TestContract.or (TestContract.or a b) c) value s
     = test (TestContract.or a (TestContract.or b c)) value s
  /\ (forall s', test a value s = Ok (false, s') ->
        test (TestContract.and a b) value s = Ok (false, s'))
  /\ (forall s', test a value s = Ok (true, s') ->
        test (TestContract.or a b) value s = Ok (true, s'))
  /\ (forall p, test a value s = Panic p ->
        test (TestContract.and a b) value s = Panic p
        /\ test (TestContract.or a b) value s = Panic p).
Proof.
  cbn [TestContract.test TestContract.and TestContract.or TestContract.not].
  split_and!.
  - destruct (test a value s) as [[[] s1]|p]; [|done..].
    by destruct (test b value s1) as [[[] s2]|p].
  - destruct (test a value s) as [[[] s1]|p]; [done| |done].
    by destruct (test b value s1) as [[[] s2]|p].
  - by destruct (test a value s) as [[[] s1]|p].
  - destruct (test a value s) as [[[] s1]|p]; [|done..].
    by destruct (test b value s1) as [[[] s2]|p].
  - destruct (test a value s) as [[[] s1]|p]; [done| |done].
    by destruct (test b value s1) as [[[] s2]|p].
  - by intros s' ->.
  - by intros s' ->.
  - by intros p ->.
Qed.

(** X12 (beSucceeded, beFailed, beNil): on a value that conforms to the
    interface Result, the result of a transaction or of a script or a value
    of any other conforming struct, [beSucceeded] tests whether the status
    is succeeded and [beFailed] whether it is failed; neither looks at the
    error or at the returned value. On every value each of the two is the
    negation of the other: they return the same, and exactly one of them
    matches when they return. [beNil] never panics and matches nil only.
    None of them changes what a test captures. *)
Theorem beSucceeded_beFailed (value : Value) (s : Captured) :
  (forall r, TestContract.as_Result value = Ok r ->
     test TestContract.beSucceeded value s
     = Ok (bool_decide (TestContract.status r = TestContract.succeeded), s)
     /\ test TestContract.beFailed value s
        = Ok (bool_decide (TestContract.status r = TestContract.failed), s))
  /\ test TestContract.beFailed value s
     = test (TestContract.not TestContract.beSucceeded) value s
  /\ test TestContract.beSucceeded value s
     = test (TestContract.not TestContract.beFailed) value s
  /\ (forall n status (error : option (TestContract.Error Character)),
        test TestContract.beSucceeded
          (TestContract.ConformingValue n status error) s
        = Ok (bool_decide (status = TestContract.succeeded), s))
  /\ test TestContract.beNil value s
     = Ok (match value with TestContract.NilValue => true | _ => false end, s).
Proof.
  cbn [TestContract.test TestContract.beSucceeded TestContract.beFailed
       TestContract.not].
  split_and!; [| | |done|done].
  - intros r ->. by split.
  - destruct (TestContract.as_Result value) as [r|p]; [|done]. simpl.
    by destruct (TestContract.status r).
  - destruct (TestContract.as_Result value) as [r|p]; [|done]. simpl.
    by destruct (TestContract.status r).
Qed.

(** ** assertError *)

Implicit Types (msg errorMessage : list Character).

(** Where a string occurs in another. *)
Lemma occurs_at msg errorMessage :
  (exists before after, msg = before ++ errorMessage ++ after)
  <-> exists j : nat,
        (Z.of_nat j < Z.of_nat (length msg) - Z.of_nat (length errorMessage) + 1)%Z
        /\ take (length errorMessage) (drop j msg) = errorMessage.
Proof.
  split.
  - intros (before & after & ->). exists (length before). split.
    + rewrite !length_app. lia.
    + rewrite drop_app_length. by rewrite take_app_length.
  - intros (j & Hj & Heq). exists (take j msg), (drop (length errorMessage) (drop j msg)).
    rewrite <- Heq at 1. by rewrite take_drop, take_drop.
Qed.

Lemma assertError_loop_spec msg errorMessage (fuel : nat) (i : nat) :
  let msgLength :=
    (Z.of_nat (length msg) - Z.of_nat (length errorMessage) + 1)%Z in
  (msgLength - Z.of_nat i <= Z.of_nat fuel)%Z ->
  exists found,
    TestContract.assertError_loop fuel msg errorMessage msgLength (Z.of_nat i)
    = Some (Ok found)
    /\ (found = true <->
        exists j : nat, (i <= j)%nat /\ (Z.of_nat j < msgLength)%Z
                        /\ take (length errorMessage) (drop j msg) = errorMessage).
Proof.
  intros msgLength. revert i.
  induction fuel as [|fuel IH]; intros i Hfuel.
  - exists false. split.
    + simpl. by rewrite bool_decide_eq_false_2 by lia.
    + split; [done|]. intros (j & ? & ? & _). lia.
  - destruct (decide (Z.of_nat i < msgLength)%Z) as [Hlt|Hge].
    + cbn [TestContract.assertError_loop].
      rewrite bool_decide_eq_true_2 by done.
      unfold TestContract.slice.
      rewrite bool_decide_eq_true_2 by (unfold msgLength in Hlt; lia).
      replace (Z.to_nat (Z.of_nat i + Z.of_nat (length errorMessage) - Z.of_nat i))
        with (length errorMessage) by lia.
      rewrite Nat2Z.id.
      destruct (decide (take (length errorMessage) (drop i msg) = errorMessage))
        as [Heq|Hne].
      * rewrite bool_decide_eq_true_2 by done. exists true. split; [done|].
        split; [|done]. intros _. by exists i.
      * rewrite bool_decide_eq_false_2 by done.
        destruct (IH (S i)) as (found & Hloop & Hfound); [lia|].
        exists found. split.
        -- rewrite <- Hloop. f_equal. lia.
        -- rewrite Hfound. split.
           ++ intros (j & ? & ? & ?). exists j. split; [lia|done].
           ++ intros (j & Hij & ? & ?). exists j.
              destruct (decide (j = i)) as [->|]; [done|]. split; [lia|done].
    + exists false. split.
      * cbn [TestContract.assertError_loop].
        by rewrite bool_decide_eq_false_2 by done.
      * split; [done|]. intros (j & ? & ? & _). lia.
Qed.

(** X13 (assertError): [assertError] searches the error message for the
    given string. Given enough iterations, one more than the length of the
    message is enough, it returns, and it returns normally exactly when the
    status of the result is failed, the result has an error, and the given
    string occurs in the message of that error; the empty string always
    does. Otherwise it panics: on another status with the failed
    pre-condition, on a missing error with the failed force-unwrap, and when
    the string does not occur with the failed assertion. It never slices
    the message out of its bounds. *)
Theorem assertError_spec (fuel : nat) (result : TestContract.Result_ Character)
    (errorMessage : list Character) :
  (forall e, TestContract.error result = Some e ->
             (length (TestContract.message e) < fuel)%nat) ->
  (TestContract.assertError fuel result errorMessage = Some (Ok ())
   <-> TestContract.status result = TestContract.failed
       /\ exists e, TestContract.error result = Some e
          /\ exists before after,
               TestContract.message e = before ++ errorMessage ++ after)
  /\ (TestContract.assertError fuel result errorMessage
      = Some (Panic (TestContract.ConditionError "no error was found"))
      <-> TestContract.status result <> TestContract.failed)
  /\ (TestContract.assertError fuel result errorMessage
      = Some (Panic TestContract.ForceNilError)
      <-> TestContract.status result = TestContract.failed
          /\ TestContract.error result = None)
  /\ (TestContract.assertError fuel result errorMessage
      = Some (Panic (TestContract.AssertionError
                "the error message did not contain the given sub-string"))
      <-> TestContract.status result = TestContract.failed
          /\ exists e, TestContract.error result = Some e
             /\ ~ exists before after,
                    TestContract.message e = before ++ errorMessage ++ after).
Proof.
  intros Hfuel. unfold TestContract.assertError.
  destruct (decide (TestContract.status result = TestContract.failed))
    as [Hfailed|Hother].
  2: { rewrite bool_decide_eq_false_2 by done.
       split_and!; (split; [intros Heq|intros Hcond]); try done;
         by destruct Hcond. }
  rewrite bool_decide_eq_true_2 by done.
  destruct (TestContract.error result) as [e|] eqn:He.
  2: { split_and!; (split; [intros Heq|intros Hcond]); try done;
         by destruct Hcond as (_ & e & ? & _). }
  specialize (Hfuel e eq_refl).
  destruct (assertError_loop_spec (TestContract.message e) errorMessage fuel 0)
    as (found & Hloop & Hfound); [lia|].
  change (Z.of_nat 0) with 0%Z in Hloop. rewrite Hloop.
  assert (Hocc : found = true <->
                 exists before after,
                   TestContract.message e = before ++ errorMessage ++ after).
  { rewrite Hfound, occurs_at. split.
    - intros (j & _ & ? & ?). by exists j.
    - intros (j & ? & ?). exists j. split; [lia|done]. }
  destruct found.
  - assert (Hyes : exists before after,
               TestContract.message e = before ++ errorMessage ++ after)
      by by apply Hocc.
    split_and!; (split; [intros Heq|intros Hcond]); try done.
    + split; [done|]. exists e. by split.
    + by destruct Hcond.
    + destruct Hcond as (_ & e' & [= <-] & Hno). by destruct Hno.
  - assert (Hno : ~ exists before after,
               TestContract.message e = before ++ errorMessage ++ after).
    { intros Hyes. by apply Hocc in Hyes. }
    split_and!; (split; [intros Heq|intros Hcond]); try done.
    + destruct Hcond as (_ & e' & [= <-] & Hyes). by destruct Hno.
    + by destruct Hcond.
    + split; [done|]. exists e. by split.
Qed.

(** ** Blockchain *)

Section Blockchain.

Context {Transaction B : Type}.
Context (backend : TestContract.BlockchainBackend Character Transaction B).

Lemma replicate_snoc_cons {A} (n : nat) (x : A) l :
  replicate n x ++ x :: l = x :: replicate n x ++ l.
Proof. induction n as [|n IH]; [done|]. simpl. by rewrite IH. Qed.

Lemma recording_addTransactions transactions b log :
  TestContract.addTransactions (TestContract.recording backend) transactions (b, log)
  = match TestContract.addTransactions backend transactions b with
    | Ok b' =>
        Ok (b', replicate (length transactions) TestContract.AddTransaction ++ log)
    | Panic p => Panic p
    end.
Proof.
  revert b log. induction transactions as [|tx rest IH]; intros b log; [done|].
  cbn [TestContract.addTransactions TestContract.addTransaction
       TestContract.recording TestContract.backend_addTransaction fst snd].
  unfold TestContract.addTransaction, mbind, Result_bind.
  destruct (TestContract.backend_addTransaction backend tx b) as [b1|p];
    simpl; [|done].
  rewrite IH. destruct (TestContract.addTransactions backend rest b1); [|done].
  by rewrite replicate_snoc_cons.
Qed.

Lemma recording_executeNextTransactions transactions results b log :
  TestContract.executeNextTransactions (TestContract.recording backend)
    transactions results (b, log)
  = match TestContract.executeNextTransactions backend transactions results b with
    | Ok (rs, b') =>
        Ok (rs, (b', replicate (length transactions)
                       TestContract.ExecuteNextTransaction ++ log))
    | Panic p => Panic p
    end.
Proof.
  revert results b log.
  induction transactions as [|tx rest IH]; intros results b log; [done|].
  cbn [TestContract.executeNextTransactions TestContract.executeNextTransaction
       TestContract.recording TestContract.backend_executeNextTransaction fst snd].
  unfold TestContract.executeNextTransaction, mbind, Result_bind.
  destruct (TestContract.backend_executeNextTransaction backend b)
    as [[next b1]|p]; simpl; [|done].
  destruct next as [r|]; simpl; [|done].
  rewrite IH.
  destruct (TestContract.executeNextTransactions backend rest (results ++ [r]) b1)
    as [[rs b2]|p]; [|done].
  by rewrite replicate_snoc_cons.
Qed.

Lemma executeNextTransactions_length transactions results b rs b' :
  TestContract.executeNextTransactions backend transactions results b = Ok (rs, b') ->
  length rs = (length results + length transactions)%nat.
Proof.
  revert results b.
  induction transactions as [|tx rest IH]; intros results b Hrun.
  - injection Hrun as <- _. simpl. lia.
  - cbn [TestContract.executeNextTransactions] in Hrun.
    unfold TestContract.executeNextTransaction, mbind, Result_bind in Hrun.
    destruct (TestContract.backend_executeNextTransaction backend b)
      as [[next b1]|p]; simpl in Hrun; [|done].
    destruct next as [r|]; simpl in Hrun; [|done].
    apply IH in Hrun. rewrite length_app in Hrun. simpl in *. lia.
Qed.

Lemma executeNextTransactions_app before after results b :
  TestContract.executeNextTransactions backend (before ++ after) results b
  = match TestContract.executeNextTransactions backend before results b with
    | Ok (rs, b') => TestContract.executeNextTransactions backend after rs b'
    | Panic p => Panic p
    end.
Proof.
  revert results b. induction before as [|tx rest IH]; intros results b; [done|].
  cbn [app TestContract.executeNextTransactions].
  unfold TestContract.executeNextTransaction, mbind, Result_bind.
  destruct (TestContract.backend_executeNextTransaction backend b)
    as [[next b1]|p]; simpl; [|done].
  destruct next as [r|]; simpl; [|done]. apply IH.
Qed.

(** X14 (Blockchain.executeTransactions, Blockchain.executeTransaction):
    a batch of transactions is executed in one block. Whatever the backend,
    when [executeTransactions] returns it has added every transaction, then
    executed as many, then committed once, in that order and with no other
    call; it returns one result for each transaction. A backend that has no
    next transaction for one of them makes it panic on the force-unwrap,
    whatever follows it. On a single transaction it does what
    [executeTransaction] does. *)
Theorem executeTransactions_one_block (transactions : list Transaction) (b : B)
    (log : list TestContract.BackendCall) :
  (forall results st,
      TestContract.executeTransactions (TestContract.recording backend)
        transactions (b, log) = Ok (results, st) ->
      snd st
      = TestContract.CommitBlock
        :: replicate (length transactions) TestContract.ExecuteNextTransaction
        ++ replicate (length transactions) TestContract.AddTransaction ++ log
      /\ length results = length transactions
      /\ TestContract.executeTransactions backend transactions b
         = Ok (results, fst st))
  /\ (forall tx,
        TestContract.executeTransactions backend [tx] b
        = match TestContract.executeTransaction backend tx b with
          | Ok (r, b') => Ok ([r], b')
          | Panic p => Panic p
          end)
  /\ (forall before tx after b1 results b2 b3,
        transactions = before ++ tx :: after ->
        TestContract.addTransactions backend transactions b = Ok b1 ->
        TestContract.executeNextTransactions backend before [] b1
        = Ok (results, b2) ->
        TestContract.backend_executeNextTransaction backend b2 = Ok (None, b3) ->
        TestContract.executeTransactions backend transactions b
        = Panic TestContract.ForceNilError).
Proof.
  split_and!.
  - intros results st Hrun. unfold TestContract.executeTransactions in *.
    unfold mbind, Result_bind in *.
    rewrite recording_addTransactions in Hrun.
    destruct (TestContract.addTransactions backend transactions b) as [b1|p];
      simpl in *; [|done].
    rewrite recording_executeNextTransactions in Hrun.
    destruct (TestContract.executeNextTransactions backend transactions [] b1)
      as [[rs b2]|p] eqn:Hexec; simpl in *; [|done].
    unfold TestContract.commitBlock in *. simpl in Hrun.
    unfold mbind, Result_bind in Hrun.
    destruct (TestContract.backend_commitBlock backend b2) as [b3|p];
      simpl in *; [|done].
    injection Hrun as <- <-. simpl.
    split; [done|]. split; [|done].
    by apply executeNextTransactions_length in Hexec.
  - intros tx. unfold TestContract.executeTransactions,
      TestContract.executeTransaction. simpl. unfold mbind, Result_bind.
    destruct (TestContract.addTransaction backend tx b) as [b1|p]; simpl; [|done].
    destruct (TestContract.executeNextTransaction backend b1) as [[next b2]|p];
      simpl; [|done].
    destruct next as [r|]; simpl; [|done].
    by destruct (TestContract.commitBlock backend b2).
  - intros before tx after b1 results b2 b3 -> Hadd Hexec Hnil.
    unfold TestContract.executeTransactions. rewrite Hadd. simpl.
    rewrite executeNextTransactions_app, Hexec.
    cbn [TestContract.executeNextTransactions].
    unfold TestContract.executeNextTransaction. by rewrite Hnil.
Qed.

End Blockchain.

End TestContractFacts.

(** * Account references: the account behind a reference *)

Section AccountReferenceAccess.

Import Interpreter AccountReferences.

Context {SemaType StaticType InterpreterState : Type}.
Context (sema_Equal : SemaType -> option SemaType -> bool).
Context (AuthAccountHandler :
           Address -> InterpreterState -> option (Value StaticType) * InterpreterState).
Context (getMember :
           InterpreterState -> option (Value StaticType) -> LocationRange -> string ->
           Result Fault (option (Value StaticType) * InterpreterState)).
Context (setMember :
           InterpreterState -> option (Value StaticType) -> LocationRange -> string ->
           Value StaticType -> Result Fault (bool * InterpreterState)).
Context (IsSubTypeOfSemaType :
           InterpreterState -> StaticType -> option SemaType -> bool).
Context (PrimitiveStaticTypeAuthAccount : StaticType).
Context (Value_ConformsToStaticType :
           InterpreterState -> option (Value StaticType) -> LocationRange ->
           Result Fault (bool * InterpreterState)).

Implicit Types (h : gmap nat (AccountReferenceValue SemaType StaticType))
  (v : AccountReferenceValue SemaType StaticType) (p q : Ptr)
  (interpreter : InterpreterState).

Lemma authAccount_cached interpreter h p v account :
  h !! p = Some v ->
  _authAccount v = Some account ->
  authAccount AuthAccountHandler interpreter h p = Ok (Some account, (interpreter, h)).
Proof. intros Hp Hc. unfold authAccount. by rewrite Hp, Hc. Qed.

(** Two heaps that differ in cached accounts only give the same equalities. *)
Lemma Equal_cache_blind h h' v other :
  (forall q w, h !! q = Some w ->
     exists w', h' !! q = Some w'
                /\ Address_ w' = Address_ w /\ BorrowedType w' = BorrowedType w) ->
  (forall q, h !! q = None -> h' !! q = None) ->
  Equal sema_Equal h' v other = Equal sema_Equal h v other.
Proof.
  intros Hsome Hnone. destruct other as [q| | | | | |]; try done. simpl.
  destruct (h !! q) as [w|] eqn:Hq.
  - destruct (Hsome q w Hq) as (w' & -> & -> & ->). done.
  - by rewrite (Hnone q Hq).
Qed.

(** X15 (AccountReferenceValue.authAccount, ReferencedValue, GetMember,
    SetMember, ConformsToStaticType, Equal): the account behind a reference
    is made once. The first access asks the host's handler for the account
    of the reference's address and, unless the handler returned nil, keeps
    it in the reference: every later access, in whatever state of the
    interpreter, returns that account and reads or writes its members
    without asking the handler again and without changing any reference.
    Making the account changes only the cached account of that one
    reference, so that all references compare equal as before. A nil answer
    is not kept: the references stay as they are and the handler will be
    asked again. A reference whose borrowed type the auth account type does
    not conform to is reported as not conforming without the account being
    made. *)
Theorem authAccount_made_once interpreter h p v :
  h !! p = Some v ->
  _authAccount v = None ->
  (forall account interpreter1,
      AuthAccountHandler (Address_ v) interpreter = (Some account, interpreter1) ->
      exists h1,
        authAccount AuthAccountHandler interpreter h p
        = Ok (Some account, (interpreter1, h1))
        /\ (forall interpreter2 locationRange errorOnFailedDereference,
              ReferencedValue AuthAccountHandler interpreter2 h1 p locationRange
                errorOnFailedDereference
              = Ok (Some account, (interpreter2, h1)))
        /\ (forall interpreter2 locationRange name,
              GetMember AuthAccountHandler getMember interpreter2 h1 p
                locationRange name
              = match getMember interpreter2 (Some account) locationRange name with
                | Ok (member, interpreter3) => Ok (member, (interpreter3, h1))
                | Panic e => Panic e
                end)
        /\ (forall interpreter2 locationRange name value,
              SetMember AuthAccountHandler setMember interpreter2 h1 p
                locationRange name value
              = match setMember interpreter2 (Some account) locationRange name value with
                | Ok (existed, interpreter3) => Ok (existed, (interpreter3, h1))
                | Panic e => Panic e
                end)
        /\ h1 !! p = Some {| BorrowedType := BorrowedType v;
                             _authAccount := Some account;
                             Address_ := Address_ v |}
        /\ (forall q, q <> p -> h1 !! q = h !! q)
        /\ (forall w other,
              Equal sema_Equal h1 w other = Equal sema_Equal h w other))
  /\ (forall interpreter1,
        AuthAccountHandler (Address_ v) interpreter = (None, interpreter1) ->
        authAccount AuthAccountHandler interpreter h p
        = Ok (None, (interpreter1, h)))
  /\ (forall locationRange,
        IsSubTypeOfSemaType interpreter PrimitiveStaticTypeAuthAccount
          (BorrowedType v) = false ->
        ConformsToStaticType AuthAccountHandler IsSubTypeOfSemaType
          PrimitiveStaticTypeAuthAccount Value_ConformsToStaticType
          interpreter h p locationRange
        = Ok (false, (interpreter, h))).
Proof.
  intros Hp Hnil. split_and!.
  - intros account interpreter1 Hhandler.
    set (v1 := {| BorrowedType := BorrowedType v;
                  _authAccount := Some account;
                  Address_ := Address_ v |}).
    exists (<[p := v1]> h).
    assert (Hp1 : <[p := v1]> h !! p = Some v1) by by rewrite lookup_insert_eq.
    assert (Hcached : forall interpreter2,
               authAccount AuthAccountHandler interpreter2 (<[p := v1]> h) p
               = Ok (Some account, (interpreter2, <[p := v1]> h))).
    { intros interpreter2. by apply (authAccount_cached _ _ _ v1). }
    split_and!.
    + unfold authAccount. by rewrite Hp, Hnil, Hhandler.
    + intros interpreter2 locationRange e. apply Hcached.
    + intros interpreter2 locationRange name. unfold GetMember.
      by rewrite Hcached.
    + intros interpreter2 locationRange name value. unfold SetMember.
      by rewrite Hcached.
    + exact Hp1.
    + intros q Hq. by rewrite lookup_insert_ne.
    + intros w other. apply Equal_cache_blind.
      * intros q w' Hq. destruct (decide (q = p)) as [->|Hne].
        -- exists v1. rewrite Hp in Hq. injection Hq as <-. by split.
        -- exists w'. by rewrite lookup_insert_ne.
      * intros q Hq. destruct (decide (q = p)) as [->|Hne]; [congruence|].
        by rewrite lookup_insert_ne.
  - intros interpreter1 Hhandler. unfold authAccount.
    rewrite Hp, Hnil, Hhandler. do 3 f_equal.
    apply insert_id. rewrite Hp. f_equal. destruct v; simpl in *. by subst.
  - intros locationRange Hsub. unfold ConformsToStaticType.
    by rewrite Hp, Hsub.
Qed.

(** X16 (AccountReferenceValue.Clone, authAccount): a clone does not share
    the cached account. The clone of a reference whose account was made
    already is a new reference with no account: the first access through
    the clone asks the handler again, for the same address, and what the
    handler answers is kept in the clone only, while the original still
    returns the account it had, without asking. *)
Theorem Clone_does_not_share_account interpreter h p v account :
  h !! p = Some v ->
  _authAccount v = Some account ->
  let '(q, h') := Clone h v in
  q <> p
  /\ authAccount AuthAccountHandler interpreter h' q
     = (let '(account', interpreter') :=
          AuthAccountHandler (Address_ v) interpreter in
        Ok (account',
            (interpreter',
             <[q := {| BorrowedType := BorrowedType v;
                       _authAccount := account';
                       Address_ := Address_ v |}]> h')))
  /\ (forall interpreter' interpreter'' account' h'',
        authAccount AuthAccountHandler interpreter h' q
        = Ok (account', (interpreter', h'')) ->
        authAccount AuthAccountHandler interpreter'' h'' p
        = Ok (Some account, (interpreter'', h''))).
Proof.
  intros Hp Hc. unfold Clone.
  pose proof (NewUnmetered_fresh h (Address_ v) (BorrowedType v)) as Hnew.
  destruct (NewUnmeteredAccountReferenceValue h (Address_ v) (BorrowedType v))
    as [q h'] eqn:Hclone.
  destruct Hnew as (Hq & Hq' & Hother).
  assert (Hne : q <> p) by (intros ->; congruence).
  assert (Hfirst : authAccount AuthAccountHandler interpreter h' q
     = (let '(account', interpreter') :=
          AuthAccountHandler (Address_ v) interpreter in
        Ok (account',
            (interpreter',
             <[q := {| BorrowedType := BorrowedType v;
                       _authAccount := account';
                       Address_ := Address_ v |}]> h')))).
  { unfold authAccount. by rewrite Hq'. }
  split; [done|]. split; [done|].
  intros interpreter' interpreter'' account' h'' Hrun.
  rewrite Hfirst in Hrun.
  destruct (AuthAccountHandler (Address_ v) interpreter) as [a i'].
  injection Hrun as _ _ <-.
  apply (authAccount_cached _ _ _ v); [|done].
  rewrite lookup_insert_ne by done. rewrite Hother by done. done.
Qed.

End AccountReferenceAccess.

(** * Account values: what is made once and what is made every time *)

Section AccountValueFacts.

Import Interpreter AccountValues.

Context {SemaType StaticType InterpreterState FunctionType MemoryGauge : Type}.
Context {Inter W : Type}.

Local Abbreviation Member' :=
  (@Member SemaType StaticType InterpreterState FunctionType).

Implicit Types (c : Variable_ -> option Member') (w : W) (x y : Variable_)
  (r : option Member') (m : Member').

Lemma made_once_spec x (constructor : W -> Result Fault (option Member' * W))
    c w r c1 w1 :
  made_once x constructor c w = Ok (r, (c1, w1)) ->
  (forall y, y <> x -> c1 y = c y)
  /\ (forall y m, c y = Some m -> c1 y = Some m)
  /\ c1 x = r.
Proof.
  unfold made_once. destruct (c x) as [kept|] eqn:Hx.
  - intros [= <- <- <-]. by split_and!.
  - unfold mbind, Result_bind.
    destruct (constructor w) as [[made w']|e]; simpl; [|done].
    intros [= <- <- <-]. unfold assign. split_and!.
    + intros y Hy. by rewrite decide_False.
    + intros y m Hy. rewrite decide_False; [done|]. intros ->. congruence.
    + by rewrite decide_True.
Qed.

Lemma made_once_kept x (constructor : W -> Result Fault (option Member' * W))
    c w m :
  c x = Some m -> made_once x constructor c w = Ok (Some m, (c, w)).
Proof. intros Hx. unfold made_once. by rewrite Hx. Qed.

Lemma function_made_once_spec x
    (constructor :
       W -> Result Fault
              (HostFunctionValue SemaType StaticType InterpreterState FunctionType * W))
    c w r c1 w1 :
  function_made_once x constructor c w = Ok (r, (c1, w1)) ->
  (forall y, y <> x -> c1 y = c y)
  /\ (forall y m, c y = Some m -> c1 y = Some m)
  /\ c1 x = r.
Proof.
  unfold function_made_once. destruct (c x) as [kept|] eqn:Hx.
  - intros [= <- <- <-]. by split_and!.
  - unfold mbind, Result_bind.
    destruct (constructor w) as [[made w']|e]; simpl; [|done].
    intros [= <- <- <-]. unfold assign. split_and!.
    + intros y Hy. by rewrite decide_False.
    + intros y m Hy. rewrite decide_False; [done|]. intros ->. congruence.
    + by rewrite decide_True.
Qed.

Lemma function_made_once_kept x
    (constructor :
       W -> Result Fault
              (HostFunctionValue SemaType StaticType InterpreterState FunctionType * W))
    c w m :
  c x = Some m -> function_made_once x constructor c w = Ok (Some m, (c, w)).
Proof. intros Hx. unfold function_made_once. by rewrite Hx. Qed.

Lemma asked_spec (get : W -> Result Fault (Value StaticType * W)) c w r c1 w1 :
  asked get c w = Ok (r, (c1, w1)) -> c1 = c.
Proof.
  unfold asked, mbind, Result_bind.
  destruct (get w) as [[v w']|e]; simpl; [|done]. by intros [= <- <- <-].
Qed.

Ltac made_once_case H :=
  let Hother := fresh "Hother" in
  let Hkeep := fresh "Hkeep" in
  let Hx := fresh "Hx" in
  first
    [ pose proof (made_once_spec _ _ _ _ _ _ _ H) as (Hother & Hkeep & Hx)
    | pose proof (function_made_once_spec _ _ _ _ _ _ _ H) as (Hother & Hkeep & Hx) ];
  split_and!;
  [ let y := fresh "y" in let Hy := fresh "Hy" in
    intros y Hy; apply Hother; congruence
  | exact Hkeep
  | let x' := fresh "x" in let m := fresh "m" in
    intros x' [= <-]; split; [exact Hx|];
    intros m -> ? ? ?;
    first [ by apply made_once_kept | by apply function_made_once_kept ]
  | done
  | done ].

Ltac asked_case H :=
  pose proof (asked_spec _ _ _ _ _ _ H) as ->;
  by split_and!.

Context (parameters : @Parameters SemaType StaticType InterpreterState
                         FunctionType MemoryGauge Inter W).
Context (methods : @Methods SemaType StaticType InterpreterState
                      FunctionType MemoryGauge Inter W).
Context (sema : @Sema SemaType FunctionType).

(** X17 (NewAuthAccountValue, computeField): the members of an auth
    account are made once. Whenever [computeField] returns, the variables of
    the other members hold what they held, and no variable that held a
    member holds another one or none. For the members that are kept, the
    contracts, keys, inbox and capabilities values and all the functions,
    the variable of the member holds what was returned, and what was
    returned, unless it is nil, is returned again on every later access,
    from whatever interpreter and at whatever position, without any call:
    the state is left as it is. A function member thus stays bound to the
    interpreter of its first access. The paths, the balances and the
    storage figures are asked for on every access and are kept nowhere; a
    name that is not a member gives nil and changes nothing. *)
Theorem AuthAccount_computeField_makes_once (name : AuthAccountName) (inter : Inter)
    (locationRange : LocationRange) c w r c1 w1 :
  AuthAccount_computeField parameters methods sema name inter locationRange c w
  = Ok (r, (c1, w1)) ->
  (forall y, AuthAccount_variable name <> Some y -> c1 y = c y)
  /\ (forall y m, c y = Some m -> c1 y = Some m)
  /\ (forall x, AuthAccount_variable name = Some x ->
        c1 x = r
        /\ forall m, r = Some m ->
             forall inter2 locationRange2 w2,
               AuthAccount_computeField parameters methods sema name inter2
                 locationRange2 c1 w2
               = Ok (Some m, (c1, w2)))
  /\ (AuthAccount_variable name = None -> c1 = c)
  /\ (name = AuthAccountOtherName -> r = None /\ w1 = w).
Proof.
  intros H. destruct name; cbn [AuthAccount_computeField] in H;
    cbn [AuthAccount_variable AuthAccount_computeField];
    try (made_once_case H); try (asked_case H).
  injection H as <- <- <-. by split_and!.
Qed.

(** X18 (NewPublicAccountValue, computeField): the members of a public
    account are made once, in the same way: the keys, contracts and
    capabilities values and the three functions are kept in their variables
    and returned again without any call; the public paths, the balances and
    the storage figures are asked for on every access; a name that is not a
    member gives nil and changes nothing. *)
Theorem PublicAccount_computeField_makes_once (name : PublicAccountName)
    (inter : Inter) (locationRange : LocationRange) c w r c1 w1 :
  PublicAccount_computeField parameters methods sema name inter locationRange c w
  = Ok (r, (c1, w1)) ->
  (forall y, PublicAccount_variable name <> Some y -> c1 y = c y)
  /\ (forall y m, c y = Some m -> c1 y = Some m)
  /\ (forall x, PublicAccount_variable name = Some x ->
        c1 x = r
        /\ forall m, r = Some m ->
             forall inter2 locationRange2 w2,
               PublicAccount_computeField parameters methods sema name inter2
                 locationRange2 c1 w2
               = Ok (Some m, (c1, w2)))
  /\ (PublicAccount_variable name = None -> c1 = c)
  /\ (name = PublicAccountOtherName -> r = None /\ w1 = w).
Proof.
  intros H. destruct name; cbn [PublicAccount_computeField] in H;
    cbn [PublicAccount_variable PublicAccount_computeField];
    try (made_once_case H); try (asked_case H).
  injection H as <- <- <-. by split_and!.
Qed.

End AccountValueFacts.

Section StringerFacts.

Import Interpreter AccountValues.

Context {G MemoryUsage : Type}.
Context (UseMemory : MemoryUsage -> G -> Result Fault G).
Context (Address_MeteredString : Address -> G -> Result Fault (string * G)).
Context (address : Address).

Lemma append_not_empty (a : string) (ch : Ascii.ascii) (b : string) :
  a +:+ String ch b <> "".
Proof. by destruct a. Qed.

Lemma stringer_spec (usage : MemoryUsage) (typeName : string) g s str1 g1 :
  stringer UseMemory Address_MeteredString address usage typeName "" g
  = Ok (s, (str1, g1)) ->
  str1 = s
  /\ s <> ""
  /\ (exists g0 addressStr,
        UseMemory usage g = Ok g0
        /\ Address_MeteredString address g0 = Ok (addressStr, g1)
        /\ s = typeName +:+ "(" +:+ addressStr +:+ ")")
  /\ (forall g2,
        stringer UseMemory Address_MeteredString address usage typeName str1 g2
        = Ok (s, (str1, g2))).
Proof.
  unfold stringer at 1. rewrite bool_decide_eq_true_2 by done.
  unfold mbind, Result_bind.
  destruct (UseMemory usage g) as [g0|e] eqn:Huse; simpl; [|done].
  destruct (Address_MeteredString address g0) as [[addressStr g']|e] eqn:Hstr;
    simpl; [|done].
  intros [= <- <- <-].
  assert (Hne : typeName +:+ "(" +:+ addressStr +:+ ")" <> "")
    by apply append_not_empty.
  split_and!; [done|done| |].
  - by exists g0, addressStr.
  - intros g2. unfold stringer. by rewrite bool_decide_eq_false_2.
Qed.

(** X19 (the stringer closures of NewAuthAccountValue, NewPublicAccountValue
    and NewAuthAccountStorageCapabilitiesValue): the string of an account
    value is made, and its memory metered, once. The first call that
    returns has metered the usage of the value, then the string of the
    address, and returns the name of the type followed by the string of the
    address in parentheses, which is never empty; every later call returns
    that same string and leaves the memory gauge as it is. *)
Theorem stringer_meters_once
    (AuthAccountValueStringMemoryUsage PublicAccountValueStringMemoryUsage
       AuthAccountStorageCapabilitiesStringMemoryUsage : MemoryUsage)
    (f : string -> G -> Result Fault (string * (string * G)))
    (usage : MemoryUsage) (typeName : string) :
  (f, usage, typeName)
  ∈ [(AuthAccount_stringer UseMemory Address_MeteredString address
        AuthAccountValueStringMemoryUsage,
      AuthAccountValueStringMemoryUsage, "AuthAccount");
     (PublicAccount_stringer UseMemory Address_MeteredString address
        PublicAccountValueStringMemoryUsage,
      PublicAccountValueStringMemoryUsage, "PublicAccount");
     (AuthAccountStorageCapabilities_stringer UseMemory Address_MeteredString
        address AuthAccountStorageCapabilitiesStringMemoryUsage,
      AuthAccountStorageCapabilitiesStringMemoryUsage,
      "AuthAccount.StorageCapabilities")] ->
  forall g s str1 g1,
    f "" g = Ok (s, (str1, g1)) ->
    str1 = s
    /\ s <> ""
    /\ (exists g0 addressStr,
          UseMemory usage g = Ok g0
          /\ Address_MeteredString address g0 = Ok (addressStr, g1)
          /\ s = typeName +:+ "(" +:+ addressStr +:+ ")")
    /\ (forall g2, f str1 g2 = Ok (s, (str1, g2))).
Proof.
  intros Hf g s str1 g1 Hcall.
  apply elem_of_cons in Hf as [[= -> -> ->]|Hf];
    [by apply stringer_spec|].
  apply elem_of_cons in Hf as [[= -> -> ->]|Hf];
    [by apply stringer_spec|].
  apply list_elem_of_singleton in Hf as [= -> -> ->].
  by apply stringer_spec.
Qed.

End StringerFacts.

(** * The parser of declarations *)

Section ParserFacts.

Import Parser.

Implicit Types (p : parser) (t : Token) (ts ws rest : list Token).

Lemma skip_trivia_head ts :
  is_trivia (default EOF (head (skip_trivia ts))) = false.
Proof.
  induction ts as [|t ts IH]; [done|]. simpl.
  destruct (is_trivia t) eqn:E; [done|]. simpl. exact E.
Qed.

Lemma skip_trivia_split ts :
  exists ws, ts = ws ++ skip_trivia ts /\ Forall (fun w => is_trivia w = true) ws.
Proof.
  induction ts as [|t ts (ws & Hts & Hws)]; [by exists []|]. simpl.
  destruct (is_trivia t) eqn:E.
  - exists (t :: ws). split; [by rewrite <- app_comm_cons, <- Hts|].
    by apply Forall_cons.
  - by exists [].
Qed.

Lemma skip_trivia_app ws rest :
  Forall (fun w => is_trivia w = true) ws ->
  is_trivia (default EOF (head rest)) = false ->
  skip_trivia (ws ++ rest) = rest.
Proof.
  intros Hws Hrest. induction Hws as [|w ws Hw _ IH].
  - destruct rest as [|t rest]; [done|]. simpl in *. by rewrite Hrest.
  - simpl. by rewrite Hw.
Qed.

Lemma not_trivia_of_type t tokenType :
  Type_ t = tokenType ->
  tokenType = TokenParenOpen \/ tokenType = TokenParenClose
  \/ tokenType = TokenIdentifier ->
  is_trivia t = false.
Proof. intros <- H. unfold is_trivia. by destruct H as [->|[->| ->]]. Qed.

Lemma access_of_Some k access :
  access_of k = Some access ->
  (k = KeywordAll /\ access = AccessPublic)
  \/ (k = KeywordAccount /\ access = AccessAccount)
  \/ (k = KeywordContract /\ access = AccessContract)
  \/ (k = KeywordSelf /\ access = AccessPrivate).
Proof.
  unfold access_of. repeat case_bool_decide; intros [= <-]; naive_solver.
Qed.

Lemma parseAccess_sound p access p' :
  parseAccess p = Ok (access, p') ->
  access_modifier (tokens p) access (tokens p') /\ errors p' = errors p.
Proof.
  unfold parseAccess, current. destruct p as [ts errs].
  destruct ts as [|t ts]; [done|]. simpl.
  case_bool_decide as Hpriv.
  { intros [= <- <-]. split; [|done]. by constructor. }
  case_bool_decide as Hpub.
  { unfold skipSpaceAndComments, Is, current. simpl.
    destruct (skip_trivia_split ts) as (ws1 & Hts & Hws1).
    pose proof (skip_trivia_head ts) as Hhead.
    case_bool_decide as Hopen; simpl.
    2: { intros [= <- <-]. split; [|done]. simpl.
         rewrite Hts at 1. by constructor. }
    destruct (skip_trivia ts) as [|open ts2] eqn:Hskip; [done|]. simpl in *.
    destruct (skip_trivia_split ts2) as (ws2 & Hts2 & Hws2).
    case_bool_decide as Hident; simpl; [|done].
    case_bool_decide as Hset; simpl; [|done].
    destruct (skip_trivia ts2) as [|set ts3] eqn:Hskip2; [done|]. simpl in *.
    destruct (skip_trivia_split ts3) as (ws3 & Hts3 & Hws3).
    unfold mustOne, Is, current, mbind, Result_bind. simpl.
    case_bool_decide as Hclose; simpl; [|done].
    destruct (skip_trivia ts3) as [|close rest] eqn:Hskip3; [done|]. simpl in *.
    intros [= <- <-]. split; [|done]. simpl.
    rewrite Hts, Hts2, Hts3. by constructor. }
  case_bool_decide as Haccess; [|done].
  unfold skipSpaceAndComments, mustOne, Is, current, mbind, Result_bind. simpl.
  destruct (skip_trivia_split ts) as (ws1 & Hts & Hws1).
  case_bool_decide as Hopen; simpl; [|done].
  destruct (skip_trivia ts) as [|open ts2] eqn:Hskip; [done|]. simpl in *.
  destruct (skip_trivia_split ts2) as (ws2 & Hts2 & Hws2).
  case_bool_decide as Hident; simpl; [|done].
  destruct (skip_trivia ts2) as [|kw ts3] eqn:Hskip2; [done|]. simpl in *.
  destruct (skip_trivia_split ts3) as (ws3 & Hts3 & Hws3).
  intros Hrun.
  assert (exists k,
             Value kw = Some k /\ access_of k = Some access
             /\ p' = next {| tokens := skip_trivia ts3; errors := errs |}
             /\ Type_ (default EOF (head (skip_trivia ts3))) = TokenParenClose)
    as (k & Hk & Hof & -> & Hclose).
  { repeat case_bool_decide; try done; simpl in Hrun;
      injection Hrun as <- <-; eexists; split_and!; try eassumption; done. }
  clear Hrun.
  destruct (skip_trivia ts3) as [|close rest] eqn:Hskip3; [done|]. simpl in *.
  split; [|done].
  rewrite Hts, Hts2, Hts3. by econstructor.
Qed.

Lemma parseAccess_complete ts access rest errs :
  access_modifier ts access rest ->
  parseAccess {| tokens := ts; errors := errs |}
  = Ok (access, {| tokens := rest; errors := errs |}).
Proof.
  assert (forall t k k', keyword k t -> k <> k' -> Value t <> Some k')
    as Hother by (unfold keyword; intros t k k' -> Hne; congruence).
  unfold parseAccess, skipSpaceAndComments, mustOne, Is, current, mbind,
    Result_bind.
  destruct 1 as [t rest Ht|t ws rest Ht Hws Hrest Hopen
                 |t ws1 open ws2 set ws3 close rest
                    Ht Hws1 Hopen Hws2 Hident Hset Hws3 Hclose
                 |t ws1 open ws2 kw k access ws3 close rest
                    Ht Hws1 Hopen Hws2 Hident Hk Hof Hws3 Hclose]; simpl.
  - by rewrite bool_decide_eq_true_2.
  - rewrite bool_decide_eq_false_2 by by eapply Hother.
    rewrite bool_decide_eq_true_2 by done.
    rewrite skip_trivia_app by done.
    by rewrite bool_decide_eq_false_2.
  - rewrite bool_decide_eq_false_2 by by eapply Hother.
    rewrite bool_decide_eq_true_2 by done.
    rewrite skip_trivia_app
      by (simpl; first [done|eapply not_trivia_of_type; [eassumption|tauto]]).
    simpl. rewrite bool_decide_eq_true_2 by done. simpl.
    rewrite skip_trivia_app
      by (simpl; first [done|eapply not_trivia_of_type; [eassumption|tauto]]).
    simpl. rewrite !bool_decide_eq_true_2 by done. simpl.
    rewrite skip_trivia_app
      by (simpl; first [done|eapply not_trivia_of_type; [eassumption|tauto]]).
    simpl. by rewrite bool_decide_eq_true_2.
  - rewrite !bool_decide_eq_false_2 by by eapply Hother.
    rewrite bool_decide_eq_true_2 by done.
    rewrite skip_trivia_app
      by (simpl; first [done|eapply not_trivia_of_type; [eassumption|tauto]]).
    simpl. rewrite bool_decide_eq_true_2 by done. simpl.
    rewrite skip_trivia_app
      by (simpl; first [done|eapply not_trivia_of_type; [eassumption|tauto]]).
    simpl. rewrite bool_decide_eq_true_2 by done. simpl.
    rewrite skip_trivia_app
      by (simpl; first [done|eapply not_trivia_of_type; [eassumption|tauto]]).
    simpl. rewrite (bool_decide_eq_true_2 (Type_ close = _)) by done. simpl.
    rewrite Hk.
    by destruct (access_of_Some _ _ Hof) as [[-> ->]|[[-> ->]|[[-> ->]|[-> ->]]]].
Qed.

Lemma access_modifier_specified ts access rest :
  access_modifier ts access rest -> access <> AccessNotSpecified.
Proof.
  destruct 1 as [| | |? ? ? ? ? k ? ? ? ? ? ? ? ? ? ? Hof]; try done.
  by destruct (access_of_Some _ _ Hof) as [[-> ->]|[[-> ->]|[[-> ->]|[-> ->]]]].
Qed.

(** X21. [parseAccess] succeeds exactly on the access modifiers of its
    grammar: [priv], [pub], [pub(set)] and [access(k)] with [k] one of
    [all], [account], [contract] and [self], with white space and comments
    allowed between the tokens (and skipped after a bare [pub]). It then
    returns the access the modifier stands for, which is never "not
    specified", leaves the cursor after the modifier and reports no error. *)
Theorem parseAccess_grammar p access p' :
  parseAccess p = Ok (access, p')
  <-> access_modifier (tokens p) access (tokens p') /\ errors p' = errors p.
Proof.
  split.
  - apply parseAccess_sound.
  - destruct p as [ts errs], p' as [rest errs']. simpl.
    intros [Hmod ->]. by apply parseAccess_complete.
Qed.

End ParserFacts.

Section DeclarationFacts.

Import Parser.

Context {Declaration : Type}.
Variable parsePragmaDeclaration : parser -> Result Error (Declaration * parser).
Variable parseVariableDeclaration :
  parser -> Access -> option Position -> string ->
  Result Error (Declaration * parser).
Variable parseFunctionDeclaration :
  parser -> bool -> Access -> option Position -> string ->
  Result Error (Declaration * parser).
Variable parseImportDeclaration : parser -> Result Error (Declaration * parser).
Variable parseEventDeclaration :
  parser -> Access -> option Position -> string ->
  Result Error (Declaration * parser).
Variable parseCompositeOrInterfaceDeclaration :
  parser -> Access -> option Position -> string ->
  Result Error (Declaration * parser).
Variable parseTransactionDeclaration :
  parser -> string -> Result Error (Declaration * parser).

#[local] Abbreviation loop :=
  (parseDeclaration_loop parsePragmaDeclaration parseVariableDeclaration
     parseFunctionDeclaration parseImportDeclaration parseEventDeclaration
     parseCompositeOrInterfaceDeclaration parseTransactionDeclaration).
#[local] Abbreviation parse :=
  (parseDeclaration parsePragmaDeclaration parseVariableDeclaration
     parseFunctionDeclaration parseImportDeclaration parseEventDeclaration
     parseCompositeOrInterfaceDeclaration parseTransactionDeclaration).

(** With an access modifier read, one more turn of the loop ends it. *)
Lemma parseDeclaration_loop_after_modifier fuel access accessPos p docString :
  access <> AccessNotSpecified ->
  loop (S fuel) access accessPos p docString
  = loop 1 access accessPos p docString
  /\ loop 1 access accessPos p docString <> OutOfFuel.
Proof.
  intros Haccess. simpl.
  destruct (Type_ _); try done.
  - repeat (case_bool_decide; try done).
  - by case_bool_decide.
Qed.

Lemma parseAccess_specified p access p' :
  parseAccess p = Ok (access, p') -> access <> AccessNotSpecified.
Proof.
  intros [Hmod _]%parseAccess_sound. by eapply access_modifier_specified.
Qed.

(** X22. The loop of [parseDeclaration] is passed at most twice: a
    declaration is parsed with any number of turns from two on, with the
    result of two turns. *)
Theorem parseDeclaration_two_turns fuel p docString :
  2 <= fuel ->
  parseDeclaration parsePragmaDeclaration parseVariableDeclaration
    parseFunctionDeclaration parseImportDeclaration parseEventDeclaration
    parseCompositeOrInterfaceDeclaration parseTransactionDeclaration
    fuel p docString
  = parse 2 p docString
  /\ parse 2 p docString <> OutOfFuel.
Proof.
  destruct fuel as [|[|fuel]]; [lia..|]. intros _.
  unfold parseDeclaration.
  remember (S fuel) as turns eqn:Hturns. remember 1 as one eqn:Hone.
  simpl.
  destruct (Type_ _); try done.
  repeat (case_bool_decide; try done).
  destruct (parseAccess _) as [[access p']|err] eqn:Hacc; [|done].
  apply parseAccess_specified in Hacc. subst turns one.
  by apply parseDeclaration_loop_after_modifier.
Qed.

Lemma access_modifier_keyword t ts access rest :
  access_modifier (t :: ts) access rest ->
  Value t = Some KeywordPriv \/ Value t = Some KeywordPub
  \/ Value t = Some KeywordAccess.
Proof. inversion 1; unfold keyword in *; tauto. Qed.

(** X23. What [parseDeclaration] does with the token that follows an access
    modifier: a pragma, a transaction and a second access modifier are
    syntax errors at that token; an import is parsed and the modifier
    dropped; a variable, function, event or composite declaration is parsed
    with the access of the modifier and the position of its first token. *)
Theorem parseDeclaration_after_access_modifier
    fuel p docString first ts access rest :
  2 <= fuel ->
  skip_trivia (tokens p) = first :: ts ->
  Type_ first = TokenIdentifier ->
  access_modifier (first :: ts) access rest ->
  let q := {| tokens := skip_trivia rest; errors := errors p |} in
  let t := current q in
  let accessPos := Some (StartPos first) in
  let error message := Done (Panic (SyntaxError (StartPos t) message [])) in
  (Type_ t = TokenPragma ->
   parse fuel p docString = error "invalid access modifier for pragma")
  /\ (Type_ t = TokenIdentifier ->
      (Value t = Some KeywordTransaction ->
       parse fuel p docString = error "invalid access modifier for transaction")
      /\ (Value t = Some KeywordPriv \/ Value t = Some KeywordPub
          \/ Value t = Some KeywordAccess ->
          parse fuel p docString = error "invalid second access modifier")
      /\ (Value t = Some KeywordImport ->
          parse fuel p docString = Done (declaration (parseImportDeclaration q)))
      /\ (Value t = Some KeywordLet \/ Value t = Some KeywordVar ->
          parse fuel p docString
          = Done (declaration
                    (parseVariableDeclaration q access accessPos docString)))
      /\ (Value t = Some KeywordFun ->
          parse fuel p docString
          = Done (declaration
                    (parseFunctionDeclaration q false access accessPos
                       docString)))
      /\ (Value t = Some KeywordEvent ->
          parse fuel p docString
          = Done (declaration
                    (parseEventDeclaration q access accessPos docString)))
      /\ (Value t = Some KeywordStruct \/ Value t = Some KeywordResource
          \/ Value t = Some KeywordContract \/ Value t = Some KeywordEnum ->
          parse fuel p docString
          = Done (declaration
                    (parseCompositeOrInterfaceDeclaration q access accessPos
                       docString)))).
Proof.
  intros Hfuel Hskip Hfirst Hmod q t accessPos error.
  destruct fuel as [|[|fuel]]; [lia..|]. clear Hfuel.
  pose proof (access_modifier_keyword _ _ _ _ Hmod) as Hkeyword.
  pose proof (access_modifier_specified _ _ _ Hmod) as Haccess.
  assert (parse (S (S fuel)) p docString
          = loop (S fuel) access accessPos
              {| tokens := rest; errors := errors p |} docString) as ->.
  { unfold parseDeclaration. remember (S fuel) as turns eqn:Hturns.
    cbn [parseDeclaration_loop]. unfold skipSpaceAndComments at 1, current at 1.
    rewrite Hskip. simpl. rewrite Hfirst.
    unfold skipSpaceAndComments, current. rewrite Hskip. simpl.
    rewrite (parseAccess_complete _ _ _ _ Hmod).
    destruct Hkeyword as [Hk|[Hk|Hk]]; by rewrite Hk. }
  cbn [parseDeclaration_loop].
  change (skipSpaceAndComments true {| tokens := rest; errors := errors p |})
    with q.
  fold t.
  split.
  { intros Ht. rewrite Ht. by rewrite bool_decide_eq_true_2. }
  intros Ht. rewrite Ht.
  split_and!; intros Hvalue;
    repeat match type of Hvalue with
           | _ \/ _ => destruct Hvalue as [Hvalue|Hvalue]
           end;
    rewrite Hvalue; repeat case_bool_decide; try done; naive_solver.
Qed.

End DeclarationFacts.

Section MemberFacts.

Import Parser.

Context {Declaration : Type}.
Variable parseFunctionDeclaration :
  parser -> bool -> Access -> option Position -> string ->
  Result Error (Declaration * parser).
Variable parseEventDeclaration :
  parser -> Access -> option Position -> string ->
  Result Error (Declaration * parser).
Variable parseCompositeOrInterfaceDeclaration :
  parser -> Access -> option Position -> string ->
  Result Error (Declaration * parser).
Variable parseFieldWithVariableKind :
  parser -> Access -> option Position -> string ->
  Result Error (Declaration * parser).
Variable parseEnumCase :
  parser -> Access -> option Position -> string ->
  Result Error (Declaration * parser).
Variable parseFieldDeclarationWithoutVariableKind :
  parser -> Access -> option Position -> Identifier -> string ->
  Result Error (Declaration * parser).
Variable parseSpecialFunctionDeclaration :
  parser -> bool -> Access -> option Position -> Identifier ->
  Result Error (Declaration * parser).

#[local] Abbreviation member_loop :=
  (parseMemberOrNestedDeclaration_loop
     parseFunctionDeclaration parseEventDeclaration
     parseCompositeOrInterfaceDeclaration parseFieldWithVariableKind
     parseEnumCase parseFieldDeclarationWithoutVariableKind
     parseSpecialFunctionDeclaration).
#[local] Abbreviation member :=
  (parseMemberOrNestedDeclaration
     parseFunctionDeclaration parseEventDeclaration
     parseCompositeOrInterfaceDeclaration parseFieldWithVariableKind
     parseEnumCase parseFieldDeclarationWithoutVariableKind
     parseSpecialFunctionDeclaration).

Lemma parseMemberOrNestedDeclaration_loop_turns
    fuel fuel' access accessPos previous p docString :
  member_turns access previous < fuel ->
  member_turns access previous < fuel' ->
  member_loop fuel access accessPos previous p docString
  = member_loop fuel' access accessPos previous p docString
  /\ member_loop fuel access accessPos previous p docString <> OutOfFuel.
Proof.
  revert fuel' access accessPos previous p.
  induction fuel as [|fuel IH]; intros fuel' access accessPos previous p;
    [lia|].
  destruct fuel' as [|fuel']; [lia|]. intros Hfuel Hfuel'. simpl.
  destruct (Type_ _); try done; [|by destruct previous..].
  repeat (case_bool_decide; try done).
  - destruct (parseAccess _) as [[access' p']|err] eqn:Hacc; [|done].
    apply parseAccess_specified in Hacc.
    apply IH; unfold member_turns in Hfuel, Hfuel' |- *;
      rewrite bool_decide_eq_false_2 by done;
      rewrite bool_decide_eq_true_2 in Hfuel, Hfuel' by tauto; lia.
  - destruct previous as [previous|]; [done|].
    apply IH; unfold member_turns in Hfuel, Hfuel' |- *; lia.
Qed.

(** X24. The loop of [parseMemberOrNestedDeclaration] is passed at most three
    times (for an access modifier, a name and what follows them): a member is
    parsed with any number of turns from three on, with the result of three
    turns. *)
Theorem parseMemberOrNestedDeclaration_three_turns fuel p docString :
  3 <= fuel ->
  parseMemberOrNestedDeclaration
    parseFunctionDeclaration parseEventDeclaration
    parseCompositeOrInterfaceDeclaration parseFieldWithVariableKind
    parseEnumCase parseFieldDeclarationWithoutVariableKind
    parseSpecialFunctionDeclaration fuel p docString
  = member 3 p docString
  /\ member 3 p docString <> OutOfFuel.
Proof.
  intros Hfuel. unfold parseMemberOrNestedDeclaration.
  assert (member_turns AccessNotSpecified None = 2) as Hturns by done.
  split.
  - apply parseMemberOrNestedDeclaration_loop_turns; rewrite Hturns; lia.
  - apply (parseMemberOrNestedDeclaration_loop_turns 3 3);
      rewrite Hturns; lia.
Qed.

End MemberFacts.

Section ParameterFacts.

Import Parser.

Context {AstParameter : Type}.
Variable parseParameter : parser -> Result Error (AstParameter * parser).

(** [parseParameter] reads at least one token. *)
Hypothesis parseParameter_reads : forall p parameter p',
  parseParameter p = Ok (parameter, p') ->
  length (tokens p') < length (tokens p).

Lemma skip_trivia_length ts : length (skip_trivia ts) <= length ts.
Proof.
  induction ts as [|t ts IH]; [done|]. simpl.
  destruct (is_trivia t); simpl; lia.
Qed.

Lemma parseParameterList_loop_turns
    fuel fuel' expectParameter parameters p :
  length (tokens p) < fuel ->
  length (tokens p) < fuel' ->
  parseParameterList_loop parseParameter fuel expectParameter parameters p
  = parseParameterList_loop parseParameter fuel' expectParameter parameters p
  /\ parseParameterList_loop parseParameter fuel expectParameter parameters p
     <> OutOfFuel.
Proof.
  revert fuel' expectParameter parameters p.
  induction fuel as [|fuel IH]; intros fuel' expectParameter parameters p;
    [lia|].
  destruct fuel' as [|fuel']; [lia|]. intros Hfuel Hfuel'. simpl.
  pose proof (skip_trivia_length (tokens p)) as Hskip.
  destruct (Type_ _) eqn:Htype; try by destruct expectParameter.
  - destruct (parseParameter _) as [[parameter p']|err] eqn:Hparameter;
      [|done].
    apply parseParameter_reads in Hparameter.
    assert (length (tokens p') < length (skip_trivia (tokens p))) as Hread
        by by destruct expectParameter.
    apply IH; lia.
  - destruct expectParameter; [done|].
    apply IH; unfold next, skipSpaceAndComments, current in *; simpl in *;
      destruct (skip_trivia (tokens p)); simpl in *; first [done|lia].
Qed.

(** X25. [parseParameterList] ends on every input, provided that
    [parseParameter] reads at least one token when it succeeds: with more
    turns of its loop than there are tokens, it gives a result, and the same
    one whatever the number of turns. *)
Theorem parseParameterList_ends fuel fuel' p :
  length (tokens p) < fuel ->
  length (tokens p) < fuel' ->
  parseParameterList parseParameter fuel p
  = parseParameterList parseParameter fuel' p
  /\ parseParameterList parseParameter fuel p <> OutOfFuel.
Proof.
  intros Hfuel Hfuel'. unfold parseParameterList.
  destruct (negb _); [done|].
  pose proof (skip_trivia_length (tokens p)) as Hskip.
  set (p' := next (skipSpaceAndComments true p)).
  assert (length (tokens p') <= length (tokens p)) as Hread.
  { unfold p', next, skipSpaceAndComments. simpl.
    destruct (skip_trivia (tokens p)); simpl in *; lia. }
  destruct (parseParameterList_loop_turns fuel fuel' true [] p')
    as [-> Hdone]; [lia..|].
  split; [done|].
  by destruct (parseParameterList_loop _ _ _ _ _) as [[[[? ?] ?]|?]|].
Qed.

End ParameterFacts.

Section ImportFacts.

Import Parser.

Context {Address : Type}.
Variable hex_Decode : string -> option (list Byte.byte).
Variable BytesToAddress : list Byte.byte -> Address * option string.
Variable parseStringLiteral : string -> string * list Error.
Variable Identifier_EndPosition : Identifier -> Position.

#[local] Abbreviation more_loop :=
  (parseMoreIdentifiers_loop hex_Decode BytesToAddress parseStringLiteral
     Identifier_EndPosition).
#[local] Abbreviation location_parser :=
  (parseLocation hex_Decode BytesToAddress parseStringLiteral
     Identifier_EndPosition).

Lemma skip_next_length p :
  tokens (skipSpaceAndComments true (next p)) <> [] ->
  length (tokens (skipSpaceAndComments true (next p))) < length (tokens p).
Proof.
  unfold skipSpaceAndComments, next. simpl.
  pose proof (skip_trivia_length (tail (tokens p))) as Hskip.
  destruct (tokens p) as [|t ts]; [done|]. simpl in *. lia.
Qed.

Lemma current_not_EOF p type :
  Type_ (current p) = type -> type <> TokenEOF -> tokens p <> [].
Proof.
  unfold current. destruct (tokens p); [|done]. simpl. congruence.
Qed.

Lemma parseMoreIdentifiers_loop_turns fuel fuel' expectCommaOrFrom v p :
  length (tokens p) < fuel ->
  length (tokens p) < fuel' ->
  more_loop fuel expectCommaOrFrom v p = more_loop fuel' expectCommaOrFrom v p
  /\ more_loop fuel expectCommaOrFrom v p <> OutOfFuel.
Proof.
  revert fuel' expectCommaOrFrom v p.
  induction fuel as [|fuel IH]; intros fuel' expectCommaOrFrom v p; [lia|].
  destruct fuel' as [|fuel']; [lia|]. intros Hfuel Hfuel'.
  cbn [parseMoreIdentifiers_loop].
  set (p1 := skipSpaceAndComments true (next p)).
  pose proof (skip_next_length p) as Hread. fold p1 in Hread.
  destruct (Type_ (current p1)) eqn:Htype; try done.
  - assert (length (tokens p1) < length (tokens p)) as Hlt
        by (apply Hread; by eapply current_not_EOF).
    repeat case_match; try done; apply IH; lia.
  - assert (length (tokens p1) < length (tokens p)) as Hlt
        by (apply Hread; by eapply current_not_EOF).
    destruct expectCommaOrFrom; [|done]. apply IH; lia.
Qed.

(** X26. [parseImportDeclaration] ends on every input: with more turns of
    the loop over the imported names than there are tokens, it gives a
    result, and the same one whatever the number of turns. *)
Theorem parseImportDeclaration_ends fuel fuel' p :
  length (tokens p) < fuel ->
  length (tokens p) < fuel' ->
  parseImportDeclaration hex_Decode BytesToAddress parseStringLiteral
    Identifier_EndPosition fuel p
  = parseImportDeclaration hex_Decode BytesToAddress parseStringLiteral
      Identifier_EndPosition fuel' p
  /\ parseImportDeclaration hex_Decode BytesToAddress parseStringLiteral
       Identifier_EndPosition fuel p <> OutOfFuel.
Proof.
  intros Hfuel Hfuel'. unfold parseImportDeclaration.
  set (p1 := skipSpaceAndComments true (next p)).
  pose proof (skip_next_length p) as Hread1. fold p1 in Hread1.
  destruct (Type_ (current p1)) eqn:Htype1;
    try (split; [done|]; by repeat case_match).
  set (p2 := skipSpaceAndComments true (next p1)).
  pose proof (skip_next_length p1) as Hread2. fold p2 in Hread2.
  destruct (Type_ (current p2)) eqn:Htype2;
    try (split; [done|]; by repeat case_match).
  assert (length (tokens p2) < length (tokens p)) as Hlt.
  { etrans; [apply Hread2; by eapply current_not_EOF|].
    apply Hread1. by eapply current_not_EOF. }
  destruct (parseMoreIdentifiers_loop_turns fuel fuel' false
              (append_identifier (tokenToIdentifier (current p1))
                 {| identifiers := []; location := None;
                    locationPos := 0; endPos := 0 |}) p2)
    as [-> Hdone]; [lia..|].
  split; [done|]. by repeat case_match.
Qed.

(** The parser of the location leaves the names as they are, and does the
    same whatever they are. *)
Lemma parseLocation_identifiers names v p :
  location_parser
    {| identifiers := names; location := location v;
       locationPos := locationPos v; endPos := endPos v |} p
  = match location_parser v p with
    | Panic err => Panic err
    | Ok (v', p') =>
        Ok ({| identifiers := names; location := location v';
               locationPos := locationPos v'; endPos := endPos v' |}, p')
    end.
Proof.
  unfold parseLocation, parseStringOrAddressLocation, mbind, Result_bind.
  destruct (Type_ (current p)); try done;
    match goal with
    | |- bindR _ ?r = _ => by destruct r as [[? ?]|?]
    end.
Qed.

Lemma skip_trivia_token ws t rest :
  Forall (fun w => is_trivia w = true) ws ->
  is_trivia t = false ->
  skip_trivia (ws ++ t :: rest) = t :: rest.
Proof. intros Hws Ht. by apply skip_trivia_app. Qed.

Lemma imported_name_not_trivia n : imported_name n -> is_trivia n = false.
Proof. intros [Hn _]. unfold is_trivia. by rewrite Hn. Qed.

Lemma current_cons t ts errs :
  current {| tokens := t :: ts; errors := errs |} = t.
Proof. reflexivity. Qed.

Lemma skip_next_token t ws t' rest errs :
  Forall (fun w => is_trivia w = true) ws ->
  is_trivia t' = false ->
  skipSpaceAndComments true
    (next {| tokens := t :: ws ++ t' :: rest; errors := errs |})
  = {| tokens := t' :: rest; errors := errs |}.
Proof.
  intros Hws Ht'. unfold skipSpaceAndComments, next. simpl.
  by rewrite skip_trivia_token.
Qed.

(** The loop at a comma, before a list of names, [from] and the location. *)
Lemma parseMoreIdentifiers_loop_names ts names :
  import_list ts names ->
  forall fuel v comma ws' from ws loc rest errs,
    Forall (fun w => is_trivia w = true) ws' ->
    Type_ from = TokenIdentifier -> Value from = Some KeywordFrom ->
    Forall (fun w => is_trivia w = true) ws ->
    is_trivia loc = false ->
    length (comma :: ws' ++ ts ++ from :: ws ++ loc :: rest) < fuel ->
    more_loop fuel false v
      {| tokens := comma :: ws' ++ ts ++ from :: ws ++ loc :: rest;
         errors := errs |}
    = Done (location_parser
              {| identifiers :=
                   identifiers v ++ (tokenToIdentifier <$> names);
                 location := location v;
                 locationPos := locationPos v;
                 endPos := endPos v |}
              {| tokens := loc :: rest; errors := errs |}).
Proof.
  induction 1 as [n wsn Hn Hwsn|n wsn comma2 ws2 ts names Hn Hwsn Hcomma2 Hws2
                                  Hlist IH];
    intros fuel v comma ws' from ws loc rest errs Hws' Hfrom Hvalue Hws Hloc
      Hfuel;
    pose proof (imported_name_not_trivia n Hn) as Hntrivia;
    destruct Hn as [Hn Hnfrom].
  - destruct fuel as [|[|fuel]]; [simpl in Hfuel; lia..|].
    cbn [parseMoreIdentifiers_loop].
    unfold skipSpaceAndComments, next, current. simpl.
    rewrite <- ?app_assoc. simpl.
    rewrite (skip_trivia_token ws' n) by done. simpl. rewrite Hn.
    rewrite bool_decide_eq_false_2 by done.
    rewrite (skip_trivia_token wsn from)
      by (try done; unfold is_trivia; by rewrite Hfrom).
    simpl. rewrite Hfrom.
    rewrite bool_decide_eq_true_2 by done.
    by rewrite (skip_trivia_token ws loc).
  - destruct fuel as [|[|fuel]]; [simpl in Hfuel; lia..|].
    cbn [parseMoreIdentifiers_loop].
    unfold skipSpaceAndComments, next, current. simpl.
    rewrite <- ?app_assoc. simpl. rewrite <- ?app_assoc. simpl.
    rewrite (skip_trivia_token ws' n) by done. simpl. rewrite Hn.
    rewrite bool_decide_eq_false_2 by done.
    rewrite (skip_trivia_token wsn comma2)
      by (try done; unfold is_trivia; by rewrite Hcomma2).
    simpl. rewrite Hcomma2.
    specialize (IH fuel (append_identifier (tokenToIdentifier n) v)
                  comma2 ws2 from ws loc rest errs Hws2 Hfrom Hvalue Hws Hloc).
    rewrite IH.
    + simpl. by rewrite <- app_assoc.
    + simpl in Hfuel |- *.
      repeat (rewrite !length_app in Hfuel; simpl in Hfuel).
      repeat (rewrite !length_app; simpl). lia.
Qed.

(** X27. An import of a list of names that are separated by commas,
    [import a, b, c from location], with white space and comments allowed
    after every token: [parseImportDeclaration] ends the way the parser of
    the location does, and if that one succeeds, the declaration imports the
    names of the list, all of them and in their order, from the location it
    parsed, starts where the token [import] starts, and the cursor is where
    the parser of the location left it. *)
Theorem parseImportDeclaration_names
    fuel import ws0 ts names from ws loc rest errs :
  Forall (fun w => is_trivia w = true) ws0 ->
  import_list ts names ->
  Type_ from = TokenIdentifier -> Value from = Some KeywordFrom ->
  Forall (fun w => is_trivia w = true) ws ->
  is_trivia loc = false ->
  length (import :: ws0 ++ ts ++ from :: ws ++ loc :: rest) < fuel ->
  parseImportDeclaration hex_Decode BytesToAddress parseStringLiteral
    Identifier_EndPosition fuel
    {| tokens := import :: ws0 ++ ts ++ from :: ws ++ loc :: rest;
       errors := errs |}
  = match location_parser
            {| identifiers := []; location := None;
               locationPos := 0; endPos := 0 |}
            {| tokens := loc :: rest; errors := errs |} with
    | Panic err => Done (Panic err)
    | Ok (v, p) =>
        Done (Ok ({| Identifiers := tokenToIdentifier <$> names;
                     Location_ := location v;
                     Import_StartPos := StartPos import;
                     Import_EndPos := endPos v;
                     LocationPos := locationPos v |}, p))
    end.
Proof.
  intros Hws0 Hlist Hfrom Hvalue Hws Hloc Hfuel.
  assert (is_trivia from = false) as Hfromtrivia
      by (unfold is_trivia; by rewrite Hfrom).
  unfold parseImportDeclaration.
  destruct Hlist as [n wsn Hn Hwsn
                    |n wsn comma ws' ts names Hn Hwsn Hcomma Hws' Hlist];
    pose proof (imported_name_not_trivia n Hn) as Hntrivia;
    destruct Hn as [Hn Hnfrom].
  - rewrite <- ?app_assoc. simpl.
    rewrite (skip_next_token import ws0 n) by done.
    rewrite (skip_next_token n wsn from) by done.
    rewrite !current_cons, Hn, Hfrom. cbv iota.
    unfold maybeParseFromIdentifier. rewrite !current_cons.
    rewrite bool_decide_eq_true_2 by done.
    rewrite (skip_next_token from ws loc) by done.
    pose proof (parseLocation_identifiers [tokenToIdentifier n]
                  {| identifiers := []; location := None;
                     locationPos := 0; endPos := 0 |}
                  {| tokens := loc :: rest; errors := errs |}) as Hframe.
    unfold append_identifier. simpl in Hframe |- *. rewrite Hframe. clear Hframe.
    by destruct (parseLocation _ _ _ _ _ _) as [[v p]|err].
  - rewrite <- ?app_assoc. simpl. rewrite <- ?app_assoc. simpl.
    rewrite (skip_next_token import ws0 n) by done.
    rewrite (skip_next_token n wsn comma)
      by (try done; unfold is_trivia; by rewrite Hcomma).
    rewrite !current_cons, Hn, Hcomma. cbv iota.
    rewrite <- (app_assoc ws' ts).
    rewrite (parseMoreIdentifiers_loop_names ts names Hlist); try done.
    + pose proof (parseLocation_identifiers
                    (tokenToIdentifier n :: (tokenToIdentifier <$> names))
                    {| identifiers := []; location := None;
                       locationPos := 0; endPos := 0 |}
                    {| tokens := loc :: rest; errors := errs |}) as Hframe.
      unfold append_identifier. simpl in Hframe |- *. rewrite Hframe. clear Hframe.
      by destruct (parseLocation _ _ _ _ _ _) as [[v p]|err].
    + simpl in Hfuel |- *.
      repeat (rewrite !length_app in Hfuel; simpl in Hfuel).
      repeat (rewrite !length_app; simpl). lia.
Qed.

End ImportFacts.

(** * The properties of the host side at concrete inputs *)

Section HostWitnesses.

Import Bytes TestLedger HostSamples.

Lemma testLedger_storageKey_injective_witness :
  owner1 = owner1 /\ key1 = key1.
Proof.
  exact (proj1 testLedger_storageKey_injective owner1 key1 owner1 key1
           (or_introl eq_refl) eq_refl).
Defined.

Lemma testLedger_reads_last_write_witness :
  valueExists
    (fst (snd (calls unit None None ledger_calls (newTestLedger, tt))))
    owner1 key1
  = (true, None).
Proof.
  assert (Forall (fun c => length (owner_of c) = 8) ledger_calls) as Hlen
    by (repeat constructor).
  exact (proj2 (testLedger_reads_last_write unit None None 8 ledger_calls tt
                  owner1 key1 Hlen eq_refl)).
Defined.

Lemma testLedger_storage_indices_witness :
  NoDup (indices
           (zip ledger_calls
              (fst (calls unit None None ledger_calls (newTestLedger, tt))))
           owner1).
Proof.
  assert (Z.of_nat (allocated owner1 ledger_calls) < 2 ^ 64)%Z as Hlt
    by (vm_compute; reflexivity).
  exact (proj2 (testLedger_storage_indices unit None None ledger_calls tt owner1)
           Hlt).
Defined.

End HostWitnesses.

Section DefaultsWitnesses.

Import Bytes TestRuntimeInterface InterfaceDefaults.

Lemma GenerateUUID_counts_witness :
  fst (GenerateUUID
         (fst (snd (calls [CallGenerateUUID; CallGenerateAccountID 1; CallGenerateUUID]
                      (mkCounters None None 0%Z ∅, tt))))
         tt)
  = (3%Z, None).
Proof.
  assert (0 <= 0 < 2 ^ 64)%Z as Hu
    by (split; vm_compute; [discriminate|reflexivity]).
  exact (proj1 (GenerateUUID_counts unit (mkCounters None None 0%Z ∅)
                  [CallGenerateUUID; CallGenerateAccountID 1; CallGenerateUUID]
                  tt eq_refl Hu)).
Defined.

Lemma GenerateAccountID_counts_witness :
  fst (GenerateAccountID
         (fst (snd (calls [CallGenerateAccountID 1; CallGenerateAccountID 2]
                      (mkCounters None None 0%Z ∅, tt))))
         tt 1%N)
  = (2%Z, None).
Proof.
  exact (proj1 (GenerateAccountID_counts unit (mkCounters None None 0%Z ∅)
                  [CallGenerateAccountID 1; CallGenerateAccountID 2]
                  tt 1%N eq_refl eq_refl)).
Defined.

Lemma GetBlockAtHeight_hash_witness :
  exists block,
    GetBlockAtHeight 32 32 (fun sec => sec * 1000000000)%Z 7 = Ok (block, true, None)
    /\ Height block = 7%Z.
Proof.
  assert (8 <= 32 <= Z.of_nat 32)%Z as HS
    by (split; vm_compute; discriminate).
  destruct (proj1 (GetBlockAtHeight_hash 32 32 (fun sec => sec * 1000000000)%Z HS) 7%Z)
    as (block & Hget & Hheight & _).
  exists block. exact (conj Hget Hheight).
Defined.

Lemma newLocationGenerator_fresh_witness :
  NoDup (generate 3 newLocationGenerator_count).
Proof.
  assert (Z.of_nat 3 < 2 ^ 64)%Z as Hn by (vm_compute; reflexivity).
  exact (proj2 (proj2 (newLocationGenerator_fresh 3 Hn))).
Defined.

Lemma multipleIdentifierLocationResolver_spec_witness :
  exists result,
    multipleIdentifierLocationResolver
      [mkIdentifier "A" 0; mkIdentifier "B" 1] (AddressLocation 1 "")
    = Ok (result, None)
    /\ concat (Identifiers <$> result) = [mkIdentifier "A" 0; mkIdentifier "B" 1].
Proof.
  destruct (proj1 (multipleIdentifierLocationResolver_spec
                     [mkIdentifier "A" 0; mkIdentifier "B" 1]
                     (AddressLocation 1 ""))
              1%N "" eq_refl) as (result & Hres & _ & Hconcat & _).
  exists result. exact (conj Hres Hconcat).
Defined.

Lemma program_cache_survives_executions_witness :
  GetOrLoadProgram
    (onTransactionExecutionStart
       (snd (GetOrLoadProgram (mkInterface ∅ false ∅) (StringLocation "imported")
               (runLoader (MkLoader NoImports (Some 1) None)))))
    (StringLocation "imported") (runLoader (MkLoader NoImports (Some 2) None))
  = ((Some 1, None),
     snd (GetOrLoadProgram (mkInterface ∅ false ∅) (StringLocation "imported")
            (runLoader (MkLoader NoImports (Some 1) None)))).
Proof.
  exact (proj2 (proj2
           (proj1 (proj1 (program_cache_survives_executions
                            (Some updateAccountContractCode_test)
                            (mkInterface ∅ false ∅) (StringLocation "imported")
                            (runLoader (MkLoader NoImports (Some 1) None)))
                     eq_refl)
              [] _ (runLoader (MkLoader NoImports (Some 2) None)) 1
              (Forall_nil_2 _) eq_refl))).
Defined.

End DefaultsWitnesses.

Section TestContractWitnesses.

Import HostSamples.

Lemma Matcher_laws_witness :
  TestContract.test
    (TestContract.and (TestContract.beNil (Character := nat) (Captured := unit))
       TestContract.beSucceeded)
    (TestContract.OtherValue 0) tt
  = Ok (false, tt).
Proof.
  exact (proj1 (proj2 (proj2 (proj2 (proj2 (proj2
           (Matcher_laws (Character := nat) (Captured := unit)
              TestContract.beNil TestContract.beSucceeded
              TestContract.beNil (TestContract.OtherValue 0) tt))))))
           tt eq_refl).
Defined.

Lemma beSucceeded_beFailed_witness :
  TestContract.test (TestContract.beSucceeded (Character := nat) (Captured := unit))
    (TestContract.ConformingValue 7 TestContract.failed None) tt
  = Ok (false, tt)
  /\ TestContract.test (TestContract.beFailed (Character := nat) (Captured := unit))
       (TestContract.ConformingValue 7 TestContract.failed None) tt
     = Ok (true, tt).
Proof.
  exact (proj1 (beSucceeded_beFailed (Character := nat) (Captured := unit)
                  (TestContract.ConformingValue 7 TestContract.failed None) tt)
           _ eq_refl).
Defined.

Lemma assertError_spec_witness :
  TestContract.assertError 4
    {| TestContract.status := TestContract.failed;
       TestContract.error := Some {| TestContract.message := [1; 2; 3] |} |}
    [2; 3]
  = Some (Ok ()).
Proof.
  assert (forall e,
            Some {| TestContract.message := [1; 2; 3] |} = Some e ->
            length (TestContract.message e) < 4) as Hfuel.
  { intros e [= <-]. simpl. lia. }
  apply (proj1 (assertError_spec 4
                  {| TestContract.status := TestContract.failed;
                     TestContract.error := Some {| TestContract.message := [1; 2; 3] |} |}
                  [2; 3] Hfuel)).
  split; [reflexivity|]. eexists. split; [reflexivity|].
  exists [1], []. reflexivity.
Defined.

Lemma executeTransactions_one_block_witness :
  exists results st,
    TestContract.executeTransactions (TestContract.recording queue_backend)
      [10; 20] ([], []) = Ok (results, st)
    /\ snd st
       = [TestContract.CommitBlock;
          TestContract.ExecuteNextTransaction; TestContract.ExecuteNextTransaction;
          TestContract.AddTransaction; TestContract.AddTransaction]
    /\ length results = 2.
Proof.
  eexists _, _. split; [vm_compute; reflexivity|].
  destruct (proj1 (executeTransactions_one_block queue_backend [10; 20] [] [])
              _ _ eq_refl) as (Hlog & Hlen & _).
  exact (conj Hlog Hlen).
Defined.

End TestContractWitnesses.
(** * The properties of account values and the parser at concrete
      inputs *)

Section AccountWitnesses.

Import Interpreter AccountReferences AccountSamples.

Lemma authAccount_made_once_witness :
  exists h1,
    authAccount counting_handler 0 one_reference 0
    = Ok (Some (VAddress 1%N), (1, h1))
    /\ ReferencedValue counting_handler 9 h1 0 (mkLocationRange 2 2) true
       = Ok (Some (VAddress 1%N), (9, h1)).
Proof.
  destruct (proj1 (authAccount_made_once nat_sema_Equal counting_handler
                     (fun i self _ _ => Ok (self, i))
                     (fun i _ _ _ _ => Ok (true, i))
                     (fun _ _ _ => false) 0
                     (fun i _ _ => Ok (true, i))
                     0 one_reference 0 sample_reference eq_refl eq_refl)
              (VAddress 1%N) 1 eq_refl) as (h1 & Hfirst & Hlater & _).
  exists h1. exact (conj Hfirst (Hlater 9 (mkLocationRange 2 2) true)).
Defined.

Lemma Clone_does_not_share_account_witness :
  let '(q, h') := Clone one_made_reference made_reference in
  q <> 0
  /\ authAccount counting_handler 5 h' q
     = Ok (Some (VAddress 1%N),
           (6, <[q := made_reference]> h')).
Proof.
  pose proof (Clone_does_not_share_account counting_handler 5
                one_made_reference 0 made_reference (VAddress 1%N)
                eq_refl eq_refl) as H.
  destruct (Clone one_made_reference made_reference) as [q h'].
  destruct H as (Hq & Hfirst & _). exact (conj Hq Hfirst).
Defined.

Lemma AuthAccount_computeField_makes_once_witness :
  AccountValues.AuthAccount_computeField counted_parameters counted_methods
    numbered_sema AccountValues.AuthAccountTypeContractsFieldName tt
    (mkLocationRange 2 2)
    (AccountValues.assign AccountValues.contracts
       (Some (AccountValues.MemberValue (VSimpleComposite "contracts")))
       AccountValues.nothing_made)
    5
  = Ok (Some (AccountValues.MemberValue (VSimpleComposite "contracts")),
        (AccountValues.assign AccountValues.contracts
           (Some (AccountValues.MemberValue (VSimpleComposite "contracts")))
           AccountValues.nothing_made,
         5)).
Proof.
  exact (proj2
           (proj1 (proj2 (proj2
              (AuthAccount_computeField_makes_once counted_parameters
                 counted_methods numbered_sema
                 AccountValues.AuthAccountTypeContractsFieldName tt
                 (mkLocationRange 1 1) AccountValues.nothing_made 0
                 _ _ _ eq_refl)))
              AccountValues.contracts eq_refl)
           _ eq_refl tt (mkLocationRange 2 2) 5).
Defined.

Lemma PublicAccount_computeField_makes_once_witness :
  AccountValues.PublicAccount_computeField counted_parameters counted_methods
    numbered_sema AccountValues.PublicAccountTypeGetCapabilityFunctionName
    tt (mkLocationRange 2 2)
    (AccountValues.assign AccountValues.getCapabilityFunction_
       (Some (AccountValues.MemberFunction (counted_function 8)))
       AccountValues.nothing_made)
    5
  = Ok (Some (AccountValues.MemberFunction (counted_function 8)),
        (AccountValues.assign AccountValues.getCapabilityFunction_
           (Some (AccountValues.MemberFunction (counted_function 8)))
           AccountValues.nothing_made,
         5)).
Proof.
  exact (proj2
           (proj1 (proj2 (proj2
              (PublicAccount_computeField_makes_once counted_parameters
                 counted_methods numbered_sema
                 AccountValues.PublicAccountTypeGetCapabilityFunctionName tt
                 (mkLocationRange 1 1) AccountValues.nothing_made 0
                 _ _ _ eq_refl)))
              AccountValues.getCapabilityFunction_ eq_refl)
           _ eq_refl tt (mkLocationRange 2 2) 5).
Defined.

Lemma stringer_meters_once_witness :
  AccountValues.PublicAccount_stringer adding_UseMemory fixed_MeteredString
    1%N 20 "PublicAccount(0x1)" 7
  = Ok ("PublicAccount(0x1)", ("PublicAccount(0x1)", 7)).
Proof.
  assert ((AccountValues.PublicAccount_stringer adding_UseMemory
             fixed_MeteredString 1%N 20, 20, "PublicAccount")
          ∈ [(AccountValues.AuthAccount_stringer adding_UseMemory
                fixed_MeteredString 1%N 10, 10, "AuthAccount");
             (AccountValues.PublicAccount_stringer adding_UseMemory
                fixed_MeteredString 1%N 20, 20, "PublicAccount");
             (AccountValues.AuthAccountStorageCapabilities_stringer
                adding_UseMemory fixed_MeteredString 1%N 30, 30,
              "AuthAccount.StorageCapabilities")]) as Hf
    by (right; left).
  exact (proj2 (proj2 (proj2
           (stringer_meters_once adding_UseMemory fixed_MeteredString 1%N
              10 20 30 _ _ _ Hf 0 "PublicAccount(0x1)" "PublicAccount(0x1)"
              21 eq_refl))) 7).
Defined.

End AccountWitnesses.


Section ParserWitnesses.

Import Parser ParserSamples.

Lemma parseAccess_grammar_witness :
  parseAccess {| tokens := pub_set_var; errors := [] |}
  = Ok (AccessPublicSettable,
        {| tokens := [sign TokenSpace 8; word "var" 9]; errors := [] |}).
Proof.
  apply (proj2 (parseAccess_grammar
                  {| tokens := pub_set_var; errors := [] |}
                  AccessPublicSettable
                  {| tokens := [sign TokenSpace 8; word "var" 9];
                     errors := [] |})).
  split; [|reflexivity].
  exact (modifier_pub_set (word "pub" 0) [] (sign TokenParenOpen 3) []
           (word "set" 4) [] (sign TokenParenClose 7)
           [sign TokenSpace 8; word "var" 9]
           eq_refl (Forall_nil_2 _) eq_refl (Forall_nil_2 _) eq_refl eq_refl
           (Forall_nil_2 _) eq_refl).
Defined.

Lemma parseDeclaration_two_turns_witness :
  parseDeclaration (one_token "pragma")
    (fun p _ _ _ => one_token "variable" p)
    (fun p _ _ _ _ => one_token "function" p)
    (one_token "import")
    (fun p _ _ _ => one_token "event" p)
    (fun p _ _ _ => one_token "composite" p)
    (fun p _ => one_token "transaction" p)
    5 {| tokens := pub_fun; errors := [] |} ""
  = Done (Ok (Some "function", {| tokens := []; errors := [] |})).
Proof.
  assert (2 <= 5) as Hfuel by lia.
  exact (proj1 (parseDeclaration_two_turns (one_token "pragma")
                  (fun p _ _ _ => one_token "variable" p)
                  (fun p _ _ _ _ => one_token "function" p)
                  (one_token "import")
                  (fun p _ _ _ => one_token "event" p)
                  (fun p _ _ _ => one_token "composite" p)
                  (fun p _ => one_token "transaction" p)
                  5 {| tokens := pub_fun; errors := [] |} "" Hfuel)).
Defined.

Lemma parseDeclaration_after_access_modifier_witness :
  parseDeclaration (one_token "pragma")
    (fun p _ _ _ => one_token "variable" p)
    (fun p _ access accessPos _ =>
       if bool_decide (access = AccessPublic /\ accessPos = Some 0)
       then one_token "public function" p else one_token "function" p)
    (one_token "import")
    (fun p _ _ _ => one_token "event" p)
    (fun p _ _ _ => one_token "composite" p)
    (fun p _ => one_token "transaction" p)
    2 {| tokens := sign TokenSpace 0 :: pub_fun; errors := [] |} ""
  = Done (Ok (Some "public function", {| tokens := []; errors := [] |})).
Proof.
  assert (2 <= 2) as Hfuel by lia.
  assert (access_modifier pub_fun AccessPublic [word "fun" 4]) as Hmod.
  { apply (modifier_pub (word "pub" 0) [sign TokenSpace 3] [word "fun" 4]);
      [reflexivity|repeat constructor|reflexivity|discriminate]. }
  exact (proj1 (proj2 (proj2 (proj2 (proj2
           (proj2 (parseDeclaration_after_access_modifier
                     (one_token "pragma")
                     (fun p _ _ _ => one_token "variable" p)
                     (fun p _ access accessPos _ =>
                        if bool_decide (access = AccessPublic
                                        /\ accessPos = Some 0)
                        then one_token "public function" p
                        else one_token "function" p)
                     (one_token "import")
                     (fun p _ _ _ => one_token "event" p)
                     (fun p _ _ _ => one_token "composite" p)
                     (fun p _ => one_token "transaction" p)
                     2 {| tokens := sign TokenSpace 0 :: pub_fun;
                          errors := [] |} ""
                     (word "pub" 0) [sign TokenSpace 3; word "fun" 4]
                     AccessPublic [word "fun" 4]
                     Hfuel eq_refl eq_refl Hmod)
              eq_refl))))) eq_refl).
Defined.

Lemma parseMemberOrNestedDeclaration_three_turns_witness :
  parseMemberOrNestedDeclaration
    (fun p _ _ _ _ => one_token "function" p)
    (fun p _ _ _ => one_token "event" p)
    (fun p _ _ _ => one_token "composite" p)
    (fun p _ _ _ => one_token "field" p)
    (fun p _ _ _ => one_token "case" p)
    (fun p _ _ _ _ => one_token "field" p)
    (fun p _ access _ identifier =>
       if bool_decide (access = AccessPrivate)
       then one_token (Identifier_ identifier) p
       else one_token "special function" p)
    7 {| tokens := init_priv; errors := [] |} ""
  = Done (Ok (Some "init", {| tokens := []; errors := [] |})).
Proof.
  assert (3 <= 7) as Hfuel by lia.
  exact (proj1 (parseMemberOrNestedDeclaration_three_turns
                  (fun p _ _ _ _ => one_token "function" p)
                  (fun p _ _ _ => one_token "event" p)
                  (fun p _ _ _ => one_token "composite" p)
                  (fun p _ _ _ => one_token "field" p)
                  (fun p _ _ _ => one_token "case" p)
                  (fun p _ _ _ _ => one_token "field" p)
                  (fun p _ access _ identifier =>
                     if bool_decide (access = AccessPrivate)
                     then one_token (Identifier_ identifier) p
                     else one_token "special function" p)
                  7 {| tokens := init_priv; errors := [] |} "" Hfuel)).
Defined.

Lemma name_only_reads p parameter p' :
  name_only p = Ok (parameter, p') ->
  length (tokens p') < length (tokens p).
Proof.
  unfold name_only. destruct (tokens p) as [|t rest]; [discriminate|].
  intros H. injection H as _ <-. simpl. lia.
Qed.

Lemma parseParameterList_ends_witness :
  parseParameterList name_only 100
    {| tokens := two_parameters; errors := [] |}
  = Done (Ok ({| Parameters_ := ["a"; "b"];
                 ParameterList_StartPos := 0;
                 ParameterList_EndPos := 6 |},
              {| tokens := []; errors := [] |})).
Proof.
  assert (length two_parameters < 100) as Hfuel by (vm_compute; lia).
  assert (length two_parameters < 7) as Hfuel' by (vm_compute; lia).
  exact (proj1 (parseParameterList_ends name_only name_only_reads 100 7
                  {| tokens := two_parameters; errors := [] |} Hfuel Hfuel')).
Defined.

Lemma parseImportDeclaration_ends_witness :
  parseImportDeclaration no_hex no_address literal_string last_character 100
    {| tokens := import_a_b_from_x; errors := [] |}
  = Done (Ok ({| Identifiers := [mkIdentifier "a" 7; mkIdentifier "b" 10];
                 Location_ := Some (IdentifierLocation "x");
                 Import_StartPos := 0;
                 Import_EndPos := 17;
                 LocationPos := 17 |},
              {| tokens := []; errors := [] |})).
Proof.
  assert (length import_a_b_from_x < 100) as Hfuel by (vm_compute; lia).
  assert (length import_a_b_from_x < 11) as Hfuel' by (vm_compute; lia).
  exact (proj1 (parseImportDeclaration_ends no_hex no_address literal_string
                  last_character 100 11
                  {| tokens := import_a_b_from_x; errors := [] |}
                  Hfuel Hfuel')).
Defined.

Lemma parseImportDeclaration_names_witness :
  parseImportDeclaration no_hex no_address literal_string last_character 11
    {| tokens := import_a_b_from_x; errors := [] |}
  = Done (Ok ({| Identifiers := tokenToIdentifier <$> [word "a" 7; word "b" 10];
                 Location_ := Some (IdentifierLocation "x");
                 Import_StartPos := 0;
                 Import_EndPos := 17;
                 LocationPos := 17 |},
              {| tokens := []; errors := [] |})).
Proof.
  assert (import_list
            [word "a" 7; sign TokenComma 8; sign TokenSpace 9; word "b" 10;
             sign TokenSpace 11]
            [word "a" 7; word "b" 10]) as Hlist.
  { apply (import_list_cons (word "a" 7) [] (sign TokenComma 8)
             [sign TokenSpace 9] [word "b" 10; sign TokenSpace 11]
             [word "b" 10]);
      [split; [reflexivity|discriminate]|constructor|reflexivity
      |repeat constructor|].
    apply (import_list_last (word "b" 10) [sign TokenSpace 11]);
      [split; [reflexivity|discriminate]|repeat constructor]. }
  assert (Forall (fun w => is_trivia w = true) [sign TokenSpace 6]) as Hws0
      by (repeat constructor).
  assert (Forall (fun w => is_trivia w = true) [sign TokenSpace 16]) as Hws
      by (repeat constructor).
  assert (length import_a_b_from_x < 11) as Hfuel by (vm_compute; lia).
  exact (parseImportDeclaration_names no_hex no_address literal_string
           last_character 11 (word "import" 0) [sign TokenSpace 6]
           _ _ (word "from" 12) [sign TokenSpace 16] (word "x" 17) [] []
           Hws0 Hlist eq_refl eq_refl Hws eq_refl Hfuel).
Defined.

End ParserWitnesses.
